(** * RxCpp operators: a shallow embedding of [rx-operators.hpp]

    The development follows the layout of the header: the observer
    wrappers ([CreatedAutoDetachObserver], [CreatedObserver]), the sink and
    subject classes, the imperative entry point [ForEach], and the operators
    [Merge], [Where], [Scan] and [Take].  They are followed by the
    observables made by [CreateObservable], the function [Subscribe], the
    subjects over runs of calls, the operators [Skip], [TakeUntil],
    [SkipUntil], [ToStdCollection], [DistinctUntilChanged] and [GroupBy],
    and [ConnectableSubject] with [Multicast] and [Publish].

    Observers are modelled by what they are handed: every delivery to an
    observer that lives outside the header is appended to a trace.  Mutable
    objects become records that are threaded through the calls; a method
    returns the new record together with the calls it made on foreign
    objects. *)

From Stdlib Require Import List ZArith Bool Arith Lia Permutation.
Import ListNotations.

Set Implicit Arguments.

(** ** The observer protocol *)

(** An exception object is identified by a number; [std::exception_ptr] is a
    nullable handle to one, [None] being the value-initialised
    [std::exception_ptr()]. *)
Definition exception := nat.
Definition exception_ptr := option exception.

(** [std::current_exception()] inside a [catch] block: never null. *)
Definition current_exception (e : exception) : exception_ptr := Some e.

(** The three methods of [Observer<T>], as the calls a source makes. *)
Inductive Event (T : Type) : Type :=
| Next (element : T)
| Completed
| Error (error : exception_ptr).

Arguments Completed {T}.
Arguments Error {T} error.

Definition is_next {T} (ev : Event T) : bool :=
  match ev with Next _ => true | _ => false end.

Definition is_error {T} (ev : Event T) : bool :=
  match ev with Error _ => true | _ => false end.

Definition is_terminal {T} (ev : Event T) : bool := negb (is_next ev).

(** The values carried by the [OnNext] calls of a trace, in order. *)
Fixpoint nexts {T} (evs : list (Event T)) : list T :=
  match evs with
  | [] => []
  | Next x :: rest => x :: nexts rest
  | _ :: rest => nexts rest
  end.

(** The grammar [next* (completed | error)?] of one subscription. *)
Fixpoint conforms {T} (evs : list (Event T)) : bool :=
  match evs with
  | [] => true
  | Next _ :: rest => conforms rest
  | _ :: rest => match rest with [] => true | _ => false end
  end.

(** A delivery sequence built from its parts: the values, then at most one
    terminal call. *)
Inductive Terminal : Type :=
| Completes
| Fails (error : exception_ptr).

Definition terminal_event {T} (t : Terminal) : Event T :=
  match t with Completes => Completed | Fails e => Error e end.

Definition sequence {T} (xs : list T) (t : option Terminal) : list (Event T) :=
  map (@Next T) xs ++ match t with Some t => [terminal_event t] | None => [] end.

Definition option_list {A} (o : option A) : list A :=
  match o with Some a => [a] | None => [] end.

(** ** Disposables

    [Disposable], [SerialDisposable] and [ComposableDisposable] are declared
    in a header that is not part of this file.  A disposable is a handle; what
    matters to the operators is which handles have been released. *)

Inductive Disposable : Type :=
| Empty                               (* Disposable::Empty() *)
| SourceSubscription (index : nat)    (* returned by subscribing to a source *)
| Composite                           (* the ComposableDisposable of the subscription *)
| Unsubscribe (observer : nat)        (* returned by a subject: removes the observer *)
| ProducerSubscription                (* state->subscription of a Producer, as a Disposable *)
| SinkDisposable.                     (* Sink::GetDisposable() *)

Module SerialDisposable.

(** Modelled from the spec: the class SerialDisposable is missing.  It
    "holds at most one inner disposable; assignment disposes the previous";
    "if the serial itself is disposed, it disposes new immediately and does
    not retain".  Each operation returns the handles it disposes. *)
Record t : Type := mk { disposed : bool; current : option Disposable }.

Definition fresh : t := mk false None.

(** Modelled from the spec: SerialDisposable::Set is missing.  "set(new)
    disposes the previous inner before installing new; if the serial itself
    is disposed, it disposes new immediately and does not retain". *)
Definition Set_ (d : Disposable) (s : t) : t * list Disposable :=
  if disposed s then (s, [d])
  else (mk false (Some d), option_list (current s)).

(** Modelled from the spec: SerialDisposable::Dispose is missing.
    "Calling dispose() more than once is a no-op"; the first call disposes
    the inner disposable. *)
Definition Dispose (s : t) : t * list Disposable :=
  if disposed s then (s, [])
  else (mk true None, option_list (current s)).

End SerialDisposable.

Module ComposableDisposable.

(** Modelled from the spec: the class ComposableDisposable is missing.  It
    is "an ordered set of inner disposables; disposing disposes all and
    rejects further additions (new additions are disposed immediately)". *)
Record t : Type := mk { disposed : bool; items : list Disposable }.

Definition fresh : t := mk false [].

(** Modelled from the spec: ComposableDisposable::Add is missing.  "If the
    composable is already disposed, add(child) must immediately dispose
    child and not retain it". *)
Definition Add (d : Disposable) (c : t) : t * list Disposable :=
  if disposed c then (c, [d])
  else (mk false (items c ++ [d]), []).

(** Modelled from the spec: ComposableDisposable::Dispose is missing.
    "Disposing disposes all"; "calling dispose() more than once is a
    no-op". *)
Definition Dispose (c : t) : t * list Disposable :=
  if disposed c then (c, [])
  else (mk true [], items c).

End ComposableDisposable.

Module unwinder.

(** Modelled from the spec: the macros RXCPP_UNWIND and RXCPP_UNWIND_AUTO
    are missing.  They declare a scope guard: the function given to it runs
    when the enclosing scope is left, by return or by exception ("if the
    inner delivery throws, the wrapper still disposes upstream before
    re-raising"), unless [dismiss()] was called on the guard before. *)
Record t : Type := mk { dismissed : bool }.

(** Modelled from the spec: the guard as declared by the macro, its
    [dismiss()], and whether its function runs when the scope is left. *)
Definition armed : t := mk false.

Definition dismiss (u : t) : t := mk true.

Definition runs (u : t) : bool := negb (dismissed u).

End unwinder.

(** ** Constructors *)

Module CreatedAutoDetachObserver.

Section AutoDetach.

Variable T : Type.

(** The wrapped observer is foreign code: all that the wrapper can see of
    a call on it is whether the call returns or throws. *)
Definition Inner : Type := Event T -> bool.

Record t : Type := mk {
  observer : option Inner;              (* std::shared_ptr<Observer<T>> *)
  disposable : SerialDisposable.t
}.

Inductive Exit : Type := Returns | Throws.

(** What one method call does: the wrapper afterwards, the calls made on
    the inner observer, the handles disposed, and how the call ends. *)
Record Effect : Type := effect {
  after : t;
  delivered : list (Event T);
  released : list Disposable;
  exit : Exit
}.

Definition skip (s : t) : Effect := effect s [] [] Returns.

(** The body shared by the three methods once [observer] is known to be
    set: arm the guard, call [final], dismiss the guard. *)
Definition guarded_call (final : Inner) (ev : Event T) (s : t) : Effect :=
  let disposer := unwinder.armed in
  let throws := final ev in
  let disposer := if throws then disposer else unwinder.dismiss disposer in
  let '(d, rel) :=
    if unwinder.runs disposer
    then SerialDisposable.Dispose (disposable s)
    else (disposable s, []) in
  effect (mk (observer s) d) [ev] rel (if throws then Throws else Returns).

Definition OnNext (element : T) (s : t) : Effect :=
  match observer s with
  | Some o => guarded_call o (Next element) s
  | None => skip s
  end.

Definition OnCompleted (s : t) : Effect :=
  match observer s with
  | Some final => guarded_call final Completed (mk None (disposable s))
  | None => skip s
  end.

Definition OnError (error : exception_ptr) (s : t) : Effect :=
  match observer s with
  | Some final => guarded_call final (Error error) (mk None (disposable s))
  | None => skip s
  end.

Definition clear (s : t) : t := mk None (disposable s).

Definition call (ev : Event T) (s : t) : Effect :=
  match ev with
  | Next element => OnNext element s
  | Completed => OnCompleted s
  | Error error => OnError error s
  end.

(** Several calls in a row; a call that throws does not stop the source
    from calling again. *)
Fixpoint calls (evs : list (Event T)) (s : t) : t * list (Event T) :=
  match evs with
  | [] => (s, [])
  | ev :: rest =>
      let r := call ev s in
      let '(s', d) := calls rest (after r) in
      (s', delivered r ++ d)
  end.

Definition CreateAutoDetachObserver (observer : option Inner) : t :=
  mk observer SerialDisposable.fresh.

(** An observer that returns from every call. *)
Definition quiet : Inner := fun _ => false.

(** What a call on the wrapper means to an operator that ignores how the
    call ends: the inner observer that remains, and the trace of the
    subscriber. *)
Definition pass (o : option Inner) (r : list (Event T)) (ev : Event T)
  : option Inner * list (Event T) :=
  match o with
  | Some f => (if is_terminal ev then None else Some f, r ++ [ev])
  | None => (None, r)
  end.

End AutoDetach.

End CreatedAutoDetachObserver.

Module CreatedObserver.

(** The three [std::function] members; [true] when the member holds the
    callable it was created with, [false] when it is empty. *)
Record t : Type := mk { onNext : bool; onCompleted : bool; onError : bool }.

Definition clear (o : t) : t := mk false false false.

(** A method call: the observer afterwards and the callable invoked, named
    by the call it serves. *)
Definition call {T} (ev : Event T) (o : t) : t * option (Event T) :=
  match ev with
  | Next _ => (o, if onNext o then Some ev else None)
  | Completed => if onCompleted o then (clear o, Some ev) else (o, None)
  | Error _ => if onError o then (clear o, Some ev) else (o, None)
  end.

Definition CreateObserver (onNext onCompleted onError : bool) : t :=
  mk onNext onCompleted onError.

End CreatedObserver.

(** ** Subjects *)

Module SubjectState.

Inductive type : Type := Invalid | Forwarding | Completed | Error.

End SubjectState.

(** Observers handed to a subject are foreign objects, identified by their
    address.  A subject's method returns the calls it makes on them, in
    order. *)
Definition ObserverId := nat.
Definition Delivery (T : Type) : Type := (ObserverId * Event T)%type.

(** The observer table: a vector of shared pointers, [None] for a slot that
    holds [nullptr]. *)
Definition Observers := list (option ObserverId).

(** [for (auto& o : observers) if (!o) { o = observer; ... }]: the table with
    the first empty slot taken, or [None] when the loop runs to the end. *)
Fixpoint take_slot (observer : ObserverId) (observers : Observers) : option Observers :=
  match observers with
  | [] => None
  | None :: rest => Some (Some observer :: rest)
  | Some o :: rest =>
      match take_slot observer rest with
      | Some rest' => Some (Some o :: rest')
      | None => None
      end
  end.

Definition slot_eqb (a b : option ObserverId) : bool :=
  match a, b with
  | Some x, Some y => Nat.eqb x y
  | None, None => true
  | _, _ => false
  end.

(** [it = std::find(begin, end, toRemove); if (it != end) *it = nullptr]:
    the table with the first slot equal to [toRemove] emptied, or [None] when
    there is none.  [toRemove] is itself [None] when the weak pointer has
    expired. *)
Fixpoint clear_slot (toRemove : option ObserverId) (observers : Observers) : option Observers :=
  match observers with
  | [] => None
  | o :: rest =>
      if slot_eqb o toRemove then Some (None :: rest)
      else match clear_slot toRemove rest with
           | Some rest' => Some (o :: rest')
           | None => None
           end
  end.

(** The observers a loop [for (auto& o : local) if (o) ...] calls. *)
Fixpoint attached (local : Observers) : list ObserverId :=
  match local with
  | [] => []
  | Some o :: rest => o :: attached rest
  | None :: rest => attached rest
  end.

Module ObservableSubject.

Record t : Type := mk {
  state : SubjectState.type;
  error : exception_ptr;
  observers : Observers
}.

(** [ObservableSubject() : state(SubjectState::Forwarding)] *)
Definition create : t := mk SubjectState.Forwarding None [].

Definition RemoveObserver (toRemove : option ObserverId) (s : t) : t :=
  match clear_slot toRemove (observers s) with
  | Some observers' => mk (state s) (error s) observers'
  | None => s
  end.

Section Subscribe.

Variable T : Type.

Definition Subscribe (observer : ObserverId) (s : t)
  : t * list (Delivery T) * Disposable :=
  let d := Unsubscribe observer in
  match state s with
  | SubjectState.Completed => (s, [(observer, Completed)], Empty)
  | SubjectState.Error => (s, [(observer, Error (error s))], Empty)
  | _ =>
      match take_slot observer (observers s) with
      | Some observers' => (mk (state s) (error s) observers', [], d)
      | None => (mk (state s) (error s) (observers s ++ [Some observer]), [], d)
      end
  end.

End Subscribe.

End ObservableSubject.

Module ObserverSubject.

Import ObservableSubject.

Section Methods.

Variable T : Type.

Definition OnNext (element : T) (s : t) : t * list (Delivery T) :=
  let local := observers s in
  (s, map (fun o => (o, Next element)) (attached local)).

Definition OnCompleted (s : t) : t * list (Delivery T) :=
  let local := observers s in
  (mk SubjectState.Completed (error s) [],
   map (fun o => (o, Completed)) (attached local)).

Definition OnError (error : exception_ptr) (s : t) : t * list (Delivery T) :=
  let local := observers s in
  (mk SubjectState.Error error [],
   map (fun o => (o, Error error)) (attached local)).

End Methods.

End ObserverSubject.

(** [Subject<T>]: an [ObserverSubject] over an [ObservableSubject] with
    nothing added. *)
Module Subject.

Definition t : Type := ObservableSubject.t.
Definition CreateSubject : t := ObservableSubject.create.
Definition Subscribe (T : Type) := @ObservableSubject.Subscribe T.

End Subject.

(** [GroupedSubject<K, T>]: the same classes with a key in between. *)
Module GroupedSubject.

Record t (K : Type) : Type := mk { key : K; base : ObservableSubject.t }.

Definition CreateGroupedSubject {K} (key : K) : t K :=
  mk key ObservableSubject.create.

Definition Key {K} (s : t K) : K := key s.

Definition Subscribe {K} (T : Type) (observer : ObserverId) (s : t K)
  : t K * list (Delivery T) * Disposable :=
  let '(b, calls, d) := ObservableSubject.Subscribe T observer (base s) in
  (mk (key s) b, calls, d).

Definition OnNext {K T} (element : T) (s : t K) : t K * list (Delivery T) :=
  let '(b, calls) := ObserverSubject.OnNext element (base s) in (mk (key s) b, calls).

Definition OnCompleted {K} (T : Type) (s : t K) : t K * list (Delivery T) :=
  let '(b, calls) := ObserverSubject.OnCompleted T (base s) in (mk (key s) b, calls).

Definition OnError {K} (T : Type) (error : exception_ptr) (s : t K)
  : t K * list (Delivery T) :=
  let '(b, calls) := ObserverSubject.OnError T error (base s) in (mk (key s) b, calls).

End GroupedSubject.

Module AsyncSubject.

Section Async.

Variable T : Type.

Record t : Type := mk {
  slotCount : nat;      (* size_t; never above the length of the table *)
  value : option T;     (* util::maybe<T> *)
  state : SubjectState.type;
  error : option exception_ptr;   (* util::maybe<std::exception_ptr> *)
  observers : Observers
}.

(** [AsyncSubject() : slotCount(0), value(), state(Forwarding)] *)
Definition CreateAsyncSubject : t :=
  mk 0 None SubjectState.Forwarding None [].

Definition RemoveObserver (toRemove : option ObserverId) (s : t) : t :=
  match clear_slot toRemove (observers s) with
  | Some observers' =>
      mk (S (slotCount s)) (value s) (state s) (error s) observers'
  | None => s
  end.

(** The block of [Subscribe] that runs under the lock. *)
Definition Subscribe_locked (observer : ObserverId) (s : t) : t :=
  match state s with
  | SubjectState.Completed => s
  | SubjectState.Error => s
  | SubjectState.Forwarding =>
      if 0 <? slotCount s then
        match take_slot observer (observers s) with
        | Some observers' =>
            mk (slotCount s - 1) (value s) (state s) (error s) observers'
        | None => s
        end
      else
        mk (slotCount s) (value s) (state s) (error s)
           (observers s ++ [Some observer])
  | SubjectState.Invalid => s
  end.

Definition Subscribe (observer : ObserverId) (s : t)
  : t * list (Delivery T) * Disposable :=
  let d := Unsubscribe observer in
  let localState := state s in
  let localValue :=
    match localState with SubjectState.Completed => value s | _ => None end in
  let localError :=
    match localState with SubjectState.Error => error s | _ => None end in
  let s' := Subscribe_locked observer s in
  match localState with
  | SubjectState.Completed =>
      (s',
       match localValue with
       | Some v => [(observer, Next v)]
       | None => []
       end ++ [(observer, Completed)],
       Empty)
  | SubjectState.Error =>
      (* [*localError.get()]: the maybe is set whenever the state is
         Error, since OnError sets both under the lock *)
      (s',
       match localError with
       | Some e => [(observer, Error e)]
       | None => []
       end,
       Empty)
  | _ => (s', [], d)
  end.

Definition OnNext (element : T) (s : t) : t * list (Delivery T) :=
  match state s with
  | SubjectState.Forwarding =>
      (mk (slotCount s) (Some element) (state s) (error s) (observers s), [])
  | _ => (s, [])
  end.

Definition OnCompleted (s : t) : t * list (Delivery T) :=
  let local := observers s in
  let localValue := value s in
  (mk (slotCount s) (value s) SubjectState.Completed (error s) [],
   flat_map (fun o =>
               match localValue with
               | Some v => [(o, Next v)]
               | None => []
               end ++ [(o, Completed)])
            (attached local)).

Definition OnError (errorArg : exception_ptr) (s : t) : t * list (Delivery T) :=
  let local := observers s in
  (mk (slotCount s) (value s) SubjectState.Error (Some errorArg) [],
   map (fun o => (o, Error errorArg)) (attached local)).

(** The calls a client can make on the subject, and runs of them. *)
Inductive Call : Type :=
| CallSubscribe (observer : ObserverId)
| CallDispose (observer : ObserverId)     (* dispose the handle [d] of a subscription *)
| CallOnNext (element : T)
| CallOnCompleted
| CallOnError (errorArg : exception_ptr).

Definition step (c : Call) (s : t) : t * list (Delivery T) :=
  match c with
  | CallSubscribe observer =>
      let '(s', calls, _) := Subscribe observer s in (s', calls)
  | CallDispose observer => (RemoveObserver (Some observer) s, [])
  | CallOnNext element => OnNext element s
  | CallOnCompleted => OnCompleted s
  | CallOnError errorArg => OnError errorArg s
  end.

Fixpoint run (cs : list Call) (s : t) : t * list (Delivery T) :=
  match cs with
  | [] => (s, [])
  | c :: rest =>
      let '(s1, calls1) := step c s in
      let '(s2, calls2) := run rest s1 in
      (s2, calls1 ++ calls2)
  end.

(** What one observer was handed. *)
Definition seen_by (o : ObserverId) (calls : list (Delivery T)) : list (Event T) :=
  map snd (filter (fun c => Nat.eqb (fst c) o) calls).

End Async.

End AsyncSubject.

(** ** Imperative functions *)

Module ForEach.

Section Drain.

Variable T : Type.

(** The locals of [ForEach] that the observer's callbacks capture by
    reference, the observer built by [CreateObserver], and the calls made
    on the caller's [onNext]. *)
Record Frame : Type := mk {
  done : bool;
  error : exception_ptr;
  observer : CreatedObserver.t;
  applied : list T
}.

(** [onNext] is the caller's function object; [true] when it is not
    empty.  The other two callbacks are the lambdas of [ForEach]. *)
Definition enter (onNext : bool) : Frame :=
  mk false None (CreatedObserver.CreateObserver onNext true true) [].

Definition deliver (ev : Event T) (f : Frame) : Frame :=
  let '(o, invoked) := CreatedObserver.call ev (observer f) in
  match invoked with
  | Some (Next element) => mk (done f) (error f) o (applied f ++ [element])
  | Some Completed => mk true (error f) o (applied f)
  | Some (Error e) => mk true e o (applied f)
  | None => mk (done f) (error f) o (applied f)
  end.

Definition drain (source : list (Event T)) (f : Frame) : Frame :=
  fold_left (fun f ev => deliver ev f) source f.

(** How the call ends: [wake.wait] never returns while [done] is unset. *)
Inductive Outcome : Type :=
| Waits
| Returns
| Rethrows (e : exception).

Definition leave (f : Frame) : Outcome :=
  if done f then
    match error f with
    | Some e => Rethrows e
    | None => Returns
    end
  else Waits.

(** [source] lists every call the source makes on the observer it is
    subscribed with. *)
Definition ForEach (source : list (Event T)) : Outcome * list T :=
  let f := drain source (enter true) in
  (leave f, applied f).

End Drain.

End ForEach.

(** ** Standard query operators *)

Module Merge.

(** [std::atomic<size_t>]: arithmetic modulo [2^64]. *)
Definition size_t_modulus : Z := 2 ^ 64.
Definition pre_decrement (z : Z) : Z := (z - 1) mod size_t_modulus.

(** [struct State]: allocated in the body of [Merge] and captured, through
    the shared pointer, by the subscribe lambda of the returned
    observable. *)
Record State : Type := mkState { pendingComplete : Z }.

(** The observable returned by [Merge]: the number of sources and the
    state. *)
Record Observable : Type := mkObservable { SourcesSize : nat; state : State }.

Definition Merge (sources : nat) : Observable :=
  mkObservable sources (mkState (Z.of_nat sources mod size_t_modulus)).

Section Subscription.

Variable T : Type.

Record Subscription : Type := mk {
  shared : State;
  cd : ComposableDisposable.t;
  observer : CreatedAutoDetachObserver.t T;
  inner : list CreatedObserver.t;   (* one per source subscribed so far *)
  received : list (Event T);        (* calls made on the subscriber *)
  released : list Disposable        (* handles disposed *)
}.

Definition dispose_cd (s : Subscription) : Subscription :=
  let '(c, rel) := ComposableDisposable.Dispose (cd s) in
  mk (shared s) c (observer s) (inner s) (received s) (released s ++ rel).

Definition release (s : Subscription) (d : Disposable) : Subscription :=
  match d with
  | Composite => dispose_cd s
  | _ => mk (shared s) (cd s) (observer s) (inner s) (received s) (released s ++ [d])
  end.

(** [observer->On...(...)] in a lambda: a call on the auto-detach
    observer the lambda captured. *)
Definition send (ev : Event T) (s : Subscription) : Subscription :=
  let r := CreatedAutoDetachObserver.call ev (observer s) in
  fold_left release (CreatedAutoDetachObserver.released r)
    (mk (shared s) (cd s) (CreatedAutoDetachObserver.after r) (inner s)
        (received s ++ CreatedAutoDetachObserver.delivered r) (released s)).

Definition on_next (element : T) (s : Subscription) : Subscription :=
  send (Next element) s.

Definition on_completed (s : Subscription) : Subscription :=
  let p := pre_decrement (pendingComplete (shared s)) in
  let s := mk (mkState p) (cd s) (observer s) (inner s) (received s) (released s) in
  if (p =? 0)%Z then dispose_cd (send Completed s) else s.

Definition on_error (error : exception_ptr) (s : Subscription) : Subscription :=
  dispose_cd (send (Error error) s).

Fixpoint replace_nth {A} (n : nat) (a : A) (l : list A) : list A :=
  match l, n with
  | [], _ => []
  | _ :: rest, O => a :: rest
  | b :: rest, S n => b :: replace_nth n a rest
  end.

(** Source [i] calls a method of the observer it was subscribed with. *)
Definition deliver (s : Subscription) (call : nat * Event T) : Subscription :=
  let '(i, ev) := call in
  match nth_error (inner s) i with
  | None => s
  | Some o =>
      let '(o', invoked) := CreatedObserver.call ev o in
      let s := mk (shared s) (cd s) (observer s) (replace_nth i o' (inner s))
                  (received s) (released s) in
      match invoked with
      | Some (Next element) => on_next element s
      | Some Completed => on_completed s
      | Some (Error error) => on_error error s
      | None => s
      end
  end.

Definition Add (d : Disposable) (s : Subscription) : Subscription :=
  let '(c, rel) := ComposableDisposable.Add d (cd s) in
  fold_left release rel
    (mk (shared s) c (observer s) (inner s) (received s) (released s)).

(** [MergeSubscriber<Index, SourcesSize, State>::subscribe]; [todo] is
    [SourcesSize - Index], and [cold i] lists the calls source [i] makes
    before its [Subscribe] returns. *)
Fixpoint MergeSubscriber (todo Index : nat) (cold : nat -> list (Event T))
         (s : Subscription) : Subscription :=
  match todo with
  | O => s
  | S todo =>
      let s := mk (shared s) (cd s) (observer s)
                  (inner s ++ [CreatedObserver.CreateObserver true true true])
                  (received s) (released s) in
      let s := fold_left deliver (map (pair Index) (cold Index)) s in
      let s := Add (SourceSubscription Index) s in
      MergeSubscriber todo (S Index) cold s
  end.

(** [CreatedObservable::Subscribe] around the lambda of [Merge], on the
    path that is not rescheduled. *)
Definition Subscribe (m : Observable) (cold : nat -> list (Event T)) : Subscription :=
  let autoDetachObserver :=
    CreatedAutoDetachObserver.CreateAutoDetachObserver
      (Some (@CreatedAutoDetachObserver.quiet T)) in
  let s := mk (state m) ComposableDisposable.fresh autoDetachObserver [] [] [] in
  let s := MergeSubscriber (SourcesSize m) 0 cold s in
  let '(d, rel) :=
    SerialDisposable.Set_ Composite
      (CreatedAutoDetachObserver.disposable (observer s)) in
  fold_left release rel
    (mk (shared s) (cd s)
        (CreatedAutoDetachObserver.mk
           (CreatedAutoDetachObserver.observer (observer s)) d)
        (inner s) (received s) (released s)).

(** The calls the sources make once the subscription is set up. *)
Definition run (hot : list (nat * Event T)) (s : Subscription) : Subscription :=
  fold_left deliver hot s.

(** The observable as a later subscriber finds it. *)
Definition afterwards (m : Observable) (s : Subscription) : Observable :=
  mkObservable (SourcesSize m) (shared s).

(** Everything source [i] hands over during one subscription. *)
Definition upstream (cold : nat -> list (Event T)) (hot : list (nat * Event T))
           (i : nat) : list (Event T) :=
  cold i ++ map snd (filter (fun c => Nat.eqb (fst c) i) hot).

(** The calls of [n] sources in the order in which they reach the operator:
    source by source while the subscriptions are set up, then as they
    come. *)
Definition arrival (n : nat) (cold : nat -> list (Event T))
           (hot : list (nat * Event T)) : list (nat * Event T) :=
  flat_map (fun i => map (pair i) (cold i)) (seq 0 n) ++ hot.

(** The description of the operator: values are passed on in arrival order
    up to the first error, which ends the trace. *)
Fixpoint until_error (calls : list (nat * Event T)) : list (Event T) :=
  match calls with
  | [] => []
  | (_, Next x) :: rest => Next x :: until_error rest
  | (_, Completed) :: rest => until_error rest
  | (_, Error e) :: _ => [Error e]
  end.

End Subscription.

End Merge.

(** What a call on a function object supplied by the client can do. *)
Inductive Result (A : Type) : Type :=
| Value (a : A)             (* returns *)
| Raised (e : exception)    (* throws *)
| Aborted.                  (* calls abort(): the process ends *)

Arguments Raised {A} e.
Arguments Aborted {A}.

Module Where.

Section Subscription.

Variable T : Type.
Variable predicate : T -> Result bool.

Record Subscription : Type := mk {
  observer : CreatedAutoDetachObserver.t T;
  inner : CreatedObserver.t;      (* built by Subscribe(source, ...) *)
  received : list (Event T);      (* calls made on the subscriber *)
  released : list Disposable;     (* handles disposed *)
  tested : list T;                (* calls made on the predicate *)
  aborted : bool                  (* the process has ended *)
}.

Definition release (s : Subscription) (d : Disposable) : Subscription :=
  mk (observer s) (inner s) (received s) (released s ++ [d]) (tested s) (aborted s).

Definition send (ev : Event T) (s : Subscription) : Subscription :=
  let r := CreatedAutoDetachObserver.call ev (observer s) in
  fold_left release (CreatedAutoDetachObserver.released r)
    (mk (CreatedAutoDetachObserver.after r) (inner s)
        (received s ++ CreatedAutoDetachObserver.delivered r)
        (released s) (tested s) (aborted s)).

Definition on_next (element : T) (s : Subscription) : Subscription :=
  let s := mk (observer s) (inner s) (received s) (released s)
              (tested s ++ [element]) (aborted s) in
  (* util::maybe<U> result; try { result.set(predicate(element)); }
     catch (...) { observer->OnError(std::current_exception()); } *)
  let '(result, s) :=
    match predicate element with
    | Value b => (Some b, s)
    | Raised e => (None, send (Error (current_exception e)) s)
    | Aborted =>
        (None, mk (observer s) (inner s) (received s) (released s) (tested s) true)
    end in
  (* if (!!result && *result.get()) observer->OnNext(element); *)
  match result with
  | Some true => send (Next element) s
  | _ => s
  end.

Definition on_completed (s : Subscription) : Subscription := send Completed s.

Definition on_error (error : exception_ptr) (s : Subscription) : Subscription :=
  send (Error error) s.

Definition deliver (s : Subscription) (ev : Event T) : Subscription :=
  if aborted s then s else
  let '(o, invoked) := CreatedObserver.call ev (inner s) in
  let s := mk (observer s) o (received s) (released s) (tested s) (aborted s) in
  match invoked with
  | Some (Next element) => on_next element s
  | Some Completed => on_completed s
  | Some (Error error) => on_error error s
  | None => s
  end.

Definition run (evs : list (Event T)) (s : Subscription) : Subscription :=
  fold_left deliver evs s.

(** [CreatedObservable::Subscribe] around the lambda of [Where]; [cold]
    lists the calls the source makes before its [Subscribe] returns the
    handle that is then stored in the serial disposable. *)
Definition Subscribe (cold : list (Event T)) : Subscription :=
  let autoDetachObserver :=
    CreatedAutoDetachObserver.CreateAutoDetachObserver
      (Some (@CreatedAutoDetachObserver.quiet T)) in
  let s := mk autoDetachObserver (CreatedObserver.CreateObserver true true true)
              [] [] [] false in
  let s := run cold s in
  let '(d, rel) :=
    SerialDisposable.Set_ (SourceSubscription 0)
      (CreatedAutoDetachObserver.disposable (observer s)) in
  fold_left release rel
    (mk (CreatedAutoDetachObserver.mk
           (CreatedAutoDetachObserver.observer (observer s)) d)
        (inner s) (received s) (released s) (tested s) (aborted s)).

End Subscription.

End Where.

Module Sink.

(** [Sink<Derived, T>]: [observer] is [true] while it is the observer
    given to the constructor and [false] once it is a default-constructed
    [Observer<T>], whose methods do nothing. *)
Record t : Type := mk { observer : bool; cancel : option Disposable }.

(** The constructor replaces a null observer by a default-constructed
    one. *)
Definition create (observerArg : bool) (cancelArg : Disposable) : t :=
  mk observerArg (Some cancelArg).

(** [Dispose]: the sink afterwards and the handles it disposes. *)
Definition Dispose (s : t) : t * list Disposable :=
  (mk false None, option_list (cancel s)).

End Sink.

Module ScanObservable.

Section Scan.

Variables T A : Type.

Definition Accumulator : Type := A -> T -> Result A.
Definition Seeder : Type := T -> Result (option A).

(** The members of [ScanObservable] other than the source. *)
Record Parent : Type := mkParent {
  seed : option A;
  accumulator : Accumulator;
  seeder : Seeder
}.

(** The state of one subscription: the [State] of [Producer], the sink
    [_] with its [Sink] base, and the traces. *)
Record Subscription : Type := mk {
  sink : SerialDisposable.t;            (* state->sink *)
  subscription : SerialDisposable.t;    (* state->subscription *)
  base : Sink.t;
  accumulation : option A;
  received : list (Event A);            (* calls made on the subscriber *)
  released : list Disposable;           (* handles disposed *)
  seeded : list T;                      (* calls made on the seeder *)
  aborted : bool                        (* the process has ended *)
}.

Variable parent : Parent.

Definition with_base (b : Sink.t) (s : Subscription) : Subscription :=
  mk (sink s) (subscription s) b (accumulation s) (received s) (released s)
     (seeded s) (aborted s).

(** Disposing a handle.  [ProducerSubscription] is the serial disposable
    [state->subscription]; [SinkDisposable] calls [Sink::Dispose], which
    disposes [cancel], a [ProducerSubscription]. *)
Definition release_subscription (s : Subscription) : Subscription :=
  let '(d, rel) := SerialDisposable.Dispose (subscription s) in
  mk (sink s) d (base s) (accumulation s) (received s) (released s ++ rel)
     (seeded s) (aborted s).

Definition release_cancel (s : Subscription) (d : Disposable) : Subscription :=
  match d with
  | ProducerSubscription => release_subscription s
  | _ => mk (sink s) (subscription s) (base s) (accumulation s) (received s)
            (released s ++ [d]) (seeded s) (aborted s)
  end.

(** [SinkBase::Dispose()] *)
Definition Dispose (s : Subscription) : Subscription :=
  let '(b, rel) := Sink.Dispose (base s) in
  fold_left release_cancel rel (with_base b s).

(** [SinkBase::observer->On...(...)] *)
Definition forward (ev : Event A) (s : Subscription) : Subscription :=
  if Sink.observer (base s)
  then mk (sink s) (subscription s) (base s) (accumulation s)
          (received s ++ [ev]) (released s) (seeded s) (aborted s)
  else s.

Definition abort (s : Subscription) : Subscription :=
  mk (sink s) (subscription s) (base s) (accumulation s) (received s)
     (released s) (seeded s) true.

(** The expression assigned to [accumulation] in the [try] block of
    [OnNext], with the calls made on the seeder.  Dereferencing the
    pointer of an empty [maybe] has no defined behaviour; it is taken to
    end the process. *)
Definition accumulate (t : T) (s : Subscription) : Result A * list T :=
  match accumulation s with
  | Some a => (accumulator parent a t, [])
  | None =>
      match seed parent with
      | Some sd => (accumulator parent sd t, [])
      | None =>
          (match seeder parent t with
           | Value (Some a) => Value a
           | Value None => Aborted
           | Raised e => Raised e
           | Aborted => Aborted
           end, [t])
      end
  end.

Definition OnNext (t : T) (s : Subscription) : Subscription :=
  let '(r, asked) := accumulate t s in
  let s := mk (sink s) (subscription s) (base s) (accumulation s) (received s)
              (released s) (seeded s ++ asked) (aborted s) in
  match r with
  | Value a =>
      forward (Next a)
        (mk (sink s) (subscription s) (base s) (Some a) (received s)
            (released s) (seeded s) (aborted s))
  | Raised e => Dispose (forward (Error (current_exception e)) s)
  | Aborted => abort s
  end.

Definition OnCompleted (s : Subscription) : Subscription :=
  let s :=
    match accumulation s, seed parent with
    | None, Some sd => forward (Next sd) s
    | _, _ => s
    end in
  Dispose (forward Completed s).

Definition OnError (e : exception_ptr) (s : Subscription) : Subscription :=
  Dispose (forward (Error e) s).

(** The source calls a method of the sink; nothing runs once the process
    has ended. *)
Definition deliver (s : Subscription) (ev : Event T) : Subscription :=
  if aborted s then s else
  match ev with
  | Next t => OnNext t s
  | Completed => OnCompleted s
  | Error e => OnError e s
  end.

Definition run (evs : list (Event T)) (s : Subscription) : Subscription :=
  fold_left deliver evs s.

(** [Producer::Subscribe] with the [run] function of [ScanObservable], on
    the path that is not rescheduled: the sink is made and published,
    the source is subscribed to (it makes the calls in [cold] before it
    returns), and the handle it returns is stored. *)
Definition Subscribe (observer : bool) (cold : list (Event T)) : Subscription :=
  let s := mk SerialDisposable.fresh SerialDisposable.fresh
              (Sink.create observer ProducerSubscription) None [] [] [] false in
  let '(d, rel) := SerialDisposable.Set_ SinkDisposable (sink s) in
  let s := mk d (subscription s) (base s) (accumulation s) (received s)
              (released s ++ rel) (seeded s) (aborted s) in
  let s := run cold s in
  if aborted s then s else
  let '(d, rel) := SerialDisposable.Set_ (SourceSubscription 0) (subscription s) in
  mk (sink s) d (base s) (accumulation s) (received s) (released s ++ rel)
     (seeded s) (aborted s).

(** The observable subscribed to a source that makes the calls [evs],
    the first [k] of them before its [Subscribe] returns. *)
Definition subscribed (observer : bool) (k : nat) (evs : list (Event T)) : Subscription :=
  run (skipn k evs) (Subscribe observer (firstn k evs)).

End Scan.

End ScanObservable.

Module Scan.

Section Overloads.

Variables T A : Type.

(** [Scan(source, seed, accumulator)]: the seeder given to the
    observable calls [abort()]. *)
Definition seeded (seed : A) (accumulator : ScanObservable.Accumulator T A)
  : ScanObservable.Parent T A :=
  ScanObservable.mkParent (Some seed) accumulator (fun _ => Aborted).

End Overloads.

(** [Scan(source, accumulator)]: the first value is the seed. *)
Definition unseeded (T : Type) (accumulator : ScanObservable.Accumulator T T)
  : ScanObservable.Parent T T :=
  ScanObservable.mkParent None accumulator (fun t => Value (Some t)).

(** An accumulator that computes [f] and neither throws nor aborts. *)
Definition total {T A} (f : A -> T -> A) : ScanObservable.Accumulator T A :=
  fun a t => Value (f a t).

(** The running fold [f(s,x1), f(f(s,x1),x2), ...] of the operator's
    description. *)
Fixpoint running {T A} (f : A -> T -> A) (s : A) (xs : list T) : list A :=
  match xs with
  | [] => []
  | x :: rest => f s x :: running f (f s x) rest
  end.

End Scan.

Module Take.

(** The template parameter [Integral]: [int] or [unsigned int], both of
    32 bits.  The counters are [std::atomic<Integral>], whose arithmetic
    wraps around: in two's complement for [int], modulo 2^32 for
    [unsigned int].  Where the type is not written out it is [int]. *)
Class Integral : Type := { is_signed : bool }.

#[global] Instance int : Integral := {| is_signed := true |}.

Definition unsigned_int : Integral := {| is_signed := false |}.

(** The least and the greatest [int], and the greatest [unsigned int]. *)
Definition Integral_min : Z := - 2 ^ 31.
Definition Integral_max : Z := 2 ^ 31 - 1.
Definition unsigned_max : Z := 2 ^ 32 - 1.

Definition wrap {I : Integral} (z : Z) : Z :=
  if is_signed then (z + 2 ^ 31) mod 2 ^ 32 - 2 ^ 31 else z mod 2 ^ 32.

Definition pre_decrement {I : Integral} (z : Z) : Z := wrap (z - 1).

Section Subscription.

Context {I : Integral}.
Variable T : Type.

Record Subscription : Type := mk {
  remaining : Z * Z;       (* received countdown, issued countdown *)
  cd : ComposableDisposable.t;
  observer : CreatedAutoDetachObserver.t T;
  inner : CreatedObserver.t;     (* built by Subscribe(source, ...) *)
  received : list (Event T);     (* calls made on the subscriber *)
  released : list Disposable     (* handles disposed *)
}.

Definition dispose_cd (s : Subscription) : Subscription :=
  let '(c, rel) := ComposableDisposable.Dispose (cd s) in
  mk (remaining s) c (observer s) (inner s) (received s) (released s ++ rel).

Definition release (s : Subscription) (d : Disposable) : Subscription :=
  match d with
  | Composite => dispose_cd s
  | _ => mk (remaining s) (cd s) (observer s) (inner s) (received s)
            (released s ++ [d])
  end.

Definition send (ev : Event T) (s : Subscription) : Subscription :=
  let r := CreatedAutoDetachObserver.call ev (observer s) in
  fold_left release (CreatedAutoDetachObserver.released r)
    (mk (remaining s) (cd s) (CreatedAutoDetachObserver.after r) (inner s)
        (received s ++ CreatedAutoDetachObserver.delivered r) (released s)).

Definition on_next (element : T) (s : Subscription) : Subscription :=
  (* auto local = --std::get<0>( *remaining ); *)
  let local := pre_decrement (I := I) (fst (remaining s)) in
  let s := mk (local, snd (remaining s)) (cd s) (observer s) (inner s)
              (received s) (released s) in
  let s := if (local >=? 0)%Z then send (Next element) s else s in
  (* the function given to RXCPP_UNWIND_AUTO, run on the way out *)
  if (local >=? 0)%Z then
    let issued := pre_decrement (I := I) (snd (remaining s)) in
    let s := mk (fst (remaining s), issued) (cd s) (observer s) (inner s)
                (received s) (released s) in
    if (issued =? 0)%Z then dispose_cd (send Completed s) else s
  else s.

Definition on_completed (s : Subscription) : Subscription :=
  if ((snd (remaining s) =? 0) && (fst (remaining s) <=? 0))%Z
  then dispose_cd (send Completed s)
  else s.

Definition on_error (error : exception_ptr) (s : Subscription) : Subscription :=
  dispose_cd (send (Error error) s).

Definition deliver (s : Subscription) (ev : Event T) : Subscription :=
  let '(o, invoked) := CreatedObserver.call ev (inner s) in
  let s := mk (remaining s) (cd s) (observer s) o (received s) (released s) in
  match invoked with
  | Some (Next element) => on_next element s
  | Some Completed => on_completed s
  | Some (Error error) => on_error error s
  | None => s
  end.

Definition run (evs : list (Event T)) (s : Subscription) : Subscription :=
  fold_left deliver evs s.

Definition Add (d : Disposable) (s : Subscription) : Subscription :=
  let '(c, rel) := ComposableDisposable.Add d (cd s) in
  fold_left release rel
    (mk (remaining s) c (observer s) (inner s) (received s) (released s)).

(** [CreatedObservable::Subscribe] around the lambda of [Take], on the
    path that is not rescheduled; [cold] lists the calls the source makes
    before its [Subscribe] returns. *)
Definition Subscribe (n : Z) (cold : list (Event T)) : Subscription :=
  let autoDetachObserver :=
    CreatedAutoDetachObserver.CreateAutoDetachObserver
      (Some (@CreatedAutoDetachObserver.quiet T)) in
  let s := mk (n, n) ComposableDisposable.fresh autoDetachObserver
              (CreatedObserver.CreateObserver true true true) [] [] in
  let s := run cold s in
  let s := Add (SourceSubscription 0) s in
  let '(d, rel) :=
    SerialDisposable.Set_ Composite
      (CreatedAutoDetachObserver.disposable (observer s)) in
  fold_left release rel
    (mk (remaining s) (cd s)
        (CreatedAutoDetachObserver.mk
           (CreatedAutoDetachObserver.observer (observer s)) d)
        (inner s) (received s) (released s)).

(** [Take(source, n)] subscribed to a source that makes the calls [evs],
    the first [k] of them before its [Subscribe] returns. *)
Definition Take (n : Z) (k : nat) (evs : list (Event T)) : Subscription :=
  run (skipn k evs) (Subscribe n (firstn k evs)).

End Subscription.

End Take.

(** ** Observables made by [CreateObservable] *)

Module CreatedObservable.

(** What [Subscribe] returns: the serial disposable of the auto-detach
    observer, or [Disposable::Empty()]. *)
Inductive Returned : Type := TheSerial | TheEmpty.

Section Subscription.

Variable T : Type.

(** What a subscription to a [CreatedObservable] holds, whatever its
    subscribe function: the auto-detach observer made by [Subscribe], the
    [ComposableDisposable] that the subscribe functions of the operators
    declare (it stays as created for those that declare none), the calls
    made on the subscriber and the handles disposed. *)
Record Subscription : Type := mk {
  cd : ComposableDisposable.t;
  observer : CreatedAutoDetachObserver.t T;
  received : list (Event T);
  released : list Disposable
}.

(** [cd.Dispose()] *)
Definition dispose_cd (s : Subscription) : Subscription :=
  let '(c, rel) := ComposableDisposable.Dispose (cd s) in
  mk c (observer s) (received s) (released s ++ rel).

(** Disposing a handle; [Composite] is the [ComposableDisposable]. *)
Definition release (s : Subscription) (d : Disposable) : Subscription :=
  match d with
  | Composite => dispose_cd s
  | _ => mk (cd s) (observer s) (received s) (released s ++ [d])
  end.

(** [observer->On...(...)] in a lambda of the subscribe function: a call on
    the auto-detach observer. *)
Definition send (ev : Event T) (s : Subscription) : Subscription :=
  let r := CreatedAutoDetachObserver.call ev (observer s) in
  fold_left release (CreatedAutoDetachObserver.released r)
    (mk (cd s) (CreatedAutoDetachObserver.after r)
        (received s ++ CreatedAutoDetachObserver.delivered r) (released s)).

(** [cd.Add(d)] *)
Definition Add (d : Disposable) (s : Subscription) : Subscription :=
  let '(c, rel) := ComposableDisposable.Add d (cd s) in
  fold_left release rel (mk c (observer s) (received s) (released s)).

(** [auto autoDetachObserver = CreateAutoDetachObserver(std::move(observer))] *)
Definition enter (observer : option (CreatedAutoDetachObserver.Inner T)) : Subscription :=
  mk ComposableDisposable.fresh
     (CreatedAutoDetachObserver.CreateAutoDetachObserver observer) [] [].

(** [autoDetachObserver->disposable.Set(subscribe(autoDetachObserver))],
    once the subscribe function has returned the handle [d]. *)
Definition leave (d : Disposable) (s : Subscription) : Subscription :=
  let '(sd, rel) :=
    SerialDisposable.Set_ d (CreatedAutoDetachObserver.disposable (observer s)) in
  fold_left release rel
    (mk (cd s)
        (CreatedAutoDetachObserver.mk
           (CreatedAutoDetachObserver.observer (observer s)) sd)
        (received s) (released s)).

(** [CreatedObservable::Subscribe] on the path that is not rescheduled,
    for a subscribe function that makes the calls [body] on the auto-detach
    observer and then returns a handle or throws. *)
Definition Subscribe (observer : option (CreatedAutoDetachObserver.Inner T))
           (body : list (Event T)) (outcome : Disposable + exception)
  : Subscription * Returned :=
  let s := fold_left (fun s ev => send ev s) body (enter observer) in
  match outcome with
  | inl d => (leave d s, TheSerial)
  | inr e => (send (Error (current_exception e)) s, TheEmpty)
  end.

End Subscription.

End CreatedObservable.

(** ** The function [Subscribe] *)

Module Subscribe.

Section Callbacks.

Variable T : Type.

(** The callables an observer made by [CreateObserver] invokes when it is
    handed the calls [source], one after the other. *)
Fixpoint invoked (source : list (Event T)) (observer : CreatedObserver.t)
  : list (Event T) :=
  match source with
  | [] => []
  | ev :: rest =>
      let '(o, i) := CreatedObserver.call ev observer in
      option_list i ++ invoked rest o
  end.

(** [Subscribe(source, onNext, onCompleted, onError)]: each argument is
    [true] when the function object is not empty; [source] lists the calls
    the source makes on the observer it is subscribed with. *)
Definition Subscribe (source : list (Event T)) (onNext onCompleted onError : bool)
  : list (Event T) :=
  invoked source (CreatedObserver.CreateObserver onNext onCompleted onError).

End Callbacks.

End Subscribe.

(** ** Calls on a [Subject] *)

Module SubjectClient.

Section Client.

Variable T : Type.

(** The calls a client can make on a [Subject<T>] are those it can make on
    an [AsyncSubject<T>]: both are an [Observable<T>] and an
    [Observer<T>]. *)
Definition step (c : AsyncSubject.Call T) (s : Subject.t)
  : Subject.t * list (Delivery T) :=
  match c with
  | AsyncSubject.CallSubscribe _ observer =>
      let '(s', calls, _) := Subject.Subscribe T observer s in (s', calls)
  | AsyncSubject.CallDispose _ observer =>
      (ObservableSubject.RemoveObserver (Some observer) s, [])
  | AsyncSubject.CallOnNext element => ObserverSubject.OnNext element s
  | AsyncSubject.CallOnCompleted _ => ObserverSubject.OnCompleted T s
  | AsyncSubject.CallOnError _ error => ObserverSubject.OnError T error s
  end.

Fixpoint run (cs : list (AsyncSubject.Call T)) (s : Subject.t)
  : Subject.t * list (Delivery T) :=
  match cs with
  | [] => (s, [])
  | c :: rest =>
      let '(s1, calls1) := step c s in
      let '(s2, calls2) := run rest s1 in
      (s2, calls1 ++ calls2)
  end.

End Client.

End SubjectClient.

Module BehaviorSubject.

Section Behavior.

Variable T : Type.

Record t : Type := mk {
  slotCount : nat;      (* size_t; never above the length of the table *)
  value : T;
  state : SubjectState.type;
  error : option exception_ptr;   (* util::maybe<std::exception_ptr> *)
  observers : Observers
}.

(** [BehaviorSubject(T t) : slotCount(0), value(t), state(Forwarding)] *)
Definition CreateBehaviorSubject (a : T) : t :=
  mk 0 a SubjectState.Forwarding None [].

Definition RemoveObserver (toRemove : option ObserverId) (s : t) : t :=
  match clear_slot toRemove (observers s) with
  | Some observers' =>
      mk (S (slotCount s)) (value s) (state s) (error s) observers'
  | None => s
  end.

(** The block of [Subscribe] that runs under the lock, for what it does
    to the subject. *)
Definition Subscribe_locked (observer : ObserverId) (s : t) : t :=
  match state s with
  | SubjectState.Forwarding =>
      if 0 <? slotCount s then
        match take_slot observer (observers s) with
        | Some observers' =>
            mk (slotCount s - 1) (value s) (state s) (error s) observers'
        | None => s
        end
      else
        mk (slotCount s) (value s) (state s) (error s)
           (observers s ++ [Some observer])
  | _ => s
  end.

Definition Subscribe (observer : ObserverId) (s : t)
  : t * list (Delivery T) * Disposable :=
  let d := Unsubscribe observer in
  let localState := state s in
  let localValue :=
    match localState with
    | SubjectState.Forwarding | SubjectState.Completed => Some (value s)
    | _ => None
    end in
  let localError :=
    match localState with SubjectState.Error => error s | _ => None end in
  let s' := Subscribe_locked observer s in
  match localState with
  | SubjectState.Completed =>
      (s', option_list (option_map (fun v => (observer, Next v)) localValue)
             ++ [(observer, Completed)], Empty)
  | SubjectState.Error =>
      (* [*localError.get()]: the maybe is set whenever the state is
         Error, since OnError sets both under the lock *)
      (s', option_list (option_map (fun e => (observer, Error e)) localError), Empty)
  | SubjectState.Forwarding =>
      (s', option_list (option_map (fun v => (observer, Next v)) localValue), d)
  | SubjectState.Invalid => (s', [], d)
  end.

Definition OnNext (element : T) (s : t) : t * list (Delivery T) :=
  let local := observers s in
  (mk (slotCount s) element (state s) (error s) (observers s),
   map (fun o => (o, Next element)) (attached local)).

Definition OnCompleted (s : t) : t * list (Delivery T) :=
  let local := observers s in
  (mk (slotCount s) (value s) SubjectState.Completed (error s) [],
   map (fun o => (o, Completed)) (attached local)).

Definition OnError (errorArg : exception_ptr) (s : t) : t * list (Delivery T) :=
  let local := observers s in
  (mk (slotCount s) (value s) SubjectState.Error (Some errorArg) [],
   map (fun o => (o, Error errorArg)) (attached local)).

(** The calls a client can make on the subject, and runs of them. *)
Definition step (c : AsyncSubject.Call T) (s : t) : t * list (Delivery T) :=
  match c with
  | AsyncSubject.CallSubscribe _ observer =>
      let '(s', calls, _) := Subscribe observer s in (s', calls)
  | AsyncSubject.CallDispose _ observer => (RemoveObserver (Some observer) s, [])
  | AsyncSubject.CallOnNext element => OnNext element s
  | AsyncSubject.CallOnCompleted _ => OnCompleted s
  | AsyncSubject.CallOnError _ errorArg => OnError errorArg s
  end.

Fixpoint run (cs : list (AsyncSubject.Call T)) (s : t) : t * list (Delivery T) :=
  match cs with
  | [] => (s, [])
  | c :: rest =>
      let '(s1, calls1) := step c s in
      let '(s2, calls2) := run rest s1 in
      (s2, calls1 ++ calls2)
  end.

End Behavior.

End BehaviorSubject.

Module Skip.

(** [struct State { enum type { Skipping, Forwarding }; }] *)
Module State.

Inductive type : Type := Skipping | Forwarding.

End State.

Section Subscription.

Variable T : Type.

(** [Integral] is taken to be [int], as for [Take]. *)
Record Subscription : Type := mk {
  remaining : Z * State.type;    (* values still to skip, state *)
  inner : CreatedObserver.t;     (* built by Subscribe(source, ...) *)
  base : CreatedObservable.Subscription T
}.

Definition on_next (element : T) (s : Subscription) : Subscription :=
  match snd (remaining s) with
  | State.Forwarding =>
      mk (remaining s) (inner s) (CreatedObservable.send (Next element) (base s))
  | State.Skipping =>
      (* auto local = --std::get<0>( *remaining ); *)
      let local := Take.pre_decrement (fst (remaining s)) in
      mk (local, if (local =? 0)%Z then State.Forwarding else State.Skipping)
         (inner s) (base s)
  end.

Definition on_completed (s : Subscription) : Subscription :=
  mk (remaining s) (inner s)
     (CreatedObservable.dispose_cd (CreatedObservable.send Completed (base s))).

Definition on_error (error : exception_ptr) (s : Subscription) : Subscription :=
  mk (remaining s) (inner s)
     (CreatedObservable.dispose_cd (CreatedObservable.send (Error error) (base s))).

Definition deliver (s : Subscription) (ev : Event T) : Subscription :=
  let '(o, invoked) := CreatedObserver.call ev (inner s) in
  let s := mk (remaining s) o (base s) in
  match invoked with
  | Some (Next element) => on_next element s
  | Some Completed => on_completed s
  | Some (Error error) => on_error error s
  | None => s
  end.

Definition run (evs : list (Event T)) (s : Subscription) : Subscription :=
  fold_left deliver evs s.

(** [CreatedObservable::Subscribe] around the lambda of [Skip], on the
    path that is not rescheduled; [cold] lists the calls the source makes
    before its [Subscribe] returns. *)
Definition Subscribe (n : Z) (cold : list (Event T)) : Subscription :=
  let s := mk (n, State.Skipping) (CreatedObserver.CreateObserver true true true)
              (CreatedObservable.enter (Some (@CreatedAutoDetachObserver.quiet T))) in
  let s := run cold s in
  let s := mk (remaining s) (inner s)
              (CreatedObservable.Add (SourceSubscription 0) (base s)) in
  mk (remaining s) (inner s) (CreatedObservable.leave Composite (base s)).

(** [Skip(source, n)] subscribed to a source that makes the calls [evs],
    the first [k] of them before its [Subscribe] returns. *)
Definition Skip (n : Z) (k : nat) (evs : list (Event T)) : Subscription :=
  run (skipn k evs) (Subscribe n (firstn k evs)).

End Subscription.

End Skip.

(** A call made by one of the two sources of [TakeUntil] and [SkipUntil]:
    by [terminus], subscribed to first, or by [source]. *)
Inductive Call (T U : Type) : Type :=
| FromTerminus (ev : Event U)
| FromSource (ev : Event T).

Arguments FromTerminus {T U} ev.
Arguments FromSource {T U} ev.

Module TakeUntil.

Module TerminusState.

Inductive type : Type := Live | Terminated.

End TerminusState.

Module TakeState.

Inductive type : Type := Taking | Completed.

End TakeState.

Section Subscription.

Variables T U : Type.

Record Subscription : Type := mk {
  terminusState : TerminusState.type;
  takeState : TakeState.type;
  terminusObserver : CreatedObserver.t;   (* built by Subscribe(terminus, ...) *)
  sourceObserver : CreatedObserver.t;     (* built by Subscribe(source, ...) *)
  base : CreatedObservable.Subscription T
}.

(** The three lambdas given to the subscription to [terminus]. *)
Definition terminus_on_any (s : Subscription) : Subscription :=
  mk TerminusState.Terminated (takeState s) (terminusObserver s) (sourceObserver s)
     (base s).

(** The lambdas given to the subscription to [source]. *)
Definition on_next (element : T) (s : Subscription) : Subscription :=
  match terminusState s with
  | TerminusState.Live =>
      mk (terminusState s) (takeState s) (terminusObserver s) (sourceObserver s)
         (CreatedObservable.send (Next element) (base s))
  | TerminusState.Terminated =>
      (* state->takeState.exchange(TakeState::Completed) == TakeState::Taking *)
      let previous := takeState s in
      let s := mk (terminusState s) TakeState.Completed (terminusObserver s)
                  (sourceObserver s) (base s) in
      match previous with
      | TakeState.Taking =>
          mk (terminusState s) (takeState s) (terminusObserver s) (sourceObserver s)
             (CreatedObservable.dispose_cd
                (CreatedObservable.send Completed (base s)))
      | TakeState.Completed => s
      end
  end.

Definition on_completed (s : Subscription) : Subscription :=
  let previous := takeState s in
  let s := mk (terminusState s) TakeState.Completed (terminusObserver s)
              (sourceObserver s) (base s) in
  match previous with
  | TakeState.Taking =>
      mk TerminusState.Terminated (takeState s) (terminusObserver s) (sourceObserver s)
         (CreatedObservable.dispose_cd (CreatedObservable.send Completed (base s)))
  | TakeState.Completed => s
  end.

Definition on_error (error : exception_ptr) (s : Subscription) : Subscription :=
  mk TerminusState.Terminated TakeState.Completed (terminusObserver s)
     (sourceObserver s)
     (CreatedObservable.dispose_cd (CreatedObservable.send (Error error) (base s))).

Definition deliver (s : Subscription) (call : Call T U) : Subscription :=
  match call with
  | FromTerminus ev =>
      let '(o, invoked) := CreatedObserver.call ev (terminusObserver s) in
      let s := mk (terminusState s) (takeState s) o (sourceObserver s) (base s) in
      match invoked with
      | Some _ => terminus_on_any s
      | None => s
      end
  | FromSource ev =>
      let '(o, invoked) := CreatedObserver.call ev (sourceObserver s) in
      let s := mk (terminusState s) (takeState s) (terminusObserver s) o (base s) in
      match invoked with
      | Some (Next element) => on_next element s
      | Some Completed => on_completed s
      | Some (Error error) => on_error error s
      | None => s
      end
  end.

Definition run (calls : list (Call T U)) (s : Subscription) : Subscription :=
  fold_left deliver calls s.

(** [CreatedObservable::Subscribe] around the lambda of [TakeUntil], on
    the path that is not rescheduled.  [terminus] makes the calls
    [coldTerminus] before its [Subscribe] returns, then [source] makes the
    calls [coldSource] before its [Subscribe] returns.  The observer of a
    source that has not been subscribed to yet holds no callable. *)
Definition Subscribe (coldTerminus : list (Event U)) (coldSource : list (Event T))
  : Subscription :=
  let s := mk TerminusState.Live TakeState.Taking
              (CreatedObserver.CreateObserver true true true)
              (CreatedObserver.mk false false false)
              (CreatedObservable.enter (Some (@CreatedAutoDetachObserver.quiet T))) in
  let s := run (map FromTerminus coldTerminus) s in
  let s := mk (terminusState s) (takeState s) (terminusObserver s) (sourceObserver s)
              (CreatedObservable.Add (SourceSubscription 0) (base s)) in
  let s := mk (terminusState s) (takeState s) (terminusObserver s)
              (CreatedObserver.CreateObserver true true true) (base s) in
  let s := run (map FromSource coldSource) s in
  let s := mk (terminusState s) (takeState s) (terminusObserver s) (sourceObserver s)
              (CreatedObservable.Add (SourceSubscription 1) (base s)) in
  mk (terminusState s) (takeState s) (terminusObserver s) (sourceObserver s)
     (CreatedObservable.leave Composite (base s)).

(** [TakeUntil(source, terminus)] subscribed, with the calls [hot] made
    by the two sources once the subscription is set up. *)
Definition TakeUntil (coldTerminus : list (Event U)) (coldSource : list (Event T))
           (hot : list (Call T U)) : Subscription :=
  run hot (Subscribe coldTerminus coldSource).

End Subscription.

End TakeUntil.

Module SkipUntil.

Module SkipState.

Inductive type : Type := Skipping | Taking.

End SkipState.

Section Subscription.

Variables T U : Type.

Record Subscription : Type := mk {
  skipState : SkipState.type;
  terminusObserver : CreatedObserver.t;   (* built by Subscribe(terminus, ...) *)
  sourceObserver : CreatedObserver.t;     (* built by Subscribe(source, ...) *)
  base : CreatedObservable.Subscription T
}.

(** The three lambdas given to the subscription to [terminus]. *)
Definition terminus_on_any (s : Subscription) : Subscription :=
  mk SkipState.Taking (terminusObserver s) (sourceObserver s) (base s).

(** The lambdas given to the subscription to [source]. *)
Definition on_next (element : T) (s : Subscription) : Subscription :=
  match skipState s with
  | SkipState.Taking =>
      mk (skipState s) (terminusObserver s) (sourceObserver s)
         (CreatedObservable.send (Next element) (base s))
  | SkipState.Skipping => s
  end.

Definition on_completed (s : Subscription) : Subscription :=
  mk (skipState s) (terminusObserver s) (sourceObserver s)
     (CreatedObservable.dispose_cd (CreatedObservable.send Completed (base s))).

Definition on_error (error : exception_ptr) (s : Subscription) : Subscription :=
  mk (skipState s) (terminusObserver s) (sourceObserver s)
     (CreatedObservable.dispose_cd (CreatedObservable.send (Error error) (base s))).

Definition deliver (s : Subscription) (call : Call T U) : Subscription :=
  match call with
  | FromTerminus ev =>
      let '(o, invoked) := CreatedObserver.call ev (terminusObserver s) in
      let s := mk (skipState s) o (sourceObserver s) (base s) in
      match invoked with
      | Some _ => terminus_on_any s
      | None => s
      end
  | FromSource ev =>
      let '(o, invoked) := CreatedObserver.call ev (sourceObserver s) in
      let s := mk (skipState s) (terminusObserver s) o (base s) in
      match invoked with
      | Some (Next element) => on_next element s
      | Some Completed => on_completed s
      | Some (Error error) => on_error error s
      | None => s
      end
  end.

Definition run (calls : list (Call T U)) (s : Subscription) : Subscription :=
  fold_left deliver calls s.

(** [CreatedObservable::Subscribe] around the lambda of [SkipUntil], on
    the path that is not rescheduled; the sources are subscribed to as in
    [TakeUntil]. *)
Definition Subscribe (coldTerminus : list (Event U)) (coldSource : list (Event T))
  : Subscription :=
  let s := mk SkipState.Skipping
              (CreatedObserver.CreateObserver true true true)
              (CreatedObserver.mk false false false)
              (CreatedObservable.enter (Some (@CreatedAutoDetachObserver.quiet T))) in
  let s := run (map FromTerminus coldTerminus) s in
  let s := mk (skipState s) (terminusObserver s) (sourceObserver s)
              (CreatedObservable.Add (SourceSubscription 0) (base s)) in
  let s := mk (skipState s) (terminusObserver s)
              (CreatedObserver.CreateObserver true true true) (base s) in
  let s := run (map FromSource coldSource) s in
  let s := mk (skipState s) (terminusObserver s) (sourceObserver s)
              (CreatedObservable.Add (SourceSubscription 1) (base s)) in
  mk (skipState s) (terminusObserver s) (sourceObserver s)
     (CreatedObservable.leave Composite (base s)).

Definition SkipUntil (coldTerminus : list (Event U)) (coldSource : list (Event T))
           (hot : list (Call T U)) : Subscription :=
  run hot (Subscribe coldTerminus coldSource).

End Subscription.

End SkipUntil.

Module ToStdCollection.

(** What the operator asks of [StdCollection]: a default constructor and
    [insert(end(), element)]. *)
Class StdCollection (C Value : Type) : Type := {
  empty : C;
  insert_end : C -> Value -> C
}.

(** [std::vector<Value>] and [std::list<Value>]. *)
#[export] Instance vector (Value : Type) : StdCollection (list Value) Value := {
  empty := [];
  insert_end c element := c ++ [element]
}.

Section Subscription.

Variables C Value : Type.
Context `{StdCollection C Value}.

Record Subscription : Type := mk {
  stdCollection : C;
  inner : CreatedObserver.t;      (* built by Subscribe(source, ...) *)
  base : CreatedObservable.Subscription C
}.

Definition on_next (element : Value) (s : Subscription) : Subscription :=
  mk (insert_end (stdCollection s) element) (inner s) (base s).

(** [observer->OnNext(std::move( *stdCollection.get()))]: the collection
    is handed over and left empty. *)
Definition on_completed (s : Subscription) : Subscription :=
  mk empty (inner s)
     (CreatedObservable.send Completed
        (CreatedObservable.send (Next (stdCollection s)) (base s))).

Definition on_error (error : exception_ptr) (s : Subscription) : Subscription :=
  mk (stdCollection s) (inner s) (CreatedObservable.send (Error error) (base s)).

Definition deliver (s : Subscription) (ev : Event Value) : Subscription :=
  let '(o, invoked) := CreatedObserver.call ev (inner s) in
  let s := mk (stdCollection s) o (base s) in
  match invoked with
  | Some (Next element) => on_next element s
  | Some Completed => on_completed s
  | Some (Error error) => on_error error s
  | None => s
  end.

Definition run (evs : list (Event Value)) (s : Subscription) : Subscription :=
  fold_left deliver evs s.

(** [CreatedObservable::Subscribe] around the lambda of
    [ToStdCollection], on the path that is not rescheduled; [cold] lists
    the calls the source makes before its [Subscribe] returns. *)
Definition Subscribe (cold : list (Event Value)) : Subscription :=
  let s := mk empty (CreatedObserver.CreateObserver true true true)
              (CreatedObservable.enter (Some (@CreatedAutoDetachObserver.quiet C))) in
  let s := run cold s in
  mk (stdCollection s) (inner s)
     (CreatedObservable.leave (SourceSubscription 0) (base s)).

Definition ToStdCollection (k : nat) (evs : list (Event Value)) : Subscription :=
  run (skipn k evs) (Subscribe (firstn k evs)).

End Subscription.

End ToStdCollection.

Module DistinctUntilChanged.

Section Subscription.

Variable T : Type.

(** [T()] and [operator==] on [T]. *)
Variable T_default : T.
Variable equal : T -> T -> bool.

(** [struct State { T last; bool hasValue; }] *)
Record State : Type := mkState { last : T; hasValue : bool }.

Record Subscription : Type := mk {
  state : State;
  inner : CreatedObserver.t;      (* built by Subscribe(source, ...) *)
  base : CreatedObservable.Subscription T
}.

Definition on_next (element : T) (s : Subscription) : Subscription :=
  if negb (hasValue (state s)) || negb (equal (last (state s)) element)
  then mk (mkState element true) (inner s)
          (CreatedObservable.send (Next element) (base s))
  else s.

Definition on_completed (s : Subscription) : Subscription :=
  mk (state s) (inner s) (CreatedObservable.send Completed (base s)).

Definition on_error (error : exception_ptr) (s : Subscription) : Subscription :=
  mk (state s) (inner s) (CreatedObservable.send (Error error) (base s)).

Definition deliver (s : Subscription) (ev : Event T) : Subscription :=
  let '(o, invoked) := CreatedObserver.call ev (inner s) in
  let s := mk (state s) o (base s) in
  match invoked with
  | Some (Next element) => on_next element s
  | Some Completed => on_completed s
  | Some (Error error) => on_error error s
  | None => s
  end.

Definition run (evs : list (Event T)) (s : Subscription) : Subscription :=
  fold_left deliver evs s.

(** [CreatedObservable::Subscribe] around the lambda of
    [DistinctUntilChanged], on the path that is not rescheduled; [cold]
    lists the calls the source makes before its [Subscribe] returns. *)
Definition Subscribe (cold : list (Event T)) : Subscription :=
  let s := mk (mkState T_default false)
              (CreatedObserver.CreateObserver true true true)
              (CreatedObservable.enter (Some (@CreatedAutoDetachObserver.quiet T))) in
  let s := run cold s in
  mk (state s) (inner s) (CreatedObservable.leave (SourceSubscription 0) (base s)).

Definition DistinctUntilChanged (k : nat) (evs : list (Event T)) : Subscription :=
  run (skipn k evs) (Subscribe (firstn k evs)).

End Subscription.

End DistinctUntilChanged.

(** ** [GroupBy] *)

Module GroupBy.

Section Subscription.

(** [Key] and [V] are the types the selectors return, [V] being the typedef
    [Value] of the source. *)
Variables T Key V : Type.
Variable keySelector : T -> Result Key.
Variable valueSelector : T -> Result V.
Variable less : Key -> Key -> bool.

(** A call the subscription makes: on the subscriber, which is handed
    groups, or on the subject of a group.  A group is named by the key its
    subject was created with, which is the key of its entry in the map. *)
Inductive Call : Type :=
| ToObserver (ev : Event Key)
| ToGroup (key : Key) (ev : Event V).

(** [std::map<Key, std::shared_ptr<GroupedSubject<Key, Value>>, L>]: the
    keys of the entries in the order of iteration; the entry of a key holds
    the subject that [CreateGroupedSubject] made for it. *)
Definition Groups : Type := list Key.

(** [groups.insert(std::make_pair(key, keySubject))] with a comparison
    that is a strict weak ordering, as [std::map] requires: the map
    afterwards, the key of the entry the returned iterator points to, and
    whether that entry is new.  The entry is new when [less] holds in
    neither direction between [key] and any key of the map. *)
Fixpoint insert (key : Key) (groups : Groups) : Groups * Key * bool :=
  match groups with
  | [] => ([key], key, true)
  | g :: rest =>
      if less key g then (key :: groups, key, true)
      else if less g key then
        let '(rest', groupIt, newGroup) := insert key rest in
        (g :: rest', groupIt, newGroup)
      else (groups, g, false)
  end.

Record Subscription : Type := mk {
  groups : Groups;                (* state->groups *)
  inner : CreatedObserver.t;      (* built by Subscribe(source, ...) *)
  base : CreatedObservable.Subscription Key;
  trace : list Call;              (* the calls made, in order *)
  aborted : bool                  (* the process has ended *)
}.

(** [observer->On...(...)]: the call on the auto-detach observer, and how
    it ends. *)
Definition send (ev : Event Key) (s : Subscription)
  : Subscription * CreatedAutoDetachObserver.Exit :=
  let r := CreatedAutoDetachObserver.call ev (CreatedObservable.observer (base s)) in
  (mk (groups s) (inner s) (CreatedObservable.send ev (base s))
      (trace s ++ map ToObserver (CreatedAutoDetachObserver.delivered r))
      (aborted s),
   CreatedAutoDetachObserver.exit r).

(** A call on the subject of a group. *)
Definition push (key : Key) (ev : Event V) (s : Subscription) : Subscription :=
  mk (groups s) (inner s) (base s) (trace s ++ [ToGroup key ev]) (aborted s).

Definition abort (s : Subscription) : Subscription :=
  mk (groups s) (inner s) (base s) (trace s) true.

Definition on_next (element : T) (s : Subscription) : Subscription :=
  (* util::maybe<Key> key; try { key.set(keySelector(element)); }
     catch (...) { observer->OnError(std::current_exception()); } *)
  match keySelector element with
  | Aborted => abort s
  | Raised e => fst (send (Error (current_exception e)) s)
  | Value key =>
      (* std::tie(groupIt, newGroup) = state->groups.insert(...) *)
      let '(groups', groupIt, newGroup) := insert key (groups s) in
      let s := mk groups' (inner s) (base s) (trace s) (aborted s) in
      (* if (newGroup) observer->OnNext(nextGroup); *)
      let '(s, exit) :=
        if newGroup then send (Next key) s
        else (s, CreatedAutoDetachObserver.Returns) in
      match exit with
      | CreatedAutoDetachObserver.Throws => s
      | CreatedAutoDetachObserver.Returns =>
          (* util::maybe<Value> result; try { result.set(valueSelector(element)); }
             catch (...) { observer->OnError(std::current_exception()); }
             if (!!result) groupIt->second->OnNext(std::move( *result.get())); *)
          match valueSelector element with
          | Aborted => abort s
          | Raised e => fst (send (Error (current_exception e)) s)
          | Value result => push groupIt (Next result) s
          end
      end
  end.

(** [for (auto& group : state->groups) group.second->On...(...)] *)
Definition push_all (ev : Event V) (s : Subscription) : Subscription :=
  fold_left (fun s g => push g ev s) (groups s) s.

Definition on_completed (s : Subscription) : Subscription :=
  fst (send Completed (push_all Completed s)).

Definition on_error (error : exception_ptr) (s : Subscription) : Subscription :=
  fst (send (Error error) (push_all (Error error) s)).

Definition deliver (s : Subscription) (ev : Event T) : Subscription :=
  if aborted s then s else
  let '(o, invoked) := CreatedObserver.call ev (inner s) in
  let s := mk (groups s) o (base s) (trace s) (aborted s) in
  match invoked with
  | Some (Next element) => on_next element s
  | Some Completed => on_completed s
  | Some (Error error) => on_error error s
  | None => s
  end.

Definition run (evs : list (Event T)) (s : Subscription) : Subscription :=
  fold_left deliver evs s.

(** [CreatedObservable::Subscribe] around the lambda of [GroupBy], on the
    path that is not rescheduled, for a subscriber whose calls end as
    [subscriber] tells and for subjects of groups that return from every
    call; [cold] lists the calls the source makes before its [Subscribe]
    returns. *)
Definition Subscribe (subscriber : CreatedAutoDetachObserver.Inner Key)
           (cold : list (Event T)) : Subscription :=
  let s := mk [] (CreatedObserver.CreateObserver true true true)
              (CreatedObservable.enter (Some subscriber)) [] false in
  let s := run cold s in
  mk (groups s) (inner s)
     (CreatedObservable.leave (SourceSubscription 0) (base s)) (trace s) (aborted s).

Definition GroupBy (subscriber : CreatedAutoDetachObserver.Inner Key)
           (k : nat) (evs : list (Event T)) : Subscription :=
  run (skipn k evs) (Subscribe subscriber (firstn k evs)).

End Subscription.

Arguments ToObserver {Key V} ev.
Arguments ToGroup {Key V} key ev.

End GroupBy.

(** ** [ConnectableSubject], [Multicast] and [Publish] *)

Module ConnectableSubject.

(** What [ConnectableSubject<Source, Subject>] asks of the class it is given
    as [Subject]: observers can subscribe to it, and the source can call it
    as an observer. *)
Class MulticastSubject (T Subject : Type) : Type := {
  call : AsyncSubject.Call T -> Subject -> Subject * list (Delivery T)
}.

#[global] Instance OfSubject (T : Type) : MulticastSubject T Subject.t :=
  {| call := @SubjectClient.step T |}.

#[global] Instance OfBehaviorSubject (T : Type)
  : MulticastSubject T (BehaviorSubject.t T) :=
  {| call := @BehaviorSubject.step T |}.

#[global] Instance OfAsyncSubject (T : Type)
  : MulticastSubject T (AsyncSubject.t T) :=
  {| call := @AsyncSubject.step T |}.

Section Connectable.

Context {T Subject : Type} `{MulticastSubject T Subject}.

(** The source is foreign code: [cold n] lists the calls it makes on the
    observer it is given while its [Subscribe] runs for the [n]-th time, and
    [SourceSubscription n] is the handle that call returns. *)
Variable cold : nat -> list (Event T).

(** A call of the source on [observer(subject)]. *)
Definition arrives (ev : Event T) : AsyncSubject.Call T :=
  match ev with
  | Next element => AsyncSubject.CallOnNext element
  | Completed => AsyncSubject.CallOnCompleted T
  | Error error => AsyncSubject.CallOnError T error
  end.

Fixpoint calls (cs : list (AsyncSubject.Call T)) (s : Subject) : Subject * list (Delivery T) :=
  match cs with
  | [] => (s, [])
  | c :: rest =>
      let '(s1, calls1) := call c s in
      let '(s2, calls2) := calls rest s1 in
      (s2, calls1 ++ calls2)
  end.

Record t : Type := mk {
  subject : Subject;
  subscription : option Disposable;    (* util::maybe<Disposable> *)
  subscribed : nat;                    (* calls of source->Subscribe so far *)
  released : list Disposable           (* handles disposed *)
}.

(** [ConnectableSubject(Source source, Subject subject)] *)
Definition create (subjectArg : Subject) : t := mk subjectArg None 0 [].

(** [Connect()], for what it does before it returns its [Disposable]. *)
Definition Connect (s : t) : t * list (Delivery T) :=
  match subscription s with
  | Some _ => (s, [])
  | None =>
      (* subscription.set(source->Subscribe(observer(subject))) *)
      let '(subject', handed) := calls (map arrives (cold (subscribed s))) (subject s) in
      (mk subject' (Some (SourceSubscription (subscribed s))) (S (subscribed s))
          (released s),
       handed)
  end.

(** The function of the [Disposable] that [Connect] returns.  It captures
    the connectable subject and nothing else, so that the handles returned
    by different calls of [Connect] run the same function. *)
Definition Disconnect (s : t) : t :=
  match subscription s with
  | Some d => mk (subject s) None (subscribed s) (released s ++ [d])
  | None => s
  end.

(** The calls made on a connectable subject: [Connect], a run of the
    function of a handle it returned, and the calls that go to the subject
    ([Subscribe], the disposal of a subscription, and the calls of the
    source). *)
Inductive Call : Type :=
| CallConnect
| CallDisconnect
| CallSubject (c : AsyncSubject.Call T).

Definition step (c : Call) (s : t) : t * list (Delivery T) :=
  match c with
  | CallConnect => Connect s
  | CallDisconnect => (Disconnect s, [])
  | CallSubject c =>
      let '(subject', handed) := call c (subject s) in
      (mk subject' (subscription s) (subscribed s) (released s), handed)
  end.

Fixpoint run (cs : list Call) (s : t) : t * list (Delivery T) :=
  match cs with
  | [] => (s, [])
  | c :: rest =>
      let '(s1, calls1) := step c s in
      let '(s2, calls2) := run rest s1 in
      (s2, calls1 ++ calls2)
  end.

(** [Multicast(source, multicastSubject)] *)
Definition Multicast (multicastSubject : Subject) : t := create multicastSubject.

End Connectable.

Arguments t : clear implicits.
Arguments Call : clear implicits.
Arguments CallConnect {T}.
Arguments CallDisconnect {T}.

(** [Publish(source)], [Publish(source, value)] and [PublishLast(source)] *)
Definition Publish (T : Type) : t Subject.t :=
  Multicast Subject.CreateSubject.

Definition Publish_value {T : Type} (value : T) : t (BehaviorSubject.t T) :=
  Multicast (BehaviorSubject.CreateBehaviorSubject value).

Definition PublishLast (T : Type) : t (AsyncSubject.t T) :=
  Multicast (AsyncSubject.CreateAsyncSubject T).

End ConnectableSubject.

(** * Views of the subscriptions

    The definitions of this part do not model code: they name what the
    statements and the invariants of the proofs talk about. *)

Module AsyncSubjectView.

(** The number of empty slots of a table. *)
Fixpoint free (observers : Observers) : nat :=
  match observers with
  | [] => 0
  | None :: rest => S (free rest)
  | Some _ :: rest => free rest
  end.

Section View.

Variable T : Type.

(** While the subject forwards, [slotCount] counts the empty slots. *)
Definition counted (s : AsyncSubject.t T) : Prop :=
  AsyncSubject.state s = SubjectState.Forwarding ->
  AsyncSubject.slotCount s = free (AsyncSubject.observers s).

End View.

End AsyncSubjectView.

Module ScanView.

Import ScanObservable.

Section View.

Variables T A : Type.
Variable parent : Parent T A.

(** The part of a subscription that decides what the subscriber and the
    seeder are handed: the sink's observer, the accumulation, the two
    traces and the abort flag.  The rest is bookkeeping of disposables,
    which no method reads back. *)
Definition Core : Type :=
  (bool * option A * list (Event A) * list T * bool)%type.

Definition core (s : Subscription T A) : Core :=
  (Sink.observer (base s), accumulation s, received s, seeded s, aborted s).

(** The trace after a call on the sink's observer. *)
Definition emit (o : bool) (r : list (Event A)) (ev : Event A) : list (Event A) :=
  if o then r ++ [ev] else r.

(** What a call of the source does to the core. *)
Definition step (c : Core) (ev : Event T) : Core :=
  let '(o, a, r, q, b) := c in
  if b then c else
  match ev with
  | Next t =>
      let '(res, asked) :=
        accumulate parent t (mk SerialDisposable.fresh SerialDisposable.fresh
                                (Sink.mk o None) a r [] q b) in
      match res with
      | Value a' => (o, Some a', emit o r (Next a'), q ++ asked, b)
      | Raised e => (false, a, emit o r (Error (current_exception e)), q ++ asked, b)
      | Aborted => (o, a, r, q ++ asked, true)
      end
  | Completed =>
      (false, a,
       emit o (match a, seed parent with
               | None, Some sd => emit o r (Next sd)
               | _, _ => r
               end) Completed,
       q, b)
  | Error e => (false, a, emit o r (Error e), q, b)
  end.

End View.

Arguments core {T A} s.
Arguments emit {A} o r ev.
Arguments step {T A} parent c ev.

End ScanView.

Module WhereView.

Import Where.

Section View.

Variable T : Type.

(** The subscriber is either still attached or detached for good; no
    handle has been disposed and the serial disposable is [d]. *)
Definition kept (d : SerialDisposable.t) (s : Subscription T) : Prop :=
  released s = [] /\
  CreatedAutoDetachObserver.disposable (observer s) = d /\
  (CreatedAutoDetachObserver.observer (observer s) =
     Some (@CreatedAutoDetachObserver.quiet T) \/
   CreatedAutoDetachObserver.observer (observer s) = None).

End View.

Arguments kept {T} d s.

End WhereView.

Module TakeView.

Import Take.

Section View.

Context {I : Integral}.
Variable T : Type.

(** The part of a subscription that decides what the subscriber is
    handed: the two counters, the inner observer of the auto-detach
    wrapper, the observer facing the source, and the trace.  The rest is
    bookkeeping of disposables, which no lambda reads back. *)
Definition Core : Type :=
  (Z * Z * option (CreatedAutoDetachObserver.Inner T) * CreatedObserver.t
   * list (Event T))%type.

Definition core (s : Subscription T) : Core :=
  (fst (remaining s), snd (remaining s),
   CreatedAutoDetachObserver.observer (observer s), inner s, received s).

(** What a call of the source does to the core. *)
Definition step (c : Core) (ev : Event T) : Core :=
  let '(r0, r1, o, i, r) := c in
  let '(i', invoked) := CreatedObserver.call ev i in
  match invoked with
  | Some (Next x) =>
      let local := pre_decrement (I := I) r0 in
      if (local >=? 0)%Z then
        let '(o1, rec1) := CreatedAutoDetachObserver.pass o r (Next x) in
        let issued := pre_decrement (I := I) r1 in
        if (issued =? 0)%Z then
          let '(o2, rec2) :=
            CreatedAutoDetachObserver.pass o1 rec1 Completed in
          (local, issued, o2, i', rec2)
        else (local, issued, o1, i', rec1)
      else (local, r1, o, i', r)
  | Some Completed =>
      if ((r1 =? 0) && (r0 <=? 0))%Z then
        let '(o1, rec1) := CreatedAutoDetachObserver.pass o r Completed in
        (r0, r1, o1, i', rec1)
      else (r0, r1, o, i', r)
  | Some (Error e) =>
      let '(o1, rec1) := CreatedAutoDetachObserver.pass o r (Error e) in
      (r0, r1, o1, i', rec1)
  | None => (r0, r1, o, i', r)
  end.

(** The core of a subscription that has seen no call. *)
Definition start (n : Z) : Core :=
  (n, n, Some (@CreatedAutoDetachObserver.quiet T),
   CreatedObserver.mk true true true, []).

(** An observer that still holds its three callbacks. *)
Definition live : CreatedObserver.t := CreatedObserver.mk true true true.

(** What the subscriber of [Take(source, n)] is handed on a sequence of
    the grammar. *)
Definition handed (n : Z) (xs : list T) (t : option Terminal) : list (Event T) :=
  if (n =? 0)%Z then
    match t with Some t => [terminal_event t] | None => [] end
  else if Z.to_nat n <=? length xs then
    map (@Next T) (firstn (Z.to_nat n) xs) ++ [Completed]
  else
    map (@Next T) xs ++ match t with Some (Fails e) => [Error e] | _ => [] end.

(** The same when [Integral] is [unsigned int] and the source has fewer
    than 2^32 values: the countdown is never below zero, so that with a
    count of zero every value is passed on, and completed only when no
    value came before it. *)
Definition handed_unsigned (n : Z) (xs : list T) (t : option Terminal)
  : list (Event T) :=
  if (n =? 0)%Z then
    match xs with
    | [] => match t with Some t => [terminal_event t] | None => [] end
    | _ => map (@Next T) xs ++ match t with Some (Fails e) => [Error e] | _ => [] end
    end
  else handed n xs t.

End View.

Arguments core {T} s.
Arguments step {I T} c ev.
Arguments handed {T} n xs t.
Arguments handed_unsigned {T} n xs t.

End TakeView.

Module MergeView.

Import Merge.

Section View.

Variable T : Type.

(** The part of a subscription that decides what the subscriber is handed:
    the shared counter, the inner observer of the auto-detach wrapper, the
    observers facing the sources, and the trace. *)
Definition Core : Type :=
  (Z * option (CreatedAutoDetachObserver.Inner T) * list CreatedObserver.t
   * list (Event T))%type.

Definition core (s : Subscription T) : Core :=
  (pendingComplete (shared s), CreatedAutoDetachObserver.observer (observer s),
   inner s, received s).

(** What a call of a source does to the core. *)
Definition step (c : Core) (call : nat * Event T) : Core :=
  let '(p, o, inn, r) := c in
  let '(i, ev) := call in
  match nth_error inn i with
  | None => c
  | Some ob =>
      let '(ob', invoked) := CreatedObserver.call ev ob in
      let inn' := replace_nth i ob' inn in
      match invoked with
      | Some (Next x) =>
          let '(o1, r1) := CreatedAutoDetachObserver.pass o r (Next x) in
          (p, o1, inn', r1)
      | Some Completed =>
          let p' := pre_decrement p in
          if (p' =? 0)%Z
          then let '(o1, r1) := CreatedAutoDetachObserver.pass o r Completed in
               (p', o1, inn', r1)
          else (p', o, inn', r)
      | Some (Error e) =>
          let '(o1, r1) := CreatedAutoDetachObserver.pass o r (Error e) in
          (p, o1, inn', r1)
      | None => (p, o, inn', r)
      end
  end.

(** An observer that still holds its three callbacks, and one that has been
    cleared. *)
Definition live : CreatedObserver.t := CreatedObserver.mk true true true.

Definition spent : CreatedObserver.t := CreatedObserver.mk false false false.

(** The subscribing loop, seen from the core. *)
Fixpoint subscribing (todo Index : nat) (cold : nat -> list (Event T)) (c : Core) : Core :=
  match todo with
  | O => c
  | S todo =>
      let '(p, o, inn, r) := c in
      subscribing todo (S Index) cold
        (fold_left step (map (pair Index) (cold Index)) (p, o, inn ++ [live], r))
  end.

(** The core with more observers at the end of its table, and the length
    of the table. *)
Definition extend (ext : list CreatedObserver.t) (c : Core) : Core :=
  let '(p, o, inn, r) := c in (p, o, inn ++ ext, r).

Definition width (c : Core) : nat := length (snd (fst c)).

(** The calls made while sources [first .. first + count - 1] are
    subscribed to. *)
Definition cold_calls (cold : nat -> list (Event T)) (first count : nat)
  : list (nat * Event T) :=
  flat_map (fun i => map (pair i) (cold i)) (seq first count).

(** The calls of source [i] among [calls]; whether one of them is terminal;
    whether any call is an error. *)
Definition proj (i : nat) (calls : list (nat * Event T)) : list (Event T) :=
  map snd (filter (fun c => Nat.eqb (fst c) i) calls).

Definition ended (i : nat) (calls : list (nat * Event T)) : bool :=
  existsb is_terminal (proj i calls).

Definition failed (calls : list (nat * Event T)) : bool :=
  existsb (fun c => is_error (snd c)) calls.

(** The number of cleared observers. *)
Definition used (inn : list CreatedObserver.t) : nat :=
  length (filter (fun o => negb (CreatedObserver.onNext o)) inn).

(** After the calls [P], the observer of source [i] is cleared exactly when
    the source has made a terminal call. *)
Definition slots (n : nat) (P : list (nat * Event T)) (inn : list CreatedObserver.t) : Prop :=
  length inn = n /\
  forall i, i < n -> nth_error inn i = Some (if ended i P then spent else live).

(** What the core looks like after the calls [P] on a fresh merge of [n]
    sources, when every source keeps to the grammar. *)
Definition settled (n : nat) (f : CreatedAutoDetachObserver.Inner T)
           (P : list (nat * Event T)) (c : Core) : Prop :=
  let '(p, o, inn, r) := c in
  slots n P inn /\
  if failed P then o = None /\ r = until_error P
  else p = (Z.of_nat n - Z.of_nat (used inn))%Z /\
       if used inn <? n then o = Some f /\ r = until_error P
       else o = None /\ r = until_error P ++ [Completed].

(** Every observer holds all of its callbacks or none. *)
Definition intact (inn : list CreatedObserver.t) : Prop :=
  Forall (fun o => o = live \/ o = spent) inn.

(** Whatever the sources do, the subscriber is never handed completed. *)
Definition stalled (n : nat) (c : Core) : Prop :=
  let '(p, o, inn, r) := c in
  length inn = n /\ intact inn /\
  (exists k, k <= used inn /\ p = ((- Z.of_nat k) mod size_t_modulus)%Z) /\
  ~ In Completed r.

(** On sources that keep to the grammar, every value is passed on as long
    as no source fails. *)
Definition flowing (n : nat) (f : CreatedAutoDetachObserver.Inner T)
           (P : list (nat * Event T)) (c : Core) : Prop :=
  let '(p, o, inn, r) := c in
  slots n P inn /\
  (exists k, k <= used inn /\ p = ((- Z.of_nat k) mod size_t_modulus)%Z) /\
  (failed P = false -> o = Some f /\ r = until_error P).

(** The handles of the first [m] source subscriptions. *)
Definition handles (m : nat) : list Disposable := map SourceSubscription (seq 0 m).

(** With [m] subscriptions added: the composite either still holds them
    all, or is disposed and all of them have been released. *)
Definition kept (m : nat) (s : Subscription T) : Prop :=
  (ComposableDisposable.disposed (cd s) = true ->
   forall j, j < m -> In (SourceSubscription j) (released s)) /\
  (ComposableDisposable.disposed (cd s) = false ->
   ComposableDisposable.items (cd s) = handles m).

(** A terminal call on the subscriber comes with the disposal of the
    composite. *)
Definition sealed (s : Subscription T) : Prop :=
  existsb is_terminal (received s) = true ->
  ComposableDisposable.disposed (cd s) = true.

End View.

Arguments core {T} s.
Arguments step {T} c call.
Arguments subscribing {T} todo Index cold c.
Arguments extend {T} ext c.
Arguments width {T} c.
Arguments cold_calls {T} cold first count.
Arguments proj {T} i calls.
Arguments ended {T} i calls.
Arguments failed {T} calls.
Arguments slots {T} n P inn.
Arguments settled {T} n f P c.
Arguments stalled {T} n c.
Arguments flowing {T} n f P c.
Arguments kept {T} m s.
Arguments sealed {T} s.

End MergeView.

Module CreatedObservableView.

Import CreatedObservable.

Section View.

Variable T : Type.

(** What decides the calls made on the subscriber: the inner observer of
    the auto-detach wrapper, and the trace so far. *)
Definition view (b : Subscription T)
  : option (CreatedAutoDetachObserver.Inner T) * list (Event T) :=
  (CreatedAutoDetachObserver.observer (observer b), received b).

(** A subscription whose subscriber returns from every call, in a
    subscribe function that disposes its composite with every terminal
    call it makes.  [hs] are the handles added to the composite so far and
    [cur] is what the serial disposable holds.  Either the subscriber is
    attached, has been handed no terminal call, and nothing is disposed; or
    it is detached after a terminal call, the composite is disposed and the
    handles added to it are released. *)
Definition ledger (hs : list Disposable) (cur : option Disposable)
           (b : Subscription T) : Prop :=
  CreatedAutoDetachObserver.disposable (observer b) = SerialDisposable.mk false cur /\
  ((CreatedAutoDetachObserver.observer (observer b) =
      Some (@CreatedAutoDetachObserver.quiet T) /\
    existsb is_terminal (received b) = false /\
    cd b = ComposableDisposable.mk false hs /\
    released b = []) \/
   (CreatedAutoDetachObserver.observer (observer b) = None /\
    existsb is_terminal (received b) = true /\
    cd b = ComposableDisposable.mk true [] /\
    released b = hs)).

(** A subscription whose subscriber returns from every call, in a
    subscribe function that declares no composite: nothing is ever
    disposed. *)
Definition idle (cur : option Disposable) (b : Subscription T) : Prop :=
  CreatedAutoDetachObserver.disposable (observer b) = SerialDisposable.mk false cur /\
  (CreatedAutoDetachObserver.observer (observer b) =
     Some (@CreatedAutoDetachObserver.quiet T) \/
   CreatedAutoDetachObserver.observer (observer b) = None) /\
  cd b = ComposableDisposable.fresh /\
  released b = [].

(** The subscription of a subscribe function that has added nothing to
    its composite and left the serial disposable as created: while the
    subscriber is attached, after a terminal call that came with the
    disposal of the composite, and after a terminal call that did not. *)
Definition running (r : list (Event T)) : Subscription T :=
  mk ComposableDisposable.fresh
     (CreatedAutoDetachObserver.mk (Some (@CreatedAutoDetachObserver.quiet T))
                                   SerialDisposable.fresh) r [].

Definition finished (r : list (Event T)) : Subscription T :=
  mk (ComposableDisposable.mk true [])
     (CreatedAutoDetachObserver.mk None SerialDisposable.fresh) r [].

Definition silenced (r : list (Event T)) : Subscription T :=
  mk ComposableDisposable.fresh
     (CreatedAutoDetachObserver.mk None SerialDisposable.fresh) r [].

End View.

Arguments view {T} b.
Arguments ledger {T} hs cur b.
Arguments idle {T} cur b.

End CreatedObservableView.

Module SkipView.

Import Skip.

(** The number of values a countdown at [c] still skips: [c] when it is
    positive, and [c + 2^32] otherwise, since the countdown only stops at
    zero and wraps around on the way. *)
Definition due (c : Z) : Z := (c - 1) mod 2 ^ 32 + 1.

Section View.

Variable T : Type.

(** Subscriptions that hand the same calls to the subscriber. *)
Definition alike (s1 s2 : Subscription T) : Prop :=
  remaining s1 = remaining s2 /\ inner s1 = inner s2 /\
  CreatedObservableView.view (base s1) = CreatedObservableView.view (base s2).

(** The subscription before the source is subscribed to. *)
Definition start (n : Z) : Subscription T :=
  mk (n, State.Skipping) (CreatedObserver.mk true true true)
     (CreatedObservable.enter (Some (@CreatedAutoDetachObserver.quiet T))).

End View.

Arguments alike {T} s1 s2.

End SkipView.

Module UntilView.

Section View.

Variables T U : Type.

(** The calls of each of the two sources among [calls]. *)
Fixpoint from_source (calls : list (Call T U)) : list (Event T) :=
  match calls with
  | [] => []
  | FromSource ev :: rest => ev :: from_source rest
  | FromTerminus _ :: rest => from_source rest
  end.

Fixpoint from_terminus (calls : list (Call T U)) : list (Event U) :=
  match calls with
  | [] => []
  | FromTerminus ev :: rest => ev :: from_terminus rest
  | FromSource _ :: rest => from_terminus rest
  end.

(** The calls of the two sources in the order in which they reach the
    operator: those [terminus] makes while it is subscribed to, those
    [source] makes while it is subscribed to, then as they come. *)
Definition arrival (coldTerminus : list (Event U)) (coldSource : list (Event T))
           (hot : list (Call T U)) : list (Call T U) :=
  map FromTerminus coldTerminus ++ map FromSource coldSource ++ hot.

End View.

End UntilView.

Module TakeUntilView.

Import TakeUntil.

Section View.

Variable T : Type.

(** Subscriptions that hand the same calls to the subscriber. *)
Definition alike (s1 s2 : Subscription T) : Prop :=
  terminusState s1 = terminusState s2 /\ takeState s1 = takeState s2 /\
  terminusObserver s1 = terminusObserver s2 /\
  sourceObserver s1 = sourceObserver s2 /\
  CreatedObservableView.view (base s1) = CreatedObservableView.view (base s2).

(** The subscription before any call, with both observers in place. *)
Definition start : Subscription T :=
  mk TerminusState.Live TakeState.Taking
     (CreatedObserver.mk true true true) (CreatedObserver.mk true true true)
     (CreatedObservable.enter (Some (@CreatedAutoDetachObserver.quiet T))).

(** What the subscriber is handed for the first call of [source] after
    [terminus] has made a call. *)
Definition closing (after : list (Event T)) : list (Event T) :=
  match after with
  | [] => []
  | Error e :: _ => [Error e]
  | _ :: _ => [Completed]
  end.

End View.

Arguments alike {T} s1 s2.
Arguments closing {T} after.

End TakeUntilView.

Module SkipUntilView.

Import SkipUntil.

Section View.

Variable T : Type.

(** Subscriptions that hand the same calls to the subscriber. *)
Definition alike (s1 s2 : Subscription T) : Prop :=
  skipState s1 = skipState s2 /\
  terminusObserver s1 = terminusObserver s2 /\
  sourceObserver s1 = sourceObserver s2 /\
  CreatedObservableView.view (base s1) = CreatedObservableView.view (base s2).

(** The subscription before any call, with both observers in place. *)
Definition start : Subscription T :=
  mk SkipState.Skipping
     (CreatedObserver.mk true true true) (CreatedObserver.mk true true true)
     (CreatedObservable.enter (Some (@CreatedAutoDetachObserver.quiet T))).

End View.

Arguments alike {T} s1 s2.

End SkipUntilView.

Module DistinctUntilChangedView.

Import DistinctUntilChanged.

Section View.

Variable T : Type.
Variable equal : T -> T -> bool.

(** Subscriptions that hand the same calls to the subscriber. *)
Definition alike (s1 s2 : Subscription T) : Prop :=
  state s1 = state s2 /\ inner s1 = inner s2 /\
  CreatedObservableView.view (base s1) = CreatedObservableView.view (base s2).

(** The subscription before the source is subscribed to. *)
Definition start (T_default : T) : Subscription T :=
  mk (mkState T_default false) (CreatedObserver.mk true true true)
     (CreatedObservable.enter (Some (@CreatedAutoDetachObserver.quiet T))).

(** The last value kept, as the state records it. *)
Definition previous (m : State T) : option T :=
  if hasValue m then Some (last m) else None.

(** Whether a value follows one that is equal to it. *)
Definition repeats (previous : option T) (x : T) : bool :=
  match previous with
  | Some l => equal l x
  | None => false
  end.

(** The values that do not repeat the last value kept, [previous] being
    the last value kept so far. *)
Fixpoint kept (previous : option T) (xs : list T) : list T :=
  match xs with
  | [] => []
  | x :: rest =>
      if repeats previous x then kept previous rest
      else x :: kept (Some x) rest
  end.

(** No value repeats the one before it. *)
Fixpoint changing (previous : option T) (xs : list T) : bool :=
  match xs with
  | [] => true
  | x :: rest => negb (repeats previous x) && changing (Some x) rest
  end.

End View.

Arguments alike {T} s1 s2.

End DistinctUntilChangedView.

Module ToStdCollectionView.

Import ToStdCollection.

Section View.

Variable C : Type.

(** Subscriptions that hand the same calls to the subscriber. *)
Definition alike (s1 s2 : Subscription C) : Prop :=
  stdCollection s1 = stdCollection s2 /\ inner s1 = inner s2 /\
  CreatedObservableView.view (base s1) = CreatedObservableView.view (base s2).

End View.

Arguments alike {C} s1 s2.

End ToStdCollectionView.

Module WhereTraceView.

Import Where.

Section View.

Variable T : Type.

(** What decides the calls made on the subscriber and on the predicate:
    everything but the bookkeeping of disposables. *)
Definition trace (s : Subscription T)
  : option (CreatedAutoDetachObserver.Inner T) * CreatedObserver.t *
    list (Event T) * list T * bool :=
  (CreatedAutoDetachObserver.observer (observer s), inner s, received s, tested s,
   aborted s).

(** The subscription before the source is subscribed to. *)
Definition start : Subscription T :=
  mk (CreatedAutoDetachObserver.CreateAutoDetachObserver
        (Some (@CreatedAutoDetachObserver.quiet T)))
     (CreatedObserver.CreateObserver true true true) [] [] [] false.

(** A predicate that returns. *)
Definition total (p : T -> bool) : T -> Result bool := fun x => Value (p x).

End View.

Arguments trace {T} s.
Arguments total {T} p.

End WhereTraceView.

Module TakeDisposalView.

Import Take.

Section View.

Variable T : Type.

(** The part of a subscription to [Take] that every subscription to a
    [CreatedObservable] has. *)
Definition as_base (s : Subscription T) : CreatedObservable.Subscription T :=
  CreatedObservable.mk (cd s) (observer s) (received s) (released s).

End View.

Arguments as_base {T} s.

End TakeDisposalView.

Module ScanDisposalView.

Import ScanObservable.

Section View.

Variables T A : Type.

(** The bookkeeping of a subscription to a [ScanObservable]: either the
    sink still has its observer and its [cancel], no terminal call has been
    handed over, [state->subscription] holds [cur] and nothing is released;
    or the sink is disposed after a terminal call, [state->subscription] is
    disposed and what it held is released. *)
Definition settled (cur : option Disposable) (s : Subscription T A) : Prop :=
  sink s = SerialDisposable.mk false (Some SinkDisposable) /\
  ((base s = Sink.mk true (Some ProducerSubscription) /\
    subscription s = SerialDisposable.mk false cur /\
    existsb is_terminal (received s) = false /\
    released s = []) \/
   (base s = Sink.mk false None /\
    subscription s = SerialDisposable.mk true None /\
    existsb is_terminal (received s) = true /\
    released s = option_list cur)).

End View.

Arguments settled {T A} cur s.

End ScanDisposalView.

Module SubjectView.

(** The number of slots of a table that hold the observer [o]. *)
Definition holds (o : ObserverId) (observers : Observers) : nat :=
  length (filter (Nat.eqb o) (attached observers)).

Section View.

Variable T : Type.

(** A call by which the observer [o] subscribes or disposes its
    subscription; calls without any of them. *)
Definition mine (o : ObserverId) (c : AsyncSubject.Call T) : bool :=
  match c with
  | AsyncSubject.CallSubscribe _ o' => Nat.eqb o o'
  | AsyncSubject.CallDispose _ o' => Nat.eqb o o'
  | _ => false
  end.

Definition foreign (o : ObserverId) (cs : list (AsyncSubject.Call T)) : bool :=
  forallb (fun c => negb (mine o c)) cs.

(** What the calls push into the subject. *)
Fixpoint pushed (cs : list (AsyncSubject.Call T)) : list (Event T) :=
  match cs with
  | [] => []
  | AsyncSubject.CallOnNext x :: rest => Next x :: pushed rest
  | AsyncSubject.CallOnCompleted _ :: rest => Completed :: pushed rest
  | AsyncSubject.CallOnError _ e :: rest => Error e :: pushed rest
  | _ :: rest => pushed rest
  end.

(** The call that pushes a terminal call. *)
Definition terminate (t : Terminal) : AsyncSubject.Call T :=
  match t with
  | Completes => AsyncSubject.CallOnCompleted T
  | Fails e => AsyncSubject.CallOnError T e
  end.

(** While a [BehaviorSubject] forwards, [slotCount] counts the empty
    slots. *)
Definition behavior_counted (s : BehaviorSubject.t T) : Prop :=
  BehaviorSubject.state s = SubjectState.Forwarding ->
  BehaviorSubject.slotCount s = AsyncSubjectView.free (BehaviorSubject.observers s).

End View.

Arguments mine {T} o c.
Arguments foreign {T} o cs.
Arguments pushed {T} cs.
Arguments behavior_counted {T} s.

End SubjectView.

Module GroupByView.

Import GroupBy.

Section View.

Variables T Key V : Type.
Variable less : Key -> Key -> bool.

(** Keys that [less] does not tell apart: the map keeps one entry for
    them. *)
Definition equivalent (a b : Key) : bool := negb (less a b) && negb (less b a).

(** What [std::map] requires of its comparison: a strict weak ordering. *)
Record StrictWeakOrder : Prop := {
  irreflexive : forall a, less a a = false;
  transitive : forall a b c, less a b = true -> less b c = true -> less a c = true;
  incomparable : forall a b c,
    equivalent a b = true -> equivalent b c = true -> equivalent a c = true
}.

(** Keys in the order of [less]: each is less than all that follow. *)
Fixpoint ascending (gs : list Key) : bool :=
  match gs with
  | [] => true
  | g :: rest => forallb (less g) rest && ascending rest
  end.

(** Subscriptions that make the same calls. *)
Definition alike (s1 s2 : Subscription Key V) : Prop :=
  groups s1 = groups s2 /\ inner s1 = inner s2 /\
  CreatedObservableView.view (base s1) = CreatedObservableView.view (base s2) /\
  trace s1 = trace s2 /\ aborted s1 = aborted s2.

(** The subscription before the source is subscribed to, for a subscriber
    that returns from every call. *)
Definition start : Subscription Key V :=
  mk [] (CreatedObserver.mk true true true)
     (CreatedObservable.enter (Some (@CreatedAutoDetachObserver.quiet Key))) [] false.

(** The subscription as the subscriber sees it: attached with the calls
    [r] made on it, or detached after them. *)
Definition heard (attached : bool) (r : list (Event Key))
  : CreatedObservable.Subscription Key :=
  if attached then CreatedObservableView.running r
  else CreatedObservableView.silenced r.

(** The calls made on the subscriber, and those made on the group whose key
    is equivalent to [g]. *)
Definition to_observer (calls : list (Call Key V)) : list (Event Key) :=
  flat_map (fun c => match c with ToObserver ev => [ev] | ToGroup _ _ => [] end) calls.

Definition to_group (g : Key) (calls : list (Call Key V)) : list (Event V) :=
  flat_map (fun c => match c with
                     | ToGroup k ev => if equivalent g k then [ev] else []
                     | ToObserver _ => []
                     end) calls.

(** The keys that open a group: those equivalent to no key of [seen] and
    to no earlier key. *)
Fixpoint firsts (seen : list Key) (ks : list Key) : list Key :=
  match ks with
  | [] => []
  | k :: rest =>
      if existsb (equivalent k) seen then firsts seen rest
      else k :: firsts (k :: seen) rest
  end.

Section Returning.

(** Selectors that return. *)
Variable key : T -> Key.
Variable value : T -> V.

(** The calls for the elements [xs], [seen] being the keys that have
    opened a group so far: an element whose key is equivalent to one of them
    has its value handed to that group; any other element opens a group,
    which is handed to the subscriber before the value is handed to it. *)
Fixpoint routed (seen : list Key) (xs : list T) : list (Call Key V) :=
  match xs with
  | [] => []
  | x :: rest =>
      match find (equivalent (key x)) seen with
      | Some g => ToGroup g (Next (value x)) :: routed seen rest
      | None =>
          ToObserver (Next (key x)) :: ToGroup (key x) (Next (value x)) ::
          routed (key x :: seen) rest
      end
  end.

End Returning.

(** The calls for a terminal call of the source: the groups [gs] in turn,
    then the subscriber. *)
Definition closing (gs : list Key) (t : option Terminal) : list (Call Key V) :=
  match t with
  | Some term =>
      map (fun g => ToGroup g (terminal_event term)) gs ++
      [ToObserver (terminal_event term)]
  | None => []
  end.

Section Selectors.

(** Selectors that return or throw. *)
Variable keySelector : T -> Result Key.
Variable valueSelector : T -> Result V.

(** The keys selected from [xs], and the values selected from the
    elements of [xs] whose key is equivalent to [g]. *)
Definition keys (xs : list T) : list Key :=
  flat_map (fun x => match keySelector x with Value k => [k] | _ => [] end) xs.

Definition values (g : Key) (xs : list T) : list V :=
  flat_map (fun x => match keySelector x, valueSelector x with
                     | Value k, Value v => if equivalent g k then [v] else []
                     | _, _ => []
                     end) xs.

End Selectors.

End View.

(** A selector that returns. *)
Definition returning {A B} (f : A -> B) : A -> Result B := fun x => Value (f x).

Arguments alike {Key V} s1 s2.
Arguments heard {Key} attached r.
Arguments to_observer {Key V} calls.
Arguments closing {Key V} gs t.

End GroupByView.

Module ConnectableSubjectView.

Import ConnectableSubject.

Section View.

Variable T : Type.

(** Whether a connection is current after the calls [cs], [connected]
    telling whether one was current before them. *)
Fixpoint connected_after (connected : bool) (cs : list (Call T)) : bool :=
  match cs with
  | [] => connected
  | CallConnect :: rest => connected_after true rest
  | CallDisconnect :: rest => connected_after false rest
  | CallSubject _ :: rest => connected_after connected rest
  end.

(** The number of calls of [Connect] among [cs] that find no connection
    current. *)
Fixpoint connections (connected : bool) (cs : list (Call T)) : nat :=
  match cs with
  | [] => 0
  | CallConnect :: rest =>
      (if connected then 0 else 1) + connections true rest
  | CallDisconnect :: rest => connections false rest
  | CallSubject _ :: rest => connections connected rest
  end.

(** A call of the source on the subject. *)
Definition from_source (ev : Event T) : Call T := CallSubject (arrives ev).

End View.

(** The handles returned by the first [n] calls of the source's
    [Subscribe]. *)
Definition handles (n : nat) : list Disposable := map SourceSubscription (seq 0 n).

(** Whether a connection is current. *)
Definition connected {Subject : Type} (s : t Subject) : bool :=
  match subscription s with
  | Some _ => true
  | None => false
  end.

Arguments connected_after {T} connected cs.
Arguments connections {T} connected cs.
Arguments from_source {T} ev.

End ConnectableSubjectView.

(** * Statements about the code *)

Unset Implicit Arguments.

Module Statement.

(** A terminal call on a wrapper that still holds its observer clears the
    observer, silences every later call, and disposes the serial
    disposable. *)
Definition AutoDetach_disposes_on_terminal (T : Type) : Prop :=
  forall (s : CreatedAutoDetachObserver.t T) (final : CreatedAutoDetachObserver.Inner T)
         (ev : Event T),
    CreatedAutoDetachObserver.observer s = Some final ->
    is_terminal ev = true ->
    let r := CreatedAutoDetachObserver.call ev s in
    CreatedAutoDetachObserver.observer (CreatedAutoDetachObserver.after r) = None /\
    (forall evs,
        snd (CreatedAutoDetachObserver.calls evs (CreatedAutoDetachObserver.after r)) = []) /\
    SerialDisposable.disposed
      (CreatedAutoDetachObserver.disposable (CreatedAutoDetachObserver.after r)) = true.

(** Where: when the predicate throws on a value handed to a subscription
    that is still live, the subscriber is handed the error and not the
    value, the subscription to the source is disposed, and no later value
    is processed. *)
Definition Where_terminates_on_throw (T : Type) : Prop :=
  forall (predicate : T -> Result bool) (cold hot later : list (Event T))
         (x : T) (e : exception),
    let s := Where.run predicate hot (Where.Subscribe predicate cold) in
    predicate x = Raised e ->
    CreatedAutoDetachObserver.observer (Where.observer s) <> None ->
    CreatedObserver.onNext (Where.inner s) = true ->
    Where.aborted s = false ->
    let s' := Where.deliver predicate s (Next x) in
    Where.received s' = Where.received s ++ [Error (current_exception e)] /\
    In (SourceSubscription 0) (Where.released s') /\
    Where.tested (Where.run predicate later s') = Where.tested s'.

(** Take: the subscriber is handed min(n, number of values) values, and
    is handed completed last whenever the source hands over at least n
    values or completes. *)
Definition Take_counts_and_completes (T : Type) : Prop :=
  forall (n : Z) (k : nat) (xs : list T) (t : option Terminal),
    (0 <= n <= Take.Integral_max)%Z ->
    let s := Take.Take n k (sequence xs t) in
    length (nexts (Take.received s)) = Nat.min (Z.to_nat n) (length xs) /\
    (Z.to_nat n <= length xs \/ t = Some Completes ->
     exists before, Take.received s = before ++ [Completed]).

(** Merge: on sources that keep to the grammar, the values handed to the
    subscriber are, as a multiset, the values of all the sources; completed
    is handed over exactly when every source has completed; an error is
    handed over exactly when a source fails; and a terminal call comes with
    the disposal of every source subscription. *)
Definition Merge_values_and_termination (T : Type) : Prop :=
  forall (n : nat) (cold : nat -> list (Event T)) (hot : list (nat * Event T)),
    0 < n -> (Z.of_nat n < Merge.size_t_modulus)%Z ->
    Forall (fun call => fst call < n) hot ->
    (forall i, i < n -> conforms (Merge.upstream cold hot i) = true) ->
    let s := Merge.run hot (Merge.Subscribe (Merge.Merge n) cold) in
    let r := Merge.received s in
    Permutation (nexts r)
                (flat_map (fun i => nexts (Merge.upstream cold hot i)) (seq 0 n)) /\
    (In Completed r <-> forall i, i < n -> In Completed (Merge.upstream cold hot i)) /\
    ((exists e, In (Error e) r) <->
     exists i e, i < n /\ In (Error e) (Merge.upstream cold hot i)) /\
    (existsb is_terminal r = true ->
     forall i, i < n -> In (SourceSubscription i) (Merge.released s)).

(** ForEach: [onNext] is applied to every value of the source; when the
    source ends with an error the error is rethrown to the caller, and when
    it ends with completed the call returns. *)
Definition ForEach_rethrows_error (T : Type) : Prop :=
  forall (xs : list T) (t : Terminal),
    let r := ForEach.ForEach (sequence xs (Some t)) in
    snd r = xs /\
    match t with
    | Completes => fst r = ForEach.Returns
    | Fails error =>
        exists e, fst r = ForEach.Rethrows e /\ error = current_exception e
    end.

End Statement.

(** * Proofs *)

(** ** Generalities on traces *)

Lemma nexts_app {T} (a b : list (Event T)) : nexts (a ++ b) = nexts a ++ nexts b.
Proof.
  induction a as [|[x| |e] a IH]; simpl; auto. now rewrite IH.
Qed.

Lemma nexts_map_Next {T} (xs : list T) : nexts (map (@Next T) xs) = xs.
Proof.
  induction xs as [|x xs IH]; simpl; auto. now rewrite IH.
Qed.

(** ** The auto-detach observer *)

Module AutoDetachFacts.

Import CreatedAutoDetachObserver.

Section Facts.

Variable T : Type.

Lemma call_detached (s : t T) (ev : Event T) :
  observer s = None -> call ev s = skip s.
Proof.
  intros H. destruct ev; unfold call, OnNext, OnCompleted, OnError; now rewrite H.
Qed.

Lemma calls_detached (evs : list (Event T)) (s : t T) :
  observer s = None -> calls evs s = (s, []).
Proof.
  induction evs as [|ev evs IH]; intros H; simpl; auto.
  rewrite (call_detached s ev H). simpl. now rewrite (IH H).
Qed.

Lemma guarded_call_observer final (ev : Event T) (s : t T) :
  observer (after (guarded_call final ev s)) = observer s.
Proof.
  unfold guarded_call.
  destruct (final ev); simpl;
    [destruct (SerialDisposable.Dispose (disposable s))|]; reflexivity.
Qed.

Lemma guarded_call_delivered final (ev : Event T) (s : t T) :
  delivered (guarded_call final ev s) = [ev].
Proof.
  unfold guarded_call.
  destruct (final ev); simpl;
    [destruct (SerialDisposable.Dispose (disposable s))|]; reflexivity.
Qed.

(** A call on an observer that returns leaves the serial disposable
    alone. *)
Lemma guarded_call_returns final (ev : Event T) (s : t T) :
  final ev = false ->
  guarded_call final ev s = effect s [ev] [] Returns.
Proof.
  unfold guarded_call. intros ->. simpl. now destruct s.
Qed.

(** A call on an observer that throws disposes it. *)
Lemma guarded_call_throws final (ev : Event T) (s : t T) :
  final ev = true ->
  guarded_call final ev s =
    effect (mk (observer s) (fst (SerialDisposable.Dispose (disposable s))))
           [ev] (snd (SerialDisposable.Dispose (disposable s))) Throws.
Proof.
  unfold guarded_call. intros ->. simpl.
  now destruct (SerialDisposable.Dispose (disposable s)).
Qed.

Lemma Dispose_disposed (d : SerialDisposable.t) :
  SerialDisposable.disposed (fst (SerialDisposable.Dispose d)) = true.
Proof.
  unfold SerialDisposable.Dispose.
  destruct (SerialDisposable.disposed d) eqn:E; simpl; auto.
Qed.

Lemma call_pass (ev : Event T) (s : t T) (r : list (Event T)) :
  (observer (after (call ev s)), r ++ delivered (call ev s)) = pass (observer s) r ev.
Proof.
  unfold pass.
  destruct ev; unfold call, OnNext, OnCompleted, OnError;
    (destruct (observer s) eqn:E;
     [ rewrite guarded_call_observer, guarded_call_delivered; simpl; now rewrite ?E
     | simpl; now rewrite E, app_nil_r ]).
Qed.

(** What the operators see of a call: whether the inner observer stays,
    and what it is handed. *)
Lemma call_observer (ev : Event T) (s : t T) :
  observer (after (call ev s)) =
  match observer s with
  | Some f => if is_terminal ev then None else Some f
  | None => None
  end.
Proof.
  destruct ev; unfold call, OnNext, OnCompleted, OnError;
    destruct (observer s) eqn:E; simpl; auto;
    rewrite guarded_call_observer; simpl; auto.
Qed.

Lemma call_delivered (ev : Event T) (s : t T) :
  delivered (call ev s) =
  match observer s with
  | Some _ => [ev]
  | None => []
  end.
Proof.
  destruct ev; unfold call, OnNext, OnCompleted, OnError;
    destruct (observer s) eqn:E; simpl; auto;
    apply guarded_call_delivered.
Qed.

Lemma call_terminal final (ev : Event T) (s : t T) :
  observer s = Some final -> is_terminal ev = true ->
  call ev s = guarded_call final ev (mk None (disposable s)).
Proof.
  intros H Hev. destruct ev; try discriminate;
    unfold call, OnCompleted, OnError; now rewrite H.
Qed.

End Facts.

End AutoDetachFacts.

(** C3 (as amended): on the first OnCompleted or OnError the wrapper hands
    the call to the inner observer and clears it, so that every later call
    delivers nothing and changes nothing; the serial disposable is disposed
    exactly when the inner observer throws from that call, and is left as it
    was, with nothing released, when the inner observer returns. *)
Theorem AutoDetach_terminal :
  forall (T : Type) (s : CreatedAutoDetachObserver.t T)
         (final : CreatedAutoDetachObserver.Inner T) (ev : Event T),
    CreatedAutoDetachObserver.observer s = Some final ->
    is_terminal ev = true ->
    let r := CreatedAutoDetachObserver.call ev s in
    let s' := CreatedAutoDetachObserver.after r in
    CreatedAutoDetachObserver.delivered r = [ev] /\
    CreatedAutoDetachObserver.observer s' = None /\
    (forall evs, CreatedAutoDetachObserver.calls evs s' = (s', [])) /\
    (final ev = true ->
       SerialDisposable.disposed (CreatedAutoDetachObserver.disposable s') = true /\
       CreatedAutoDetachObserver.released r =
         snd (SerialDisposable.Dispose (CreatedAutoDetachObserver.disposable s)) /\
       CreatedAutoDetachObserver.exit r = CreatedAutoDetachObserver.Throws) /\
    (final ev = false ->
       CreatedAutoDetachObserver.disposable s' = CreatedAutoDetachObserver.disposable s /\
       CreatedAutoDetachObserver.released r = [] /\
       CreatedAutoDetachObserver.exit r = CreatedAutoDetachObserver.Returns).
Proof.
  intros T s final ev Hobs Hev r s'.
  assert (Hr : r = CreatedAutoDetachObserver.guarded_call final ev
                     (CreatedAutoDetachObserver.mk None
                        (CreatedAutoDetachObserver.disposable s)))
    by (apply AutoDetachFacts.call_terminal; assumption).
  assert (Hnone : CreatedAutoDetachObserver.observer s' = None).
  { unfold s'. rewrite Hr, AutoDetachFacts.guarded_call_observer. reflexivity. }
  split; [|split; [|split; [|split]]].
  - rewrite Hr. apply AutoDetachFacts.guarded_call_delivered.
  - exact Hnone.
  - intros evs. now apply AutoDetachFacts.calls_detached.
  - intros Hthrow. unfold s'. rewrite Hr.
    rewrite (AutoDetachFacts.guarded_call_throws T _ _ _ Hthrow). simpl.
    split; [apply AutoDetachFacts.Dispose_disposed | split; reflexivity].
  - intros Hret. unfold s'. rewrite Hr.
    rewrite (AutoDetachFacts.guarded_call_returns T _ _ _ Hret). simpl.
    repeat split.
Qed.

Lemma AutoDetach_terminal_witness :
  let s := CreatedAutoDetachObserver.mk
             (Some (@CreatedAutoDetachObserver.quiet nat))
             (SerialDisposable.mk false (Some (SourceSubscription 0))) in
  let r := CreatedAutoDetachObserver.call Completed s in
  CreatedAutoDetachObserver.delivered r = [Completed] /\
  CreatedAutoDetachObserver.disposable (CreatedAutoDetachObserver.after r) =
    SerialDisposable.mk false (Some (SourceSubscription 0)).
Proof.
  intros s r.
  destruct (@AutoDetach_terminal nat s (@CreatedAutoDetachObserver.quiet nat) Completed
              eq_refl eq_refl) as (Hd & _ & _ & _ & Hret).
  split; [exact Hd | exact (proj1 (Hret eq_refl))].
Defined.

(** C3 fails as stated: a wrapper around an observer that returns from
    OnCompleted keeps its serial disposable, and the subscription stored in
    it, undisposed. *)
Lemma AutoDetach_terminal_keeps_serial :
  ~ Statement.AutoDetach_disposes_on_terminal nat.
Proof.
  intros H.
  specialize (H (CreatedAutoDetachObserver.mk
                   (Some (@CreatedAutoDetachObserver.quiet nat))
                   (SerialDisposable.mk false (Some (SourceSubscription 0))))
                (@CreatedAutoDetachObserver.quiet nat) Completed eq_refl eq_refl).
  destruct H as (_ & _ & H). vm_compute in H. discriminate H.
Qed.

(** ** Subjects *)

(** C7: a subject of the ObservableSubject family (Subject, GroupedSubject)
    whose state is Completed or Error answers Subscribe by calling the
    terminal method on the new observer at once (OnCompleted, or OnError with
    the stored error) and nothing else, leaves its observer table as it was,
    and returns the empty disposable. *)
Theorem ObservableSubject_Subscribe_terminated :
  forall (T : Type) (observer : ObserverId) (error : exception_ptr) (observers : Observers),
    let completed := ObservableSubject.mk SubjectState.Completed error observers in
    let failed := ObservableSubject.mk SubjectState.Error error observers in
    Subject.Subscribe T observer completed = (completed, [(observer, Completed)], Empty) /\
    Subject.Subscribe T observer failed = (failed, [(observer, Error error)], Empty) /\
    (forall (K : Type) (key : K),
        GroupedSubject.Subscribe T observer (GroupedSubject.mk key completed) =
          (GroupedSubject.mk key completed, [(observer, Completed)], Empty) /\
        GroupedSubject.Subscribe T observer (GroupedSubject.mk key failed) =
          (GroupedSubject.mk key failed, [(observer, Error error)], Empty)) /\
    (forall (s : ObservableSubject.t) (e : exception_ptr),
        ObservableSubject.state (fst (ObserverSubject.OnCompleted T s)) = SubjectState.Completed /\
        ObservableSubject.state (fst (ObserverSubject.OnError T e s)) = SubjectState.Error /\
        ObservableSubject.error (fst (ObserverSubject.OnError T e s)) = e).
Proof.
  intros T observer error observers completed failed.
  repeat split.
Qed.

Module AsyncSubjectFacts.

Import AsyncSubject.
Import AsyncSubjectView.

Lemma free_app (a b : Observers) : free (a ++ b) = free a + free b.
Proof.
  induction a as [|[o|] a IH]; simpl; auto.
Qed.

Lemma take_slot_free (o : ObserverId) (observers : Observers) :
  0 < free observers ->
  exists observers',
    take_slot o observers = Some observers' /\
    S (free observers') = free observers /\
    In (Some o) observers'.
Proof.
  induction observers as [|[x|] rest IH]; simpl; intros H.
  - lia.
  - destruct (IH H) as (r & -> & Hf & Hin).
    exists (Some x :: r). simpl. auto.
  - exists (Some o :: rest). simpl. auto.
Qed.

Lemma clear_slot_free (o : ObserverId) (observers observers' : Observers) :
  clear_slot (Some o) observers = Some observers' ->
  free observers' = S (free observers).
Proof.
  revert observers'.
  induction observers as [|[x|] rest IH]; simpl; intros observers' H.
  - discriminate.
  - destruct (Nat.eqb x o).
    + injection H as <-. reflexivity.
    + destruct (clear_slot (Some o) rest) as [r|]; [|discriminate].
      injection H as <-. simpl. now apply IH.
  - destruct (clear_slot (Some o) rest) as [r|]; [|discriminate].
    injection H as <-. simpl. f_equal. now apply IH.
Qed.

Section Facts.

Variable T : Type.

Lemma counted_step (c : Call T) (s : t T) :
  counted s -> counted (fst (step c s)).
Proof.
  unfold counted. intros Hs.
  destruct c as [o|o|x| |e]; simpl.
  - unfold Subscribe, Subscribe_locked.
    destruct (state s) eqn:Est; simpl; try (rewrite Est; intros; discriminate).
    specialize (Hs eq_refl).
    destruct (0 <? slotCount s) eqn:Epos.
    + apply Nat.ltb_lt in Epos.
      destruct (take_slot_free o (observers s)) as (r & -> & Hf & _); [lia|].
      simpl. intros _. lia.
    + apply Nat.ltb_ge in Epos. simpl. intros _.
      rewrite free_app. simpl. lia.
  - unfold RemoveObserver.
    destruct (clear_slot (Some o) (observers s)) as [r|] eqn:Ec; simpl; auto.
    intros Hst. rewrite (clear_slot_free _ _ _ Ec). f_equal. auto.
  - unfold OnNext. destruct (state s) eqn:Est; simpl; auto;
      rewrite Est; intros; discriminate.
  - intros; discriminate.
  - intros; discriminate.
Qed.

Lemma counted_run (cs : list (Call T)) (s : t T) :
  counted s -> counted (fst (run cs s)).
Proof.
  revert s. induction cs as [|c cs IH]; intros s Hs; simpl; auto.
  pose proof (counted_step c s Hs) as H1.
  destruct (step c s) as [s1 calls1]. simpl in H1.
  specialize (IH s1 H1).
  destruct (run cs s1) as [s2 calls2]. exact IH.
Qed.

Lemma counted_create : counted (CreateAsyncSubject T).
Proof. intros _. reflexivity. Qed.

Lemma seen_by_app (o : ObserverId) (a b : list (Delivery T)) :
  seen_by o (a ++ b) = seen_by o a ++ seen_by o b.
Proof.
  unfold seen_by. now rewrite filter_app, map_app.
Qed.

(** What one observer is handed by [OnCompleted]: the batch, once for
    every slot that holds it. *)
Lemma seen_by_batches (o : ObserverId) (v : option T) (l : list ObserverId) :
  seen_by o
    (flat_map (fun o' =>
                 match v with Some x => [(o', Next x)] | None => [] end
                 ++ [(o', Completed)]) l) =
  flat_map (fun _ => match v with Some x => [Next x] | None => [] end ++ [Completed])
           (filter (Nat.eqb o) l).
Proof.
  induction l as [|a l IH]; simpl; auto.
  rewrite seen_by_app, IH. clear IH.
  rewrite (Nat.eqb_sym o a).
  destruct (Nat.eqb a o) eqn:E.
  - apply Nat.eqb_eq in E. subst a. simpl. f_equal.
    unfold seen_by. destruct v; simpl; rewrite Nat.eqb_refl; simpl;
      try rewrite Nat.eqb_refl; reflexivity.
  - replace (seen_by o _) with (@nil (Event T)); auto.
    unfold seen_by. destruct v; simpl; rewrite E; simpl; try rewrite E; reflexivity.
Qed.

End Facts.

End AsyncSubjectFacts.

(** C6: an AsyncSubject that is forwarding answers OnNext by replacing the
    cached value and calling nobody; OnCompleted hands every attached
    observer the cached value (when there is one) and then completed; an
    observer that subscribes while the subject forwards is handed nothing,
    is put in the table and gets the removing disposable; an observer that
    subscribes after completion is handed the recorded value and then
    completed; and the scenario "publish 1, 2, 3; attach O1; complete;
    attach O2" hands [3; completed] to both. *)
Theorem AsyncSubject_behaviour :
  forall (T : Type),
    (forall slotCount value error observers (element : T),
        AsyncSubject.OnNext element
          (AsyncSubject.mk slotCount value SubjectState.Forwarding error observers) =
        (AsyncSubject.mk slotCount (Some element) SubjectState.Forwarding error observers,
         [])) /\
    (forall (s : AsyncSubject.t T) (o : ObserverId),
        let r := AsyncSubject.OnCompleted s in
        AsyncSubject.state (fst r) = SubjectState.Completed /\
        AsyncSubject.value (fst r) = AsyncSubject.value s /\
        AsyncSubject.seen_by o (snd r) =
          flat_map (fun _ => match AsyncSubject.value s with
                             | Some v => [Next v]
                             | None => []
                             end ++ [Completed])
                   (filter (Nat.eqb o) (attached (AsyncSubject.observers s)))) /\
    (forall (cs : list (AsyncSubject.Call T)) (o : ObserverId),
        let s := fst (AsyncSubject.run cs (AsyncSubject.CreateAsyncSubject T)) in
        AsyncSubject.state s = SubjectState.Forwarding ->
        let r := AsyncSubject.Subscribe o s in
        snd (fst r) = [] /\ snd r = Unsubscribe o /\
        In (Some o) (AsyncSubject.observers (fst (fst r))) /\
        AsyncSubject.value (fst (fst r)) = AsyncSubject.value s /\
        AsyncSubject.state (fst (fst r)) = SubjectState.Forwarding) /\
    (forall slotCount error observers (v : T) (o : ObserverId),
        let s := AsyncSubject.mk slotCount (Some v) SubjectState.Completed error observers in
        AsyncSubject.Subscribe o s = (s, [(o, Next v); (o, Completed)], Empty)) /\
    (let calls :=
       snd (AsyncSubject.run
              [AsyncSubject.CallOnNext 1; AsyncSubject.CallOnNext 2;
               AsyncSubject.CallOnNext 3; AsyncSubject.CallSubscribe nat 1;
               AsyncSubject.CallOnCompleted nat; AsyncSubject.CallSubscribe nat 2]
              (AsyncSubject.CreateAsyncSubject nat)) in
     AsyncSubject.seen_by 1 calls = [Next 3; Completed] /\
     AsyncSubject.seen_by 2 calls = [Next 3; Completed]).
Proof.
  intros T. split; [|split; [|split; [|split]]].
  - reflexivity.
  - intros s o r. split; [reflexivity | split; [reflexivity|]].
    unfold r, AsyncSubject.OnCompleted. simpl.
    apply AsyncSubjectFacts.seen_by_batches.
  - intros cs o s Hst r.
    pose proof (AsyncSubjectFacts.counted_run T cs _
                  (AsyncSubjectFacts.counted_create T) Hst) as Hcount.
    fold s in Hcount.
    unfold r, AsyncSubject.Subscribe, AsyncSubject.Subscribe_locked.
    rewrite Hst. simpl.
    destruct (0 <? AsyncSubject.slotCount s) eqn:Epos.
    + apply Nat.ltb_lt in Epos.
      destruct (AsyncSubjectFacts.take_slot_free o (AsyncSubject.observers s))
        as (obs' & -> & _ & Hin); [lia|].
      simpl. auto.
    + simpl. repeat split; auto.
      apply in_or_app. right. left. reflexivity.
  - reflexivity.
  - split; reflexivity.
Qed.

Lemma AsyncSubject_behaviour_witness :
  let s := fst (AsyncSubject.run [AsyncSubject.CallOnNext 7; AsyncSubject.CallSubscribe nat 4;
                                  AsyncSubject.CallDispose nat 4]
                  (AsyncSubject.CreateAsyncSubject nat)) in
  AsyncSubject.state s = SubjectState.Forwarding /\
  snd (fst (AsyncSubject.Subscribe 5 s)) = [] /\
  In (Some 5) (AsyncSubject.observers (fst (fst (AsyncSubject.Subscribe 5 s)))).
Proof.
  intros s.
  assert (Hst : AsyncSubject.state s = SubjectState.Forwarding) by reflexivity.
  split; [exact Hst|].
  destruct (AsyncSubject_behaviour nat) as (_ & _ & H & _).
  destruct (H [AsyncSubject.CallOnNext 7; AsyncSubject.CallSubscribe nat 4;
               AsyncSubject.CallDispose nat 4] 5 Hst) as (H1 & _ & H3 & _).
  split; [exact H1 | exact H3].
Defined.

(** ** ForEach *)

Module ForEachFacts.

Import ForEach.

Section Facts.

Variable T : Type.

Lemma drain_app (a b : list (Event T)) (f : Frame T) :
  drain (a ++ b) f = drain b (drain a f).
Proof. unfold drain. apply fold_left_app. Qed.

Lemma drain_values (xs : list T) (d : bool) (e : exception_ptr) (seen : list T) :
  drain (map (@Next T) xs)
        (mk d e (CreatedObserver.mk true true true) seen) =
  mk d e (CreatedObserver.mk true true true) (seen ++ xs).
Proof.
  revert seen. induction xs as [|x xs IH]; intros seen; simpl.
  - now rewrite app_nil_r.
  - unfold drain in *. simpl. unfold deliver at 2. simpl.
    rewrite IH. now rewrite <- app_assoc.
Qed.

End Facts.

End ForEachFacts.

(** C8 (as amended): ForEach applies on_next to every value of the source,
    does not return while the source has not terminated, returns normally
    when the source completes, and rethrows the exception when the source
    ends with an error that carries one; when the source ends with an error
    whose [std::exception_ptr] is null, ForEach returns normally. *)
Theorem ForEach_outcome :
  forall (T : Type) (xs : list T),
    ForEach.ForEach (sequence xs None) = (ForEach.Waits, xs) /\
    ForEach.ForEach (sequence xs (Some Completes)) = (ForEach.Returns, xs) /\
    (forall e : exception,
        ForEach.ForEach (sequence xs (Some (Fails (Some e)))) =
        (ForEach.Rethrows e, xs)) /\
    ForEach.ForEach (sequence xs (Some (Fails None))) = (ForEach.Returns, xs).
Proof.
  intros T xs. unfold ForEach.ForEach, sequence, ForEach.enter,
    CreatedObserver.CreateObserver.
  repeat split; intros; rewrite ForEachFacts.drain_app, ForEachFacts.drain_values;
    reflexivity.
Qed.

(** C8 fails as stated: when the source hands over a value and then an
    error whose [std::exception_ptr] is null, ForEach rethrows nothing and
    returns normally. *)
Lemma ForEach_returns_on_null_error :
  ~ Statement.ForEach_rethrows_error nat.
Proof.
  intros H.
  destruct (H [1] (Fails None)) as [_ (e & Hr & _)].
  vm_compute in Hr. discriminate Hr.
Qed.

(** An error that carries no exception, the null [std::exception_ptr],
    fails the test [error != std::exception_ptr()]: nothing is rethrown. *)
Example ForEach_null_error :
  ForEach.ForEach [Next 1; @Error nat None] = (ForEach.Returns, [1]).
Proof. reflexivity. Qed.

(** ** Scan *)

Module ScanFacts.

Import ScanObservable.
Import ScanView.

Section Facts.

Variables T A : Type.
Variable parent : Parent T A.

Ltac split_cases :=
  repeat (cbn;
          match goal with
          | |- context [match ?x with _ => _ end] =>
              lazymatch x with
              | context [match _ with _ => _ end] => fail
              | _ => destruct x
              end
          end);
  cbn; try reflexivity.

Lemma scan_core_deliver (s : Subscription T A) (ev : Event T) :
  core (deliver parent s ev) = step parent (core s) ev.
Proof.
  destruct s as [k u [o c] a r l q b].
  unfold core, step, deliver, OnNext, OnCompleted, OnError, accumulate, Dispose,
    forward, abort, release_cancel, release_subscription, Sink.Dispose, with_base,
    SerialDisposable.Dispose, option_list, emit.
  cbn. destruct b; [reflexivity|].
  destruct ev as [t| |e]; split_cases.
Qed.

Lemma scan_core_run (evs : list (Event T)) (s : Subscription T A) :
  core (run parent evs s) = fold_left (step parent) evs (core s).
Proof.
  revert s. unfold run.
  induction evs as [|ev evs IH]; intros s; simpl; auto.
  now rewrite IH, scan_core_deliver.
Qed.

Lemma scan_core_Subscribe (observer : bool) (cold : list (Event T)) :
  core (Subscribe parent observer cold) =
  fold_left (step parent) cold (observer, None, [], [], false).
Proof.
  unfold Subscribe. cbn -[run].
  match goal with
  | |- context [run parent cold ?s0] =>
      change (observer, @None A, @nil (Event A), @nil T, false) with (core s0);
      rewrite <- (scan_core_run cold s0); set (s1 := run parent cold s0)
  end.
  destruct (aborted s1) eqn:E; [reflexivity|].
  destruct (SerialDisposable.Set_ (SourceSubscription 0) (subscription s1)).
  unfold core. cbn. now rewrite E.
Qed.

Lemma scan_core_subscribed (observer : bool) (k : nat) (evs : list (Event T)) :
  core (subscribed parent observer k evs) =
  fold_left (step parent) evs (observer, None, [], [], false).
Proof.
  unfold subscribed. rewrite scan_core_run, scan_core_Subscribe, <- fold_left_app.
  now rewrite firstn_skipn.
Qed.

(** With a seed in place the seeder is not asked. *)
Lemma step_seeded (sd : A) (c : Core T A) (ev : Event T) :
  seed parent = Some sd ->
  snd (fst (step parent c ev)) = snd (fst c).
Proof.
  intros Hseed. destruct c as [[[[o a] r] q] b]. unfold step, accumulate. cbn.
  destruct b; [reflexivity|].
  destruct ev as [t| |e]; cbn; auto.
  rewrite Hseed.
  destruct a as [a|]; [destruct (accumulator parent a t)
                      | destruct (accumulator parent sd t)];
    cbn; now rewrite app_nil_r.
Qed.

Lemma run_seeded (sd : A) (evs : list (Event T)) (c : Core T A) :
  seed parent = Some sd ->
  snd (fst (fold_left (step parent) evs c)) = snd (fst c).
Proof.
  intros Hseed. revert c.
  induction evs as [|ev evs IH]; intros c; simpl; auto.
  now rewrite IH, (step_seeded sd).
Qed.

(** Only a callable that aborts ends the process. *)
Lemma step_alive (sd : A) (c : Core T A) (ev : Event T) :
  seed parent = Some sd ->
  (forall a t, accumulator parent a t <> Aborted) ->
  snd c = false -> snd (step parent c ev) = false.
Proof.
  intros Hseed Hacc. destruct c as [[[[o a] r] q] b]. cbn. intros ->.
  destruct ev as [t| |e]; cbn; auto.
  unfold accumulate. cbn. rewrite Hseed.
  destruct a as [a|].
  - specialize (Hacc a t). destruct (accumulator parent a t); cbn; congruence.
  - specialize (Hacc sd t). destruct (accumulator parent sd t); cbn; congruence.
Qed.

Lemma run_alive (sd : A) (evs : list (Event T)) (c : Core T A) :
  seed parent = Some sd ->
  (forall a t, accumulator parent a t <> Aborted) ->
  snd c = false -> snd (fold_left (step parent) evs c) = false.
Proof.
  intros Hseed Hacc. revert c.
  induction evs as [|ev evs IH]; intros c Hc; simpl; auto.
  apply IH. now apply (step_alive sd).
Qed.

End Facts.

Section Seeded.

Variables T A : Type.
Variable f : A -> T -> A.
Variable sd : A.

Lemma values_accumulated (xs : list T) (a : A) (r : list (Event A)) (q : list T) :
  fold_left (step (Scan.seeded sd (Scan.total f))) (map (@Next T) xs) (true, Some a, r, q, false) =
  (true, Some (fold_left f xs a), r ++ map (@Next A) (Scan.running f a xs), q, false).
Proof.
  revert a r q. induction xs as [|x xs IH]; intros a r q; simpl.
  - now rewrite app_nil_r.
  - rewrite app_nil_r, IH, <- app_assoc. reflexivity.
Qed.

Lemma values_scanned (xs : list T) :
  fold_left (step (Scan.seeded sd (Scan.total f))) (map (@Next T) xs) (true, None, [], [], false) =
  (true,
   match xs with [] => None | x :: rest => Some (fold_left f rest (f sd x)) end,
   map (@Next A) (Scan.running f sd xs), [], false).
Proof.
  destruct xs as [|x xs]; simpl; auto.
  now rewrite values_accumulated.
Qed.

Lemma sequence_scanned (xs : list T) (t : option Terminal) :
  fst (fst (fst (fold_left (step (Scan.seeded sd (Scan.total f))) (sequence xs t)
                           (true, None, [], [], false))))
  = (match t with Some _ => false | None => true end,
     match xs with [] => None | x :: rest => Some (fold_left f rest (f sd x)) end) /\
  snd (fst (fst (fold_left (step (Scan.seeded sd (Scan.total f))) (sequence xs t)
                           (true, None, [], [], false))))
  = match t with
    | None => map (@Next A) (Scan.running f sd xs)
    | Some Completes =>
        match xs with
        | [] => [Next sd]
        | _ => map (@Next A) (Scan.running f sd xs)
        end ++ [Completed]
    | Some (Fails e) => map (@Next A) (Scan.running f sd xs) ++ [Error e]
    end.
Proof.
  unfold sequence. rewrite fold_left_app, values_scanned.
  destruct t as [[|e]|]; cbn; auto.
  destruct xs; cbn; auto.
Qed.

End Seeded.

End ScanFacts.

Lemma In_Completed_map_Next {A} (xs : list A) : ~ In Completed (map (@Next A) xs).
Proof.
  induction xs as [|x xs IH]; simpl; [tauto|].
  intros [H|H]; [discriminate | auto].
Qed.

(** C2: Scan with seed [s] and accumulator [f], subscribed to a source that
    hands over [x1 .. xk] and then completes, hands its subscriber
    [f(s,x1)], [f(f(s,x1),x2)], ... and then completed; when the source
    completes without a value the subscriber is handed the seed and then
    completed; and on every sequence of the grammar the subscriber is handed
    completed exactly when the source completes. *)
Theorem Scan_seeded_trace :
  forall (T A : Type) (f : A -> T -> A) (s : A) (xs : list T) (k : nat),
    let scan := ScanObservable.subscribed (Scan.seeded s (Scan.total f)) true k in
    ScanObservable.received (scan (sequence xs (Some Completes))) =
      match xs with
      | [] => [Next s]
      | _ => map (@Next A) (Scan.running f s xs)
      end ++ [Completed] /\
    ScanObservable.received (scan (sequence [] (Some Completes))) = [Next s; Completed] /\
    (forall t : option Terminal,
        In Completed (ScanObservable.received (scan (sequence xs t))) <->
        t = Some Completes).
Proof.
  intros T A f s xs k scan.
  assert (Hrec : forall ys t,
             ScanObservable.received (scan (sequence ys t)) =
             snd (fst (fst (fold_left (ScanView.step (Scan.seeded s (Scan.total f)))
                                      (sequence ys t) (true, None, [], [], false))))).
  { intros ys t. unfold scan.
    pose proof (ScanFacts.scan_core_subscribed T A (Scan.seeded s (Scan.total f)) true k
                  (sequence ys t)) as H.
    unfold ScanView.core in H. now rewrite <- H. }
  split; [|split].
  - rewrite Hrec. now rewrite (proj2 (ScanFacts.sequence_scanned T A f s xs (Some Completes))).
  - rewrite Hrec. now rewrite (proj2 (ScanFacts.sequence_scanned T A f s [] (Some Completes))).
  - intros t. rewrite Hrec, (proj2 (ScanFacts.sequence_scanned T A f s xs t)).
    destruct t as [[|e]|].
    + split; auto. intros _. apply in_or_app. right. left. reflexivity.
    + split; [|discriminate]. intros H. apply in_app_or in H.
      destruct H as [H|[H|[]]]; [|discriminate].
      now apply In_Completed_map_Next in H.
    + split; [|discriminate]. intros H. now apply In_Completed_map_Next in H.
Qed.

(** C9: in the seeded overload of Scan the seeder, which calls abort(), is
    never called, whatever the source hands over and whatever the
    accumulator does; the process can only end through an accumulator that
    itself aborts. *)
Theorem Scan_seeded_never_seeds :
  forall (T A : Type) (seed : A) (accumulator : ScanObservable.Accumulator T A)
         (observer : bool) (k : nat) (evs : list (Event T)),
    let s := ScanObservable.subscribed (Scan.seeded seed accumulator) observer k evs in
    ScanObservable.seeded s = [] /\
    ((forall a t, accumulator a t <> Aborted) -> ScanObservable.aborted s = false).
Proof.
  intros T A seed accumulator observer k evs s.
  pose proof (ScanFacts.scan_core_subscribed T A (Scan.seeded seed accumulator)
                observer k evs) as H.
  fold s in H. unfold ScanView.core in H.
  split.
  - change (ScanObservable.seeded s) with
      (snd (fst (Sink.observer (ScanObservable.base s), ScanObservable.accumulation s,
                 ScanObservable.received s, ScanObservable.seeded s,
                 ScanObservable.aborted s))).
    rewrite H. now rewrite (ScanFacts.run_seeded T A (Scan.seeded seed accumulator) seed).
  - intros Hacc.
    change (ScanObservable.aborted s) with
      (snd (Sink.observer (ScanObservable.base s), ScanObservable.accumulation s,
            ScanObservable.received s, ScanObservable.seeded s,
            ScanObservable.aborted s)).
    rewrite H. now apply (ScanFacts.run_alive T A (Scan.seeded seed accumulator) seed).
Qed.

Lemma Scan_seeded_never_seeds_witness :
  let s := ScanObservable.subscribed (Scan.seeded 0 (Scan.total Nat.add)) true 1
             [Next 1; Next 2; Completed] in
  ScanObservable.seeded s = [] /\ ScanObservable.aborted s = false.
Proof.
  intros s.
  destruct (Scan_seeded_never_seeds nat nat 0 (Scan.total Nat.add) true 1
              [Next 1; Next 2; Completed]) as [H1 H2].
  split; [exact H1|].
  apply H2. intros a t. discriminate.
Defined.

(** The branch that asks the seeder is live code: without a seed the first
    value reaches the seeder, and a seeder that aborts ends the process. *)
Example Scan_unseeded_asks_seeder :
  let s := ScanObservable.subscribed
             (ScanObservable.mkParent None (Scan.total Nat.add) (fun _ => Aborted))
             true 0 [Next 5; Next 6] in
  ScanObservable.seeded s = [5] /\ ScanObservable.aborted s = true.
Proof. split; reflexivity. Qed.

(** ** Where *)

Module WhereFacts.

Import Where.
Import WhereView.

Section Facts.

Variable T : Type.
Variable predicate : T -> Result bool.

Lemma call_quiet (a : CreatedAutoDetachObserver.t T) (ev : Event T) :
  CreatedAutoDetachObserver.observer a = Some (@CreatedAutoDetachObserver.quiet T) ->
  CreatedAutoDetachObserver.call ev a =
  CreatedAutoDetachObserver.effect
    (if is_terminal ev then CreatedAutoDetachObserver.clear a else a)
    [ev] [] CreatedAutoDetachObserver.Returns.
Proof.
  intros H. destruct a as [o d]. simpl in H. subst o.
  destruct ev; reflexivity.
Qed.

Lemma send_live (ev : Event T) (s : Subscription T) :
  CreatedAutoDetachObserver.observer (observer s) = Some (@CreatedAutoDetachObserver.quiet T) ->
  send ev s =
  mk (if is_terminal ev then CreatedAutoDetachObserver.clear (observer s)
      else observer s)
     (inner s) (received s ++ [ev]) (released s) (tested s) (aborted s).
Proof.
  intros H. unfold send. now rewrite (call_quiet _ _ H).
Qed.

Lemma send_detached (ev : Event T) (s : Subscription T) :
  CreatedAutoDetachObserver.observer (observer s) = None ->
  send ev s = s.
Proof.
  intros H. unfold send.
  rewrite (AutoDetachFacts.call_detached T _ ev H). simpl.
  rewrite app_nil_r. now destruct s.
Qed.

Lemma kept_send (d : SerialDisposable.t) (ev : Event T) (s : Subscription T) :
  kept d s -> kept d (send ev s) /\ inner (send ev s) = inner s /\
              tested (send ev s) = tested s /\ aborted (send ev s) = aborted s.
Proof.
  intros (Hr & Hd & [Ho|Ho]).
  - rewrite (send_live _ _ Ho). unfold kept. simpl.
    destruct (is_terminal ev); simpl; auto.
  - rewrite (send_detached _ _ Ho). unfold kept. auto.
Qed.

Lemma kept_deliver (d : SerialDisposable.t) (s : Subscription T) (ev : Event T) :
  kept d s -> kept d (deliver predicate s ev).
Proof.
  intros Hk. unfold deliver.
  destruct (aborted s); auto.
  destruct (CreatedObserver.call ev (inner s)) as [o invoked].
  set (s1 := mk (observer s) o (received s) (released s) (tested s) (aborted s)).
  assert (Hk1 : kept d s1) by exact Hk.
  destruct invoked as [[x| |e]|]; auto.
  - unfold on_next.
    set (s2 := mk (observer s1) (inner s1) (received s1) (released s1)
                  (tested s1 ++ [x]) (aborted s1)).
    assert (Hk2 : kept d s2) by exact Hk1.
    destruct (predicate x) as [[|]|e|].
    + now apply kept_send.
    + exact Hk2.
    + now apply kept_send.
    + exact Hk2.
  - now apply kept_send.
  - now apply kept_send.
Qed.

Lemma kept_run (d : SerialDisposable.t) (evs : list (Event T)) (s : Subscription T) :
  kept d s -> kept d (run predicate evs s).
Proof.
  revert s. unfold run.
  induction evs as [|ev evs IH]; intros s Hk; simpl; auto.
  apply IH. now apply kept_deliver.
Qed.

Lemma kept_Subscribe (cold : list (Event T)) :
  kept (SerialDisposable.mk false (Some (SourceSubscription 0)))
       (Subscribe predicate cold).
Proof.
  unfold Subscribe.
  match goal with
  | |- context [run predicate cold ?s0] =>
      assert (H : kept SerialDisposable.fresh (run predicate cold s0))
  end.
  { apply kept_run. unfold kept. simpl. auto. }
  destruct H as (Hr & Hd & Ho). rewrite Hd. simpl.
  unfold kept. simpl. auto.
Qed.

(** Once the subscriber is detached nothing reaches it. *)
Lemma detached_deliver (s : Subscription T) (ev : Event T) :
  CreatedAutoDetachObserver.observer (observer s) = None ->
  CreatedAutoDetachObserver.observer (observer (deliver predicate s ev)) = None /\
  received (deliver predicate s ev) = received s.
Proof.
  intros Ho. unfold deliver.
  destruct (aborted s); auto.
  destruct (CreatedObserver.call ev (inner s)) as [o invoked].
  destruct invoked as [[x| |e]|]; simpl; auto;
    unfold on_next, on_completed, on_error;
    try destruct (predicate x) as [[|]|e|]; simpl; auto;
    rewrite send_detached; simpl; auto.
Qed.

Lemma detached_run (evs : list (Event T)) (s : Subscription T) :
  CreatedAutoDetachObserver.observer (observer s) = None ->
  received (run predicate evs s) = received s.
Proof.
  revert s. unfold run.
  induction evs as [|ev evs IH]; intros s Ho; simpl; auto.
  destruct (detached_deliver s ev Ho) as [Ho' Hr'].
  now rewrite (IH _ Ho').
Qed.

End Facts.

End WhereFacts.




(** ** Take *)

Module TakeFacts.

Import Take.
Import TakeView.
Import AutoDetachFacts.

Lemma wrap_small (z : Z) :
  (Integral_min <= z <= Integral_max)%Z -> wrap z = z.
Proof.
  unfold wrap, Integral_min, Integral_max. cbn [is_signed int]. intros H.
  rewrite Z.mod_small; lia.
Qed.

Lemma pre_decrement_small (z : Z) :
  (Integral_min < z <= Integral_max)%Z -> pre_decrement z = (z - 1)%Z.
Proof.
  unfold pre_decrement, Integral_min, Integral_max. intros H.
  apply wrap_small. unfold Integral_min, Integral_max. lia.
Qed.

Section Facts.

Context {I : Integral}.
Variable T : Type.

Lemma take_core_dispose_cd (s : Subscription T) : core (dispose_cd s) = core s.
Proof.
  unfold dispose_cd. now destruct (ComposableDisposable.Dispose (cd s)).
Qed.

Lemma take_core_release (s : Subscription T) (d : Disposable) :
  core (release s d) = core s.
Proof.
  destruct d; simpl; auto. apply take_core_dispose_cd.
Qed.

Lemma take_core_releases (ds : list Disposable) (s : Subscription T) :
  core (fold_left (@release T) ds s) = core s.
Proof.
  revert s. induction ds as [|d ds IH]; intros s; simpl; auto.
  now rewrite IH, take_core_release.
Qed.

Lemma take_core_send (ev : Event T) (s : Subscription T) :
  core (send ev s) =
  (fst (remaining s), snd (remaining s),
   fst (CreatedAutoDetachObserver.pass
          (CreatedAutoDetachObserver.observer (observer s)) (received s) ev),
   inner s,
   snd (CreatedAutoDetachObserver.pass
          (CreatedAutoDetachObserver.observer (observer s)) (received s) ev)).
Proof.
  unfold send. rewrite take_core_releases. unfold core. simpl.
  rewrite AutoDetachFacts.call_observer, AutoDetachFacts.call_delivered.
  unfold CreatedAutoDetachObserver.pass.
  destruct (CreatedAutoDetachObserver.observer (observer s)); simpl; auto.
  now rewrite app_nil_r.
Qed.

Lemma take_core_deliver (s : Subscription T) (ev : Event T) :
  core (deliver (I := I) s ev) = step (I := I) (core s) ev.
Proof.
  unfold deliver, step, core at 2.
  destruct (CreatedObserver.call ev (inner s)) as [i' invoked].
  destruct invoked as [[x| |e]|]; simpl; auto.
  - unfold on_next. simpl.
    destruct (pre_decrement (fst (remaining s)) >=? 0)%Z eqn:E; simpl; auto.
    match goal with
    | |- context [send (Next x) ?s0] =>
        pose proof (take_core_send (Next x) s0) as H1;
        set (s1 := send (Next x) s0) in *
    end.
    simpl in H1. unfold core in H1.
    injection H1 as H10 H11 H1o H1i H1r.
    rewrite H11.
    destruct (CreatedAutoDetachObserver.pass
                (CreatedAutoDetachObserver.observer (observer s)) (received s) (Next x))
      as [o1 rec1] eqn:Ep.
    simpl in H1o, H1r.
    destruct (pre_decrement (snd (remaining s)) =? 0)%Z eqn:E0.
    + rewrite take_core_dispose_cd, take_core_send. simpl.
      rewrite H1o, H1r, H10, H1i.
      now destruct (CreatedAutoDetachObserver.pass o1 rec1 Completed).
    + unfold core. simpl. now rewrite H1o, H1r, H10, H1i.
  - unfold on_completed. simpl.
    destruct ((snd (remaining s) =? 0) && (fst (remaining s) <=? 0))%Z; simpl; auto.
    rewrite take_core_dispose_cd, take_core_send. simpl.
    now destruct (CreatedAutoDetachObserver.pass _ _ _).
  - unfold on_error. rewrite take_core_dispose_cd, take_core_send. simpl.
    now destruct (CreatedAutoDetachObserver.pass _ _ _).
Qed.

Lemma take_core_run (evs : list (Event T)) (s : Subscription T) :
  core (run (I := I) evs s) = fold_left (step (I := I)) evs (core s).
Proof.
  revert s. unfold run.
  induction evs as [|ev evs IH]; intros s; simpl; auto.
  now rewrite IH, take_core_deliver.
Qed.

Lemma take_core_Subscribe (n : Z) (cold : list (Event T)) :
  core (Subscribe (I := I) n cold) = fold_left (step (I := I)) cold (start T n).
Proof.
  unfold Subscribe.
  match goal with
  | |- context [run cold ?s0] =>
      change (start T n) with (core s0);
      rewrite <- (take_core_run cold s0); set (s1 := run cold s0)
  end.
  unfold Add.
  destruct (ComposableDisposable.Add (SourceSubscription 0) (cd s1)) as [c rel].
  match goal with
  | |- context [SerialDisposable.Set_ Composite ?d] =>
      destruct (SerialDisposable.Set_ Composite d) as [d' rel']
  end.
  rewrite take_core_releases.
  match goal with
  | |- context [fold_left (@release T) rel ?s0] =>
      set (s2 := fold_left (@release T) rel s0)
  end.
  change (core s2 = core s1). unfold s2. now rewrite take_core_releases.
Qed.

Lemma take_core_Take (n : Z) (k : nat) (evs : list (Event T)) :
  core (Take (I := I) n k evs) = fold_left (step (I := I)) evs (start T n).
Proof.
  unfold Take. rewrite take_core_run, take_core_Subscribe, <- fold_left_app.
  now rewrite firstn_skipn.
Qed.

(** A detached subscriber is handed nothing more. *)
Lemma detached (evs : list (Event T)) (r0 r1 : Z) (i : CreatedObserver.t)
      (r : list (Event T)) :
  snd (fold_left (step (I := I)) evs (r0, r1, None, i, r)) = r.
Proof.
  revert r0 r1 i. induction evs as [|ev evs IH]; intros r0 r1 i; simpl; auto.
  destruct (CreatedObserver.call ev i) as [i' [[x| |e]|]]; simpl; auto.
  - destruct (pre_decrement r0 >=? 0)%Z; simpl; auto.
    destruct (pre_decrement r1 =? 0)%Z; simpl; auto.
  - destruct ((r1 =? 0) && (r0 <=? 0))%Z; simpl; auto.
Qed.

End Facts.

(** *** [Integral] is [int] *)

Section Signed.

Variable T : Type.

(** Fewer values than the count: all are passed on. *)
Lemma below (xs : list T) (m : Z) (f : CreatedAutoDetachObserver.Inner T)
      (r : list (Event T)) :
  (Z.of_nat (length xs) < m <= Integral_max)%Z ->
  fold_left step (map (@Next T) xs) (m, m, Some f, live, r) =
  ((m - Z.of_nat (length xs))%Z, (m - Z.of_nat (length xs))%Z, Some f, live,
   r ++ map (@Next T) xs).
Proof.
  revert m r. induction xs as [|x xs IH]; intros m r Hm.
  - simpl. now rewrite !Z.sub_0_r, app_nil_r.
  - cbn [length map fold_left] in *. rewrite Nat2Z.inj_succ in *.
    assert (Hd : pre_decrement m = (m - 1)%Z).
    { apply pre_decrement_small. unfold Integral_min, Integral_max in *. lia. }
    unfold step at 2. cbn -[pre_decrement]. rewrite Hd.
    replace (m - 1 >=? 0)%Z with true by (symmetry; apply Z.geb_le; lia).
    replace (m - 1 =? 0)%Z with false by (symmetry; apply Z.eqb_neq; lia).
    rewrite IH by lia. rewrite <- app_assoc. simpl.
    replace (m - Z.succ (Z.of_nat (length xs)))%Z
      with (m - 1 - Z.of_nat (length xs))%Z by lia.
    reflexivity.
Qed.

(** The value that exhausts the count is passed on and followed by
    completed. *)
Lemma reached (xs : list T) (x : T) (m : Z) (f : CreatedAutoDetachObserver.Inner T)
      (r : list (Event T)) :
  (m <= Integral_max)%Z -> Z.of_nat (length xs) = (m - 1)%Z ->
  fold_left step (map (@Next T) (xs ++ [x])) (m, m, Some f, live, r) =
  (0%Z, 0%Z, None, live, r ++ map (@Next T) (xs ++ [x]) ++ [Completed]).
Proof.
  intros Hm Hlen. rewrite map_app, fold_left_app, below by lia.
  replace (m - Z.of_nat (length xs))%Z with 1%Z by lia.
  cbn. rewrite <- !app_assoc. reflexivity.
Qed.

(** A count of zero: values only move the first counter. *)
Lemma nothing (xs : list T) (j : Z) (o : option (CreatedAutoDetachObserver.Inner T))
      (r : list (Event T)) :
  (0 <= j)%Z -> (j + Z.of_nat (length xs) <= 2 ^ 31)%Z ->
  fold_left step (map (@Next T) xs) ((- j)%Z, 0%Z, o, live, r) =
  ((- (j + Z.of_nat (length xs)))%Z, 0%Z, o, live, r).
Proof.
  revert j. induction xs as [|x xs IH]; intros j Hj Hlen.
  - simpl. now rewrite Z.add_0_r.
  - cbn [length map fold_left] in *. rewrite Nat2Z.inj_succ in *.
    assert (Hd : pre_decrement (- j) = (- (j + 1))%Z).
    { rewrite pre_decrement_small; unfold Integral_min, Integral_max; lia. }
    unfold step at 2. cbn -[pre_decrement]. rewrite Hd.
    replace (- (j + 1) >=? 0)%Z with false
      by (symmetry; rewrite Z.geb_leb; apply Z.leb_gt; lia).
    rewrite IH by lia.
    replace (j + Z.succ (Z.of_nat (length xs)))%Z
      with (j + 1 + Z.of_nat (length xs))%Z by lia.
    reflexivity.
Qed.

Lemma sequence_handed (n : Z) (xs : list T) (t : option Terminal) :
  (0 <= n <= Integral_max)%Z ->
  (n = 0%Z -> (Z.of_nat (length xs) <= 2 ^ 31)%Z) ->
  snd (fold_left step (sequence xs t) (start T n)) = handed n xs t.
Proof.
  intros Hn Hzero. unfold handed, start.
  destruct (n =? 0)%Z eqn:E0.
  - apply Z.eqb_eq in E0. subst n. unfold sequence.
    rewrite fold_left_app.
    change (0%Z, 0%Z, Some (@CreatedAutoDetachObserver.quiet T),
            CreatedObserver.mk true true true, @nil (Event T))
      with ((- 0)%Z, 0%Z, Some (@CreatedAutoDetachObserver.quiet T), live,
            @nil (Event T)).
    rewrite nothing by (try lia; simpl; auto).
    destruct t as [[|e]|]; cbn; auto.
    replace (- Z.of_nat (length xs) <=? 0)%Z with true
      by (symmetry; apply Z.leb_le; lia).
    reflexivity.
  - apply Z.eqb_neq in E0.
    destruct (Z.to_nat n <=? length xs) eqn:Ele.
    + apply Nat.leb_le in Ele.
      unfold sequence.
      rewrite <- (firstn_skipn (Z.to_nat n) xs) at 1.
      rewrite map_app, <- app_assoc, fold_left_app.
      assert (Hlen : length (firstn (Z.to_nat n) xs) = Z.to_nat n)
        by (apply firstn_length_le; lia).
      destruct (exists_last (l := firstn (Z.to_nat n) xs)) as (ys & y & Hys).
      { intros Hnil. rewrite Hnil in Hlen. simpl in Hlen. lia. }
      rewrite Hys in Hlen |- *. rewrite length_app in Hlen. simpl in Hlen.
      change (CreatedObserver.mk true true true) with live.
      rewrite reached by lia.
      rewrite detached. reflexivity.
    + apply Nat.leb_gt in Ele.
      unfold sequence. rewrite fold_left_app.
      change (CreatedObserver.mk true true true) with live.
      rewrite below by lia.
      destruct t as [[|e]|]; cbn; auto.
      * replace (n - Z.of_nat (length xs) =? 0)%Z with false
          by (symmetry; apply Z.eqb_neq; lia).
        simpl. now rewrite app_nil_r.
      * now rewrite app_nil_r.
Qed.

Lemma received_Take (n : Z) (k : nat) (xs : list T) (t : option Terminal) :
  (0 <= n <= Integral_max)%Z ->
  (n = 0%Z -> (Z.of_nat (length xs) <= 2 ^ 31)%Z) ->
  received (Take n k (sequence xs t)) = handed n xs t.
Proof.
  intros Hn Hzero. rewrite <- (sequence_handed n xs t Hn Hzero).
  rewrite <- take_core_Take with (k := k). reflexivity.
Qed.

End Signed.

(** *** [Integral] is [unsigned int] *)

Section Unsigned.

Variable T : Type.

Lemma pre_decrement_unsigned (d : Z) :
  pre_decrement (I := unsigned_int) (d mod 2 ^ 32) = ((d - 1) mod 2 ^ 32)%Z.
Proof.
  unfold pre_decrement, wrap. cbn [is_signed unsigned_int].
  now rewrite Zminus_mod_idemp_l.
Qed.

(** Fewer values than the countdown is away from zero, a countdown at
    zero being 2^32 away from it: all are passed on. *)
Lemma unsigned_below (xs : list T) (d : Z) (f : CreatedAutoDetachObserver.Inner T)
      (r : list (Event T)) :
  (Z.of_nat (length xs) < d <= 2 ^ 32)%Z ->
  fold_left (step (I := unsigned_int)) (map (@Next T) xs)
    ((d mod 2 ^ 32)%Z, (d mod 2 ^ 32)%Z, Some f, live, r) =
  (((d - Z.of_nat (length xs)) mod 2 ^ 32)%Z,
   ((d - Z.of_nat (length xs)) mod 2 ^ 32)%Z, Some f, live, r ++ map (@Next T) xs).
Proof.
  revert d r. induction xs as [|x xs IH]; intros d r Hd.
  - simpl. now rewrite !Z.sub_0_r, app_nil_r.
  - cbn [length map fold_left] in *. rewrite Nat2Z.inj_succ in *.
    unfold step at 2. cbn -[pre_decrement Z.pow Z.modulo].
    rewrite pre_decrement_unsigned.
    assert (Hs : ((d - 1) mod 2 ^ 32 = d - 1)%Z) by (apply Z.mod_small; lia).
    replace ((d - 1) mod 2 ^ 32 >=? 0)%Z with true
      by (symmetry; apply Z.geb_le; rewrite Hs; lia).
    replace ((d - 1) mod 2 ^ 32 =? 0)%Z with false
      by (symmetry; apply Z.eqb_neq; rewrite Hs; lia).
    cbn -[Z.pow Z.modulo]. rewrite IH by lia. rewrite <- app_assoc. simpl.
    replace (d - Z.succ (Z.of_nat (length xs)))%Z
      with (d - 1 - Z.of_nat (length xs))%Z by lia.
    reflexivity.
Qed.

(** The value that brings the countdown to zero is passed on and followed
    by completed. *)
Lemma unsigned_reached (xs : list T) (x : T) (d : Z)
      (f : CreatedAutoDetachObserver.Inner T) (r : list (Event T)) :
  (d <= 2 ^ 32)%Z -> Z.of_nat (length xs) = (d - 1)%Z ->
  fold_left (step (I := unsigned_int)) (map (@Next T) (xs ++ [x]))
    ((d mod 2 ^ 32)%Z, (d mod 2 ^ 32)%Z, Some f, live, r) =
  (0%Z, 0%Z, None, live, r ++ map (@Next T) (xs ++ [x]) ++ [Completed]).
Proof.
  intros Hd Hlen. rewrite map_app, fold_left_app, unsigned_below by lia.
  replace (d - Z.of_nat (length xs))%Z with 1%Z by lia.
  cbn. rewrite <- !app_assoc. reflexivity.
Qed.

Lemma sequence_handed_unsigned (n : Z) (xs : list T) (t : option Terminal) :
  (0 <= n <= unsigned_max)%Z ->
  (n = 0%Z -> (Z.of_nat (length xs) < 2 ^ 32)%Z) ->
  snd (fold_left (step (I := unsigned_int)) (sequence xs t) (start T n)) =
  handed_unsigned n xs t.
Proof.
  unfold unsigned_max. intros Hn Hzero. unfold handed_unsigned, handed, start.
  change (CreatedObserver.mk true true true) with live.
  destruct (n =? 0)%Z eqn:E0.
  - apply Z.eqb_eq in E0. subst n. specialize (Hzero eq_refl).
    destruct xs as [|x xs].
    + destruct t as [[|e]|]; reflexivity.
    + unfold sequence. rewrite fold_left_app.
      change 0%Z with (2 ^ 32 mod 2 ^ 32)%Z.
      rewrite unsigned_below by lia.
      assert (Hs : ((2 ^ 32 - Z.of_nat (length (x :: xs))) mod 2 ^ 32 =
                    2 ^ 32 - Z.of_nat (length (x :: xs)))%Z).
      { apply Z.mod_small. simpl length in *. lia. }
      rewrite Hs.
      destruct t as [[|e]|]; cbn -[Z.pow Z.modulo Z.of_nat length map app]; auto.
      * replace (2 ^ 32 - Z.of_nat (length (x :: xs)) =? 0)%Z with false
          by (symmetry; apply Z.eqb_neq; simpl length in *; lia).
        cbn -[Z.pow Z.of_nat length map app]. now rewrite app_nil_r.
      * now rewrite app_nil_r.
  - apply Z.eqb_neq in E0.
    assert (Hnm : (n mod 2 ^ 32 = n)%Z) by (apply Z.mod_small; lia).
    rewrite <- Hnm at 1 2.
    destruct (Z.to_nat n <=? length xs) eqn:Ele.
    + apply Nat.leb_le in Ele.
      unfold sequence.
      rewrite <- (firstn_skipn (Z.to_nat n) xs) at 1.
      rewrite map_app, <- app_assoc, fold_left_app.
      assert (Hlen : length (firstn (Z.to_nat n) xs) = Z.to_nat n)
        by (apply firstn_length_le; lia).
      destruct (exists_last (l := firstn (Z.to_nat n) xs)) as (ys & y & Hys).
      { intros Hnil. rewrite Hnil in Hlen. simpl in Hlen. lia. }
      rewrite Hys in Hlen |- *. rewrite length_app in Hlen. simpl in Hlen.
      rewrite unsigned_reached by lia.
      rewrite detached. reflexivity.
    + apply Nat.leb_gt in Ele.
      unfold sequence. rewrite fold_left_app.
      rewrite unsigned_below by lia.
      assert (Hs : ((n - Z.of_nat (length xs)) mod 2 ^ 32 =
                    n - Z.of_nat (length xs))%Z) by (apply Z.mod_small; lia).
      rewrite Hs.
      destruct t as [[|e]|]; cbn -[Z.pow Z.of_nat length map app]; auto.
      * replace (n - Z.of_nat (length xs) =? 0)%Z with false
          by (symmetry; apply Z.eqb_neq; lia).
        cbn. now rewrite app_nil_r.
      * now rewrite app_nil_r.
Qed.

Lemma received_Take_unsigned (n : Z) (k : nat) (xs : list T) (t : option Terminal) :
  (0 <= n <= unsigned_max)%Z ->
  (n = 0%Z -> (Z.of_nat (length xs) < 2 ^ 32)%Z) ->
  received (Take (I := unsigned_int) n k (sequence xs t)) = handed_unsigned n xs t.
Proof.
  intros Hn Hzero. rewrite <- (sequence_handed_unsigned n xs t Hn Hzero).
  rewrite <- (take_core_Take (I := unsigned_int)) with (k := k). reflexivity.
Qed.

End Unsigned.

End TakeFacts.



(** C1 fails as stated: Take(source, 3) on a source that hands over one
    value and completes passes the value on and never completes. *)
(** With an unsigned count of zero every value is passed on. *)
Example Take_unsigned_zero_forwards :
  Take.received (Take.Take (I := Take.unsigned_int) 0 0 [Next 5; Next 6]) =
  [Next 5; Next 6].
Proof. vm_compute. reflexivity. Qed.


(** ** Merge *)

Module MergeFacts.

Import Merge.
Import MergeView.
Import AutoDetachFacts.

Section Core.

Variable T : Type.

Lemma merge_core_dispose_cd (s : Subscription T) : core (dispose_cd s) = core s.
Proof.
  unfold dispose_cd. now destruct (ComposableDisposable.Dispose (cd s)).
Qed.

Lemma merge_core_release (s : Subscription T) (d : Disposable) :
  core (release s d) = core s.
Proof.
  destruct d; simpl; auto. apply merge_core_dispose_cd.
Qed.

Lemma merge_core_releases (ds : list Disposable) (s : Subscription T) :
  core (fold_left (@release T) ds s) = core s.
Proof.
  revert s. induction ds as [|d ds IH]; intros s; simpl; auto.
  now rewrite IH, merge_core_release.
Qed.

Lemma merge_core_send (ev : Event T) (s : Subscription T) :
  core (send ev s) =
  (pendingComplete (shared s),
   fst (CreatedAutoDetachObserver.pass
          (CreatedAutoDetachObserver.observer (observer s)) (received s) ev),
   inner s,
   snd (CreatedAutoDetachObserver.pass
          (CreatedAutoDetachObserver.observer (observer s)) (received s) ev)).
Proof.
  unfold send. rewrite merge_core_releases. unfold core. simpl.
  now rewrite <- call_pass.
Qed.

Lemma merge_core_deliver (s : Subscription T) (call : nat * Event T) :
  core (deliver s call) = step (core s) call.
Proof.
  destruct call as [i ev]. unfold deliver, step, core at 2.
  destruct (nth_error (inner s) i) as [ob|]; [|reflexivity].
  destruct (CreatedObserver.call ev ob) as [ob' invoked].
  destruct invoked as [[x| |e]|]; simpl; auto.
  - unfold on_next. rewrite merge_core_send. simpl.
    now destruct (CreatedAutoDetachObserver.pass _ _ _).
  - unfold on_completed. simpl.
    destruct (pre_decrement (pendingComplete (shared s)) =? 0)%Z; simpl; auto.
    rewrite merge_core_dispose_cd, merge_core_send. simpl.
    now destruct (CreatedAutoDetachObserver.pass _ _ _).
  - unfold on_error. rewrite merge_core_dispose_cd, merge_core_send. simpl.
    now destruct (CreatedAutoDetachObserver.pass _ _ _).
Qed.

Lemma merge_core_run (hot : list (nat * Event T)) (s : Subscription T) :
  core (run hot s) = fold_left step hot (core s).
Proof.
  revert s. unfold run.
  induction hot as [|c hot IH]; intros s; simpl; auto.
  now rewrite IH, merge_core_deliver.
Qed.

Lemma merge_core_Add (d : Disposable) (s : Subscription T) :
  core (Add d s) = core s.
Proof.
  unfold Add. destruct (ComposableDisposable.Add d (cd s)) as [c rel].
  now rewrite merge_core_releases.
Qed.

Lemma merge_core_MergeSubscriber (todo Index : nat) (cold : nat -> list (Event T))
      (s : Subscription T) :
  core (MergeSubscriber todo Index cold s) = subscribing todo Index cold (core s).
Proof.
  revert Index s. induction todo as [|todo IH]; intros Index s; simpl; auto.
  rewrite IH, merge_core_Add.
  match goal with
  | |- context [fold_left (@deliver T) ?l ?s0] =>
      change (fold_left (@deliver T) l s0) with (run l s0);
      rewrite (merge_core_run l s0)
  end.
  reflexivity.
Qed.

Lemma merge_core_Subscribe (m : Observable) (cold : nat -> list (Event T)) :
  core (Subscribe m cold) =
  subscribing (SourcesSize m) 0 cold
    (pendingComplete (state m), Some (@CreatedAutoDetachObserver.quiet T), [], []).
Proof.
  unfold Subscribe.
  match goal with
  | |- context [MergeSubscriber (SourcesSize m) 0 cold ?s0] =>
      pose proof (merge_core_MergeSubscriber (SourcesSize m) 0 cold s0) as H;
      set (s1 := MergeSubscriber (SourcesSize m) 0 cold s0) in *
  end.
  unfold core at 2 in H. simpl in H. rewrite <- H.
  destruct (SerialDisposable.Set_ Composite
              (CreatedAutoDetachObserver.disposable (observer s1))) as [d rel].
  now rewrite merge_core_releases.
Qed.

(** *** Setting up the subscriptions first

    A source only calls the observer it was given, so the observers of the
    sources that are subscribed to later may as well be there from the
    start. *)

Lemma replace_nth_length {A} (i : nat) (a : A) (l : list A) :
  length (replace_nth i a l) = length l.
Proof.
  revert i. induction l as [|b l IH]; intros [|i]; simpl; auto.
Qed.

Lemma replace_nth_app {A} (i : nat) (a : A) (l ext : list A) :
  i < length l -> replace_nth i a (l ++ ext) = replace_nth i a l ++ ext.
Proof.
  revert i. induction l as [|b l IH]; intros [|i] H; simpl in *; try lia; auto.
  now rewrite IH by lia.
Qed.

Lemma width_step (c : Core T) (call : nat * Event T) : width (step c call) = width c.
Proof.
  destruct c as [[[p o] inn] r], call as [i ev]. unfold step, width.
  destruct (nth_error inn i) as [ob|]; auto.
  destruct (CreatedObserver.call ev ob) as [ob' [[x| |e]|]]; simpl;
    try destruct (pre_decrement p =? 0)%Z;
    try destruct (CreatedAutoDetachObserver.pass _ _ _); simpl;
    apply replace_nth_length.
Qed.

Lemma width_steps (calls : list (nat * Event T)) (c : Core T) :
  width (fold_left step calls c) = width c.
Proof.
  revert c. induction calls as [|x calls IH]; intros c; simpl; auto.
  now rewrite IH, width_step.
Qed.

Lemma step_extend (ext : list CreatedObserver.t) (c : Core T) (call : nat * Event T) :
  fst call < width c ->
  step (extend ext c) call = extend ext (step c call).
Proof.
  destruct c as [[[p o] inn] r], call as [i ev]. unfold width. simpl. intros Hi.
  rewrite nth_error_app1 by assumption.
  destruct (nth_error inn i) as [ob|] eqn:E; [|reflexivity].
  destruct (CreatedObserver.call ev ob) as [ob' [[x| |e]|]]; simpl;
    rewrite replace_nth_app by assumption;
    try destruct (pre_decrement p =? 0)%Z;
    try destruct (CreatedAutoDetachObserver.pass _ _ _); reflexivity.
Qed.

Lemma steps_extend (ext : list CreatedObserver.t) (calls : list (nat * Event T))
      (c : Core T) :
  Forall (fun call => fst call < width c) calls ->
  fold_left step calls (extend ext c) = extend ext (fold_left step calls c).
Proof.
  revert c. induction calls as [|x calls IH]; intros c H; simpl; auto.
  inversion H as [|? ? Hx Hrest]; subst.
  rewrite step_extend by assumption.
  apply IH. rewrite width_step. exact Hrest.
Qed.

Lemma subscribing_flat (todo Index : nat) (cold : nat -> list (Event T)) (c : Core T) :
  width c = Index ->
  subscribing todo Index cold c =
  fold_left step (cold_calls cold Index todo) (extend (repeat live todo) c).
Proof.
  revert Index c. induction todo as [|todo IH]; intros Index c Hw.
  - destruct c as [[[p o] inn] r]. simpl. now rewrite app_nil_r.
  - destruct c as [[[p o] inn] r]. unfold width in Hw. simpl in Hw.
    cbn [subscribing cold_calls seq flat_map]. rewrite fold_left_app.
    rewrite IH.
    + f_equal.
      change (extend (repeat live (S todo)) (p, o, inn, r))
        with (p, o, inn ++ live :: repeat live todo, r).
      replace (inn ++ live :: repeat live todo)
        with ((inn ++ [live]) ++ repeat live todo) by now rewrite <- app_assoc.
      change (p, o, (inn ++ [live]) ++ repeat live todo, r)
        with (extend (repeat live todo) (p, o, inn ++ [live], r)).
      symmetry. apply steps_extend.
      apply Forall_forall. intros call Hin. apply in_map_iff in Hin.
      destruct Hin as (ev & <- & _). unfold width. simpl.
      rewrite length_app. simpl. lia.
    + rewrite width_steps. unfold width. simpl. rewrite length_app. simpl. lia.
Qed.

(** Subscribing to sources that make no call only adds their observers. *)
Lemma subscribing_idle (todo Index : nat) (c : Core T) :
  subscribing todo Index (fun _ => []) c = extend (repeat live todo) c.
Proof.
  revert Index c. induction todo as [|todo IH]; intros Index [[[p o] inn] r].
  - simpl. now rewrite app_nil_r.
  - cbn [subscribing map fold_left]. rewrite IH. simpl.
    now rewrite <- app_assoc.
Qed.

(** A subscription followed by the later calls is a run over the calls in
    their order of arrival. *)
Lemma merge_core_arrival (m : Observable) (cold : nat -> list (Event T))
      (hot : list (nat * Event T)) :
  core (run hot (Subscribe m cold)) =
  fold_left step (arrival (SourcesSize m) cold hot)
    (pendingComplete (state m), Some (@CreatedAutoDetachObserver.quiet T),
     repeat live (SourcesSize m), []).
Proof.
  rewrite merge_core_run, merge_core_Subscribe, subscribing_flat by reflexivity.
  unfold arrival. now rewrite fold_left_app.
Qed.

(** *** The observers facing the sources *)

Lemma proj_app (i : nat) (a b : list (nat * Event T)) :
  proj i (a ++ b) = proj i a ++ proj i b.
Proof. unfold proj. now rewrite filter_app, map_app. Qed.

Lemma ended_snoc (j i : nat) (ev : Event T) (P : list (nat * Event T)) :
  ended j (P ++ [(i, ev)]) =
  if Nat.eqb i j then ended j P || is_terminal ev else ended j P.
Proof.
  unfold ended. rewrite proj_app, existsb_app. unfold proj at 2. simpl.
  destruct (Nat.eqb i j); simpl; now rewrite ?orb_false_r.
Qed.

Lemma nth_error_replace_nth {A} (i j : nat) (a : A) (l : list A) :
  nth_error (replace_nth i a l) j =
  if Nat.eqb i j then match nth_error l j with Some _ => Some a | None => None end
  else nth_error l j.
Proof.
  revert i j. induction l as [|b l IH]; intros [|i] [|j]; simpl; auto.
  now destruct (Nat.eqb i j).
Qed.

Lemma replace_nth_same {A} (i : nat) (a : A) (l : list A) :
  nth_error l i = Some a -> replace_nth i a l = l.
Proof.
  revert i. induction l as [|b l IH]; intros [|i] H; simpl in *; try congruence.
  now rewrite IH.
Qed.

Lemma used_le (inn : list CreatedObserver.t) : used inn <= length inn.
Proof. apply filter_length_le. Qed.

Lemma used_live (i : nat) (inn : list CreatedObserver.t) :
  nth_error inn i = Some live -> used inn < length inn.
Proof.
  unfold used. revert i. induction inn as [|o inn IH]; intros [|i] H; simpl in *;
    try discriminate.
  - injection H as ->. simpl. pose proof (used_le inn). unfold used in *. lia.
  - specialize (IH i H). destruct (negb (CreatedObserver.onNext o)); simpl; lia.
Qed.

Lemma used_replace (i : nat) (inn : list CreatedObserver.t) :
  nth_error inn i = Some live -> used (replace_nth i spent inn) = S (used inn).
Proof.
  unfold used. revert i. induction inn as [|o inn IH]; intros [|i] H; simpl in *;
    try discriminate.
  - injection H as ->. reflexivity.
  - specialize (IH i H).
    destruct (negb (CreatedObserver.onNext o)); simpl; now rewrite IH.
Qed.

Lemma used_repeat_live (n : nat) : used (repeat live n) = 0.
Proof. unfold used. induction n; simpl; auto. Qed.

Lemma used_all (inn : list CreatedObserver.t) :
  used inn = length inn <-> forall o, In o inn -> CreatedObserver.onNext o = false.
Proof.
  unfold used. induction inn as [|o inn IH]; simpl.
  - split; auto. intros _ o [].
  - pose proof (filter_length_le (fun o => negb (CreatedObserver.onNext o)) inn) as Hle.
    destruct (CreatedObserver.onNext o) eqn:E; simpl.
    + split; [lia|]. intros H. specialize (H o (or_introl eq_refl)). congruence.
    + split.
      * intros H o' [<-|Hin]; [exact E|]. apply IH; [lia | exact Hin].
      * intros H. f_equal. apply IH. intros o' Hin. apply H. now right.
Qed.

Lemma slots_used_full (n : nat) (P : list (nat * Event T)) (inn : list CreatedObserver.t) :
  slots n P inn -> (used inn = n <-> forall i, i < n -> ended i P = true).
Proof.
  intros [Hlen Hnth]. rewrite <- Hlen at 1. rewrite used_all. split.
  - intros H i Hi. specialize (Hnth i Hi).
    destruct (ended i P); auto.
    apply nth_error_In in Hnth. apply H in Hnth. discriminate Hnth.
  - intros H o Hin. apply In_nth_error in Hin. destruct Hin as [i Hi].
    assert (Hlt : i < n).
    { rewrite <- Hlen. apply nth_error_Some. congruence. }
    rewrite (Hnth i Hlt), (H i Hlt) in Hi. injection Hi as <-. reflexivity.
Qed.

Lemma slots_value (n i : nat) (ev : Event T) (P : list (nat * Event T))
      (inn : list CreatedObserver.t) :
  slots n P inn -> is_terminal ev = false -> slots n (P ++ [(i, ev)]) inn.
Proof.
  intros [Hlen Hnth] Hev. split; auto.
  intros j Hj. rewrite ended_snoc, Hev, orb_false_r.
  destruct (Nat.eqb i j); auto.
Qed.

Lemma slots_terminal (n i : nat) (ev : Event T) (P : list (nat * Event T))
      (inn : list CreatedObserver.t) :
  slots n P inn -> i < n -> is_terminal ev = true ->
  slots n (P ++ [(i, ev)]) (replace_nth i spent inn).
Proof.
  intros [Hlen Hnth] Hi Hev. split; [now rewrite replace_nth_length|].
  intros j Hj. rewrite ended_snoc, Hev, orb_true_r, nth_error_replace_nth.
  destruct (Nat.eqb i j) eqn:E; auto.
  rewrite (Hnth j Hj). reflexivity.
Qed.

(** *** The trace described *)

Lemma failed_app (a b : list (nat * Event T)) :
  failed (a ++ b) = failed a || failed b.
Proof. apply existsb_app. Qed.

Lemma until_error_failed (a b : list (nat * Event T)) :
  failed a = true -> until_error (a ++ b) = until_error a.
Proof.
  induction a as [|[i [x| |e]] a IH]; simpl; intros H; try discriminate; auto.
  now rewrite IH.
Qed.

Lemma until_error_app (a b : list (nat * Event T)) :
  failed a = false -> until_error (a ++ b) = until_error a ++ until_error b.
Proof.
  induction a as [|[i [x| |e]] a IH]; simpl; intros H; try discriminate; auto.
  now rewrite IH.
Qed.

Lemma until_error_values (a : list (nat * Event T)) :
  failed a = false -> until_error a = map (@Next T) (nexts (map snd a)).
Proof.
  induction a as [|[i [x| |e]] a IH]; simpl; intros H; try discriminate; auto.
  now rewrite IH.
Qed.

Lemma until_error_no_completed (a : list (nat * Event T)) :
  ~ In Completed (until_error a).
Proof.
  induction a as [|[i [x| |e]] a IH]; simpl; auto.
  - intros [H|H]; [discriminate | auto].
  - intros [H|[]]. discriminate.
Qed.

Lemma until_error_has_error (a : list (nat * Event T)) :
  failed a = true -> exists e, In (Error e) (until_error a).
Proof.
  induction a as [|[i [x| |e]] a IH]; simpl; intros H; try discriminate; auto.
  - destruct (IH H) as [e He]. exists e. now right.
  - exists e. now left.
Qed.

(** *** The first subscription *)
Lemma pre_decrement_positive (z : Z) :
  (0 < z < size_t_modulus)%Z -> pre_decrement z = (z - 1)%Z.
Proof.
  unfold pre_decrement. intros H. apply Z.mod_small. lia.
Qed.

Ltac reduce_step :=
  cbn -[Nat.ltb used replace_nth until_error failed Z.sub Z.of_nat pre_decrement
        Z.eqb slots].

Lemma settled_step (n : nat) (f : CreatedAutoDetachObserver.Inner T)
      (P : list (nat * Event T)) (c : Core T) (i : nat) (ev : Event T) :
  (Z.of_nat n < size_t_modulus)%Z ->
  settled n f P c -> i < n -> ended i P = false ->
  settled n f (P ++ [(i, ev)]) (step c (i, ev)).
Proof.
  intros Hn Hc Hi Hend. destruct c as [[[p o] inn] r].
  destruct Hc as [Hs Hc].
  assert (Hlive : nth_error inn i = Some live).
  { destruct Hs as [_ Hnth]. rewrite (Hnth i Hi), Hend. reflexivity. }
  assert (Hused : used inn < n).
  { destruct Hs as [Hlen _]. rewrite <- Hlen. exact (used_live i inn Hlive). }
  assert (Hlt : (used inn <? n) = true) by now apply Nat.ltb_lt.
  rewrite Hlt in Hc.
  pose proof (used_replace i inn Hlive) as Hu.
  pose proof (replace_nth_same i live inn Hlive) as Hsame.
  unfold step. rewrite Hlive.
  destruct (failed P) eqn:Ef.
  - (* an error has been passed on: the subscriber is detached *)
    destruct Hc as [-> ->].
    assert (Hf : failed (P ++ [(i, ev)]) = true) by (rewrite failed_app, Ef; reflexivity).
    assert (Hr : until_error (P ++ [(i, ev)]) = until_error P)
      by now apply until_error_failed.
    destruct ev as [x| |e]; reduce_step; try destruct (pre_decrement p =? 0)%Z; reduce_step;
      rewrite ?Hsame, Hf, Hr;
      (split; [first [apply slots_value; [assumption|reflexivity]
                     | apply slots_terminal; [assumption|assumption|reflexivity]]
              | auto]).
  - destruct Hc as [Hp [-> ->]].
    destruct ev as [x| |e]; reduce_step.
    + (* a value *)
      rewrite Hsame, failed_app, Ef, Hlt. reduce_step.
      split; [apply slots_value; [assumption|reflexivity]|].
      split; [assumption|]. split; [reflexivity|].
      now rewrite until_error_app.
    + (* completed *)
      assert (Hf : failed (P ++ [(i, @Completed T)]) = false)
        by (rewrite failed_app, Ef; reflexivity).
      assert (Hr : until_error (P ++ [(i, @Completed T)]) = until_error P).
      { rewrite until_error_app by assumption. simpl. now rewrite app_nil_r. }
      assert (Hd : pre_decrement p = (Z.of_nat n - Z.of_nat (S (used inn)))%Z).
      { rewrite pre_decrement_positive; lia. }
      rewrite Hd.
      destruct (Z.of_nat n - Z.of_nat (S (used inn)) =? 0)%Z eqn:E0; reduce_step;
        rewrite Hf, Hr; change (CreatedObserver.clear live) with spent; rewrite Hu;
        (split; [apply slots_terminal; [assumption|assumption|reflexivity]|]);
        (split; [reflexivity|]).
      * apply Z.eqb_eq in E0.
        replace (S (used inn) <? n) with false by (symmetry; apply Nat.ltb_ge; lia).
        auto.
      * apply Z.eqb_neq in E0.
        replace (S (used inn) <? n) with true by (symmetry; apply Nat.ltb_lt; lia).
        auto.
    + (* an error *)
      assert (Hf : failed (P ++ [(i, Error e)]) = true).
      { rewrite failed_app. simpl. now rewrite orb_true_r. }
      rewrite Hf.
      split; [apply slots_terminal; [assumption|assumption|reflexivity]|].
      split; [reflexivity|]. now rewrite until_error_app.
Qed.

(** A conforming source has made no terminal call before its latest call. *)
Lemma conforms_before (a b : list (Event T)) (ev : Event T) :
  conforms (a ++ ev :: b) = true -> existsb is_terminal a = false.
Proof.
  induction a as [|[x| |e] a IH]; simpl; auto;
    destruct (a ++ ev :: b) eqn:E; try discriminate;
    destruct a; discriminate.
Qed.

Lemma settled_steps (n : nat) (f : CreatedAutoDetachObserver.Inner T)
      (rest P : list (nat * Event T)) (c : Core T) :
  (Z.of_nat n < size_t_modulus)%Z ->
  settled n f P c ->
  Forall (fun call => fst call < n) rest ->
  (forall i, i < n -> conforms (proj i (P ++ rest)) = true) ->
  settled n f (P ++ rest) (fold_left step rest c).
Proof.
  intros Hn. revert P c.
  induction rest as [|[i ev] rest IH]; intros P c Hc Hall Hconf.
  - now rewrite app_nil_r.
  - inversion Hall as [|? ? Hi Hrest]; subst. simpl in Hi.
    replace (P ++ (i, ev) :: rest) with ((P ++ [(i, ev)]) ++ rest) in *
      by now rewrite <- app_assoc.
    cbn [fold_left]. apply IH; auto.
    apply settled_step; auto.
    specialize (Hconf i Hi). rewrite !proj_app in Hconf.
    unfold proj at 2 in Hconf. simpl in Hconf. rewrite Nat.eqb_refl in Hconf.
    simpl in Hconf. rewrite <- app_assoc in Hconf. simpl in Hconf.
    exact (conforms_before _ _ _ Hconf).
Qed.

Lemma settled_start (n : nat) (f : CreatedAutoDetachObserver.Inner T) :
  0 < n ->
  settled n f [] (Z.of_nat n, Some f, repeat live n, []).
Proof.
  intros Hn. unfold settled. split.
  - split; [apply repeat_length|].
    intros i Hi. unfold ended. simpl.
    apply nth_error_repeat. exact Hi.
  - simpl. rewrite used_repeat_live.
    split; [lia|].
    replace (0 <? n) with true by (symmetry; now apply Nat.ltb_lt).
    auto.
Qed.

(** *** Calls by source *)

Lemma proj_pairs (i j : nat) (evs : list (Event T)) :
  proj i (map (pair j) evs) = if Nat.eqb j i then evs else [].
Proof.
  unfold proj. induction evs as [|ev evs IH]; simpl.
  - now destruct (Nat.eqb j i).
  - destruct (Nat.eqb j i) eqn:E; simpl; rewrite IH; reflexivity.
Qed.

Lemma proj_cold_calls (cold : nat -> list (Event T)) (i first count : nat) :
  proj i (cold_calls cold first count) =
  if (first <=? i) && (i <? first + count) then cold i else [].
Proof.
  revert first. induction count as [|count IH]; intros first.
  - cbn [cold_calls seq flat_map proj filter map].
    destruct (first <=? i) eqn:E1, (i <? first + 0) eqn:E2; auto.
    apply Nat.leb_le in E1. apply Nat.ltb_lt in E2. lia.
  - cbn [cold_calls seq flat_map]. rewrite proj_app, proj_pairs.
    change (flat_map (fun k => map (pair k) (cold k)) (seq (S first) count))
      with (cold_calls cold (S first) count).
    rewrite IH.
    destruct (Nat.eqb first i) eqn:E.
    + apply Nat.eqb_eq in E. subst i.
      replace (S first <=? first) with false by (symmetry; apply Nat.leb_gt; lia).
      replace (first <=? first) with true by (symmetry; apply Nat.leb_le; lia).
      replace (first <? first + S count) with true by (symmetry; apply Nat.ltb_lt; lia).
      simpl. now rewrite app_nil_r.
    + apply Nat.eqb_neq in E. cbn [app].
      replace (S first <=? i) with (first <=? i).
      * now replace (S first + count) with (first + S count) by lia.
      * destruct (first <=? i) eqn:E1; symmetry.
        -- apply Nat.leb_le in E1. apply Nat.leb_le. lia.
        -- apply Nat.leb_gt in E1. apply Nat.leb_gt. lia.
Qed.

Lemma proj_arrival (n : nat) (cold : nat -> list (Event T))
      (hot : list (nat * Event T)) (i : nat) :
  i < n -> proj i (arrival n cold hot) = upstream cold hot i.
Proof.
  intros Hi. unfold arrival, upstream.
  change (flat_map (fun k => map (pair k) (cold k)) (seq 0 n)) with (cold_calls cold 0 n).
  rewrite proj_app, proj_cold_calls. simpl.
  now replace (i <? n) with true by (symmetry; now apply Nat.ltb_lt).
Qed.

Lemma cold_calls_below (cold : nat -> list (Event T)) (first count : nat) :
  Forall (fun call => fst call < first + count) (cold_calls cold first count).
Proof.
  apply Forall_forall. intros call Hin. unfold cold_calls in Hin.
  apply in_flat_map in Hin. destruct Hin as (k & Hk & Hin).
  apply in_seq in Hk. apply in_map_iff in Hin. destruct Hin as (ev & <- & _).
  simpl. lia.
Qed.

Lemma arrival_below (n : nat) (cold : nat -> list (Event T))
      (hot : list (nat * Event T)) :
  Forall (fun call => fst call < n) hot ->
  Forall (fun call => fst call < n) (arrival n cold hot).
Proof.
  intros H. unfold arrival. apply Forall_app. split; auto.
  exact (cold_calls_below cold 0 n).
Qed.

Lemma same_buckets {A} (g g' : nat -> list A) (l : list nat) :
  (forall i, In i l -> g' i = g i) -> flat_map g' l = flat_map g l.
Proof.
  induction l as [|a l IH]; intros H; simpl; auto.
  rewrite (H a (or_introl eq_refl)), IH; auto.
  intros i Hi. apply H. now right.
Qed.

Lemma add_to_bucket {A} (g g' : nat -> list A) (j : nat) (x : A) (l : list nat) :
  NoDup l -> In j l -> g' j = x :: g j -> (forall i, i <> j -> g' i = g i) ->
  Permutation (flat_map g' l) (x :: flat_map g l).
Proof.
  intros Hnd Hin Hj Hother. induction l as [|a l IH]; [contradiction|].
  inversion Hnd as [|? ? Hnotin Hnd']; subst. simpl.
  destruct (Nat.eq_dec a j) as [->|Hne].
  - rewrite Hj. simpl. rewrite (same_buckets g g' l); auto.
    intros i Hi. apply Hother. intros ->. contradiction.
  - destruct Hin as [Heq|Hin]; [contradiction|].
    rewrite (Hother a Hne).
    rewrite (IH Hnd' Hin). symmetry. apply Permutation_middle.
Qed.

(** The values in arrival order are the values of the sources, put
    together. *)
Lemma values_by_source (n : nat) (calls : list (nat * Event T)) :
  Forall (fun call => fst call < n) calls ->
  Permutation (nexts (map snd calls))
              (flat_map (fun i => nexts (proj i calls)) (seq 0 n)).
Proof.
  induction calls as [|[j ev] calls IH]; intros Hall.
  - simpl. replace (flat_map _ (seq 0 n)) with (@nil T); auto.
    induction (seq 0 n); simpl; auto.
  - inversion Hall as [|? ? Hj Hrest]; subst. simpl in Hj.
    specialize (IH Hrest).
    assert (Hproj : forall i, i <> j -> proj i ((j, ev) :: calls) = proj i calls).
    { intros i Hi. unfold proj. simpl.
      replace (Nat.eqb j i) with false; auto.
      symmetry. apply Nat.eqb_neq. auto. }
    assert (Hprojj : proj j ((j, ev) :: calls) = ev :: proj j calls).
    { unfold proj. simpl. now rewrite Nat.eqb_refl. }
    destruct ev as [x| |e]; simpl.
    + rewrite IH. symmetry.
      apply add_to_bucket with (j := j).
      * apply seq_NoDup.
      * apply in_seq. lia.
      * now rewrite Hprojj.
      * intros i Hi. now rewrite Hproj.
    + rewrite IH. apply Permutation_refl'. symmetry. apply same_buckets.
      intros i _. destruct (Nat.eq_dec i j) as [->|Hne].
      * now rewrite Hprojj.
      * now rewrite Hproj.
    + rewrite IH. apply Permutation_refl'. symmetry. apply same_buckets.
      intros i _. destruct (Nat.eq_dec i j) as [->|Hne].
      * now rewrite Hprojj.
      * now rewrite Hproj.
Qed.

Lemma failed_source (n : nat) (calls : list (nat * Event T)) :
  Forall (fun call => fst call < n) calls ->
  (failed calls = true <-> exists i e, i < n /\ In (Error e) (proj i calls)).
Proof.
  intros Hall. unfold failed. rewrite existsb_exists. split.
  - intros ([i ev] & Hin & Hev). destruct ev as [x| |e]; try discriminate.
    exists i, e. split.
    + rewrite Forall_forall in Hall. exact (Hall _ Hin).
    + unfold proj. apply in_map_iff. exists (i, Error e). split; auto.
      apply filter_In. split; auto. simpl. apply Nat.eqb_refl.
  - intros (i & e & _ & Hin). unfold proj in Hin. apply in_map_iff in Hin.
    destruct Hin as ([j ev] & Hev & Hin). simpl in Hev. subst ev.
    apply filter_In in Hin. exists (j, Error e). split; [tauto | reflexivity].
Qed.

Lemma ended_completed (i : nat) (calls : list (nat * Event T)) :
  failed calls = false -> ended i calls = true -> In Completed (proj i calls).
Proof.
  intros Hf He. unfold ended in He. apply existsb_exists in He.
  destruct He as (ev & Hin & Hev). destruct ev as [x| |e]; try discriminate; auto.
  exfalso. unfold proj in Hin. apply in_map_iff in Hin.
  destruct Hin as ([j ev] & Hev' & Hin). simpl in Hev'. subst ev.
  apply filter_In in Hin. destruct Hin as [Hin _].
  assert (failed calls = true); [|congruence].
  unfold failed. apply existsb_exists. exists (j, Error e). auto.
Qed.

Lemma completed_ended (i : nat) (calls : list (nat * Event T)) :
  In Completed (proj i calls) -> ended i calls = true.
Proof.
  intros H. unfold ended. apply existsb_exists. exists Completed. auto.
Qed.

(** A conforming source does not both complete and fail. *)
Lemma conforms_one_terminal (evs : list (Event T)) (e : exception_ptr) :
  conforms evs = true -> In Completed evs -> In (Error e) evs -> False.
Proof.
  induction evs as [|[x| |e'] evs IH]; simpl; intros Hc H1 H2; auto.
  - destruct H1 as [H1|H1]; [discriminate|].
    destruct H2 as [H2|H2]; [discriminate|]. auto.
  - destruct evs; [|discriminate].
    destruct H2 as [H2|[]]. discriminate.
  - destruct evs; [|discriminate].
    destruct H1 as [H1|[]]. discriminate.
Qed.

(** *** A later subscription

    The counter starts from zero, where the first subscription left it. *)

Lemma intact_replace (i : nat) (o : CreatedObserver.t) (inn : list CreatedObserver.t) :
  intact inn -> o = live \/ o = spent -> intact (replace_nth i o inn).
Proof.
  unfold intact. revert i. induction inn as [|b inn IH]; intros [|i] H Ho; simpl; auto;
    inversion H; subst; constructor; auto.
Qed.

Lemma intact_repeat (n : nat) : intact (repeat live n).
Proof.
  unfold intact. apply Forall_forall. intros o Hin.
  apply repeat_spec in Hin. auto.
Qed.

Lemma pre_decrement_wrapped (k : nat) :
  pre_decrement ((- Z.of_nat k) mod size_t_modulus) =
  ((- Z.of_nat (S k)) mod size_t_modulus)%Z.
Proof.
  unfold pre_decrement. rewrite Zminus_mod_idemp_l. f_equal. lia.
Qed.

Lemma wrapped_nonzero (k n : nat) :
  0 < k <= n -> (Z.of_nat n < size_t_modulus)%Z ->
  ((- Z.of_nat k) mod size_t_modulus)%Z <> 0%Z.
Proof.
  intros Hk Hn.
  assert (Hsmall : (Z.of_nat k mod size_t_modulus = Z.of_nat k)%Z)
    by (apply Z.mod_small; lia).
  rewrite Z_mod_nz_opp_full; rewrite Hsmall; lia.
Qed.

Lemma not_completed_snoc (r : list (Event T)) (ev : Event T) :
  ~ In Completed r -> ev <> Completed -> ~ In Completed (r ++ [ev]).
Proof.
  intros H Hev Hin. apply in_app_or in Hin. destruct Hin as [Hin|[Hin|[]]]; auto.
Qed.

Lemma stalled_step (n : nat) (c : Core T) (call : nat * Event T) :
  (Z.of_nat n < size_t_modulus)%Z ->
  stalled n c -> stalled n (step c call).
Proof.
  intros Hn Hc. destruct c as [[[p o] inn] r], call as [i ev].
  destruct Hc as (Hlen & Hint & (k & Hk & Hp) & Hr).
  unfold step. destruct (nth_error inn i) as [ob|] eqn:Eo.
  2:{ unfold stalled. eauto 6. }
  assert (Hob : ob = live \/ ob = spent).
  { unfold intact in Hint. rewrite Forall_forall in Hint.
    apply Hint. exact (nth_error_In _ _ Eo). }
  destruct Hob as [-> | ->].
  - (* the observer of the source still holds its callbacks *)
    pose proof (used_replace i inn Eo) as Hu.
    pose proof (replace_nth_same i live inn Eo) as Hsame.
    destruct ev as [x| |e]; reduce_step.
    + rewrite Hsame. destruct o as [f|]; reduce_step;
        (split; [assumption|]); (split; [assumption|]);
        (split; [eauto|]); auto.
      apply not_completed_snoc; auto. discriminate.
    + rewrite Hp, pre_decrement_wrapped.
      change (CreatedObserver.clear live) with spent.
      assert (Hnz : ((- Z.of_nat (S k)) mod size_t_modulus)%Z <> 0%Z).
      { apply (wrapped_nonzero (S k) n); auto.
        pose proof (used_live i inn Eo). lia. }
      apply Z.eqb_neq in Hnz. rewrite Hnz.
      split; [now rewrite replace_nth_length|].
      split; [apply intact_replace; auto|].
      split; [|assumption].
      exists (S k). rewrite Hu. split; [lia | reflexivity].
    + change (CreatedObserver.clear live) with spent.
      destruct o as [f|]; reduce_step;
        (split; [now rewrite replace_nth_length|]);
        (split; [apply intact_replace; auto|]);
        (split; [exists k; rewrite Hu; split; [lia | assumption]|]); auto.
      apply not_completed_snoc; auto. discriminate.
  - (* the observer of the source has been cleared *)
    pose proof (replace_nth_same i spent inn Eo) as Hsame.
    destruct ev as [x| |e]; reduce_step; rewrite Hsame; unfold stalled; eauto 6.
Qed.

Lemma stalled_steps (n : nat) (calls : list (nat * Event T)) (c : Core T) :
  (Z.of_nat n < size_t_modulus)%Z ->
  stalled n c -> stalled n (fold_left step calls c).
Proof.
  intros Hn. revert c. induction calls as [|x calls IH]; intros c Hc; simpl; auto.
  apply IH. now apply stalled_step.
Qed.

Lemma flowing_step (n : nat) (f : CreatedAutoDetachObserver.Inner T)
      (P : list (nat * Event T)) (c : Core T) (i : nat) (ev : Event T) :
  (Z.of_nat n < size_t_modulus)%Z ->
  flowing n f P c -> i < n -> ended i P = false ->
  flowing n f (P ++ [(i, ev)]) (step c (i, ev)).
Proof.
  intros Hn Hc Hi Hend. destruct c as [[[p o] inn] r].
  destruct Hc as (Hs & (k & Hk & Hp) & Hc).
  assert (Hlive : nth_error inn i = Some live).
  { destruct Hs as [_ Hnth]. rewrite (Hnth i Hi), Hend. reflexivity. }
  assert (Hused : used inn < n).
  { destruct Hs as [Hlen _]. rewrite <- Hlen. exact (used_live i inn Hlive). }
  pose proof (used_replace i inn Hlive) as Hu.
  pose proof (replace_nth_same i live inn Hlive) as Hsame.
  unfold step. rewrite Hlive.
  destruct ev as [x| |e]; reduce_step.
  - rewrite Hsame.
    assert (Hsl : slots n (P ++ [(i, Next x)]) inn)
      by (apply slots_value; [assumption|reflexivity]).
    destruct (CreatedAutoDetachObserver.pass o r (Next x)) as [o1 r1] eqn:Epass. unfold flowing.
    split; [assumption|]. split; [eauto|].
    rewrite failed_app. simpl. rewrite orb_false_r. intros Hf.
    destruct (Hc Hf) as [-> ->]. simpl in Epass. injection Epass as <- <-.
    split; auto. now rewrite until_error_app.
  - change (CreatedObserver.clear live) with spent.
    rewrite Hp, pre_decrement_wrapped.
    assert (Hnz : ((- Z.of_nat (S k)) mod size_t_modulus)%Z <> 0%Z).
    { apply (wrapped_nonzero (S k) n); auto. lia. }
    apply Z.eqb_neq in Hnz. rewrite Hnz. unfold flowing.
    split; [apply slots_terminal; [assumption|assumption|reflexivity]|].
    split; [exists (S k); rewrite Hu; split; [lia|reflexivity]|].
    rewrite failed_app. simpl. rewrite orb_false_r. intros Hf.
    destruct (Hc Hf) as [-> ->]. split; auto.
    rewrite until_error_app by assumption. simpl. now rewrite app_nil_r.
  - change (CreatedObserver.clear live) with spent.
    destruct (CreatedAutoDetachObserver.pass o r (Error e)) as [o1 r1]. unfold flowing.
    split; [apply slots_terminal; [assumption|assumption|reflexivity]|].
    split; [exists k; rewrite Hu; split; [lia|assumption]|].
    rewrite failed_app. simpl. rewrite orb_true_r. discriminate.
Qed.

Lemma flowing_steps (n : nat) (f : CreatedAutoDetachObserver.Inner T)
      (rest P : list (nat * Event T)) (c : Core T) :
  (Z.of_nat n < size_t_modulus)%Z ->
  flowing n f P c ->
  Forall (fun call => fst call < n) rest ->
  (forall i, i < n -> conforms (proj i (P ++ rest)) = true) ->
  flowing n f (P ++ rest) (fold_left step rest c).
Proof.
  intros Hn. revert P c.
  induction rest as [|[i ev] rest IH]; intros P c Hc Hall Hconf.
  - now rewrite app_nil_r.
  - inversion Hall as [|? ? Hi Hrest]; subst. simpl in Hi.
    replace (P ++ (i, ev) :: rest) with ((P ++ [(i, ev)]) ++ rest) in *
      by now rewrite <- app_assoc.
    cbn [fold_left]. apply IH; auto.
    apply flowing_step; auto.
    specialize (Hconf i Hi). rewrite !proj_app in Hconf.
    unfold proj at 2 in Hconf. simpl in Hconf. rewrite Nat.eqb_refl in Hconf.
    simpl in Hconf. rewrite <- app_assoc in Hconf. simpl in Hconf.
    exact (conforms_before _ _ _ Hconf).
Qed.

End Core.

(** *** Disposal *)

Section Disposal.

Variable T : Type.

Lemma dispose_cd_facts (m : nat) (s : Subscription T) :
  kept m s ->
  kept m (dispose_cd s) /\
  ComposableDisposable.disposed (cd (dispose_cd s)) = true /\
  received (dispose_cd s) = received s.
Proof.
  intros Hk. unfold dispose_cd, ComposableDisposable.Dispose.
  destruct (ComposableDisposable.disposed (cd s)) eqn:E;
    destruct Hk as [H1 H2]; unfold kept; simpl; rewrite ?E.
  - repeat split; auto; try discriminate.
    intros _ j Hj. rewrite app_nil_r. auto.
  - repeat split; auto; try discriminate.
    intros _ j Hj. apply in_or_app. right. rewrite (H2 E).
    unfold handles. apply in_map. apply in_seq. lia.
Qed.

Lemma release_facts (m : nat) (s : Subscription T) (d : Disposable) :
  kept m s ->
  kept m (release s d) /\
  (ComposableDisposable.disposed (cd s) = true ->
   ComposableDisposable.disposed (cd (release s d)) = true) /\
  received (release s d) = received s.
Proof.
  intros Hk.
  assert (Hother : kept m (mk (shared s) (cd s) (observer s) (inner s) (received s)
                              (released s ++ [d]))).
  { destruct Hk as [H1 H2]. split; simpl; auto.
    intros Hd j Hj. apply in_or_app. left. auto. }
  destruct d; simpl; auto.
  destruct (dispose_cd_facts m s Hk) as (H1 & H2 & H3). auto.
Qed.

Lemma releases_facts (m : nat) (ds : list Disposable) (s : Subscription T) :
  kept m s ->
  kept m (fold_left (@release T) ds s) /\
  (ComposableDisposable.disposed (cd s) = true ->
   ComposableDisposable.disposed (cd (fold_left (@release T) ds s)) = true) /\
  received (fold_left (@release T) ds s) = received s.
Proof.
  revert s. induction ds as [|d ds IH]; intros s Hk; simpl; auto.
  destruct (release_facts m s d Hk) as (H1 & H2 & H3).
  destruct (IH _ H1) as (H4 & H5 & H6).
  split; auto. split; auto. congruence.
Qed.

Lemma send_facts (m : nat) (ev : Event T) (s : Subscription T) :
  kept m s ->
  kept m (send ev s) /\
  (ComposableDisposable.disposed (cd s) = true ->
   ComposableDisposable.disposed (cd (send ev s)) = true) /\
  received (send ev s) =
    received s ++ CreatedAutoDetachObserver.delivered
                    (CreatedAutoDetachObserver.call ev (observer s)).
Proof.
  intros Hk. unfold send.
  match goal with
  | |- context [fold_left (@release T) ?ds ?s0] =>
      destruct (releases_facts m ds s0 Hk) as (H1 & H2 & H3)
  end.
  auto.
Qed.

Lemma terminal_app_value (r d : list (Event T)) (x : T) :
  d = [Next x] \/ d = [] ->
  existsb is_terminal (r ++ d) = existsb is_terminal r.
Proof.
  intros [->| ->]; rewrite existsb_app; simpl; now rewrite ?orb_false_r.
Qed.

Lemma deliver_facts (m : nat) (s : Subscription T) (call : nat * Event T) :
  kept m s -> sealed s -> kept m (deliver s call) /\ sealed (deliver s call).
Proof.
  intros Hk Hs. destruct call as [i ev]. unfold deliver.
  destruct (nth_error (inner s) i) as [ob|]; [|auto].
  destruct (CreatedObserver.call ev ob) as [ob' invoked].
  set (s1 := mk (shared s) (cd s) (observer s) (replace_nth i ob' (inner s))
                (received s) (released s)).
  assert (Hk1 : kept m s1) by exact Hk.
  assert (Hs1 : sealed s1) by exact Hs.
  destruct invoked as [[x| |e]|]; auto.
  - unfold on_next.
    destruct (send_facts m (Next x) s1 Hk1) as (H1 & H2 & H3).
    split; auto. unfold sealed. rewrite H3.
    rewrite (terminal_app_value _ _ x).
    + intros H. apply H2. apply Hs1. exact H.
    + rewrite AutoDetachFacts.call_delivered.
      destruct (CreatedAutoDetachObserver.observer (observer s1)); auto.
  - unfold on_completed.
    set (s2 := mk (mkState (pre_decrement (pendingComplete (shared s1)))) (cd s1)
                  (observer s1) (inner s1) (received s1) (released s1)).
    assert (Hk2 : kept m s2) by exact Hk1.
    assert (Hs2 : sealed s2) by exact Hs1.
    destruct (pre_decrement (pendingComplete (shared s1)) =? 0)%Z; auto.
    destruct (send_facts m Completed s2 Hk2) as (H1 & _ & _).
    destruct (dispose_cd_facts m _ H1) as (H4 & H5 & _).
    split; auto. intros _. exact H5.
  - unfold on_error.
    destruct (send_facts m (Error e) s1 Hk1) as (H1 & _ & _).
    destruct (dispose_cd_facts m _ H1) as (H4 & H5 & _).
    split; auto. intros _. exact H5.
Qed.

Lemma run_facts (m : nat) (calls : list (nat * Event T)) (s : Subscription T) :
  kept m s -> sealed s ->
  kept m (fold_left (@deliver T) calls s) /\ sealed (fold_left (@deliver T) calls s).
Proof.
  revert s. induction calls as [|c calls IH]; intros s Hk Hs; simpl; auto.
  destruct (deliver_facts m s c Hk Hs) as [H1 H2]. auto.
Qed.

Lemma Add_facts (m : nat) (s : Subscription T) :
  kept m s -> sealed s ->
  kept (S m) (Add (SourceSubscription m) s) /\ sealed (Add (SourceSubscription m) s).
Proof.
  intros Hk Hs. unfold Add, ComposableDisposable.Add.
  destruct (ComposableDisposable.disposed (cd s)) eqn:E;
    destruct Hk as [H1 H2]; unfold kept, sealed in *; simpl; rewrite ?E.
  - split; [split; [|discriminate]|auto].
    intros _ j Hj. apply in_or_app.
    destruct (Nat.eq_dec j m) as [->|Hne]; [right; now left | left; apply H1; auto; lia].
  - split; [split; [discriminate|]|].
    + intros _. rewrite (H2 E). unfold handles.
      now rewrite seq_S, map_app.
    + intros Ht. rewrite (Hs Ht) in E. discriminate.
Qed.

Lemma MergeSubscriber_facts (todo Index : nat) (cold : nat -> list (Event T))
      (s : Subscription T) :
  kept Index s -> sealed s ->
  kept (Index + todo) (MergeSubscriber todo Index cold s) /\
  sealed (MergeSubscriber todo Index cold s).
Proof.
  revert Index s. induction todo as [|todo IH]; intros Index s Hk Hs.
  - rewrite Nat.add_0_r. auto.
  - cbn [MergeSubscriber].
    set (s1 := mk (shared s) (cd s) (observer s)
                  (inner s ++ [CreatedObserver.CreateObserver true true true])
                  (received s) (released s)).
    assert (Hk1 : kept Index s1) by exact Hk.
    assert (Hs1 : sealed s1) by exact Hs.
    destruct (run_facts Index (map (pair Index) (cold Index)) s1 Hk1 Hs1) as [Hk2 Hs2].
    destruct (Add_facts Index _ Hk2 Hs2) as [Hk3 Hs3].
    replace (Index + S todo) with (S Index + todo) by lia.
    apply IH; assumption.
Qed.

(** Once the subscriber has been handed a terminal call, every source
    subscription has been disposed. *)
Lemma terminal_releases_all (m : Observable) (cold : nat -> list (Event T))
      (hot : list (nat * Event T)) :
  let s := run hot (Subscribe m cold) in
  existsb is_terminal (received s) = true ->
  forall j, j < SourcesSize m -> In (SourceSubscription j) (released s).
Proof.
  intros s Hterm.
  assert (H : kept (SourcesSize m) s /\ sealed s).
  { unfold s, run. apply run_facts.
    - unfold Subscribe.
      match goal with
      | |- context [MergeSubscriber (SourcesSize m) 0 cold ?s0] =>
          destruct (MergeSubscriber_facts (SourcesSize m) 0 cold s0) as [Hk Hs];
          [ split; simpl; [discriminate | reflexivity]
          | unfold sealed; simpl; discriminate
          | set (s1 := MergeSubscriber (SourcesSize m) 0 cold s0) in * ]
      end.
      destruct (SerialDisposable.Set_ Composite
                  (CreatedAutoDetachObserver.disposable (observer s1))) as [d rel].
      simpl in Hk. apply releases_facts. exact Hk.
    - unfold Subscribe.
      match goal with
      | |- context [MergeSubscriber (SourcesSize m) 0 cold ?s0] =>
          destruct (MergeSubscriber_facts (SourcesSize m) 0 cold s0) as [Hk Hs];
          [ split; simpl; [discriminate | reflexivity]
          | unfold sealed; simpl; discriminate
          | set (s1 := MergeSubscriber (SourcesSize m) 0 cold s0) in * ]
      end.
      destruct (SerialDisposable.Set_ Composite
                  (CreatedAutoDetachObserver.disposable (observer s1))) as [d rel].
      simpl in Hk.
      match goal with
      | |- sealed (fold_left _ rel ?s2) =>
          destruct (releases_facts (SourcesSize m) rel s2 Hk) as (_ & Hd & Hr)
      end.
      unfold sealed. rewrite Hr. simpl. intros Ht. apply Hd. simpl. exact (Hs Ht). }
  destruct H as [[Hk _] Hs]. apply Hk. apply Hs. exact Hterm.
Qed.

End Disposal.

End MergeFacts.

(** C5 (as amended): for one subscription to a fresh Merge of [n] sources
    that keep to the grammar, the subscriber is handed the values in their
    order of arrival up to the first error; when no source fails, the values
    handed over are, as a multiset, the values of all the sources; completed
    is handed over exactly when every source has completed; an error is
    handed over exactly when some source fails; and, the subscription once
    set up, a terminal call handed to the subscriber comes with the disposal
    of every source subscription. *)
Theorem Merge_first_subscription :
  forall (T : Type) (n : nat) (cold : nat -> list (Event T)) (hot : list (nat * Event T)),
    0 < n -> (Z.of_nat n < Merge.size_t_modulus)%Z ->
    Forall (fun call => fst call < n) hot ->
    (forall i, i < n -> conforms (Merge.upstream cold hot i) = true) ->
    let s := Merge.run hot (Merge.Subscribe (Merge.Merge n) cold) in
    let r := Merge.received s in
    (exists tail,
        r = Merge.until_error (Merge.arrival n cold hot) ++ tail /\
        (tail = [] \/ tail = [Completed])) /\
    ((forall i e, i < n -> ~ In (Error e) (Merge.upstream cold hot i)) ->
     Permutation (nexts r)
                 (flat_map (fun i => nexts (Merge.upstream cold hot i)) (seq 0 n))) /\
    (In Completed r <-> forall i, i < n -> In Completed (Merge.upstream cold hot i)) /\
    ((exists e, In (Error e) r) <->
     exists i e, i < n /\ In (Error e) (Merge.upstream cold hot i)) /\
    (existsb is_terminal r = true ->
     forall i, i < n -> In (SourceSubscription i) (Merge.released s)).
Proof.
  intros T n cold hot Hpos Hn Hhot Hconf s r.
  set (L := Merge.arrival n cold hot).
  assert (HL : Forall (fun call => fst call < n) L)
    by (apply MergeFacts.arrival_below; assumption).
  assert (Hproj : forall i, i < n -> MergeView.proj i L = Merge.upstream cold hot i)
    by (intros i Hi; apply MergeFacts.proj_arrival; assumption).
  assert (Hset : MergeView.settled n (@CreatedAutoDetachObserver.quiet T) L
                   (MergeView.core s)).
  { unfold s. rewrite MergeFacts.merge_core_arrival. simpl.
    rewrite Z.mod_small by lia.
    apply (MergeFacts.settled_steps T n _ L []); auto.
    - now apply MergeFacts.settled_start.
    - intros i Hi. simpl. fold L. rewrite Hproj by assumption. auto. }
  unfold MergeView.core in Hset. fold r in Hset.
  destruct Hset as [Hslots Hset].
  assert (Hfail : MergeView.failed L = true <->
                  exists i e, i < n /\ In (Error e) (Merge.upstream cold hot i)).
  { rewrite (MergeFacts.failed_source T n L HL). split.
    - intros (i & e & Hi & Hin). exists i, e. rewrite <- Hproj; auto.
    - intros (i & e & Hi & Hin). exists i, e. rewrite Hproj; auto. }
  assert (Hfull : MergeView.used (Merge.inner s) = n <->
                  forall i, i < n -> MergeView.ended i L = true)
    by (apply MergeFacts.slots_used_full; assumption).
  assert (Hle : MergeView.used (Merge.inner s) <= n).
  { destruct Hslots as [Hlen _]. rewrite <- Hlen. apply MergeFacts.used_le. }
  split; [|split; [|split; [|split]]].
  - (* arrival order *)
    destruct (MergeView.failed L).
    + exists []. rewrite app_nil_r. tauto.
    + destruct Hset as [_ Hset].
      destruct (MergeView.used (Merge.inner s) <? n).
      * exists []. rewrite app_nil_r. tauto.
      * exists [Completed]. tauto.
  - (* the values *)
    intros Hnoerr.
    assert (Hf : MergeView.failed L = false).
    { destruct (MergeView.failed L) eqn:E; auto.
      destruct (proj1 Hfail eq_refl) as (i & e & Hi & Hin).
      exfalso. exact (Hnoerr i e Hi Hin). }
    rewrite Hf in Hset. destruct Hset as [_ Hset].
    assert (Hr : nexts r = nexts (map snd L)).
    { rewrite (MergeFacts.until_error_values T L Hf) in Hset.
      destruct (MergeView.used (Merge.inner s) <? n);
        destruct Hset as [_ ->]; rewrite ?nexts_app, nexts_map_Next; simpl;
        now rewrite ?app_nil_r. }
    rewrite Hr. rewrite (MergeFacts.values_by_source T n L HL).
    apply Permutation_refl'. apply MergeFacts.same_buckets.
    intros i Hi. apply in_seq in Hi. rewrite Hproj by lia. reflexivity.
  - (* completed *)
    split.
    + intros Hin i Hi.
      destruct (MergeView.failed L) eqn:Ef.
      * destruct Hset as [_ ->].
        now apply MergeFacts.until_error_no_completed in Hin.
      * destruct Hset as [_ Hset].
        destruct (MergeView.used (Merge.inner s) <? n) eqn:Elt.
        -- destruct Hset as [_ ->].
           now apply MergeFacts.until_error_no_completed in Hin.
        -- apply Nat.ltb_ge in Elt.
           rewrite <- Hproj by assumption.
           apply MergeFacts.ended_completed; auto.
           apply Hfull; auto. lia.
    + intros Hall.
      assert (Hf : MergeView.failed L = false).
      { destruct (MergeView.failed L) eqn:E; auto.
        destruct (proj1 Hfail eq_refl) as (i & e & Hi & Hin).
        exfalso.
        exact (MergeFacts.conforms_one_terminal T _ e (Hconf i Hi) (Hall i Hi) Hin). }
      rewrite Hf in Hset. destruct Hset as [_ Hset].
      assert (Hu : MergeView.used (Merge.inner s) = n).
      { apply Hfull. intros i Hi. apply MergeFacts.completed_ended.
        rewrite Hproj by assumption. auto. }
      replace (MergeView.used (Merge.inner s) <? n) with false in Hset
        by (symmetry; apply Nat.ltb_ge; lia).
      destruct Hset as [_ ->]. apply in_or_app. right. now left.
  - (* an error *)
    rewrite <- Hfail. split.
    + intros [e Hin].
      destruct (MergeView.failed L) eqn:Ef; auto.
      exfalso. destruct Hset as [_ Hset].
      rewrite (MergeFacts.until_error_values T L Ef) in Hset.
      assert (Hno : forall xs : list T, ~ In (Error e) (map (@Next T) xs)).
      { intros xs. induction xs as [|x xs IH]; simpl; [tauto|].
        intros [H|H]; [discriminate | auto]. }
      destruct (MergeView.used (Merge.inner s) <? n);
        destruct Hset as [_ Hr]; rewrite Hr in Hin.
      * exact (Hno _ Hin).
      * apply in_app_or in Hin. destruct Hin as [Hin|[Hin|[]]];
          [exact (Hno _ Hin) | discriminate].
    + intros Hf. rewrite Hf in Hset. destruct Hset as [_ ->].
      now apply MergeFacts.until_error_has_error.
  - (* disposal *)
    intros Hterm i Hi.
    exact (MergeFacts.terminal_releases_all T (Merge.Merge n) cold hot Hterm i Hi).
Qed.

Lemma Merge_first_subscription_witness :
  let cold := fun i : nat => if Nat.eqb i 0 then [Next 1; Next 3] else [Next 2] in
  let hot := [(1, Next 4); (0, Next 5); (0, Completed); (1, Completed)] in
  let s := Merge.run hot (Merge.Subscribe (Merge.Merge 2) cold) in
  Permutation (nexts (Merge.received s))
              (flat_map (fun i => nexts (Merge.upstream cold hot i)) (seq 0 2)) /\
  In Completed (Merge.received s) /\
  In (SourceSubscription 0) (Merge.released s) /\
  In (SourceSubscription 1) (Merge.released s).
Proof.
  intros cold hot s.
  assert (Hn : (Z.of_nat 2 < Merge.size_t_modulus)%Z) by (vm_compute; reflexivity).
  assert (Hhot : Forall (fun call : nat * Event nat => fst call < 2) hot)
    by (repeat constructor).
  assert (Hconf : forall i, i < 2 -> conforms (Merge.upstream cold hot i) = true).
  { intros [|[|i]] Hi; [vm_compute; reflexivity | vm_compute; reflexivity | lia]. }
  destruct (Merge_first_subscription nat 2 cold hot Nat.lt_0_2 Hn Hhot Hconf)
    as (_ & Hvalues & Hcompleted & _ & Hreleased).
  assert (Hc : In Completed (Merge.received s)).
  { apply Hcompleted. intros [|[|i]] Hi; [vm_compute; tauto | vm_compute; tauto | lia]. }
  split; [|split; [exact Hc|split]].
  - clear Hcompleted Hreleased Hc.
    apply Hvalues. intros [|[|i]] e Hi Hin; [| |lia];
      vm_compute in Hin;
      repeat (destruct Hin as [Hin|Hin]; [discriminate Hin|]); exact Hin.
  - apply Hreleased; [vm_compute; reflexivity | lia].
  - apply Hreleased; [vm_compute; reflexivity | lia].
Defined.

(** C5 fails as stated: when the first source fails while it is being
    subscribed to, the second source is still subscribed to and its values
    are dropped. *)
Lemma Merge_drops_values_after_error :
  ~ Statement.Merge_values_and_termination nat.
Proof.
  intros H.
  assert (Hn : (Z.of_nat 2 < Merge.size_t_modulus)%Z) by (vm_compute; reflexivity).
  destruct (H 2 (fun i : nat => if Nat.eqb i 0 then [Error (Some 7)]
                                else [Next 2; Completed])
              [] Nat.lt_0_2 Hn (Forall_nil _)) as [Hperm _].
  - intros [|[|i]] Hi; [vm_compute; reflexivity | vm_compute; reflexivity | lia].
  - vm_compute in Hperm. apply Permutation_nil in Hperm. discriminate Hperm.
Qed.

(** C10: the counter of pending completions belongs to the observable that
    Merge returns, and a subscription starts from the value the previous
    one left.  After a first subscription has driven it to zero, a later
    subscription to the same observable finds it at zero and is never handed
    completed, whatever its sources do; when its sources keep to the grammar
    and none fails, it is still handed every value, in arrival order, even
    though all the sources complete. *)
Theorem Merge_later_subscription :
  forall (T : Type) (n : nat) (cold1 cold2 : nat -> list (Event T))
         (hot1 hot2 : list (nat * Event T)),
    0 < n -> (Z.of_nat n < Merge.size_t_modulus)%Z ->
    let m := Merge.Merge n in
    let s1 := Merge.run hot1 (Merge.Subscribe m cold1) in
    Merge.pendingComplete (Merge.shared s1) = 0%Z ->
    let s2 := Merge.run hot2 (Merge.Subscribe (Merge.afterwards m s1) cold2) in
    Merge.shared (Merge.Subscribe (Merge.afterwards m s1) (fun _ : nat => @nil (Event T))) =
      Merge.shared s1 /\
    ~ In Completed (Merge.received s2) /\
    (Forall (fun call => fst call < n) hot2 ->
     (forall i, i < n -> conforms (Merge.upstream cold2 hot2 i) = true) ->
     (forall i e, i < n -> ~ In (Error e) (Merge.upstream cold2 hot2 i)) ->
     Merge.received s2 = map (@Next T) (nexts (map snd (Merge.arrival n cold2 hot2))) /\
     Permutation (nexts (Merge.received s2))
                 (flat_map (fun i => nexts (Merge.upstream cold2 hot2 i)) (seq 0 n))).
Proof.
  intros T n cold1 cold2 hot1 hot2 Hpos Hn m s1 Hzero s2.
  set (L := Merge.arrival n cold2 hot2).
  assert (Hcore : MergeView.core s2 =
                  fold_left (@MergeView.step T) L
                    (0%Z, Some (@CreatedAutoDetachObserver.quiet T),
                     repeat MergeView.live n, [])).
  { unfold s2. rewrite MergeFacts.merge_core_arrival. simpl. now rewrite Hzero. }
  split; [|split].
  - pose proof (MergeFacts.merge_core_Subscribe T (Merge.afterwards m s1)
                  (fun _ : nat => @nil (Event T))) as H.
    rewrite MergeFacts.subscribing_idle in H. unfold MergeView.core in H. simpl in H.
    injection H as H _ _ _.
    destruct (Merge.shared (Merge.Subscribe (Merge.afterwards m s1) (fun _ => [])))
      as [p], (Merge.shared s1) as [q].
    simpl in H. now subst.
  - assert (Hst : MergeView.stalled n (MergeView.core s2)).
    { rewrite Hcore. apply MergeFacts.stalled_steps; auto.
      unfold MergeView.stalled.
      split; [apply repeat_length|].
      split; [apply MergeFacts.intact_repeat|].
      split; [|simpl; tauto].
      exists 0. split; [lia | reflexivity]. }
    unfold MergeView.core, MergeView.stalled in Hst.
    destruct Hst as (_ & _ & _ & Hst). exact Hst.
  - intros Hhot Hconf Hnoerr.
    assert (HL : Forall (fun call => fst call < n) L)
      by (apply MergeFacts.arrival_below; assumption).
    assert (Hproj : forall i, i < n -> MergeView.proj i L = Merge.upstream cold2 hot2 i)
      by (intros i Hi; apply MergeFacts.proj_arrival; assumption).
    assert (Hfl : MergeView.flowing n (@CreatedAutoDetachObserver.quiet T) L
                    (MergeView.core s2)).
    { rewrite Hcore.
      apply (MergeFacts.flowing_steps T n _ L []); auto.
      - unfold MergeView.flowing. split; [|split].
        + split; [apply repeat_length|].
          intros i Hi. apply nth_error_repeat. exact Hi.
        + exists 0. split; [lia | reflexivity].
        + auto.
      - intros i Hi. simpl. fold L. rewrite Hproj by assumption. auto. }
    unfold MergeView.core in Hfl. destruct Hfl as (_ & _ & Hfl).
    assert (Hf : MergeView.failed L = false).
    { destruct (MergeView.failed L) eqn:E; auto.
      apply (MergeFacts.failed_source T n L HL) in E.
      destruct E as (i & e & Hi & Hin). rewrite Hproj in Hin by assumption.
      exfalso. exact (Hnoerr i e Hi Hin). }
    destruct (Hfl Hf) as [_ Hr].
    rewrite (MergeFacts.until_error_values T L Hf) in Hr.
    split; [exact Hr|].
    rewrite Hr, nexts_map_Next, (MergeFacts.values_by_source T n L HL).
    apply Permutation_refl'. apply MergeFacts.same_buckets.
    intros i Hi. apply in_seq in Hi. rewrite Hproj by lia. reflexivity.
Qed.

Lemma Merge_later_subscription_witness :
  let cold1 := fun _ : nat => [Next 1; @Completed nat] in
  let cold2 := fun i : nat => [Next (10 + i); @Completed nat] in
  let m := Merge.Merge 2 in
  let s1 := Merge.run [] (Merge.Subscribe m cold1) in
  let s2 := Merge.run [] (Merge.Subscribe (Merge.afterwards m s1) cold2) in
  Merge.received s1 = [Next 1; Next 1; Completed] /\
  ~ In Completed (Merge.received s2) /\
  Merge.received s2 = [Next 10; Next 11].
Proof.
  intros cold1 cold2 m s1 s2.
  assert (Hn : (Z.of_nat 2 < Merge.size_t_modulus)%Z) by (vm_compute; reflexivity).
  assert (Hzero : Merge.pendingComplete (Merge.shared s1) = 0%Z) by (vm_compute; reflexivity).
  destruct (Merge_later_subscription nat 2 cold1 cold2 [] [] Nat.lt_0_2 Hn Hzero)
    as (_ & Hnever & Hvalues).
  split; [vm_compute; reflexivity|]. split; [exact Hnever|].
  destruct Hvalues as [Hr _].
  - constructor.
  - intros [|[|i]] Hi; [vm_compute; reflexivity | vm_compute; reflexivity | lia].
  - intros [|[|i]] e Hi Hin; [| |lia];
      vm_compute in Hin;
      repeat (destruct Hin as [Hin|Hin]; [discriminate Hin|]); exact Hin.
  - exact Hr.
Defined.

(** ** Observables made by [CreateObservable] *)

Module CreatedObservableFacts.

Import CreatedObservable.
Import CreatedObservableView.

Section Facts.

Variable T : Type.

Lemma view_dispose_cd (b : Subscription T) : view (dispose_cd b) = view b.
Proof.
  unfold dispose_cd. now destruct (ComposableDisposable.Dispose (cd b)).
Qed.

Lemma view_release (b : Subscription T) (d : Disposable) : view (release b d) = view b.
Proof.
  destruct d; simpl; auto. apply view_dispose_cd.
Qed.

Lemma view_releases (ds : list Disposable) (b : Subscription T) :
  view (fold_left (@release T) ds b) = view b.
Proof.
  revert b. induction ds as [|d ds IH]; intros b; simpl; auto.
  now rewrite IH, view_release.
Qed.

(** A call on the auto-detach observer, as the subscriber sees it. *)
Lemma view_send (ev : Event T) (b : Subscription T) :
  view (send ev b) = CreatedAutoDetachObserver.pass (fst (view b)) (snd (view b)) ev.
Proof.
  unfold send. rewrite view_releases. unfold view. simpl.
  apply AutoDetachFacts.call_pass.
Qed.

Lemma view_Add (d : Disposable) (b : Subscription T) : view (Add d b) = view b.
Proof.
  unfold Add. destruct (ComposableDisposable.Add d (cd b)) as [c rel].
  now rewrite view_releases.
Qed.

Lemma view_leave (d : Disposable) (b : Subscription T) : view (leave d b) = view b.
Proof.
  unfold leave.
  destruct (SerialDisposable.Set_ d _) as [sd rel].
  now rewrite view_releases.
Qed.

Lemma view_send_eq (ev : Event T) (b1 b2 : Subscription T) :
  view b1 = view b2 -> view (send ev b1) = view (send ev b2).
Proof. intros H. now rewrite !view_send, H. Qed.

Lemma view_finish_eq (ev : Event T) (b1 b2 : Subscription T) :
  view b1 = view b2 ->
  view (dispose_cd (send ev b1)) = view (dispose_cd (send ev b2)).
Proof. intros H. rewrite !view_dispose_cd. now apply view_send_eq. Qed.

(** The bookkeeping of disposables. *)
Lemma ledger_enter :
  ledger [] None (enter (Some (@CreatedAutoDetachObserver.quiet T))).
Proof.
  split; [reflexivity|]. left. repeat split.
Qed.

Lemma existsb_snoc {A} (f : A -> bool) (l : list A) (a : A) :
  existsb f (l ++ [a]) = existsb f l || f a.
Proof.
  rewrite existsb_app. simpl. now rewrite orb_false_r.
Qed.

Lemma ledger_send_next hs cur (x : T) (b : Subscription T) :
  ledger hs cur b -> ledger hs cur (send (Next x) b).
Proof.
  destruct b as [c [o d] r rel]. unfold ledger. simpl.
  intros [Hd [(Ho & Hr & Hc & Hrel)|(Ho & Hr & Hc & Hrel)]]; subst.
  - split; [reflexivity|]. left. simpl. rewrite existsb_snoc, Hr. auto.
  - split; [reflexivity|]. right. simpl. rewrite app_nil_r. auto.
Qed.

Lemma ledger_finish hs cur (ev : Event T) (b : Subscription T) :
  is_terminal ev = true ->
  ledger hs cur b -> ledger hs cur (dispose_cd (send ev b)).
Proof.
  destruct b as [c [o d] r rel]. unfold ledger. simpl.
  intros Hev [Hd [(Ho & Hr & Hc & Hrel)|(Ho & Hr & Hc & Hrel)]]; subst.
  - split; [destruct ev; try discriminate; reflexivity|].
    right. destruct ev; try discriminate; simpl;
      rewrite existsb_snoc, Hr; auto.
  - split; [destruct ev; reflexivity|].
    right. destruct ev; simpl; rewrite !app_nil_r; auto.
Qed.

Lemma ledger_Add hs (d : Disposable) (b : Subscription T) :
  d <> Composite ->
  ledger hs None b -> ledger (hs ++ [d]) None (Add d b).
Proof.
  destruct b as [c [o sd] r rel]. unfold ledger. simpl.
  intros Hne [Hd [(Ho & Hr & Hc & Hrel)|(Ho & Hr & Hc & Hrel)]]; subst.
  - split; [reflexivity|]. left. auto.
  - split; [destruct d; try congruence; reflexivity|].
    right. destruct d; try congruence; simpl; auto.
Qed.

Lemma ledger_leave hs (d : Disposable) (b : Subscription T) :
  ledger hs None b -> ledger hs (Some d) (leave d b).
Proof.
  destruct b as [c [o sd] r rel]. unfold ledger. simpl.
  intros [Hd [(Ho & Hr & Hc & Hrel)|(Ho & Hr & Hc & Hrel)]]; subst.
  - split; [reflexivity|]. left. auto.
  - split; [reflexivity|]. right. auto.
Qed.

Lemma ledger_released hs cur (b : Subscription T) :
  ledger hs cur b ->
  released b = if existsb is_terminal (received b) then hs else [].
Proof.
  intros [_ [(_ & Hr & _ & Hrel)|(_ & Hr & _ & Hrel)]]; now rewrite Hr.
Qed.

Lemma idle_enter : idle None (enter (Some (@CreatedAutoDetachObserver.quiet T))).
Proof. repeat split. now left. Qed.

Lemma idle_send cur (ev : Event T) (b : Subscription T) :
  idle cur b -> idle cur (send ev b).
Proof.
  destruct b as [c [o d] r rel]. unfold idle. simpl.
  intros (Hd & [Ho|Ho] & Hc & Hrel); subst.
  - destruct ev; simpl; auto.
  - destruct ev; simpl; auto.
Qed.

Lemma idle_leave (d : Disposable) (b : Subscription T) :
  idle None b -> idle (Some d) (leave d b).
Proof.
  destruct b as [c [o sd] r rel]. unfold idle. simpl.
  intros (Hd & Ho & Hc & Hrel); subst. simpl. auto.
Qed.

(** Calls on the subscriptions in their plain forms. *)
Lemma send_finished (ev : Event T) (r : list (Event T)) :
  send ev (finished r) = finished r.
Proof.
  unfold send, finished. destruct ev; simpl; now rewrite app_nil_r.
Qed.

Lemma dispose_finished (r : list (Event T)) : dispose_cd (finished r) = finished r.
Proof.
  reflexivity.
Qed.

Lemma send_silenced (ev : Event T) (r : list (Event T)) :
  send ev (silenced r) = silenced r.
Proof.
  unfold send, silenced. destruct ev; simpl; now rewrite app_nil_r.
Qed.

End Facts.

End CreatedObservableFacts.

(** ** Skip *)

Module SkipFacts.

Import Skip.
Import SkipView.
Import CreatedObservableView.
Import CreatedObservableFacts.

Lemma due_range (c : Z) : (1 <= due c <= 2 ^ 32)%Z.
Proof.
  unfold due. pose proof (Z.mod_pos_bound (c - 1) (2 ^ 32) ltac:(lia)). lia.
Qed.

Lemma due_positive (c : Z) : (1 <= c <= Take.Integral_max)%Z -> due c = c.
Proof.
  unfold due, Take.Integral_max. intros H. rewrite Z.mod_small; lia.
Qed.

Lemma due_nonpositive (c : Z) :
  (Take.Integral_min <= c <= 0)%Z -> due c = (c + 2 ^ 32)%Z.
Proof.
  unfold due, Take.Integral_min. intros H.
  replace (c - 1)%Z with (c - 1 + 2 ^ 32 + (-1) * 2 ^ 32)%Z by lia.
  rewrite Z.mod_add by lia. rewrite Z.mod_small; lia.
Qed.

Lemma pre_decrement_min :
  Take.pre_decrement Take.Integral_min = Take.Integral_max.
Proof. reflexivity. Qed.

(** One value skipped: the countdown stays in range, does not hit zero
    unless it stood at one, and has one value less to skip. *)
Lemma due_step (c : Z) :
  (Take.Integral_min <= c <= Take.Integral_max)%Z -> c <> 1%Z ->
  (Take.Integral_min <= Take.pre_decrement c <= Take.Integral_max)%Z /\
  Take.pre_decrement c <> 0%Z /\
  due (Take.pre_decrement c) = (due c - 1)%Z.
Proof.
  intros Hc Hne.
  destruct (Z.eq_dec c Take.Integral_min) as [->|Hmin].
  - rewrite pre_decrement_min. repeat split; try (vm_compute; congruence).
  - rewrite TakeFacts.pre_decrement_small by lia.
    unfold Take.Integral_min, Take.Integral_max in *.
    split; [lia|]. split; [lia|].
    destruct (Z_le_gt_dec c 0).
    + rewrite !due_nonpositive; unfold Take.Integral_min; lia.
    + rewrite !due_positive; unfold Take.Integral_max; lia.
Qed.

Lemma due_one (c : Z) :
  (Take.Integral_min <= c <= Take.Integral_max)%Z -> due c = 1%Z -> c = 1%Z.
Proof.
  intros Hc H. destruct (Z_le_gt_dec c 0).
  - rewrite due_nonpositive in H by lia. unfold Take.Integral_min in *. lia.
  - rewrite due_positive in H by lia. exact H.
Qed.

Section Facts.

Variable T : Type.

Lemma alike_refl (s : Subscription T) : alike s s.
Proof. repeat split. Qed.

Lemma alike_deliver (s1 s2 : Subscription T) (ev : Event T) :
  alike s1 s2 -> alike (deliver s1 ev) (deliver s2 ev).
Proof.
  destruct s1 as [m1 i1 b1], s2 as [m2 i2 b2]. unfold alike. simpl.
  intros (-> & -> & Hv). unfold deliver. simpl.
  destruct (CreatedObserver.call ev i2) as [o [[x| |e]|]]; simpl; auto.
  - unfold on_next. simpl. destruct (snd m2); simpl; auto.
    repeat split. now apply view_send_eq.
  - repeat split. now apply view_finish_eq.
  - repeat split. now apply view_finish_eq.
Qed.

Lemma alike_run (evs : list (Event T)) (s1 s2 : Subscription T) :
  alike s1 s2 -> alike (run evs s1) (run evs s2).
Proof.
  revert s1 s2. unfold run.
  induction evs as [|ev evs IH]; intros s1 s2 H; simpl; auto.
  apply IH. now apply alike_deliver.
Qed.

Lemma alike_Skip (n : Z) (k : nat) (evs : list (Event T)) :
  alike (Skip n k evs) (run evs (start T n)).
Proof.
  assert (Hrun : run evs (start T n) =
                 run (skipn k evs) (run (firstn k evs) (start T n))).
  { unfold run. now rewrite <- fold_left_app, firstn_skipn. }
  rewrite Hrun. unfold Skip. apply alike_run.
  unfold Subscribe.
  change (mk (n, State.Skipping) (CreatedObserver.CreateObserver true true true)
             (CreatedObservable.enter (Some (@CreatedAutoDetachObserver.quiet T))))
    with (start T n).
  destruct (run (firstn k evs) (start T n)) as [m i b].
  unfold alike. simpl. now rewrite view_leave, view_Add.
Qed.

(** While the countdown runs, values change nothing else. *)
Lemma skipping (xs : list T) (c : Z) (b : CreatedObservable.Subscription T) :
  (Take.Integral_min <= c <= Take.Integral_max)%Z ->
  (Z.of_nat (length xs) < due c)%Z ->
  exists c',
    (Take.Integral_min <= c' <= Take.Integral_max)%Z /\
    due c' = (due c - Z.of_nat (length xs))%Z /\
    run (map (@Next T) xs) (mk (c, State.Skipping) (CreatedObserver.mk true true true) b) =
    mk (c', State.Skipping) (CreatedObserver.mk true true true) b.
Proof.
  revert c. induction xs as [|x xs IH]; intros c Hc Hlen.
  - exists c. simpl. repeat split; try lia.
  - cbn [length] in Hlen. rewrite Nat2Z.inj_succ in Hlen.
    assert (Hne : c <> 1%Z).
    { intros ->. rewrite due_positive in Hlen by (unfold Take.Integral_max; lia). lia. }
    destruct (due_step c Hc Hne) as (Hc' & Hnz & Hdue).
    destruct (IH (Take.pre_decrement c) Hc' ltac:(lia)) as (c' & Hr & Hd & Hrun).
    exists c'. split; [exact Hr|]. split.
    + cbn [length]. rewrite Nat2Z.inj_succ. lia.
    + cbn [map]. unfold run in *. cbn [fold_left].
      unfold deliver at 2. cbn -[Take.pre_decrement Z.eqb].
      unfold on_next. cbn -[Take.pre_decrement Z.eqb].
      apply Z.eqb_neq in Hnz. rewrite Hnz. exact Hrun.
Qed.

(** The value on which the countdown reaches zero is the last one
    skipped. *)
Lemma switching (x : T) (b : CreatedObservable.Subscription T) :
  deliver (mk (1%Z, State.Skipping) (CreatedObserver.mk true true true) b) (Next x) =
  mk (0%Z, State.Forwarding) (CreatedObserver.mk true true true) b.
Proof. reflexivity. Qed.

Lemma forwarding (xs : list T) (c : Z) (r : list (Event T)) :
  run (map (@Next T) xs)
      (mk (c, State.Forwarding) (CreatedObserver.mk true true true) (running r)) =
  mk (c, State.Forwarding) (CreatedObserver.mk true true true)
     (running (r ++ map (@Next T) xs)).
Proof.
  revert r. induction xs as [|x xs IH]; intros r.
  - simpl. now rewrite app_nil_r.
  - cbn [map]. unfold run in *. cbn [fold_left].
    change (deliver (mk (c, State.Forwarding) (CreatedObserver.mk true true true)
                        (running r)) (Next x))
      with (mk (c, State.Forwarding) (CreatedObserver.mk true true true)
               (running (r ++ [Next x]))).
    rewrite IH. now rewrite <- app_assoc.
Qed.

(** The end of the source is passed on in either state. *)
Lemma ending (t : option Terminal) (m : Z * State.type) (r : list (Event T)) :
  CreatedObservable.received (base (run (sequence [] t)
                      (mk m (CreatedObserver.mk true true true) (running r)))) =
  r ++ sequence [] t.
Proof.
  destruct t as [[|e]|]; simpl; auto. now rewrite app_nil_r.
Qed.

Lemma received_run_start (n : Z) (xs : list T) (t : option Terminal) :
  (Take.Integral_min <= n <= Take.Integral_max)%Z ->
  CreatedObservable.received (base (run (sequence xs t) (start T n))) =
  sequence (skipn (Z.to_nat (due n)) xs) t.
Proof.
  intros Hn. pose proof (due_range n) as Hdue.
  unfold start. change (CreatedObservable.enter _) with (running (@nil (Event T))).
  destruct (Z_lt_le_dec (Z.of_nat (length xs)) (due n)) as [Hlt|Hge].
  - rewrite skipn_all2 by lia.
    unfold sequence at 1. unfold run. rewrite fold_left_app.
    destruct (skipping xs n (running []) Hn Hlt) as (c' & _ & _ & Hrun).
    unfold run in Hrun. rewrite Hrun.
    apply (ending t (c', State.Skipping) []).
  - set (D := Z.to_nat (due n)) in *.
    assert (HD : 1 <= D <= length xs) by lia.
    destruct (skipn (D - 1) xs) as [|x zs] eqn:Hrest.
    { apply (f_equal (@length T)) in Hrest. rewrite length_skipn in Hrest.
      simpl in Hrest. lia. }
    assert (Hzs : skipn D xs = zs).
    { replace D with (1 + (D - 1)) by lia. rewrite <- skipn_skipn, Hrest.
      reflexivity. }
    rewrite Hzs.
    rewrite <- (firstn_skipn (D - 1) xs) at 1. rewrite Hrest.
    unfold sequence at 1. rewrite map_app. cbn [map].
    unfold run. rewrite <- !app_assoc, fold_left_app. cbn [app fold_left].
    destruct (skipping (firstn (D - 1) xs) n (running []) Hn) as (c' & Hc' & Hd & Hrun).
    { rewrite length_firstn. lia. }
    unfold run in Hrun. rewrite Hrun.
    assert (c' = 1%Z) as ->.
    { apply due_one; auto. rewrite Hd, length_firstn. lia. }
    rewrite switching. rewrite fold_left_app.
    pose proof (forwarding zs 0 []) as Hf. unfold run in Hf. rewrite Hf.
    apply (ending t (0%Z, State.Forwarding) (map (@Next T) zs)).
Qed.

(** The handle of the subscription to the source is released exactly when
    the subscriber has been handed a terminal call. *)
Lemma ledger_deliver hs cur (s : Subscription T) (ev : Event T) :
  ledger hs cur (base s) -> ledger hs cur (base (deliver s ev)).
Proof.
  destruct s as [m i b]. unfold deliver. simpl.
  destruct (CreatedObserver.call ev i) as [o [[x| |e]|]]; simpl; auto.
  - unfold on_next. simpl. destruct (snd m); simpl; auto.
    apply ledger_send_next.
  - now apply ledger_finish.
  - now apply ledger_finish.
Qed.

Lemma ledger_run hs cur (evs : list (Event T)) (s : Subscription T) :
  ledger hs cur (base s) -> ledger hs cur (base (run evs s)).
Proof.
  revert s. unfold run. induction evs as [|ev evs IH]; intros s H; simpl; auto.
  apply IH. now apply ledger_deliver.
Qed.

Lemma ledger_Skip (n : Z) (k : nat) (evs : list (Event T)) :
  ledger [SourceSubscription 0] (Some Composite) (base (Skip n k evs)).
Proof.
  unfold Skip. apply ledger_run. unfold Subscribe. simpl.
  apply ledger_leave. apply (ledger_Add T []); [discriminate|].
  apply ledger_run. apply ledger_enter.
Qed.

Lemma received_Skip (n : Z) (k : nat) (xs : list T) (t : option Terminal) :
  (Take.Integral_min <= n <= Take.Integral_max)%Z ->
  CreatedObservable.received (base (Skip n k (sequence xs t))) =
  sequence (skipn (Z.to_nat (due n)) xs) t.
Proof.
  intros Hn. rewrite <- (received_run_start n xs t Hn).
  destruct (alike_Skip n k (sequence xs t)) as (_ & _ & Hv).
  now injection Hv.
Qed.

End Facts.

End SkipFacts.

(** ** TakeUntil and SkipUntil *)

(** A sequence of the grammar is values followed by at most one terminal
    call. *)
Lemma conforms_sequence {T} (evs : list (Event T)) :
  conforms evs = true -> exists xs t, evs = sequence xs t.
Proof.
  induction evs as [|[x| |e] evs IH]; simpl; intros H.
  - exists [], None. reflexivity.
  - destruct (IH H) as (xs & t & ->). exists (x :: xs), t. reflexivity.
  - destruct evs; [|discriminate]. exists [], (Some Completes). reflexivity.
  - destruct evs; [|discriminate]. exists [], (Some (Fails e)). reflexivity.
Qed.

Lemma conforms_tail {T} (ev : Event T) (evs : list (Event T)) :
  conforms (ev :: evs) = true -> conforms evs = true.
Proof.
  destruct ev; simpl; auto; destruct evs; auto; discriminate.
Qed.

Lemma conforms_after_terminal {T} (ev : Event T) (evs : list (Event T)) :
  conforms (ev :: evs) = true -> is_terminal ev = true -> evs = [].
Proof.
  destruct ev; simpl; try discriminate; destruct evs; auto; discriminate.
Qed.

Lemma existsb_terminal_sequence {T} (xs : list T) (t : option Terminal) :
  existsb is_terminal (sequence xs t) =
  match t with Some _ => true | None => false end.
Proof.
  unfold sequence. rewrite existsb_app.
  replace (existsb is_terminal (map (@Next T) xs)) with false.
  - destruct t as [[|e]|]; reflexivity.
  - induction xs; simpl; auto.
Qed.

Module UntilFacts.

Import UntilView.

Section Facts.

Variables T U : Type.

Lemma from_source_app (a b : list (Call T U)) :
  from_source (a ++ b) = from_source a ++ from_source b.
Proof.
  induction a as [|[ev|ev] a IH]; simpl; auto. now rewrite IH.
Qed.

Lemma from_terminus_app (a b : list (Call T U)) :
  from_terminus (a ++ b) = from_terminus a ++ from_terminus b.
Proof.
  induction a as [|[ev|ev] a IH]; simpl; auto. now rewrite IH.
Qed.

Lemma from_source_FromSource (evs : list (Event T)) :
  from_source (map (@FromSource T U) evs) = evs.
Proof. induction evs; simpl; congruence. Qed.

Lemma from_source_FromTerminus (evs : list (Event U)) :
  from_source (map (@FromTerminus T U) evs) = [].
Proof. induction evs; simpl; congruence. Qed.

End Facts.

End UntilFacts.

Module SkipUntilFacts.

Import SkipUntil.
Import SkipUntilView.
Import UntilView.
Import UntilFacts.
Import CreatedObservableView.
Import CreatedObservableFacts.

Section Facts.

Variables T U : Type.

Lemma skip_until_alike_deliver (s1 s2 : Subscription T) (call : Call T U) :
  alike s1 s2 -> alike (deliver s1 call) (deliver s2 call).
Proof.
  destruct s1 as [m1 t1 i1 b1], s2 as [m2 t2 i2 b2]. unfold alike. simpl.
  intros (-> & -> & -> & Hv). destruct call as [ev|ev]; unfold deliver; simpl.
  - destruct (CreatedObserver.call ev t2) as [o [i|]]; simpl; auto.
  - destruct (CreatedObserver.call ev i2) as [o [[x| |e]|]]; simpl; auto.
    + unfold on_next. simpl. destruct m2; simpl; auto.
      repeat split. now apply view_send_eq.
    + repeat split. now apply view_finish_eq.
    + repeat split. now apply view_finish_eq.
Qed.

Lemma skip_until_alike_run (calls : list (Call T U)) (s1 s2 : Subscription T) :
  alike s1 s2 -> alike (run calls s1) (run calls s2).
Proof.
  revert s1 s2. unfold run.
  induction calls as [|c calls IH]; intros s1 s2 H; simpl; auto.
  apply IH. now apply skip_until_alike_deliver.
Qed.

(** Calls of [terminus] leave the observer of [source] and the
    subscription alone. *)
Lemma skip_until_terminus_only (calls : list (Call T U)) (s : Subscription T) :
  from_source calls = [] ->
  sourceObserver (run calls s) = sourceObserver s /\
  base (run calls s) = base s.
Proof.
  revert s. unfold run.
  induction calls as [|[ev|ev] calls IH]; intros s H; [auto| |discriminate].
  cbn [fold_left]. simpl in H.
  destruct (IH (deliver s (FromTerminus ev)) H) as [H1 H2].
  rewrite H1, H2. unfold deliver.
  destruct (CreatedObserver.call ev (terminusObserver s)) as [o [i|]]; auto.
Qed.

(** The observer of [source] may as well be there from the start. *)
Lemma skip_until_placeholder (evs : list (Event U)) (s : Subscription T)
      (o : CreatedObserver.t) :
  let s' := run (map FromTerminus evs) s in
  mk (skipState s') (terminusObserver s') o (base s') =
  run (map FromTerminus evs) (mk (skipState s) (terminusObserver s) o (base s)).
Proof.
  revert s. unfold run. induction evs as [|ev evs IH]; intros s; simpl; auto.
  rewrite IH. f_equal. unfold deliver. simpl.
  destruct (CreatedObserver.call ev (terminusObserver s)) as [o' [i|]]; auto.
Qed.

Lemma skip_until_alike_source (coldSource : list (Event T)) (m : SkipState.type)
      (t : CreatedObserver.t) (b : CreatedObservable.Subscription T) :
  let s := run (map (@FromSource T U) coldSource)
               (mk m t (CreatedObserver.CreateObserver true true true)
                   (CreatedObservable.Add (SourceSubscription 0) b)) in
  alike (mk (skipState s) (terminusObserver s) (sourceObserver s)
            (CreatedObservable.leave Composite
               (CreatedObservable.Add (SourceSubscription 1) (base s))))
        (run (map (@FromSource T U) coldSource)
             (mk m t (CreatedObserver.mk true true true) b)).
Proof.
  intros s.
  assert (H1 : alike (mk m t (CreatedObserver.CreateObserver true true true)
                         (CreatedObservable.Add (SourceSubscription 0) b))
                     (mk m t (CreatedObserver.mk true true true) b)).
  { unfold alike. simpl. repeat split. apply view_Add. }
  pose proof (skip_until_alike_run (map (@FromSource T U) coldSource) _ _ H1) as H2.
  fold s in H2. clearbody s.
  destruct s as [m1 t1 i1 b1].
  destruct (run _ _) as [m2 t2 i2 b2].
  unfold alike in *. cbn [skipState terminusObserver sourceObserver base] in *.
  destruct H2 as (-> & -> & -> & Hv).
  do 3 (split; [reflexivity|]).
  now rewrite view_leave, view_Add.
Qed.

Lemma alike_SkipUntil (coldTerminus : list (Event U)) (coldSource : list (Event T))
      (hot : list (Call T U)) :
  alike (SkipUntil coldTerminus coldSource hot)
        (run (arrival coldTerminus coldSource hot) (start T)).
Proof.
  unfold arrival, SkipUntil.
  assert (Hrun : forall (a b : list (Call T U)) (s : Subscription T),
             run (a ++ b) s = run b (run a s)).
  { intros a b s. unfold run. apply fold_left_app. }
  rewrite !Hrun. apply skip_until_alike_run.
  unfold Subscribe. cbv zeta.
  set (s0 := mk SkipState.Skipping (CreatedObserver.CreateObserver true true true)
                (CreatedObserver.mk false false false)
                (CreatedObservable.enter (Some (@CreatedAutoDetachObserver.quiet T)))).
  assert (Hp : mk (skipState (run (map (@FromTerminus T U) coldTerminus) s0))
                  (terminusObserver (run (map (@FromTerminus T U) coldTerminus) s0))
                  (CreatedObserver.mk true true true)
                  (base (run (map (@FromTerminus T U) coldTerminus) s0)) =
               run (map (@FromTerminus T U) coldTerminus) (start T))
    by exact (skip_until_placeholder coldTerminus s0 (CreatedObserver.mk true true true)).
  rewrite <- Hp.
  destruct (run (map (@FromTerminus T U) coldTerminus) s0) as [m t i b].
  apply skip_until_alike_source.
Qed.

(** Before [terminus] has made a call, values are dropped. *)
Lemma skip_until_skipping (xs : list T) (t : CreatedObserver.t)
      (b : CreatedObservable.Subscription T) :
  run (map (@FromSource T U) (map (@Next T) xs))
      (mk SkipState.Skipping t (CreatedObserver.mk true true true) b) =
  mk SkipState.Skipping t (CreatedObserver.mk true true true) b.
Proof.
  unfold run. induction xs as [|x xs IH]; simpl; auto.
Qed.

(** The end of [source] is passed on in either state. *)
Lemma skip_until_ending (term : Terminal) (m : SkipState.type) (t : CreatedObserver.t)
      (r : list (Event T)) :
  deliver (U := U) (mk m t (CreatedObserver.mk true true true) (running r))
          (FromSource (terminal_event term)) =
  mk m t (CreatedObserver.mk false false false) (finished (r ++ [terminal_event term])).
Proof. destruct term; reflexivity. Qed.

Lemma skip_until_run_cons (c : Call T U) (calls : list (Call T U))
      (s : Subscription T) :
  run (c :: calls) s = run calls (deliver s c).
Proof. reflexivity. Qed.

Lemma skip_until_run_app (a b : list (Call T U)) (s : Subscription T) :
  run (a ++ b) s = run b (run a s).
Proof. unfold run. apply fold_left_app. Qed.

(** Once [terminus] has made a call, the calls of [source] are passed
    on. *)
Lemma skip_until_taking (calls : list (Call T U)) (t : CreatedObserver.t)
      (r : list (Event T)) :
  conforms (from_source calls) = true ->
  CreatedObservable.received
    (base (run calls (mk SkipState.Taking t (CreatedObserver.mk true true true)
                         (running r)))) =
  r ++ from_source calls.
Proof.
  revert t r. induction calls as [|[ev|ev] calls IH]; intros t r Hc.
  - simpl. now rewrite app_nil_r.
  - rewrite skip_until_run_cons. cbn [from_source] in *.
    unfold deliver. cbn [terminusObserver skipState sourceObserver base].
    destruct (CreatedObserver.call ev t) as [o [i|]]; apply IH; exact Hc.
  - rewrite skip_until_run_cons. cbn [from_source] in *.
    destruct ev as [x| |e].
    + change (deliver (mk SkipState.Taking t (CreatedObserver.mk true true true)
                          (running r)) (FromSource (Next x)))
        with (mk SkipState.Taking t (CreatedObserver.mk true true true)
                 (running (r ++ [Next x]))).
      rewrite IH by (eapply conforms_tail; eauto).
      now rewrite <- app_assoc.
    + assert (Hnil : from_source calls = [])
        by (eapply conforms_after_terminal; eauto).
      rewrite (skip_until_ending Completes).
      rewrite (proj2 (skip_until_terminus_only calls _ Hnil)), Hnil. reflexivity.
    + assert (Hnil : from_source calls = [])
        by (eapply conforms_after_terminal; eauto).
      rewrite (skip_until_ending (Fails e)).
      rewrite (proj2 (skip_until_terminus_only calls _ Hnil)), Hnil. reflexivity.
Qed.

Lemma filter_terminal_values (xs : list T) :
  filter is_terminal (map (@Next T) xs) = [].
Proof. induction xs; simpl; auto. Qed.

Lemma filter_terminal_sequence (xs : list T) (t : option Terminal) :
  filter is_terminal (sequence xs t) = sequence [] t.
Proof.
  unfold sequence. rewrite filter_app, filter_terminal_values.
  destruct t as [[|e]|]; reflexivity.
Qed.

(** The subscription after the calls of [source], [before], then a first
    call of [terminus], then the calls [after]. *)
Lemma skip_until_gate (before : list (Event T)) (ev : Event U)
      (after : list (Call T U)) :
  conforms (before ++ from_source after) = true ->
  CreatedObservable.received
    (base (run (map FromSource before ++ FromTerminus ev :: after) (start T))) =
  filter is_terminal before ++ from_source after.
Proof.
  intros Hc.
  assert (Hb : conforms before = true).
  { clear -Hc. induction before as [|[x| |e] before IH]; simpl in *; auto;
      destruct before; simpl in *; auto; destruct (from_source after); auto. }
  destruct (conforms_sequence before Hb) as (xs & t & ->).
  rewrite filter_terminal_sequence.
  rewrite skip_until_run_app. unfold sequence at 1.
  rewrite map_app, skip_until_run_app.
  unfold start.
  change (CreatedObservable.enter _) with (running (@nil (Event T))).
  rewrite skip_until_skipping.
  destruct t as [term|].
  - assert (Hnil : from_source after = []).
    { clear -Hc. unfold sequence in Hc. rewrite <- app_assoc in Hc.
      induction xs as [|x xs IH]; simpl in *; auto.
      destruct term; simpl in Hc; destruct (from_source after); auto; discriminate. }
    change (run (map FromSource [terminal_event term]) ?s)
      with (deliver (U := U) s (FromSource (terminal_event term))).
    rewrite skip_until_ending.
    rewrite (proj2 (skip_until_terminus_only (FromTerminus ev :: after) _ Hnil)).
    rewrite Hnil. reflexivity.
  - change (run (map FromSource []) ?s) with s. rewrite skip_until_run_cons.
    assert (Hafter : conforms (from_source after) = true).
    { clear -Hc. unfold sequence in Hc. rewrite app_nil_r in Hc.
      induction xs as [|x xs IH]; simpl in *; auto. }
    destruct ev as [u| |e].
    + change (deliver (mk SkipState.Skipping (CreatedObserver.mk true true true)
                          (CreatedObserver.mk true true true) (running []))
                      (FromTerminus (Next u)))
        with (mk SkipState.Taking (CreatedObserver.mk true true true)
                 (CreatedObserver.mk true true true) (running (@nil (Event T)))).
      now rewrite skip_until_taking.
    + change (deliver (mk SkipState.Skipping (CreatedObserver.mk true true true)
                          (CreatedObserver.mk true true true) (running []))
                      (FromTerminus Completed))
        with (mk SkipState.Taking (CreatedObserver.mk false false false)
                 (CreatedObserver.mk true true true) (running (@nil (Event T)))).
      now rewrite skip_until_taking.
    + change (deliver (mk SkipState.Skipping (CreatedObserver.mk true true true)
                          (CreatedObserver.mk true true true) (running []))
                      (FromTerminus (Error e)))
        with (mk SkipState.Taking (CreatedObserver.mk false false false)
                 (CreatedObserver.mk true true true) (running (@nil (Event T)))).
      now rewrite skip_until_taking.
Qed.

(** Without a call of [terminus], only the end of [source] is passed
    on. *)
Lemma skip_until_silent (evs : list (Event T)) :
  conforms evs = true ->
  CreatedObservable.received (base (run (map (@FromSource T U) evs) (start T))) =
  filter is_terminal evs.
Proof.
  intros Hc. destruct (conforms_sequence evs Hc) as (xs & t & ->).
  rewrite filter_terminal_sequence.
  unfold sequence at 1. rewrite map_app, skip_until_run_app.
  unfold start.
  change (CreatedObservable.enter _) with (running (@nil (Event T))).
  rewrite skip_until_skipping. destruct t as [term|]; [|reflexivity].
  change (run (map FromSource [terminal_event term]) ?s)
    with (deliver (U := U) s (FromSource (terminal_event term))).
  now rewrite skip_until_ending.
Qed.

(** The handles of the two subscriptions are released exactly when the
    subscriber has been handed a terminal call. *)
Lemma skip_until_ledger_deliver hs cur (s : Subscription T) (call : Call T U) :
  ledger hs cur (base s) -> ledger hs cur (base (deliver s call)).
Proof.
  destruct s as [m t i b]. destruct call as [ev|ev]; unfold deliver; simpl.
  - destruct (CreatedObserver.call ev t) as [o [j|]]; simpl; auto.
  - destruct (CreatedObserver.call ev i) as [o [[x| |e]|]]; simpl; auto.
    + unfold on_next. simpl. destruct m; simpl; auto. apply ledger_send_next.
    + now apply ledger_finish.
    + now apply ledger_finish.
Qed.

Lemma skip_until_ledger_run hs cur (calls : list (Call T U)) (s : Subscription T) :
  ledger hs cur (base s) -> ledger hs cur (base (run calls s)).
Proof.
  revert s. unfold run. induction calls as [|c calls IH]; intros s H; simpl; auto.
  apply IH. now apply skip_until_ledger_deliver.
Qed.

Lemma ledger_SkipUntil (coldTerminus : list (Event U)) (coldSource : list (Event T))
      (hot : list (Call T U)) :
  ledger [SourceSubscription 0; SourceSubscription 1] (Some Composite)
         (base (SkipUntil coldTerminus coldSource hot)).
Proof.
  unfold SkipUntil. apply skip_until_ledger_run. unfold Subscribe.
  cbn [base]. apply ledger_leave.
  apply (ledger_Add T [SourceSubscription 0]); [discriminate|].
  apply skip_until_ledger_run. cbn [base].
  apply (ledger_Add T []); [discriminate|].
  apply skip_until_ledger_run. apply ledger_enter.
Qed.

End Facts.

End SkipUntilFacts.

Module TakeUntilFacts.

Import TakeUntil.
Import TakeUntilView.
Import UntilView.
Import UntilFacts.
Import CreatedObservableView.
Import CreatedObservableFacts.

Section Facts.

Variables T U : Type.

Lemma take_until_run_cons (c : Call T U) (calls : list (Call T U))
      (s : Subscription T) :
  run (c :: calls) s = run calls (deliver s c).
Proof. reflexivity. Qed.

Lemma take_until_run_app (a b : list (Call T U)) (s : Subscription T) :
  run (a ++ b) s = run b (run a s).
Proof. unfold run. apply fold_left_app. Qed.

Lemma take_until_alike_deliver (s1 s2 : Subscription T) (call : Call T U) :
  alike s1 s2 -> alike (deliver s1 call) (deliver s2 call).
Proof.
  destruct s1 as [m1 k1 t1 i1 b1], s2 as [m2 k2 t2 i2 b2]. unfold alike. simpl.
  intros (-> & -> & -> & -> & Hv). destruct call as [ev|ev]; unfold deliver; simpl.
  - destruct (CreatedObserver.call ev t2) as [o [i|]]; simpl; auto.
  - destruct (CreatedObserver.call ev i2) as [o [[x| |e]|]]; simpl; auto.
    + unfold on_next. simpl. destruct m2; simpl.
      * do 4 (split; [reflexivity|]). now apply view_send_eq.
      * destruct k2; simpl; auto.
        do 4 (split; [reflexivity|]). now apply view_finish_eq.
    + unfold on_completed. simpl. destruct k2; simpl; auto.
      do 4 (split; [reflexivity|]). now apply view_finish_eq.
    + do 4 (split; [reflexivity|]). now apply view_finish_eq.
Qed.

Lemma take_until_alike_run (calls : list (Call T U)) (s1 s2 : Subscription T) :
  alike s1 s2 -> alike (run calls s1) (run calls s2).
Proof.
  revert s1 s2. unfold run.
  induction calls as [|c calls IH]; intros s1 s2 H; simpl; auto.
  apply IH. now apply take_until_alike_deliver.
Qed.

(** The observer of [source] may as well be there from the start. *)
Lemma take_until_placeholder (evs : list (Event U)) (s : Subscription T)
      (o : CreatedObserver.t) :
  let s' := run (map (@FromTerminus T U) evs) s in
  mk (terminusState s') (takeState s') (terminusObserver s') o (base s') =
  run (map (@FromTerminus T U) evs)
      (mk (terminusState s) (takeState s) (terminusObserver s) o (base s)).
Proof.
  revert s. unfold run. induction evs as [|ev evs IH]; intros s; simpl; auto.
  rewrite IH. f_equal. unfold deliver. simpl.
  destruct (CreatedObserver.call ev (terminusObserver s)) as [o' [i|]]; auto.
Qed.

Lemma take_until_alike_source (coldSource : list (Event T)) (m : TerminusState.type)
      (k : TakeState.type) (t : CreatedObserver.t)
      (b : CreatedObservable.Subscription T) :
  let s := run (map (@FromSource T U) coldSource)
               (mk m k t (CreatedObserver.CreateObserver true true true)
                   (CreatedObservable.Add (SourceSubscription 0) b)) in
  alike (mk (terminusState s) (takeState s) (terminusObserver s) (sourceObserver s)
            (CreatedObservable.leave Composite
               (CreatedObservable.Add (SourceSubscription 1) (base s))))
        (run (map (@FromSource T U) coldSource)
             (mk m k t (CreatedObserver.mk true true true) b)).
Proof.
  intros s.
  assert (H1 : alike (mk m k t (CreatedObserver.CreateObserver true true true)
                         (CreatedObservable.Add (SourceSubscription 0) b))
                     (mk m k t (CreatedObserver.mk true true true) b)).
  { unfold alike. simpl. repeat split. apply view_Add. }
  pose proof (take_until_alike_run (map (@FromSource T U) coldSource) _ _ H1) as H2.
  fold s in H2. clearbody s.
  destruct s as [m1 k1 t1 i1 b1].
  destruct (run _ _) as [m2 k2 t2 i2 b2].
  unfold alike in *.
  cbn [terminusState takeState terminusObserver sourceObserver base] in *.
  destruct H2 as (-> & -> & -> & -> & Hv).
  do 4 (split; [reflexivity|]).
  now rewrite view_leave, view_Add.
Qed.

Lemma alike_TakeUntil (coldTerminus : list (Event U)) (coldSource : list (Event T))
      (hot : list (Call T U)) :
  alike (TakeUntil coldTerminus coldSource hot)
        (run (arrival coldTerminus coldSource hot) (start T)).
Proof.
  unfold arrival, TakeUntil.
  rewrite !take_until_run_app. apply take_until_alike_run.
  unfold Subscribe. cbv zeta.
  set (s0 := mk TerminusState.Live TakeState.Taking
                (CreatedObserver.CreateObserver true true true)
                (CreatedObserver.mk false false false)
                (CreatedObservable.enter (Some (@CreatedAutoDetachObserver.quiet T)))).
  assert (Hp : mk (terminusState (run (map (@FromTerminus T U) coldTerminus) s0))
                  (takeState (run (map (@FromTerminus T U) coldTerminus) s0))
                  (terminusObserver (run (map (@FromTerminus T U) coldTerminus) s0))
                  (CreatedObserver.mk true true true)
                  (base (run (map (@FromTerminus T U) coldTerminus) s0)) =
               run (map (@FromTerminus T U) coldTerminus) (start T))
    by exact (take_until_placeholder coldTerminus s0 (CreatedObserver.mk true true true)).
  rewrite <- Hp.
  destruct (run (map (@FromTerminus T U) coldTerminus) s0) as [m k t i b].
  apply take_until_alike_source.
Qed.

(** While [terminus] has made no call, values are passed on. *)
Lemma take_until_taking (xs : list T) (t : CreatedObserver.t) (r : list (Event T)) :
  run (map (@FromSource T U) (map (@Next T) xs))
      (mk TerminusState.Live TakeState.Taking t (CreatedObserver.mk true true true)
          (running r)) =
  mk TerminusState.Live TakeState.Taking t (CreatedObserver.mk true true true)
     (running (r ++ map (@Next T) xs)).
Proof.
  revert r. induction xs as [|x xs IH]; intros r.
  - simpl. now rewrite app_nil_r.
  - cbn [map]. rewrite take_until_run_cons.
    change (deliver (mk TerminusState.Live TakeState.Taking t
                        (CreatedObserver.mk true true true) (running r))
                    (FromSource (Next x)))
      with (mk TerminusState.Live TakeState.Taking t
               (CreatedObserver.mk true true true) (running (r ++ [Next x]))).
    rewrite IH. now rewrite <- app_assoc.
Qed.

(** The end of [source] is passed on as long as the subscriber has not
    been handed completed. *)
Lemma take_until_ending (term : Terminal) (m : TerminusState.type)
      (t : CreatedObserver.t) (r : list (Event T)) :
  deliver (U := U)
          (mk m TakeState.Taking t (CreatedObserver.mk true true true) (running r))
          (FromSource (terminal_event term)) =
  mk TerminusState.Terminated TakeState.Completed t
     (CreatedObserver.mk false false false) (finished (r ++ [terminal_event term])).
Proof. destruct term; reflexivity. Qed.

(** Once the subscriber has been handed a terminal call, nothing
    changes what it has seen. *)
Lemma take_until_done (calls : list (Call T U)) (t i : CreatedObserver.t)
      (r : list (Event T)) :
  base (run calls (mk TerminusState.Terminated TakeState.Completed t i (finished r))) =
  finished r.
Proof.
  revert t i. induction calls as [|[ev|ev] calls IH]; intros t i; auto.
  - rewrite take_until_run_cons. unfold deliver.
    cbn [terminusObserver terminusState takeState sourceObserver base].
    destruct (CreatedObserver.call ev t) as [o [j|]]; apply IH.
  - rewrite take_until_run_cons. unfold deliver.
    cbn [terminusObserver terminusState takeState sourceObserver base].
    destruct (CreatedObserver.call ev i) as [o [[x| |e]|]]; try apply IH.
    assert (E : on_error e (mk TerminusState.Terminated TakeState.Completed t o
                                (finished r)) =
                mk TerminusState.Terminated TakeState.Completed t o (finished r)).
    { unfold on_error. cbn [base terminusObserver sourceObserver].
      now rewrite send_finished, dispose_finished. }
    rewrite E. apply IH.
Qed.

(** After a call of [terminus], the next call of [source] ends the
    subscription. *)
Lemma take_until_closing (calls : list (Call T U)) (t : CreatedObserver.t)
      (r : list (Event T)) :
  CreatedObservable.received
    (base (run calls (mk TerminusState.Terminated TakeState.Taking t
                         (CreatedObserver.mk true true true) (running r)))) =
  r ++ closing (from_source calls).
Proof.
  revert t. induction calls as [|[ev|ev] calls IH]; intros t.
  - simpl. now rewrite app_nil_r.
  - rewrite take_until_run_cons. cbn [from_source]. unfold deliver.
    cbn [terminusObserver terminusState takeState sourceObserver base].
    destruct (CreatedObserver.call ev t) as [o [j|]]; apply IH.
  - rewrite take_until_run_cons. cbn [from_source].
    destruct ev as [x| |e].
    + change (deliver (mk TerminusState.Terminated TakeState.Taking t
                          (CreatedObserver.mk true true true) (running r))
                      (FromSource (Next x)))
        with (mk TerminusState.Terminated TakeState.Completed t
                 (CreatedObserver.mk true true true) (finished (r ++ [Completed]))).
      now rewrite take_until_done.
    + rewrite (take_until_ending Completes). now rewrite take_until_done.
    + rewrite (take_until_ending (Fails e)). now rewrite take_until_done.
Qed.

Lemma conforms_app_left (a b : list (Event T)) :
  conforms (a ++ b) = true -> conforms a = true.
Proof.
  induction a as [|[x| |e] a IH]; simpl; auto; destruct a; simpl; auto; discriminate.
Qed.

Lemma conforms_ended (xs : list T) (term : Terminal) (b : list (Event T)) :
  conforms (sequence xs (Some term) ++ b) = true -> b = [].
Proof.
  unfold sequence. rewrite <- app_assoc.
  induction xs as [|x xs IH]; simpl; auto.
  destruct term; simpl; destruct b; auto; discriminate.
Qed.

(** The subscription after the calls of [source], [before], then a first
    call of [terminus], then the calls [after]. *)
Lemma take_until_gate (before : list (Event T)) (ev : Event U)
      (after : list (Call T U)) :
  conforms (before ++ from_source after) = true ->
  CreatedObservable.received
    (base (run (map FromSource before ++ FromTerminus ev :: after) (start T))) =
  before ++ closing (from_source after).
Proof.
  intros Hc.
  destruct (conforms_sequence before (conforms_app_left _ _ Hc)) as (xs & t & ->).
  rewrite take_until_run_app. unfold sequence at 1.
  rewrite map_app, take_until_run_app.
  unfold start.
  change (CreatedObservable.enter _) with (running (@nil (Event T))).
  rewrite take_until_taking.
  destruct t as [term|].
  - rewrite (conforms_ended _ _ _ Hc).
    change (run (map FromSource [terminal_event term]) ?s)
      with (deliver (U := U) s (FromSource (terminal_event term))).
    rewrite take_until_ending, take_until_done. simpl.
    now rewrite app_nil_r.
  - change (run (map FromSource []) ?s) with s. rewrite take_until_run_cons.
    unfold sequence. rewrite app_nil_r.
    destruct ev as [u| |e].
    + change (deliver (mk TerminusState.Live TakeState.Taking
                          (CreatedObserver.mk true true true)
                          (CreatedObserver.mk true true true)
                          (running ([] ++ map (@Next T) xs)))
                      (FromTerminus (Next u)))
        with (mk TerminusState.Terminated TakeState.Taking
                 (CreatedObserver.mk true true true)
                 (CreatedObserver.mk true true true) (running ([] ++ map (@Next T) xs))).
      now rewrite take_until_closing.
    + change (deliver (mk TerminusState.Live TakeState.Taking
                          (CreatedObserver.mk true true true)
                          (CreatedObserver.mk true true true)
                          (running ([] ++ map (@Next T) xs)))
                      (FromTerminus Completed))
        with (mk TerminusState.Terminated TakeState.Taking
                 (CreatedObserver.mk false false false)
                 (CreatedObserver.mk true true true) (running ([] ++ map (@Next T) xs))).
      now rewrite take_until_closing.
    + change (deliver (mk TerminusState.Live TakeState.Taking
                          (CreatedObserver.mk true true true)
                          (CreatedObserver.mk true true true)
                          (running ([] ++ map (@Next T) xs)))
                      (FromTerminus (Error e)))
        with (mk TerminusState.Terminated TakeState.Taking
                 (CreatedObserver.mk false false false)
                 (CreatedObserver.mk true true true) (running ([] ++ map (@Next T) xs))).
      now rewrite take_until_closing.
Qed.

(** Without a call of [terminus], the calls of [source] are passed on. *)
Lemma take_until_silent (evs : list (Event T)) :
  conforms evs = true ->
  CreatedObservable.received (base (run (map (@FromSource T U) evs) (start T))) = evs.
Proof.
  intros Hc. destruct (conforms_sequence evs Hc) as (xs & t & ->).
  unfold sequence at 1. rewrite map_app, take_until_run_app.
  unfold start.
  change (CreatedObservable.enter _) with (running (@nil (Event T))).
  rewrite take_until_taking. destruct t as [term|].
  - change (run (map FromSource [terminal_event term]) ?s)
      with (deliver (U := U) s (FromSource (terminal_event term))).
    now rewrite take_until_ending.
  - simpl. unfold sequence. now rewrite app_nil_r.
Qed.

(** The handles of the two subscriptions are released exactly when the
    subscriber has been handed a terminal call. *)
Lemma take_until_ledger_deliver hs cur (s : Subscription T) (call : Call T U) :
  ledger hs cur (base s) -> ledger hs cur (base (deliver s call)).
Proof.
  destruct s as [m k t i b]. destruct call as [ev|ev]; unfold deliver; simpl.
  - destruct (CreatedObserver.call ev t) as [o [j|]]; simpl; auto.
  - destruct (CreatedObserver.call ev i) as [o [[x| |e]|]]; simpl; auto.
    + unfold on_next. simpl. destruct m; simpl.
      * apply ledger_send_next.
      * destruct k; simpl; auto. now apply ledger_finish.
    + unfold on_completed. simpl. destruct k; simpl; auto. now apply ledger_finish.
    + now apply ledger_finish.
Qed.

Lemma take_until_ledger_run hs cur (calls : list (Call T U)) (s : Subscription T) :
  ledger hs cur (base s) -> ledger hs cur (base (run calls s)).
Proof.
  revert s. unfold run. induction calls as [|c calls IH]; intros s H; simpl; auto.
  apply IH. now apply take_until_ledger_deliver.
Qed.

Lemma ledger_TakeUntil (coldTerminus : list (Event U)) (coldSource : list (Event T))
      (hot : list (Call T U)) :
  ledger [SourceSubscription 0; SourceSubscription 1] (Some Composite)
         (base (TakeUntil coldTerminus coldSource hot)).
Proof.
  unfold TakeUntil. apply take_until_ledger_run. unfold Subscribe.
  cbn [base]. apply ledger_leave.
  apply (ledger_Add T [SourceSubscription 0]); [discriminate|].
  apply take_until_ledger_run. cbn [base].
  apply (ledger_Add T []); [discriminate|].
  apply take_until_ledger_run. apply ledger_enter.
Qed.

End Facts.

End TakeUntilFacts.

(** ** DistinctUntilChanged *)

Module DistinctUntilChangedFacts.

Import DistinctUntilChanged.
Import DistinctUntilChangedView.
Import CreatedObservableView.
Import CreatedObservableFacts.

Section Facts.

Variable T : Type.
Variable T_default : T.
Variable equal : T -> T -> bool.

Lemma distinct_alike_deliver (s1 s2 : Subscription T) (ev : Event T) :
  alike s1 s2 -> alike (deliver equal s1 ev) (deliver equal s2 ev).
Proof.
  destruct s1 as [m1 i1 b1], s2 as [m2 i2 b2]. unfold alike. simpl.
  intros (-> & -> & Hv). unfold deliver. simpl.
  destruct (CreatedObserver.call ev i2) as [o [[x| |e]|]]; simpl; auto.
  - unfold on_next. simpl.
    destruct (negb (hasValue m2) || negb (equal (last m2) x)); simpl; auto.
    repeat split. now apply view_send_eq.
  - repeat split. now apply view_send_eq.
  - repeat split. now apply view_send_eq.
Qed.

Lemma distinct_alike_run (evs : list (Event T)) (s1 s2 : Subscription T) :
  alike s1 s2 -> alike (run equal evs s1) (run equal evs s2).
Proof.
  revert s1 s2. unfold run.
  induction evs as [|ev evs IH]; intros s1 s2 H; simpl; auto.
  apply IH. now apply distinct_alike_deliver.
Qed.

Lemma alike_DistinctUntilChanged (k : nat) (evs : list (Event T)) :
  alike (DistinctUntilChanged T_default equal k evs)
        (run equal evs (start T_default)).
Proof.
  assert (Hrun : run equal evs (start T_default) =
                 run equal (skipn k evs) (run equal (firstn k evs) (start T_default))).
  { unfold run. now rewrite <- fold_left_app, firstn_skipn. }
  rewrite Hrun. unfold DistinctUntilChanged. apply distinct_alike_run.
  unfold Subscribe.
  change (mk (mkState T_default false) (CreatedObserver.CreateObserver true true true)
             (CreatedObservable.enter (Some (@CreatedAutoDetachObserver.quiet T))))
    with (start T_default).
  destruct (run equal (firstn k evs) (start T_default)) as [m i b].
  unfold alike. simpl. now rewrite view_leave.
Qed.

Lemma distinct_values (xs : list T) (m : State T) (r : list (Event T)) :
  exists m',
    run equal (map (@Next T) xs) (mk m (CreatedObserver.mk true true true) (running r)) =
    mk m' (CreatedObserver.mk true true true)
       (running (r ++ map (@Next T) (kept equal (previous m) xs))).
Proof.
  revert m r. induction xs as [|x xs IH]; intros m r.
  - exists m. simpl. now rewrite app_nil_r.
  - cbn [map kept]. unfold run. cbn [fold_left]. unfold deliver at 2.
    cbn [inner CreatedObserver.call CreatedObserver.onNext state base].
    unfold on_next. cbn [state inner base].
    destruct m as [l [|]]; unfold previous; cbn [hasValue last repeats negb orb].
    + destruct (equal l x); cbn [negb].
      * apply (IH (mkState l true) r).
      * destruct (IH (mkState x true) (r ++ [Next x])) as (m' & Hm').
        exists m'. unfold run in Hm'.
        change (CreatedObservable.send (Next x) (running r))
          with (running (r ++ [Next x])).
        rewrite Hm'. unfold previous. simpl. now rewrite <- app_assoc.
    + destruct (IH (mkState x true) (r ++ [Next x])) as (m' & Hm').
      exists m'. unfold run in Hm'.
      change (CreatedObservable.send (Next x) (running r))
        with (running (r ++ [Next x])).
      rewrite Hm'. unfold previous. simpl. now rewrite <- app_assoc.
Qed.

Lemma distinct_run_start (xs : list T) (t : option Terminal) :
  CreatedObservable.received
    (base (run equal (sequence xs t) (start T_default))) =
  sequence (kept equal None xs) t.
Proof.
  unfold sequence at 1, run. rewrite fold_left_app.
  unfold start. change (CreatedObservable.enter _) with (running (@nil (Event T))).
  destruct (distinct_values xs (mkState T_default false) []) as (m' & Hm').
  unfold run in Hm'. rewrite Hm'. unfold previous. simpl.
  unfold sequence. destruct t as [[|e]|]; simpl; auto. now rewrite app_nil_r.
Qed.

Lemma received_DistinctUntilChanged (k : nat) (xs : list T) (t : option Terminal) :
  CreatedObservable.received
    (base (DistinctUntilChanged T_default equal k (sequence xs t))) =
  sequence (kept equal None xs) t.
Proof.
  rewrite <- distinct_run_start.
  destruct (alike_DistinctUntilChanged k (sequence xs t)) as (_ & _ & Hv).
  now injection Hv.
Qed.

(** The values kept never repeat, and values that never repeat are all
    kept. *)
Lemma changing_kept (p : option T) (xs : list T) :
  changing equal p (kept equal p xs) = true.
Proof.
  revert p. induction xs as [|x xs IH]; intros p; simpl; auto.
  destruct (repeats equal p x) eqn:E; simpl; auto.
  rewrite E. simpl. apply IH.
Qed.

Lemma kept_changing (p : option T) (xs : list T) :
  changing equal p xs = true -> kept equal p xs = xs.
Proof.
  revert p. induction xs as [|x xs IH]; intros p; simpl; auto.
  destruct (repeats equal p x); simpl; [discriminate|].
  intros H. now rewrite IH.
Qed.

Lemma hd_kept (xs : list T) : hd_error (kept equal None xs) = hd_error xs.
Proof. destruct xs; reflexivity. Qed.

(** Nothing is ever disposed. *)
Lemma distinct_idle_deliver cur (s : Subscription T) (ev : Event T) :
  idle cur (base s) -> idle cur (base (deliver equal s ev)).
Proof.
  destruct s as [m i b]. unfold deliver. simpl.
  destruct (CreatedObserver.call ev i) as [o [[x| |e]|]]; simpl; auto.
  - unfold on_next. simpl.
    destruct (negb (hasValue m) || negb (equal (last m) x)); simpl; auto.
    apply idle_send.
  - apply idle_send.
  - apply idle_send.
Qed.

Lemma distinct_idle_run cur (evs : list (Event T)) (s : Subscription T) :
  idle cur (base s) -> idle cur (base (run equal evs s)).
Proof.
  revert s. unfold run. induction evs as [|ev evs IH]; intros s H; simpl; auto.
  apply IH. now apply distinct_idle_deliver.
Qed.

Lemma idle_DistinctUntilChanged (k : nat) (evs : list (Event T)) :
  idle (Some (SourceSubscription 0))
       (base (DistinctUntilChanged T_default equal k evs)).
Proof.
  unfold DistinctUntilChanged. apply distinct_idle_run. unfold Subscribe. simpl.
  apply idle_leave. apply distinct_idle_run. apply idle_enter.
Qed.

End Facts.

End DistinctUntilChangedFacts.

(** ** ToStdCollection *)

Module ToStdCollectionFacts.

Import ToStdCollection.
Import ToStdCollectionView.
Import CreatedObservableView.
Import CreatedObservableFacts.

Section Facts.

Variables C Value : Type.
Context `{StdCollection C Value}.

Lemma collection_alike_deliver (s1 s2 : Subscription C) (ev : Event Value) :
  alike s1 s2 -> alike (deliver s1 ev) (deliver s2 ev).
Proof.
  destruct s1 as [m1 i1 b1], s2 as [m2 i2 b2]. unfold alike. simpl.
  intros (-> & -> & Hv). unfold deliver. simpl.
  destruct (CreatedObserver.call ev i2) as [o [[x| |e]|]]; simpl; auto.
  - repeat split. apply view_send_eq. now apply view_send_eq.
  - repeat split. now apply view_send_eq.
Qed.

Lemma collection_alike_run (evs : list (Event Value)) (s1 s2 : Subscription C) :
  alike s1 s2 -> alike (run evs s1) (run evs s2).
Proof.
  revert s1 s2. unfold run.
  induction evs as [|ev evs IH]; intros s1 s2 E; simpl; auto.
  apply IH. now apply collection_alike_deliver.
Qed.

Lemma alike_ToStdCollection (k : nat) (evs : list (Event Value)) :
  alike (ToStdCollection k evs)
        (run evs (mk empty (CreatedObserver.mk true true true) (running []))).
Proof.
  set (s0 := mk empty (CreatedObserver.mk true true true) (running [])).
  assert (Hrun : run evs s0 = run (skipn k evs) (run (firstn k evs) s0)).
  { unfold run. now rewrite <- fold_left_app, firstn_skipn. }
  rewrite Hrun. unfold ToStdCollection. apply collection_alike_run.
  unfold Subscribe.
  change (mk empty (CreatedObserver.CreateObserver true true true)
             (CreatedObservable.enter (Some (@CreatedAutoDetachObserver.quiet C))))
    with s0.
  destruct (run (firstn k evs) s0) as [m i b].
  unfold alike. simpl. now rewrite view_leave.
Qed.

Lemma collecting (xs : list Value) (c : C) (b : CreatedObservable.Subscription C) :
  run (map (@Next Value) xs) (mk c (CreatedObserver.mk true true true) b) =
  mk (fold_left insert_end xs c) (CreatedObserver.mk true true true) b.
Proof.
  revert c. unfold run. induction xs as [|x xs IH]; intros c; simpl; auto.
  apply IH.
Qed.

Lemma collection_run_start (xs : list Value) (t : option Terminal) :
  CreatedObservable.received
    (base (run (sequence xs t)
               (mk empty (CreatedObserver.mk true true true) (running [])))) =
  match t with
  | Some Completes => [Next (fold_left insert_end xs empty); Completed]
  | Some (Fails e) => [Error e]
  | None => []
  end.
Proof.
  unfold sequence, run. rewrite fold_left_app.
  pose proof (collecting xs empty (running [])) as Hc. unfold run in Hc. rewrite Hc.
  destruct t as [[|e]|]; reflexivity.
Qed.

Lemma received_ToStdCollection (k : nat) (xs : list Value) (t : option Terminal) :
  CreatedObservable.received (base (ToStdCollection k (sequence xs t))) =
  match t with
  | Some Completes => [Next (fold_left insert_end xs empty); Completed]
  | Some (Fails e) => [Error e]
  | None => []
  end.
Proof.
  rewrite <- collection_run_start.
  destruct (alike_ToStdCollection k (sequence xs t)) as (_ & _ & Hv).
  now injection Hv.
Qed.

Lemma collection_idle_deliver cur (s : Subscription C) (ev : Event Value) :
  idle cur (base s) -> idle cur (base (deliver s ev)).
Proof.
  destruct s as [m i b]. unfold deliver. simpl.
  destruct (CreatedObserver.call ev i) as [o [[x| |e]|]]; simpl; auto.
  - intros E. apply idle_send. now apply idle_send.
  - apply idle_send.
Qed.

Lemma collection_idle_run cur (evs : list (Event Value)) (s : Subscription C) :
  idle cur (base s) -> idle cur (base (run evs s)).
Proof.
  revert s. unfold run. induction evs as [|ev evs IH]; intros s E; simpl; auto.
  apply IH. now apply collection_idle_deliver.
Qed.

Lemma idle_ToStdCollection (k : nat) (evs : list (Event Value)) :
  idle (Some (SourceSubscription 0)) (base (ToStdCollection k evs)).
Proof.
  unfold ToStdCollection. apply collection_idle_run. unfold Subscribe. simpl.
  apply idle_leave. apply collection_idle_run. apply idle_enter.
Qed.

End Facts.

Lemma vector_collects (Value : Type) (xs c : list Value) :
  fold_left insert_end xs c = c ++ xs.
Proof.
  revert c. induction xs as [|x xs IH]; intros c; simpl.
  - now rewrite app_nil_r.
  - rewrite IH. now rewrite <- app_assoc.
Qed.

End ToStdCollectionFacts.

(** ** The operators, as their subscribers see them *)

(** Skip(source, n) with [1 <= n], on a sequence of the grammar: the
    first [n] values are dropped, the values after them are passed on in
    order, and the terminal call is passed on in any case, also when fewer
    than [n] values came before it.  The handle of the subscription to the
    source is released exactly when the source has terminated, whether its
    calls came during [Subscribe] or after. *)
Theorem Skip_drops_first_values :
  forall (T : Type) (n : Z) (k : nat) (xs : list T) (t : option Terminal),
    (1 <= n <= Take.Integral_max)%Z ->
    let s := Skip.Skip n k (sequence xs t) in
    CreatedObservable.received (Skip.base s) = sequence (skipn (Z.to_nat n) xs) t /\
    CreatedObservable.released (Skip.base s) =
      match t with Some _ => [SourceSubscription 0] | None => [] end.
Proof.
  intros T n k xs t Hn s.
  assert (Hrec : CreatedObservable.received (Skip.base s) =
                 sequence (skipn (Z.to_nat n) xs) t).
  { unfold s. rewrite SkipFacts.received_Skip
      by (unfold Take.Integral_min, Take.Integral_max in *; lia).
    now rewrite SkipFacts.due_positive. }
  split; [exact Hrec|]. unfold s in *.
  rewrite (CreatedObservableFacts.ledger_released T _ _ _ (SkipFacts.ledger_Skip T n k _)).
  rewrite Hrec, existsb_terminal_sequence. now destruct t.
Qed.

Lemma Skip_drops_first_values_witness :
  let s := Skip.Skip 2 1 (sequence [5; 6; 7; 8] (Some Completes)) in
  CreatedObservable.received (Skip.base s) = [Next 7; Next 8; Completed] /\
  CreatedObservable.released (Skip.base s) = [SourceSubscription 0].
Proof.
  apply (Skip_drops_first_values nat 2 1 [5; 6; 7; 8] (Some Completes)).
  unfold Take.Integral_max. lia.
Defined.

(** Skip(source, n) with [n <= 0]: the countdown is decremented before it
    is compared with zero, so it only reaches zero after wrapping around.
    On a source with fewer than [2^32 + n] values no value is passed on;
    only the terminal call is. *)
Theorem Skip_nonpositive_count_drops_all :
  forall (T : Type) (n : Z) (k : nat) (xs : list T) (t : option Terminal),
    (Take.Integral_min <= n <= 0)%Z ->
    (Z.of_nat (length xs) < 2 ^ 32 + n)%Z ->
    CreatedObservable.received (Skip.base (Skip.Skip n k (sequence xs t))) =
      sequence [] t.
Proof.
  intros T n k xs t Hn Hlen.
  rewrite SkipFacts.received_Skip by (unfold Take.Integral_max; lia).
  rewrite SkipFacts.due_nonpositive by exact Hn.
  rewrite skipn_all2 by lia. reflexivity.
Qed.

Lemma Skip_nonpositive_count_drops_all_witness :
  CreatedObservable.received
    (Skip.base (Skip.Skip 0 1 (sequence [5; 6; 7] (Some Completes)))) = [Completed].
Proof.
  apply (Skip_nonpositive_count_drops_all nat 0 1 [5; 6; 7] (Some Completes)).
  - unfold Take.Integral_min. lia.
  - simpl. lia.
Defined.

(** SkipUntil(source, terminus): the first call of [terminus], be it a
    value, completed or an error, opens the gate.  Of the calls [source]
    made before it only a terminal call is passed on; the calls [source]
    makes after it are all passed on.  Nothing [terminus] hands over reaches
    the subscriber, its error included.  The handles of both subscriptions
    are released exactly when [source] has terminated. *)
Theorem SkipUntil_opens_on_first_terminus_call :
  forall (T U : Type) (coldTerminus : list (Event U)) (coldSource : list (Event T))
         (hot : list (Call T U)) (before : list (Event T)) (ev : Event U)
         (after : list (Call T U)),
    UntilView.arrival coldTerminus coldSource hot =
      map FromSource before ++ FromTerminus ev :: after ->
    conforms (before ++ UntilView.from_source after) = true ->
    let s := SkipUntil.SkipUntil coldTerminus coldSource hot in
    CreatedObservable.received (SkipUntil.base s) =
      filter is_terminal before ++ UntilView.from_source after /\
    CreatedObservable.released (SkipUntil.base s) =
      if existsb is_terminal (before ++ UntilView.from_source after)
      then [SourceSubscription 0; SourceSubscription 1] else [].
Proof.
  intros T U coldTerminus coldSource hot before ev after Harr Hc s.
  assert (Hrec : CreatedObservable.received (SkipUntil.base s) =
                 filter is_terminal before ++ UntilView.from_source after).
  { rewrite <- (SkipUntilFacts.skip_until_gate T U before ev after Hc).
    rewrite <- Harr.
    destruct (SkipUntilFacts.alike_SkipUntil T U coldTerminus coldSource hot)
      as (_ & _ & _ & Hv).
    now injection Hv. }
  split; [exact Hrec|]. unfold s in *.
  rewrite (CreatedObservableFacts.ledger_released T _ _ _
             (SkipUntilFacts.ledger_SkipUntil T U coldTerminus coldSource hot)).
  rewrite Hrec. rewrite !existsb_app.
  replace (existsb is_terminal (filter is_terminal before))
    with (existsb is_terminal before); [reflexivity|].
  clear. induction before as [|[x| |e] before IH]; simpl; auto.
Qed.

Lemma SkipUntil_opens_on_first_terminus_call_witness :
  let s := SkipUntil.SkipUntil (U := nat) [] [Next 1]
             [FromSource (Next 2); FromTerminus Completed; FromSource (Next 3);
              FromSource Completed] in
  CreatedObservable.received (SkipUntil.base s) = [Next 3; Completed] /\
  CreatedObservable.released (SkipUntil.base s) =
    [SourceSubscription 0; SourceSubscription 1].
Proof.
  apply (SkipUntil_opens_on_first_terminus_call nat nat [] [Next 1]
           [FromSource (Next 2); FromTerminus Completed; FromSource (Next 3);
            FromSource Completed]
           [Next 1; Next 2] Completed [FromSource (Next 3); FromSource Completed]);
    reflexivity.
Defined.

(** SkipUntil(source, terminus) when [terminus] never makes a call: every
    value of [source] is dropped and only its terminal call is passed on. *)
Theorem SkipUntil_silent_terminus :
  forall (T U : Type) (coldSource hotSource : list (Event T)),
    conforms (coldSource ++ hotSource) = true ->
    CreatedObservable.received
      (SkipUntil.base
         (SkipUntil.SkipUntil (U := U) [] coldSource (map FromSource hotSource))) =
    filter is_terminal (coldSource ++ hotSource).
Proof.
  intros T U coldSource hotSource Hc.
  rewrite <- (SkipUntilFacts.skip_until_silent T U _ Hc).
  destruct (SkipUntilFacts.alike_SkipUntil T U [] coldSource (map FromSource hotSource))
    as (_ & _ & _ & Hv).
  unfold UntilView.arrival in Hv. simpl in Hv. rewrite <- map_app in Hv.
  now injection Hv.
Qed.

Lemma SkipUntil_silent_terminus_witness :
  CreatedObservable.received
    (SkipUntil.base
       (SkipUntil.SkipUntil (U := nat) [] [Next 1]
          (map FromSource [Next 2; Completed]))) = [Completed].
Proof.
  apply (SkipUntil_silent_terminus nat nat [Next 1] [Next 2; Completed]).
  reflexivity.
Defined.

(** TakeUntil(source, terminus): the calls [source] made before the first
    call of [terminus] are passed on.  That call, be it a value, completed
    or an error, hands nothing to the subscriber; the subscription ends with
    the next call of [source]: completed if it is a value (which is dropped)
    or completed, the error if it is an error.  As long as [source] makes no
    further call the subscriber is not handed completed.  The handles of
    both subscriptions are released exactly when the subscriber has been
    handed its terminal call. *)
Theorem TakeUntil_closes_on_next_source_call :
  forall (T U : Type) (coldTerminus : list (Event U)) (coldSource : list (Event T))
         (hot : list (Call T U)) (before : list (Event T)) (ev : Event U)
         (after : list (Call T U)),
    UntilView.arrival coldTerminus coldSource hot =
      map FromSource before ++ FromTerminus ev :: after ->
    conforms (before ++ UntilView.from_source after) = true ->
    let s := TakeUntil.TakeUntil coldTerminus coldSource hot in
    CreatedObservable.received (TakeUntil.base s) =
      before ++ match UntilView.from_source after with
                | [] => []
                | Error e :: _ => [Error e]
                | _ :: _ => [Completed]
                end /\
    CreatedObservable.released (TakeUntil.base s) =
      if existsb is_terminal (CreatedObservable.received (TakeUntil.base s))
      then [SourceSubscription 0; SourceSubscription 1] else [].
Proof.
  intros T U coldTerminus coldSource hot before ev after Harr Hc s.
  split.
  - change (match UntilView.from_source after with
            | [] => []
            | Error e :: _ => [Error e]
            | _ :: _ => [Completed]
            end) with (TakeUntilView.closing (UntilView.from_source after)).
    rewrite <- (TakeUntilFacts.take_until_gate T U before ev after Hc).
    rewrite <- Harr.
    destruct (TakeUntilFacts.alike_TakeUntil T U coldTerminus coldSource hot)
      as (_ & _ & _ & _ & Hv).
    now injection Hv.
  - apply (CreatedObservableFacts.ledger_released T _ _ _
             (TakeUntilFacts.ledger_TakeUntil T U coldTerminus coldSource hot)).
Qed.

Lemma TakeUntil_closes_on_next_source_call_witness :
  let s := TakeUntil.TakeUntil (U := nat) [] [Next 1]
             [FromSource (Next 2); FromTerminus (Error None); FromSource (Next 3);
              FromSource (Next 4)] in
  CreatedObservable.received (TakeUntil.base s) = [Next 1; Next 2; Completed] /\
  CreatedObservable.released (TakeUntil.base s) =
    [SourceSubscription 0; SourceSubscription 1].
Proof.
  apply (TakeUntil_closes_on_next_source_call nat nat [] [Next 1]
           [FromSource (Next 2); FromTerminus (Error None); FromSource (Next 3);
            FromSource (Next 4)]
           [Next 1; Next 2] (Error None) [FromSource (Next 3); FromSource (Next 4)]);
    reflexivity.
Defined.

(** TakeUntil(source, terminus) when [terminus] never makes a call: the
    subscriber is handed the calls of [source] as they are. *)
Theorem TakeUntil_silent_terminus :
  forall (T U : Type) (coldSource hotSource : list (Event T)),
    conforms (coldSource ++ hotSource) = true ->
    CreatedObservable.received
      (TakeUntil.base
         (TakeUntil.TakeUntil (U := U) [] coldSource (map FromSource hotSource))) =
    coldSource ++ hotSource.
Proof.
  intros T U coldSource hotSource Hc.
  rewrite <- (TakeUntilFacts.take_until_silent T U _ Hc).
  destruct (TakeUntilFacts.alike_TakeUntil T U [] coldSource (map FromSource hotSource))
    as (_ & _ & _ & _ & Hv).
  unfold UntilView.arrival in Hv. simpl in Hv. rewrite <- map_app in Hv.
  now injection Hv.
Qed.

Lemma TakeUntil_silent_terminus_witness :
  CreatedObservable.received
    (TakeUntil.base
       (TakeUntil.TakeUntil (U := nat) [] [Next 1]
          (map FromSource [Next 2; Completed]))) = [Next 1; Next 2; Completed].
Proof.
  apply (TakeUntil_silent_terminus nat nat [Next 1] [Next 2; Completed]).
  reflexivity.
Defined.

(** DistinctUntilChanged(source), on a sequence of the grammar: a value is
    passed on unless it is [==] to the last value passed on, so the first
    value is always passed on and no value handed to the subscriber is [==]
    to the one handed over before it; the terminal call is passed on.  The
    operator disposes nothing: the handle of the subscription to the source
    stays in the serial disposable of the subscription, also after the
    terminal call. *)
Theorem DistinctUntilChanged_trace :
  forall (T : Type) (T_default : T) (equal : T -> T -> bool) (k : nat)
         (xs : list T) (t : option Terminal),
    let s := DistinctUntilChanged.DistinctUntilChanged T_default equal k
               (sequence xs t) in
    let r := CreatedObservable.received (DistinctUntilChanged.base s) in
    r = sequence (DistinctUntilChangedView.kept equal None xs) t /\
    hd_error (nexts r) = hd_error xs /\
    DistinctUntilChangedView.changing equal None (nexts r) = true /\
    CreatedObservable.released (DistinctUntilChanged.base s) = [] /\
    CreatedAutoDetachObserver.disposable
      (CreatedObservable.observer (DistinctUntilChanged.base s)) =
    SerialDisposable.mk false (Some (SourceSubscription 0)).
Proof.
  intros T T_default equal k xs t s r.
  assert (Hr : r = sequence (DistinctUntilChangedView.kept equal None xs) t)
    by apply DistinctUntilChangedFacts.received_DistinctUntilChanged.
  assert (Hn : nexts r = DistinctUntilChangedView.kept equal None xs).
  { rewrite Hr. unfold sequence. rewrite nexts_app, nexts_map_Next.
    destruct t as [[|e]|]; simpl; now rewrite app_nil_r. }
  split; [exact Hr|]. rewrite Hn.
  split; [apply DistinctUntilChangedFacts.hd_kept|].
  split; [apply DistinctUntilChangedFacts.changing_kept|].
  destruct (DistinctUntilChangedFacts.idle_DistinctUntilChanged T T_default equal k
              (sequence xs t)) as (Hd & _ & _ & Hrel).
  split; [exact Hrel|exact Hd].
Qed.

(** DistinctUntilChanged changes nothing in a sequence in which no value
    is [==] to the one before it; in particular, applied to what it has
    handed over, it hands over the same. *)
Theorem DistinctUntilChanged_fixed_points :
  forall (T : Type) (T_default : T) (equal : T -> T -> bool) (k : nat)
         (xs : list T) (t : option Terminal),
    let once := fun k evs =>
      CreatedObservable.received
        (DistinctUntilChanged.base
           (DistinctUntilChanged.DistinctUntilChanged T_default equal k evs)) in
    (DistinctUntilChangedView.changing equal None xs = true ->
     once k (sequence xs t) = sequence xs t) /\
    (forall k', once k' (once k (sequence xs t)) = once k (sequence xs t)).
Proof.
  intros T T_default equal k xs t once. unfold once. split.
  - intros H. rewrite DistinctUntilChangedFacts.received_DistinctUntilChanged.
    now rewrite DistinctUntilChangedFacts.kept_changing.
  - intros k'. rewrite !DistinctUntilChangedFacts.received_DistinctUntilChanged.
    rewrite DistinctUntilChangedFacts.kept_changing; [reflexivity|].
    apply DistinctUntilChangedFacts.changing_kept.
Qed.

Lemma DistinctUntilChanged_fixed_points_witness :
  CreatedObservable.received
    (DistinctUntilChanged.base
       (DistinctUntilChanged.DistinctUntilChanged 0 Nat.eqb 1
          (sequence [1; 2; 3; 1] (Some Completes)))) =
  sequence [1; 2; 3; 1] (Some Completes).
Proof.
  destruct (DistinctUntilChanged_fixed_points nat 0 Nat.eqb 1 [1; 2; 3; 1]
              (Some Completes)) as [H _].
  apply H. reflexivity.
Defined.

(** ToStdCollection(source), on a sequence of the grammar: nothing is
    handed over while values arrive; when the source completes the
    subscriber is handed one collection, holding every value inserted at
    the end in order of arrival (for a vector or a list: the values in that
    order; the empty collection for a source without values), and then
    completed; when the source fails the subscriber is handed the error
    only and the values collected are dropped. *)
Theorem ToStdCollection_collects :
  forall (C Value : Type) (collection : ToStdCollection.StdCollection C Value)
         (k : nat) (xs : list Value) (t : option Terminal),
    CreatedObservable.received
      (ToStdCollection.base (ToStdCollection.ToStdCollection k (sequence xs t))) =
      match t with
      | Some Completes =>
          [Next (fold_left ToStdCollection.insert_end xs ToStdCollection.empty);
           Completed]
      | Some (Fails e) => [Error e]
      | None => []
      end /\
    CreatedObservable.received
      (ToStdCollection.base
         (ToStdCollection.ToStdCollection (H := ToStdCollection.vector Value) k
            (sequence xs (Some Completes)))) = [Next xs; Completed].
Proof.
  intros C Value collection k xs t. split.
  - apply ToStdCollectionFacts.received_ToStdCollection.
  - rewrite ToStdCollectionFacts.received_ToStdCollection.
    now rewrite ToStdCollectionFacts.vector_collects.
Qed.

(** ** The observers made by [CreateObserver] and [CreateAutoDetachObserver] *)

Module SubscribeFacts.

Import Subscribe.

Section Facts.

Variable T : Type.

Lemma invoked_cleared (source : list (Event T)) :
  invoked source (CreatedObserver.mk false false false) = [].
Proof.
  induction source as [|[x| |e] source IH]; simpl; auto.
Qed.

Lemma invoked_conforms (source : list (Event T)) (o : CreatedObserver.t) :
  conforms (invoked source o) = true.
Proof.
  revert o. induction source as [|[x| |e] source IH]; intros o; simpl; auto.
  - destruct (CreatedObserver.onNext o); simpl; apply IH.
  - destruct (CreatedObserver.onCompleted o); simpl; [|apply IH].
    now rewrite invoked_cleared.
  - destruct (CreatedObserver.onError o); simpl; [|apply IH].
    now rewrite invoked_cleared.
Qed.

Lemma invoked_sequence (xs : list T) (t : option Terminal) :
  invoked (sequence xs t) (CreatedObserver.mk true true true) = sequence xs t.
Proof.
  unfold sequence. induction xs as [|x xs IH]; simpl.
  - destruct t as [[|e]|]; reflexivity.
  - now rewrite IH.
Qed.

Lemma invoked_values (source : list (Event T)) :
  invoked source (CreatedObserver.mk true false false) = map (@Next T) (nexts source).
Proof.
  induction source as [|[x| |e] source IH]; simpl; auto. now rewrite IH.
Qed.

End Facts.

End SubscribeFacts.

(** Subscribe(source, onNext, onCompleted, onError): whatever the source
    calls, the callbacks are invoked along the grammar: values, then at most
    one of [onCompleted] and [onError], then nothing, since the first
    terminal callback invoked empties all three.  A source that keeps to the
    grammar has each of its calls answered by the callback for it. *)
Theorem Subscribe_callbacks_follow_grammar :
  forall (T : Type) (source : list (Event T)) (onNext onCompleted onError : bool),
    conforms (Subscribe.Subscribe source onNext onCompleted onError) = true /\
    (conforms source = true -> Subscribe.Subscribe source true true true = source).
Proof.
  intros T source onNext onCompleted onError. split.
  - apply SubscribeFacts.invoked_conforms.
  - intros H. destruct (conforms_sequence source H) as (xs & t & ->).
    apply SubscribeFacts.invoked_sequence.
Qed.

Lemma Subscribe_callbacks_follow_grammar_witness :
  Subscribe.Subscribe [Next 1; Next 2; Completed] true true true =
  [Next 1; Next 2; Completed].
Proof.
  apply (Subscribe_callbacks_follow_grammar nat [Next 1; Next 2; Completed]
           true true true).
  reflexivity.
Defined.

(** Subscribe(source, onNext) with the two defaulted callbacks: a terminal
    call finds its callback empty, invokes nothing and empties nothing, so
    [onNext] is invoked for every value the source hands over, those after a
    completed or an error included. *)
Theorem Subscribe_without_terminal_callbacks :
  forall (T : Type) (source : list (Event T)),
    Subscribe.Subscribe source true false false = map (@Next T) (nexts source).
Proof.
  intros T source. apply SubscribeFacts.invoked_values.
Qed.

Module AutoDetachRunFacts.

Import CreatedAutoDetachObserver.

Section Facts.

Variable T : Type.

Lemma calls_values (f : Inner T) (xs : list T) (rest : list (Event T))
      (d : SerialDisposable.t) :
  exists d',
    calls (map (@Next T) xs ++ rest) (mk (Some f) d) =
    (fst (calls rest (mk (Some f) d')),
     map (@Next T) xs ++ snd (calls rest (mk (Some f) d'))).
Proof.
  revert d. induction xs as [|x xs IH]; intros d.
  - exists d. simpl. now destruct (calls rest (mk (Some f) d)).
  - cbn [map app calls call]. unfold OnNext. cbn [observer].
    pose proof (AutoDetachFacts.guarded_call_observer T f (Next x) (mk (Some f) d)) as Ho.
    pose proof (AutoDetachFacts.guarded_call_delivered T f (Next x) (mk (Some f) d)) as Hd.
    destruct (guarded_call f (Next x) (mk (Some f) d)) as [[o' d1] del rel ex].
    cbn [after delivered observer] in *. subst o' del.
    destruct (IH d1) as (d' & Hd'). exists d'. rewrite Hd'. simpl.
    now destruct (calls rest (mk (Some f) d')).
Qed.

Lemma calls_terminal (f : Inner T) (ev : Event T) (rest : list (Event T))
      (d : SerialDisposable.t) :
  is_terminal ev = true ->
  snd (calls (ev :: rest) (mk (Some f) d)) = [ev].
Proof.
  intros Hev. cbn [calls].
  rewrite (AutoDetachFacts.call_terminal T f ev (mk (Some f) d) eq_refl Hev).
  pose proof (AutoDetachFacts.guarded_call_observer T f ev (mk None d)) as Ho.
  pose proof (AutoDetachFacts.guarded_call_delivered T f ev (mk None d)) as Hd.
  cbn [disposable] in *.
  destruct (guarded_call f ev (mk None d)) as [a del rel ex].
  cbn [after delivered observer] in *. subst del.
  rewrite (AutoDetachFacts.calls_detached T rest a Ho). reflexivity.
Qed.

End Facts.

End AutoDetachRunFacts.

(** The auto-detach observer hands its observer the calls it receives up
    to and including the first terminal call, and none after, whether the
    observer returns from the calls or throws. *)
Theorem AutoDetach_delivers_through_first_terminal :
  forall (T : Type) (f : CreatedAutoDetachObserver.Inner T) (d : SerialDisposable.t)
         (xs : list T),
    snd (CreatedAutoDetachObserver.calls (map (@Next T) xs)
           (CreatedAutoDetachObserver.mk (Some f) d)) = map (@Next T) xs /\
    (forall (ev : Event T) (rest : list (Event T)),
        is_terminal ev = true ->
        snd (CreatedAutoDetachObserver.calls (map (@Next T) xs ++ ev :: rest)
               (CreatedAutoDetachObserver.mk (Some f) d)) =
        map (@Next T) xs ++ [ev]).
Proof.
  intros T f d xs. split.
  - destruct (AutoDetachRunFacts.calls_values T f xs [] d) as (d' & H).
    rewrite app_nil_r in H. rewrite H. simpl. now rewrite app_nil_r.
  - intros ev rest Hev.
    destruct (AutoDetachRunFacts.calls_values T f xs (ev :: rest) d) as (d' & H).
    rewrite H. cbn [snd].
    now rewrite (AutoDetachRunFacts.calls_terminal T f ev rest d' Hev).
Qed.

Lemma AutoDetach_delivers_through_first_terminal_witness :
  snd (CreatedAutoDetachObserver.calls
         (map (@Next nat) [1; 2] ++ Completed :: [Next 3; Error None])
         (CreatedAutoDetachObserver.mk (Some (fun _ => true)) SerialDisposable.fresh)) =
  [Next 1; Next 2; Completed].
Proof.
  destruct (AutoDetach_delivers_through_first_terminal nat (fun _ => true)
              SerialDisposable.fresh [1; 2]) as [_ H].
  apply H. reflexivity.
Defined.

(** OnNext on an auto-detach observer whose observer throws: the serial
    disposable is disposed and what it held is released, the exception goes
    on to the caller, and the observer stays in place, so that a later value
    is handed to it again.  When the observer returns, nothing is
    disposed. *)
Theorem AutoDetach_OnNext_disposes_on_throw :
  forall (T : Type) (f : CreatedAutoDetachObserver.Inner T) (d : SerialDisposable.t)
         (x : T),
    let s := CreatedAutoDetachObserver.mk (Some f) d in
    let r := CreatedAutoDetachObserver.OnNext x s in
    CreatedAutoDetachObserver.delivered r = [Next x] /\
    CreatedAutoDetachObserver.observer (CreatedAutoDetachObserver.after r) = Some f /\
    (f (Next x) = true ->
     CreatedAutoDetachObserver.exit r = CreatedAutoDetachObserver.Throws /\
     SerialDisposable.disposed
       (CreatedAutoDetachObserver.disposable (CreatedAutoDetachObserver.after r)) = true /\
     CreatedAutoDetachObserver.released r =
       (if SerialDisposable.disposed d then []
        else option_list (SerialDisposable.current d))) /\
    (f (Next x) = false ->
     CreatedAutoDetachObserver.exit r = CreatedAutoDetachObserver.Returns /\
     CreatedAutoDetachObserver.after r = s /\
     CreatedAutoDetachObserver.released r = []).
Proof.
  intros T f d x s r. unfold r, s, CreatedAutoDetachObserver.OnNext.
  cbn [CreatedAutoDetachObserver.observer].
  split; [apply AutoDetachFacts.guarded_call_delivered|].
  split; [apply AutoDetachFacts.guarded_call_observer|].
  split; intros Hf.
  - rewrite (AutoDetachFacts.guarded_call_throws T f (Next x) _ Hf). simpl.
    split; [reflexivity|]. split; [apply AutoDetachFacts.Dispose_disposed|].
    unfold SerialDisposable.Dispose. now destruct (SerialDisposable.disposed d).
  - rewrite (AutoDetachFacts.guarded_call_returns T f (Next x) _ Hf). simpl. auto.
Qed.

Lemma AutoDetach_OnNext_disposes_on_throw_witness :
  let r := CreatedAutoDetachObserver.OnNext 1
             (CreatedAutoDetachObserver.mk (Some (fun _ : Event nat => true))
                (SerialDisposable.mk false (Some (SourceSubscription 0)))) in
  CreatedAutoDetachObserver.exit r = CreatedAutoDetachObserver.Throws /\
  SerialDisposable.disposed
    (CreatedAutoDetachObserver.disposable (CreatedAutoDetachObserver.after r)) = true /\
  CreatedAutoDetachObserver.released r = [SourceSubscription 0].
Proof.
  destruct (AutoDetach_OnNext_disposes_on_throw nat (fun _ => true)
              (SerialDisposable.mk false (Some (SourceSubscription 0))) 1)
    as (_ & _ & H & _).
  apply H. reflexivity.
Defined.

(** CreatedObservable::Subscribe, for a subscriber that returns from every
    call and a subscribe function that hands over a sequence of the grammar
    and then returns a handle or throws.  When the function throws before
    any terminal call, the exception is handed over as an error; when it
    throws after a terminal call, the exception is dropped; in both cases
    the caller gets [Disposable::Empty()].  When the function returns, its
    handle is stored in the serial disposable and is not disposed, also when
    the sequence has ended. *)
Theorem CreatedObservable_Subscribe_outcomes :
  forall (T : Type) (xs : list T) (t : option Terminal) (outcome : Disposable + exception),
    let result :=
      CreatedObservable.Subscribe (Some (@CreatedAutoDetachObserver.quiet T))
        (sequence xs t) outcome in
    CreatedObservable.received (fst result) =
      sequence xs t ++
      match outcome, t with
      | inr e, None => [Error (current_exception e)]
      | _, _ => []
      end /\
    snd result =
      match outcome with
      | inl _ => CreatedObservable.TheSerial
      | inr _ => CreatedObservable.TheEmpty
      end /\
    CreatedObservable.released (fst result) = [] /\
    CreatedAutoDetachObserver.disposable (CreatedObservable.observer (fst result)) =
      match outcome with
      | inl d => SerialDisposable.mk false (Some d)
      | inr _ => SerialDisposable.fresh
      end.
Proof.
  intros T xs t outcome result. unfold result, CreatedObservable.Subscribe.
  change (CreatedObservable.enter (Some (@CreatedAutoDetachObserver.quiet T)))
    with (CreatedObservableView.running (@nil (Event T))).
  assert (Hvalues : forall ys r,
             fold_left (fun s ev => CreatedObservable.send ev s) (map (@Next T) ys)
                       (CreatedObservableView.running r) =
             CreatedObservableView.running (r ++ map (@Next T) ys)).
  { induction ys as [|y ys IH]; intros r; simpl.
    - now rewrite app_nil_r.
    - change (CreatedObservable.send (Next y) (CreatedObservableView.running r))
        with (CreatedObservableView.running (r ++ [Next y])).
      rewrite IH. now rewrite <- app_assoc. }
  unfold sequence. rewrite fold_left_app, Hvalues.
  destruct t as [[|e]|]; destruct outcome as [d|e']; simpl;
    rewrite ?app_nil_r; auto.
Qed.

(** ** Where, Scan and Take: traces and disposal *)

Module WhereTraceFacts.

Import Where.
Import WhereTraceView.

Section Facts.

Variable T : Type.
Variable predicate : T -> Result bool.

Lemma trace_releases (ds : list Disposable) (s : Subscription T) :
  trace (fold_left (@release T) ds s) = trace s.
Proof.
  revert s. induction ds as [|d ds IH]; intros s; simpl; auto.
  now rewrite IH.
Qed.

Lemma trace_send (ev : Event T) (s1 s2 : Subscription T) :
  trace s1 = trace s2 -> trace (send ev s1) = trace (send ev s2).
Proof.
  unfold send. rewrite !trace_releases. unfold trace. simpl.
  intros H. injection H as Ho Hi Hr Ht Ha.
  pose proof (AutoDetachFacts.call_pass T ev (observer s1) (received s1)) as H1.
  pose proof (AutoDetachFacts.call_pass T ev (observer s2) (received s2)) as H2.
  rewrite Ho, Hr in H1. rewrite <- H2 in H1. injection H1 as H1o H1r.
  now rewrite H1o, Hr, H1r, Hi, Ht, Ha.
Qed.

Lemma trace_deliver (s1 s2 : Subscription T) (ev : Event T) :
  trace s1 = trace s2 -> trace (deliver predicate s1 ev) = trace (deliver predicate s2 ev).
Proof.
  destruct s1 as [o1 i1 r1 l1 q1 b1], s2 as [o2 i2 r2 l2 q2 b2].
  intros H. unfold trace in H. simpl in H. injection H as Ho Hi Hr Hq Hb. subst.
  assert (Hsend : forall ev' i q,
             trace (send ev' (mk o1 i r2 l1 q false)) =
             trace (send ev' (mk o2 i r2 l2 q false))).
  { intros ev' i q. apply trace_send. unfold trace. simpl. now rewrite Ho. }
  unfold deliver. cbn [aborted inner observer received released tested].
  destruct b2; [unfold trace; simpl; now rewrite Ho|].
  destruct (CreatedObserver.call ev i2) as [o [[x| |e]|]];
    cbn [aborted inner observer received released tested].
  - unfold on_next. cbn [aborted inner observer received released tested].
    destruct (predicate x) as [[|]|e|]; cbv beta iota zeta.
    + apply Hsend.
    + unfold trace. simpl. now rewrite Ho.
    + apply Hsend.
    + unfold trace. simpl. now rewrite Ho.
  - apply Hsend.
  - apply Hsend.
  - unfold trace. simpl. now rewrite Ho.
Qed.

Lemma trace_run (evs : list (Event T)) (s1 s2 : Subscription T) :
  trace s1 = trace s2 -> trace (run predicate evs s1) = trace (run predicate evs s2).
Proof.
  revert s1 s2. unfold run.
  induction evs as [|ev evs IH]; intros s1 s2 H; simpl; auto.
  apply IH. now apply trace_deliver.
Qed.

Lemma trace_Subscribe (cold hot : list (Event T)) :
  trace (run predicate hot (Subscribe predicate cold)) =
  trace (run predicate (cold ++ hot) (start T)).
Proof.
  unfold run at 2. rewrite fold_left_app.
  apply trace_run. unfold Subscribe.
  change (mk _ _ [] [] [] false) with (start T).
  fold (run predicate cold (start T)).
  destruct (SerialDisposable.Set_ _ _) as [d rel].
  now rewrite trace_releases.
Qed.

End Facts.

Section Total.

Variable T : Type.
Variable p : T -> bool.

Lemma where_values (xs : list T) (d : SerialDisposable.t) (r : list (Event T))
      (q : list T) :
  run (total p) (map (@Next T) xs)
      (mk (CreatedAutoDetachObserver.mk (Some (@CreatedAutoDetachObserver.quiet T)) d)
          (CreatedObserver.mk true true true) r [] q false) =
  mk (CreatedAutoDetachObserver.mk (Some (@CreatedAutoDetachObserver.quiet T)) d)
     (CreatedObserver.mk true true true) (r ++ map (@Next T) (filter p xs)) []
     (q ++ xs) false.
Proof.
  revert r q. unfold run. induction xs as [|x xs IH]; intros r q.
  - simpl. now rewrite !app_nil_r.
  - cbn [map fold_left filter]. unfold deliver at 2.
    cbn [aborted inner CreatedObserver.call CreatedObserver.onNext].
    unfold on_next, total at 2.
    cbn [observer inner received released tested aborted].
    destruct (p x).
    + change (send (Next x) ?s) with
        (mk (CreatedAutoDetachObserver.mk
               (Some (@CreatedAutoDetachObserver.quiet T)) d)
            (CreatedObserver.mk true true true) (r ++ [Next x]) [] (q ++ [x]) false).
      rewrite IH. cbn [map]. now rewrite <- !app_assoc.
    + rewrite IH. now rewrite <- !app_assoc.
Qed.

Lemma where_sequence (xs : list T) (t : option Terminal) :
  let s := run (total p) (sequence xs t) (start T) in
  received s = sequence (filter p xs) t /\ tested s = xs /\ aborted s = false.
Proof.
  unfold sequence, run. rewrite fold_left_app.
  pose proof (where_values xs SerialDisposable.fresh [] []) as H.
  unfold run in H. unfold start.
  change (CreatedAutoDetachObserver.CreateAutoDetachObserver
            (Some (@CreatedAutoDetachObserver.quiet T)))
    with (CreatedAutoDetachObserver.mk (Some (@CreatedAutoDetachObserver.quiet T))
                                       SerialDisposable.fresh).
  change (CreatedObserver.CreateObserver true true true)
    with (CreatedObserver.mk true true true).
  rewrite H. destruct t as [[|e]|]; simpl; auto. now rewrite app_nil_r.
Qed.

End Total.

End WhereTraceFacts.

(** Where(source, predicate) with a predicate that returns, on a sequence
    of the grammar: the subscriber is handed the values for which the
    predicate holds, in order, and then the terminal call of the source; the
    predicate is called once on every value, in order. *)
Theorem Where_filters :
  forall (T : Type) (p : T -> bool) (k : nat) (xs : list T) (t : option Terminal),
    let predicate := WhereTraceView.total p in
    let s := Where.run predicate (skipn k (sequence xs t))
               (Where.Subscribe predicate (firstn k (sequence xs t))) in
    Where.received s = sequence (filter p xs) t /\
    Where.tested s = xs /\
    Where.aborted s = false.
Proof.
  intros T p k xs t predicate s.
  pose proof (WhereTraceFacts.trace_Subscribe T predicate
                (firstn k (sequence xs t)) (skipn k (sequence xs t))) as H.
  rewrite firstn_skipn in H. fold s in H.
  destruct (WhereTraceFacts.where_sequence T p xs t) as (Hr & Ht & Ha).
  unfold WhereTraceView.trace in H. injection H as _ _ Hr' Ht' Ha'.
  rewrite Hr', Ht', Ha'. auto.
Qed.

Module ScanRunFacts.

Import ScanObservable.
Import ScanView.
Import ScanDisposalView.

Section Unseeded.

Variable T : Type.
Variable f : T -> T -> T.

Lemma unseeded_accumulated (xs : list T) (a : T) (r : list (Event T)) (q : list T) :
  fold_left (step (Scan.unseeded (Scan.total f))) (map (@Next T) xs)
            (true, Some a, r, q, false) =
  (true, Some (fold_left f xs a), r ++ map (@Next T) (Scan.running f a xs), q, false).
Proof.
  revert a r q. induction xs as [|x xs IH]; intros a r q; simpl.
  - now rewrite app_nil_r.
  - rewrite app_nil_r, IH, <- app_assoc. reflexivity.
Qed.

Lemma unseeded_sequence (xs : list T) (t : option Terminal) :
  fold_left (step (Scan.unseeded (Scan.total f))) (sequence xs t)
            (true, None, [], [], false) =
  (match t with Some _ => false | None => true end,
   match xs with [] => None | x :: rest => Some (fold_left f rest x) end,
   sequence (match xs with [] => [] | x :: rest => x :: Scan.running f x rest end) t,
   firstn 1 xs, false).
Proof.
  unfold sequence. rewrite fold_left_app.
  destruct xs as [|x xs].
  - destruct t as [[|e]|]; reflexivity.
  - cbn [map fold_left]. 
    change (step (Scan.unseeded (Scan.total f)) (true, None, [], [], false) (Next x))
      with (true, Some x, [Next x], [x], false).
    rewrite unseeded_accumulated.
    destruct t as [[|e]|]; cbn; rewrite ?app_nil_r; reflexivity.
Qed.

End Unseeded.

Section Disposal.

Variables T A : Type.
Variable parent : Parent T A.

(** Once the sink is disposed the subscriber is handed nothing. *)
Lemma disposed_steps (evs : list (Event T)) (a : option A) (r : list (Event A))
      (q : list T) (b : bool) :
  snd (fst (fst (fold_left (step parent) evs (false, a, r, q, b)))) = r.
Proof.
  revert a q b. induction evs as [|ev evs IH]; intros a q b; simpl; auto.
  destruct b; [apply IH|].
  destruct ev as [t| |e]; cbn [emit].
  - destruct (accumulate parent t _) as [[a'|e|] asked]; apply IH.
  - destruct a, (seed parent); apply IH.
  - apply IH.
Qed.

Lemma scan_aborted_run (evs : list (Event T)) (s : Subscription T A) :
  aborted s = true -> run parent evs s = s.
Proof.
  intros H. unfold run. induction evs as [|ev evs IH]; simpl; auto.
  unfold deliver at 2. rewrite H. exact IH.
Qed.

Ltac scan_cases :=
  repeat (cbn;
          match goal with
          | |- context [match ?x with _ => _ end] =>
              lazymatch x with
              | context [match _ with _ => _ end] => fail
              | _ => destruct x
              end
          end);
  cbn; rewrite ?existsb_app; cbn.

Ltac scan_settled H :=
  cbn; rewrite ?H; cbn; split; [reflexivity|];
  first [ left; solve [repeat split; reflexivity]
        | right; solve [repeat split; rewrite ?app_nil_r; reflexivity] ].

Lemma settled_deliver (cur : option Disposable) (s : Subscription T A) (ev : Event T) :
  settled cur s -> settled cur (deliver parent s ev).
Proof.
  destruct s as [k u [o c] a r l q b]. unfold settled. cbn.
  intros [Hk [(Hb & Hu & Hr & Hl)|(Hb & Hu & Hr & Hl)]];
    injection Hb as -> ->; subst k u l;
    unfold deliver, OnNext, OnCompleted, OnError, accumulate, Dispose,
      forward, abort, release_cancel, release_subscription, Sink.Dispose, with_base,
      SerialDisposable.Dispose;
    cbn; (destruct b; [scan_settled Hr|]);
    destruct ev as [t| |e]; scan_cases; scan_settled Hr.
Qed.

Lemma settled_run (cur : option Disposable) (evs : list (Event T))
      (s : Subscription T A) :
  settled cur s -> settled cur (run parent evs s).
Proof.
  revert s. unfold run. induction evs as [|ev evs IH]; intros s H; simpl; auto.
  apply IH. now apply settled_deliver.
Qed.

Lemma settled_Subscribe (cold : list (Event T)) :
  aborted (Subscribe parent true cold) = false ->
  settled (Some (SourceSubscription 0)) (Subscribe parent true cold).
Proof.
  unfold Subscribe. cbn -[run].
  match goal with
  | |- context [run parent cold ?s0] =>
      assert (H0 : settled None s0) by (split; [reflexivity|left; repeat split]);
      pose proof (settled_run None cold s0 H0) as H1;
      set (s1 := run parent cold s0) in *
  end.
  clearbody s1. clear H0.
  destruct s1 as [k u [o c] a r l q b]. cbn.
  destruct b; [discriminate|]. intros _.
  unfold settled in *. cbn in *.
  destruct H1 as [Hk [(Hb & Hu & Hr & Hl)|(Hb & Hu & Hr & Hl)]];
    injection Hb as -> ->; subst k u l; cbn; scan_settled Hr.
Qed.

Lemma settled_subscribed (k : nat) (evs : list (Event T)) :
  aborted (subscribed parent true k evs) = false ->
  settled (Some (SourceSubscription 0)) (subscribed parent true k evs).
Proof.
  unfold subscribed. intros Ha. apply settled_run. apply settled_Subscribe.
  destruct (aborted (Subscribe parent true (firstn k evs))) eqn:E; auto.
  rewrite (scan_aborted_run _ _ E) in Ha. congruence.
Qed.

Lemma settled_released (cur : option Disposable) (s : Subscription T A) :
  settled cur s ->
  released s = (if existsb is_terminal (received s) then option_list cur else []) /\
  Sink.observer (base s) = negb (existsb is_terminal (received s)).
Proof.
  intros [_ [(Hb & _ & Hr & Hl)|(Hb & _ & Hr & Hl)]]; rewrite Hb, Hr, Hl; auto.
Qed.

End Disposal.

End ScanRunFacts.

(** Scan(source, accumulator), without a seed, for an accumulator [f] that
    returns, on a sequence of the grammar: the first value is handed over
    as it is, and after it the running fold [f(x1,x2)], [f(f(x1,x2),x3)],
    ...; then the terminal call of the source.  A source that completes
    without a value yields completed alone.  The seeder is asked once, for
    the first value. *)
Theorem Scan_unseeded_trace :
  forall (T : Type) (f : T -> T -> T) (k : nat) (xs : list T) (t : option Terminal),
    let s := ScanObservable.subscribed (Scan.unseeded (Scan.total f)) true k
               (sequence xs t) in
    ScanObservable.received s =
      sequence (match xs with
                | [] => []
                | x :: rest => x :: Scan.running f x rest
                end) t /\
    ScanObservable.seeded s = firstn 1 xs /\
    ScanObservable.aborted s = false.
Proof.
  intros T f k xs t s.
  pose proof (ScanFacts.scan_core_subscribed T T (Scan.unseeded (Scan.total f))
                true k (sequence xs t)) as H.
  fold s in H. rewrite ScanRunFacts.unseeded_sequence in H.
  unfold ScanView.core in H. injection H as _ _ Hr Hq Ha. auto.
Qed.

(** A subscription to a ScanObservable releases the handle of its
    subscription to the source exactly when the subscriber has been handed a
    terminal call (completed, the error of the source, or the exception of
    the accumulator), also when that call came while the source was being
    subscribed to; until then the sink keeps its observer. *)
Theorem Scan_releases_source_on_terminal :
  forall (T A : Type) (parent : ScanObservable.Parent T A) (k : nat)
         (evs : list (Event T)),
    let s := ScanObservable.subscribed parent true k evs in
    ScanObservable.aborted s = false ->
    ScanObservable.released s =
      (if existsb is_terminal (ScanObservable.received s)
       then [SourceSubscription 0] else []) /\
    Sink.observer (ScanObservable.base s) =
      negb (existsb is_terminal (ScanObservable.received s)).
Proof.
  intros T A parent k evs s Ha.
  apply (ScanRunFacts.settled_released T A (Some (SourceSubscription 0))).
  now apply ScanRunFacts.settled_subscribed.
Qed.

Lemma Scan_releases_source_on_terminal_witness :
  let s := ScanObservable.subscribed (Scan.seeded 0 (Scan.total Nat.add)) true 3
             [Next 1; Next 2; Completed] in
  ScanObservable.released s = [SourceSubscription 0] /\
  Sink.observer (ScanObservable.base s) = false.
Proof.
  apply (Scan_releases_source_on_terminal nat nat (Scan.seeded 0 (Scan.total Nat.add))
           3 [Next 1; Next 2; Completed]).
  reflexivity.
Defined.



(** ** Take: counts below zero, and disposal *)

Module TakeRunFacts.

Import Take.
Import TakeView.
Import TakeDisposalView.
Import CreatedObservableView.
Import CreatedObservableFacts.

Section Facts.

Variable T : Type.

(** Below zero the first countdown only goes further down, and the
    second stays where it is. *)
Lemma take_below_zero (xs : list T) (j m : Z)
      (o : option (CreatedAutoDetachObserver.Inner T)) (r : list (Event T)) :
  (0 < j)%Z -> (j + Z.of_nat (length xs) <= 2 ^ 31)%Z ->
  fold_left step (map (@Next T) xs) ((- j)%Z, m, o, live, r) =
  ((- (j + Z.of_nat (length xs)))%Z, m, o, live, r).
Proof.
  revert j. induction xs as [|x xs IH]; intros j Hj Hlen.
  - simpl. now rewrite Z.add_0_r.
  - cbn [length map fold_left] in *. rewrite Nat2Z.inj_succ in *.
    assert (Hd : pre_decrement (- j) = (- (j + 1))%Z).
    { rewrite TakeFacts.pre_decrement_small; unfold Integral_min, Integral_max; lia. }
    unfold step at 2. cbn -[pre_decrement]. rewrite Hd.
    replace (- (j + 1) >=? 0)%Z with false
      by (symmetry; rewrite Z.geb_leb; apply Z.leb_gt; lia).
    rewrite IH by lia.
    replace (j + Z.succ (Z.of_nat (length xs)))%Z
      with (j + 1 + Z.of_nat (length xs))%Z by lia.
    reflexivity.
Qed.

Lemma as_base_dispose_cd (s : Subscription T) :
  as_base (dispose_cd s) = CreatedObservable.dispose_cd (as_base s).
Proof.
  unfold dispose_cd, CreatedObservable.dispose_cd, as_base. simpl.
  now destruct (ComposableDisposable.Dispose (cd s)).
Qed.

Lemma as_base_release (s : Subscription T) (d : Disposable) :
  as_base (release s d) = CreatedObservable.release (as_base s) d.
Proof.
  destruct d; simpl; auto; apply as_base_dispose_cd.
Qed.

Lemma as_base_releases (ds : list Disposable) (s : Subscription T) :
  as_base (fold_left (@release T) ds s) =
  fold_left (@CreatedObservable.release T) ds (as_base s).
Proof.
  revert s. induction ds as [|d ds IH]; intros s; simpl; auto.
  now rewrite IH, as_base_release.
Qed.

Lemma as_base_send (ev : Event T) (s : Subscription T) :
  as_base (send ev s) = CreatedObservable.send ev (as_base s).
Proof.
  unfold send, CreatedObservable.send. now rewrite as_base_releases.
Qed.

Lemma take_ledger_deliver hs cur (s : Subscription T) (ev : Event T) :
  ledger hs cur (as_base s) -> ledger hs cur (as_base (deliver s ev)).
Proof.
  intros H. unfold deliver.
  destruct (CreatedObserver.call ev (inner s)) as [o invoked].
  set (s1 := mk (remaining s) (cd s) (observer s) o (received s) (released s)).
  assert (H1 : ledger hs cur (as_base s1)) by exact H.
  destruct invoked as [[x| |e]|]; auto.
  - unfold on_next.
    destruct (pre_decrement (fst (remaining s1)) >=? 0)%Z; [|exact H1].
    set (s2 := mk _ (cd s1) (observer s1) (inner s1) (received s1) (released s1)).
    assert (H2 : ledger hs cur (as_base (send (Next x) s2))).
    { rewrite as_base_send. now apply ledger_send_next. }
    destruct (pre_decrement (snd (remaining (send (Next x) s2))) =? 0)%Z.
    + rewrite as_base_dispose_cd, as_base_send. now apply ledger_finish.
    + exact H2.
  - unfold on_completed.
    destruct ((snd (remaining s1) =? 0) && (fst (remaining s1) <=? 0))%Z; [|exact H1].
    rewrite as_base_dispose_cd, as_base_send. now apply ledger_finish.
  - unfold on_error. rewrite as_base_dispose_cd, as_base_send. now apply ledger_finish.
Qed.

Lemma take_ledger_run hs cur (evs : list (Event T)) (s : Subscription T) :
  ledger hs cur (as_base s) -> ledger hs cur (as_base (run evs s)).
Proof.
  revert s. unfold run. induction evs as [|ev evs IH]; intros s H; simpl; auto.
  apply IH. now apply take_ledger_deliver.
Qed.

Lemma ledger_Take (n : Z) (k : nat) (evs : list (Event T)) :
  ledger [SourceSubscription 0] (Some Composite) (as_base (Take n k evs)).
Proof.
  unfold Take. apply take_ledger_run. unfold Subscribe.
  match goal with
  | |- context [run (firstn k evs) ?s0] =>
      assert (H0 : ledger [] None (as_base (run (firstn k evs) s0)))
        by (apply take_ledger_run; apply ledger_enter);
      set (s1 := run (firstn k evs) s0) in *
  end.
  clearbody s1.
  assert (H1 : ledger [SourceSubscription 0] None (as_base (Add (SourceSubscription 0) s1))).
  { replace (as_base (Add (SourceSubscription 0) s1))
      with (CreatedObservable.Add (SourceSubscription 0) (as_base s1)).
    - apply (ledger_Add T []); [discriminate|exact H0].
    - unfold Add, CreatedObservable.Add. cbn [as_base CreatedObservable.cd].
      destruct (ComposableDisposable.Add (SourceSubscription 0) (cd s1)) as [c rel].
      now rewrite as_base_releases. }
  set (s2 := Add (SourceSubscription 0) s1) in *. clearbody s2.
  pose proof (ledger_leave T [SourceSubscription 0] Composite (as_base s2) H1) as H2.
  unfold CreatedObservable.leave in H2. cbn [as_base CreatedObservable.observer] in H2.
  destruct (SerialDisposable.Set_ Composite _) as [d rel].
  now rewrite as_base_releases.
Qed.

End Facts.

End TakeRunFacts.

(** Take(source, n) with [n < 0]: both countdowns start below zero, so no
    value is passed on and completed is never passed on either; only an
    error of the source reaches the subscriber.  (On more than [n + 2^31]
    values the first countdown would wrap around.) *)
Theorem Take_negative_count :
  forall (T : Type) (n : Z) (k : nat) (xs : list T) (t : option Terminal),
    (Take.Integral_min <= n < 0)%Z ->
    (Z.of_nat (length xs) <= n + 2 ^ 31)%Z ->
    Take.received (Take.Take n k (sequence xs t)) =
      match t with Some (Fails e) => [Error e] | _ => [] end.
Proof.
  intros T n k xs t Hn Hlen.
  pose proof (TakeFacts.take_core_Take T n k (sequence xs t)) as H.
  unfold sequence in H. rewrite fold_left_app in H.
  unfold TakeView.start in H.
  replace n with (- (- n))%Z in H at 2 by lia.
  change (CreatedObserver.mk true true true) with TakeView.live in H.
  rewrite TakeRunFacts.take_below_zero in H
    by (unfold Take.Integral_min in *; lia).
  unfold TakeView.core in H.
  apply (f_equal snd) in H. cbn [snd] in H. unfold sequence. rewrite H.
  destruct t as [[|e]|]; cbn; auto.
  replace (n =? 0)%Z with false by (symmetry; apply Z.eqb_neq; lia).
  reflexivity.
Qed.

Lemma Take_negative_count_witness :
  Take.received (Take.Take (-1) 1 (sequence [5; 6] (Some Completes))) = [].
Proof.
  apply (Take_negative_count nat (-1) 1 [5; 6] (Some Completes)).
  - unfold Take.Integral_min. lia.
  - simpl. lia.
Defined.

(** A subscription to Take(source, n) releases the handle of its
    subscription to the source exactly when the subscriber has been handed
    a terminal call; so for [1 <= n] it is released as soon as the n-th
    value has been passed on, also when that happens while the source is
    being subscribed to. *)
Theorem Take_releases_source_on_terminal :
  forall (T : Type) (n : Z) (k : nat),
    (forall evs : list (Event T),
        Take.released (Take.Take n k evs) =
          if existsb is_terminal (Take.received (Take.Take n k evs))
          then [SourceSubscription 0] else []) /\
    (forall (xs : list T) (t : option Terminal),
        (1 <= n <= Take.Integral_max)%Z -> (Z.to_nat n <= length xs) ->
        Take.released (Take.Take n k (sequence xs t)) = [SourceSubscription 0]).
Proof.
  intros T n k.
  assert (H : forall evs : list (Event T),
             Take.released (Take.Take n k evs) =
             if existsb is_terminal (Take.received (Take.Take n k evs))
             then [SourceSubscription 0] else []).
  { intros evs.
    apply (CreatedObservableFacts.ledger_released T _ _ _
             (TakeRunFacts.ledger_Take T n k evs)). }
  split; [exact H|].
  intros xs t Hn Hlen. rewrite H.
  rewrite TakeFacts.received_Take by lia.
  unfold TakeView.handed.
  replace (n =? 0)%Z with false by (symmetry; apply Z.eqb_neq; lia).
  replace (Z.to_nat n <=? length xs) with true by (symmetry; apply Nat.leb_le; lia).
  rewrite existsb_app. cbn. now rewrite orb_true_r.
Qed.

Lemma Take_releases_source_on_terminal_witness :
  Take.released (Take.Take 2 3 (sequence [5; 6; 7] None)) = [SourceSubscription 0].
Proof.
  destruct (Take_releases_source_on_terminal nat 2 3) as [_ H].
  apply (H [5; 6; 7] None).
  - unfold Take.Integral_max. lia.
  - simpl. lia.
Defined.

(** ** Subjects, over runs of calls *)

Module ObserversFacts.

Import SubjectView.

Lemma holds_app (o : ObserverId) (a b : Observers) :
  holds o (a ++ b) = holds o a + holds o b.
Proof.
  unfold holds. induction a as [|[x|] a IH]; simpl; auto.
  destruct (Nat.eqb o x); simpl; auto.
Qed.

Lemma holds_take_slot (o o' : ObserverId) (observers observers' : Observers) :
  take_slot o' observers = Some observers' ->
  holds o observers' = holds o observers + (if Nat.eqb o o' then 1 else 0).
Proof.
  unfold holds. revert observers'.
  induction observers as [|[x|] rest IH]; simpl; intros observers' H.
  - discriminate.
  - destruct (take_slot o' rest) as [r|]; [|discriminate].
    injection H as <-. simpl. specialize (IH r eq_refl).
    destruct (Nat.eqb o x); simpl; lia.
  - injection H as <-. simpl. destruct (Nat.eqb o o'); simpl; lia.
Qed.

Lemma holds_clear_slot (o o' : ObserverId) (observers observers' : Observers) :
  clear_slot (Some o') observers = Some observers' ->
  holds o observers' + (if Nat.eqb o o' then 1 else 0) = holds o observers.
Proof.
  unfold holds. revert observers'.
  induction observers as [|[x|] rest IH]; simpl; intros observers' H.
  - discriminate.
  - destruct (Nat.eqb x o') eqn:E.
    + injection H as <-. simpl. apply Nat.eqb_eq in E. subst x.
      destruct (Nat.eqb o o'); simpl; lia.
    + destruct (clear_slot (Some o') rest) as [r|]; [|discriminate].
      injection H as <-. simpl. specialize (IH r eq_refl).
      destruct (Nat.eqb o x); simpl; lia.
  - destruct (clear_slot (Some o') rest) as [r|]; [|discriminate].
    injection H as <-. simpl. now apply IH.
Qed.

Lemma clear_slot_held (o : ObserverId) (observers : Observers) :
  clear_slot (Some o) observers = None -> holds o observers = 0.
Proof.
  unfold holds. induction observers as [|[x|] rest IH]; simpl; intros H; auto.
  - destruct (Nat.eqb x o) eqn:E; [discriminate|].
    destruct (clear_slot (Some o) rest); [discriminate|].
    rewrite Nat.eqb_sym, E. now apply IH.
  - destruct (clear_slot (Some o) rest); [discriminate|]. now apply IH.
Qed.

Section Seen.

Variable T : Type.

Lemma seen_by_broadcast (o : ObserverId) (ev : Event T) (observers : Observers) :
  AsyncSubject.seen_by o (map (fun o' => (o', ev)) (attached observers)) =
  repeat ev (holds o observers).
Proof.
  unfold AsyncSubject.seen_by, holds.
  induction (attached observers) as [|x l IH]; simpl; auto.
  rewrite (Nat.eqb_sym x o). destruct (Nat.eqb o x); simpl; now rewrite IH.
Qed.

Lemma seen_by_other (o o' : ObserverId) (evs : list (Event T)) :
  Nat.eqb o o' = false ->
  AsyncSubject.seen_by o (map (fun ev => (o', ev)) evs) = [].
Proof.
  intros H. unfold AsyncSubject.seen_by.
  induction evs as [|ev evs IH]; simpl; auto.
  rewrite Nat.eqb_sym, H. exact IH.
Qed.

End Seen.

End ObserversFacts.

Module SubjectFacts.

Import SubjectView.
Import ObserversFacts.
Import ObservableSubject.

Section Facts.

Variable T : Type.

Lemma subject_run_app (a b : list (AsyncSubject.Call T)) (s : Subject.t) :
  SubjectClient.run (a ++ b) s =
  (fst (SubjectClient.run b (fst (SubjectClient.run a s))),
   snd (SubjectClient.run a s) ++ snd (SubjectClient.run b (fst (SubjectClient.run a s)))).
Proof.
  revert s. induction a as [|c a IH]; intros s; simpl.
  - now destruct (SubjectClient.run b s).
  - destruct (SubjectClient.step c s) as [s1 calls1]. rewrite IH.
    destruct (SubjectClient.run a s1) as [s2 calls2]. simpl.
    now rewrite app_assoc.
Qed.

Lemma subject_run_cons (c : AsyncSubject.Call T) (cs : list (AsyncSubject.Call T))
      (s : Subject.t) :
  SubjectClient.run (c :: cs) s =
  (fst (SubjectClient.run cs (fst (SubjectClient.step c s))),
   snd (SubjectClient.step c s) ++ snd (SubjectClient.run cs (fst (SubjectClient.step c s)))).
Proof.
  simpl. destruct (SubjectClient.step c s) as [s1 calls1]. simpl.
  now destruct (SubjectClient.run cs s1).
Qed.

(** Once the observer has no slot, calls that are not its own hand it
    nothing. *)
Lemma subject_gone (o : ObserverId) (cs : list (AsyncSubject.Call T)) (s : Subject.t) :
  holds o (observers s) = 0 -> foreign o cs = true ->
  AsyncSubject.seen_by o (snd (SubjectClient.run cs s)) = [].
Proof.
  revert s. induction cs as [|c cs IH]; intros s Hh Hf; [reflexivity|].
  cbn [foreign forallb] in Hf. apply andb_prop in Hf. destruct Hf as [Hc Hf].
  apply negb_true_iff in Hc.
  rewrite subject_run_cons. cbn [snd]. rewrite AsyncSubjectFacts.seen_by_app.
  destruct c as [o'|o'|x| |e]; cbn [mine] in Hc; cbn [SubjectClient.step].
  - unfold Subject.Subscribe, Subscribe.
    destruct (state s); cbn [fst snd].
    + destruct (take_slot o' (observers s)) as [r|] eqn:Et; cbn [fst snd];
        apply IH; auto; cbn [observers].
      * rewrite (holds_take_slot o o' _ _ Et), Hc. lia.
      * rewrite holds_app. unfold holds at 2. simpl. rewrite Hc. simpl. lia.
    + destruct (take_slot o' (observers s)) as [r|] eqn:Et; cbn [fst snd];
        apply IH; auto; cbn [observers].
      * rewrite (holds_take_slot o o' _ _ Et), Hc. lia.
      * rewrite holds_app. unfold holds at 2. simpl. rewrite Hc. simpl. lia.
    + change [(o', @Completed T)] with (map (fun ev => (o', ev)) [@Completed T]).
      rewrite (seen_by_other T o o' [Completed] Hc). now apply IH.
    + change [(o', Error (T := T) (error s))]
        with (map (fun ev => (o', ev)) [Error (T := T) (error s)]).
      rewrite (seen_by_other T o o' [Error (error s)] Hc). now apply IH.
  - cbn [fst snd]. apply IH; auto. unfold RemoveObserver.
    destruct (clear_slot (Some o') (observers s)) as [r|] eqn:Ec; auto.
    cbn [observers]. pose proof (holds_clear_slot o o' _ _ Ec). lia.
  - unfold ObserverSubject.OnNext. cbn [fst snd].
    rewrite seen_by_broadcast, Hh. now apply IH.
  - unfold ObserverSubject.OnCompleted. cbn [fst snd].
    rewrite seen_by_broadcast, Hh. now apply IH.
  - unfold ObserverSubject.OnError. cbn [fst snd].
    rewrite seen_by_broadcast, Hh. now apply IH.
Qed.

(** While the observer has one slot and the subject forwards, it is
    handed every value pushed. *)
Lemma subject_attached (o : ObserverId) (cs : list (AsyncSubject.Call T))
      (xs : list T) (s : Subject.t) :
  state s = SubjectState.Forwarding -> holds o (observers s) = 1 ->
  foreign o cs = true -> pushed cs = map (@Next T) xs ->
  state (fst (SubjectClient.run cs s)) = SubjectState.Forwarding /\
  holds o (observers (fst (SubjectClient.run cs s))) = 1 /\
  AsyncSubject.seen_by o (snd (SubjectClient.run cs s)) = map (@Next T) xs.
Proof.
  revert xs s. induction cs as [|c cs IH]; intros xs s Hst Hh Hf Hp.
  - destruct xs; [|discriminate]. auto.
  - cbn [foreign forallb] in Hf. apply andb_prop in Hf. destruct Hf as [Hc Hf].
    apply negb_true_iff in Hc.
    rewrite subject_run_cons. cbn [fst snd]. rewrite AsyncSubjectFacts.seen_by_app.
    destruct c as [o'|o'|x| |e]; cbn [mine] in Hc; cbn [pushed] in Hp;
      cbn [SubjectClient.step].
    + unfold Subject.Subscribe, Subscribe. rewrite Hst.
      destruct (take_slot o' (observers s)) as [r|] eqn:Et; cbn [fst snd];
        apply IH; auto; cbn [observers].
      * rewrite (holds_take_slot o o' _ _ Et), Hc. lia.
      * rewrite holds_app. unfold holds at 2. simpl. rewrite Hc. simpl. lia.
    + cbn [fst snd]. unfold RemoveObserver.
      destruct (clear_slot (Some o') (observers s)) as [r|] eqn:Ec; [|now apply IH].
      apply IH; auto. cbn [observers].
      pose proof (holds_clear_slot o o' _ _ Ec) as H. rewrite Hc in H. lia.
    + destruct xs as [|x' xs]; [discriminate|]. injection Hp as <- Hp.
      unfold ObserverSubject.OnNext. cbn [fst snd].
      rewrite seen_by_broadcast, Hh.
      destruct (IH xs s Hst Hh Hf Hp) as (H1 & H2 & H3).
      rewrite H3. auto.
    + destruct xs; discriminate.
    + destruct xs; discriminate.
Qed.

Lemma subject_subscribe (o : ObserverId) (s : Subject.t) :
  state s = SubjectState.Forwarding -> holds o (observers s) = 0 ->
  let r := SubjectClient.step (AsyncSubject.CallSubscribe T o) s in
  snd r = [] /\ state (fst r) = SubjectState.Forwarding /\
  holds o (observers (fst r)) = 1.
Proof.
  intros Hst Hh. cbn [SubjectClient.step]. unfold Subject.Subscribe, Subscribe.
  rewrite Hst.
  destruct (take_slot o (observers s)) as [r|] eqn:Et; cbn [fst snd observers state].
  - rewrite (holds_take_slot o o _ _ Et), Nat.eqb_refl, Hh. auto.
  - rewrite holds_app, Hh. unfold holds. simpl. rewrite Nat.eqb_refl. auto.
Qed.

Lemma subject_terminate (o : ObserverId) (t : Terminal) (s : Subject.t) :
  holds o (observers s) = 1 ->
  let r := SubjectClient.step (terminate T t) s in
  AsyncSubject.seen_by o (snd r) = [terminal_event t] /\
  holds o (observers (fst r)) = 0.
Proof.
  intros Hh. destruct t as [|e]; cbn [terminate SubjectClient.step];
    unfold ObserverSubject.OnCompleted, ObserverSubject.OnError; cbn [fst snd];
    rewrite seen_by_broadcast, Hh; auto.
Qed.

Lemma subject_dispose (o : ObserverId) (s : Subject.t) :
  holds o (observers s) = 1 ->
  let r := SubjectClient.step (AsyncSubject.CallDispose T o) s in
  snd r = [] /\ holds o (observers (fst r)) = 0.
Proof.
  intros Hh. cbn [SubjectClient.step fst snd]. split; auto.
  unfold RemoveObserver.
  destruct (clear_slot (Some o) (observers s)) as [r|] eqn:Ec.
  - cbn [observers]. pose proof (holds_clear_slot o o _ _ Ec) as H.
    rewrite Nat.eqb_refl in H. lia.
  - pose proof (clear_slot_held o _ Ec). lia.
Qed.

(** Calls that push no terminal call leave the recorded state alone. *)
Lemma subject_state_step (c : AsyncSubject.Call T) (s : Subject.t) :
  existsb is_terminal (pushed [c]) = false ->
  state (fst (SubjectClient.step c s)) = state s /\
  error (fst (SubjectClient.step c s)) = error s.
Proof.
  destruct c as [o'|o'|x| |e]; cbn [pushed existsb]; try discriminate; intros _;
    cbn [SubjectClient.step].
  - unfold Subject.Subscribe, Subscribe.
    destruct (state s) eqn:E; cbn; auto;
      destruct (take_slot o' (observers s)); cbn; auto.
  - cbn [fst]. unfold RemoveObserver.
    destruct (clear_slot (Some o') (observers s)); auto.
  - auto.
Qed.

Lemma subject_state_kept (cs : list (AsyncSubject.Call T)) (xs : list T)
      (s : Subject.t) :
  pushed cs = map (@Next T) xs ->
  state (fst (SubjectClient.run cs s)) = state s /\
  error (fst (SubjectClient.run cs s)) = error s.
Proof.
  revert xs s. induction cs as [|c cs IH]; intros xs s Hp; [auto|].
  rewrite subject_run_cons. cbn [fst].
  assert (Hc : existsb is_terminal (pushed [c]) = false /\
               exists xs', pushed cs = map (@Next T) xs').
  { destruct c as [o'|o'|x| |e]; cbn [pushed] in *; try (split; [reflexivity|]; eauto).
    - destruct xs as [|x' xs]; [discriminate|]. injection Hp as _ Hp. eauto.
    - destruct xs; discriminate.
    - destruct xs; discriminate. }
  destruct Hc as (Hc & xs' & Hp').
  destruct (IH xs' (fst (SubjectClient.step c s)) Hp') as [H1 H2].
  destruct (subject_state_step c s Hc) as [H3 H4].
  split; congruence.
Qed.

End Facts.

End SubjectFacts.

(** Subject: an observer that subscribes while the subject forwards is
    handed nothing at once, and then every value pushed, in order, once;
    it is handed the first terminal call pushed and nothing after it; and
    once it has disposed its subscription it is handed nothing more.  The
    other observers may subscribe and dispose as they like in between. *)
Theorem Subject_multicasts :
  forall (T : Type) (s0 : Subject.t) (o : ObserverId)
         (cs1 : list (AsyncSubject.Call T)) (xs : list T),
    ObservableSubject.state s0 = SubjectState.Forwarding ->
    SubjectView.holds o (ObservableSubject.observers s0) = 0 ->
    SubjectView.foreign o cs1 = true ->
    SubjectView.pushed cs1 = map (@Next T) xs ->
    let subscribed := AsyncSubject.CallSubscribe T o :: cs1 in
    AsyncSubject.seen_by o (snd (SubjectClient.run subscribed s0)) = map (@Next T) xs /\
    (forall (t : Terminal) (cs2 : list (AsyncSubject.Call T)),
        SubjectView.foreign o cs2 = true ->
        AsyncSubject.seen_by o
          (snd (SubjectClient.run (subscribed ++ SubjectView.terminate T t :: cs2) s0)) =
        map (@Next T) xs ++ [terminal_event t]) /\
    (forall cs2 : list (AsyncSubject.Call T),
        SubjectView.foreign o cs2 = true ->
        AsyncSubject.seen_by o
          (snd (SubjectClient.run (subscribed ++ AsyncSubject.CallDispose T o :: cs2) s0)) =
        map (@Next T) xs).
Proof.
  intros T s0 o cs1 xs Hst Hh Hf Hp subscribed.
  destruct (SubjectFacts.subject_subscribe T o s0 Hst Hh) as (Hs1 & Hs2 & Hs3).
  set (s1 := fst (SubjectClient.step (AsyncSubject.CallSubscribe T o) s0)) in *.
  destruct (SubjectFacts.subject_attached T o cs1 xs s1 Hs2 Hs3 Hf Hp)
    as (Ha1 & Ha2 & Ha3).
  assert (Hfst : fst (SubjectClient.run subscribed s0) = fst (SubjectClient.run cs1 s1)).
  { unfold subscribed. now rewrite SubjectFacts.subject_run_cons. }
  assert (Hsub : AsyncSubject.seen_by o (snd (SubjectClient.run subscribed s0)) =
                 map (@Next T) xs).
  { unfold subscribed. rewrite SubjectFacts.subject_run_cons. cbn [snd].
    rewrite Hs1. exact Ha3. }
  split; [exact Hsub|]. split.
  - intros t cs2 Hf2.
    rewrite SubjectFacts.subject_run_app. cbn [snd].
    rewrite AsyncSubjectFacts.seen_by_app, Hsub, Hfst. f_equal.
    rewrite SubjectFacts.subject_run_cons. cbn [snd].
    rewrite AsyncSubjectFacts.seen_by_app.
    destruct (SubjectFacts.subject_terminate T o t _ Ha2) as [Ht1 Ht2].
    rewrite Ht1, (SubjectFacts.subject_gone T o cs2 _ Ht2 Hf2). reflexivity.
  - intros cs2 Hf2.
    rewrite SubjectFacts.subject_run_app. cbn [snd].
    rewrite AsyncSubjectFacts.seen_by_app, Hsub, Hfst.
    rewrite SubjectFacts.subject_run_cons. cbn [snd].
    rewrite AsyncSubjectFacts.seen_by_app.
    destruct (SubjectFacts.subject_dispose T o _ Ha2) as [Hd1 Hd2].
    rewrite Hd1, (SubjectFacts.subject_gone T o cs2 _ Hd2 Hf2). simpl.
    now rewrite app_nil_r.
Qed.

Lemma Subject_multicasts_witness :
  AsyncSubject.seen_by 1
    (snd (SubjectClient.run
            ((AsyncSubject.CallSubscribe nat 1 ::
              [AsyncSubject.CallOnNext 5; AsyncSubject.CallSubscribe nat 2;
               AsyncSubject.CallOnNext 6]) ++
             SubjectView.terminate nat Completes ::
             [AsyncSubject.CallOnNext 7; AsyncSubject.CallSubscribe nat 3])
            Subject.CreateSubject)) =
  [Next 5; Next 6; Completed].
Proof.
  destruct (Subject_multicasts nat Subject.CreateSubject 1
              [AsyncSubject.CallOnNext 5; AsyncSubject.CallSubscribe nat 2;
               AsyncSubject.CallOnNext 6] [5; 6]
              eq_refl eq_refl eq_refl eq_refl) as (_ & H & _).
  apply (H Completes [AsyncSubject.CallOnNext 7; AsyncSubject.CallSubscribe nat 3]).
  reflexivity.
Defined.

(** Subject: OnCompleted and OnError record their state whether or not
    the subject has terminated before, and values pushed afterwards are
    not kept.  An observer that subscribes after terminal calls is handed
    the last of them, and [Disposable::Empty()]. *)
Theorem Subject_replays_last_terminal :
  forall (T : Type) (s : Subject.t) (cs cs' : list (AsyncSubject.Call T))
         (t : Terminal) (xs : list T) (o : ObserverId),
    SubjectView.pushed cs' = map (@Next T) xs ->
    let s' := fst (SubjectClient.run (cs ++ SubjectView.terminate T t :: cs') s) in
    Subject.Subscribe T o s' = (s', [(o, terminal_event t)], Empty).
Proof.
  intros T s cs cs' t xs o Hp s'.
  assert (Hs' : ObservableSubject.state s' =
                match t with
                | Completes => SubjectState.Completed
                | Fails _ => SubjectState.Error
                end /\
                (forall e, t = Fails e -> ObservableSubject.error s' = e)).
  { unfold s'. rewrite SubjectFacts.subject_run_app. cbn [fst].
    rewrite SubjectFacts.subject_run_cons. cbn [fst].
    destruct (SubjectFacts.subject_state_kept T cs' xs
                (fst (SubjectClient.step (SubjectView.terminate T t)
                        (fst (SubjectClient.run cs s)))) Hp) as [H1 H2].
    rewrite H1, H2. destruct t as [|e]; cbn; split; auto; try discriminate.
    intros e' He. now injection He. }
  destruct Hs' as [Hst Herr].
  unfold Subject.Subscribe, ObservableSubject.Subscribe. rewrite Hst.
  destruct t as [|e]; cbn; auto. now rewrite (Herr e eq_refl).
Qed.

Lemma Subject_replays_last_terminal_witness :
  let s' := fst (SubjectClient.run
                   ([AsyncSubject.CallOnCompleted nat] ++
                    SubjectView.terminate nat (Fails (Some 3)) ::
                    [AsyncSubject.CallOnNext 4])
                   Subject.CreateSubject) in
  Subject.Subscribe nat 9 s' = (s', [(9, Error (Some 3))], Empty).
Proof.
  apply (Subject_replays_last_terminal nat Subject.CreateSubject
           [AsyncSubject.CallOnCompleted nat] [AsyncSubject.CallOnNext 4]
           (Fails (Some 3)) [4] 9).
  reflexivity.
Defined.

Module BehaviorSubjectFacts.

Import SubjectView.
Import ObserversFacts.
Import BehaviorSubject.

Lemma last_cons {A} (x d : A) (l : list A) : last (x :: l) d = last l x.
Proof.
  revert x d. induction l as [|y l IH]; intros x d; [reflexivity|].
  change (last (x :: y :: l) d) with (last (y :: l) d).
  now rewrite (IH y d), (IH y x).
Qed.

Section Facts.

Variable T : Type.

Lemma behavior_run_app (a b : list (AsyncSubject.Call T)) (s : t T) :
  run (a ++ b) s =
  (fst (run b (fst (run a s))), snd (run a s) ++ snd (run b (fst (run a s)))).
Proof.
  revert s. induction a as [|c a IH]; intros s; simpl.
  - now destruct (run b s).
  - destruct (step c s) as [s1 calls1]. rewrite IH.
    destruct (run a s1) as [s2 calls2]. simpl.
    now rewrite app_assoc.
Qed.

Lemma behavior_run_cons (c : AsyncSubject.Call T) (cs : list (AsyncSubject.Call T))
      (s : t T) :
  run (c :: cs) s =
  (fst (run cs (fst (step c s))), snd (step c s) ++ snd (run cs (fst (step c s)))).
Proof.
  simpl. destruct (step c s) as [s1 calls1]. simpl.
  now destruct (run cs s1).
Qed.

Lemma behavior_counted_step (c : AsyncSubject.Call T) (s : t T) :
  behavior_counted s -> behavior_counted (fst (step c s)).
Proof.
  unfold behavior_counted. intros Hs.
  destruct c as [o|o|x| |e]; simpl.
  - unfold Subscribe, Subscribe_locked.
    destruct (state s) eqn:Est; simpl; try (rewrite Est; intros; discriminate).
    specialize (Hs eq_refl).
    destruct (0 <? slotCount s) eqn:Epos.
    + apply Nat.ltb_lt in Epos.
      destruct (AsyncSubjectFacts.take_slot_free o (observers s)) as (r & -> & Hf & _);
        [lia|].
      simpl. intros _. lia.
    + apply Nat.ltb_ge in Epos. simpl. intros _.
      rewrite AsyncSubjectFacts.free_app. simpl. lia.
  - unfold RemoveObserver.
    destruct (clear_slot (Some o) (observers s)) as [r|] eqn:Ec; simpl; auto.
    intros Hst. rewrite (AsyncSubjectFacts.clear_slot_free _ _ _ Ec). f_equal. auto.
  - exact Hs.
  - intros; discriminate.
  - intros; discriminate.
Qed.

Lemma behavior_counted_run (cs : list (AsyncSubject.Call T)) (s : t T) :
  behavior_counted s -> behavior_counted (fst (run cs s)).
Proof.
  revert s. induction cs as [|c cs IH]; intros s Hs; [exact Hs|].
  rewrite behavior_run_cons. cbn [fst]. apply IH. now apply behavior_counted_step.
Qed.

Lemma behavior_counted_create (a : T) : behavior_counted (CreateBehaviorSubject a).
Proof. intros _. reflexivity. Qed.

(** What [Subscribe] hands over goes to the subscribing observer. *)
Lemma behavior_subscribe_other (o o' : ObserverId) (s : t T) :
  Nat.eqb o o' = false ->
  AsyncSubject.seen_by o (snd (step (AsyncSubject.CallSubscribe T o') s)) = [] /\
  holds o (observers (fst (step (AsyncSubject.CallSubscribe T o') s))) =
  holds o (observers s) /\
  state (fst (step (AsyncSubject.CallSubscribe T o') s)) = state s.
Proof.
  intros Hc. assert (Hc' : Nat.eqb o' o = false) by now rewrite Nat.eqb_sym.
  cbn [step]. unfold Subscribe, Subscribe_locked.
  destruct (state s) eqn:Est; cbn [fst snd option_list option_map app];
    unfold AsyncSubject.seen_by; cbn [filter fst map]; rewrite ?Hc'; auto.
  - destruct (0 <? slotCount s).
    + destruct (take_slot o' (observers s)) as [r|] eqn:Et; cbn [observers state]; auto.
      rewrite (holds_take_slot o o' _ _ Et), Hc. auto with arith.
    + cbn [observers state]. rewrite holds_app. unfold holds at 2. simpl.
      rewrite Hc. simpl. auto with arith.
  - destruct (error s); cbn [option_map option_list filter fst map]; rewrite ?Hc'; auto.
Qed.

Lemma behavior_gone (o : ObserverId) (cs : list (AsyncSubject.Call T)) (s : t T) :
  holds o (observers s) = 0 -> foreign o cs = true ->
  AsyncSubject.seen_by o (snd (run cs s)) = [].
Proof.
  revert s. induction cs as [|c cs IH]; intros s Hh Hf; [reflexivity|].
  cbn [foreign forallb] in Hf. apply andb_prop in Hf. destruct Hf as [Hc Hf].
  apply negb_true_iff in Hc.
  rewrite behavior_run_cons. cbn [snd]. rewrite AsyncSubjectFacts.seen_by_app.
  destruct c as [o'|o'|x| |e]; cbn [mine] in Hc.
  - destruct (behavior_subscribe_other o o' s Hc) as (H1 & H2 & _).
    rewrite H1. apply IH; auto. now rewrite H2.
  - cbn [step fst snd]. apply IH; auto. unfold RemoveObserver.
    destruct (clear_slot (Some o') (observers s)) as [r|] eqn:Ec; auto.
    cbn [observers]. pose proof (holds_clear_slot o o' _ _ Ec). lia.
  - cbn [step]. unfold OnNext. cbn [fst snd].
    rewrite seen_by_broadcast, Hh. now apply IH.
  - cbn [step]. unfold OnCompleted. cbn [fst snd].
    rewrite seen_by_broadcast, Hh. now apply IH.
  - cbn [step]. unfold OnError. cbn [fst snd].
    rewrite seen_by_broadcast, Hh. now apply IH.
Qed.

Lemma behavior_attached (o : ObserverId) (cs : list (AsyncSubject.Call T))
      (xs : list T) (s : t T) :
  state s = SubjectState.Forwarding -> holds o (observers s) = 1 ->
  foreign o cs = true -> pushed cs = map (@Next T) xs ->
  state (fst (run cs s)) = SubjectState.Forwarding /\
  holds o (observers (fst (run cs s))) = 1 /\
  AsyncSubject.seen_by o (snd (run cs s)) = map (@Next T) xs.
Proof.
  revert xs s. induction cs as [|c cs IH]; intros xs s Hst Hh Hf Hp.
  - destruct xs; [|discriminate]. auto.
  - cbn [foreign forallb] in Hf. apply andb_prop in Hf. destruct Hf as [Hc Hf].
    apply negb_true_iff in Hc.
    rewrite behavior_run_cons. cbn [fst snd]. rewrite AsyncSubjectFacts.seen_by_app.
    destruct c as [o'|o'|x| |e]; cbn [mine] in Hc; cbn [pushed] in Hp.
    + destruct (behavior_subscribe_other o o' s Hc) as (H1 & H2 & H3).
      rewrite H1. apply IH; auto; congruence.
    + cbn [step fst snd]. unfold RemoveObserver.
      destruct (clear_slot (Some o') (observers s)) as [r|] eqn:Ec; [|now apply IH].
      apply IH; auto. cbn [observers].
      pose proof (holds_clear_slot o o' _ _ Ec) as H. rewrite Hc in H. lia.
    + destruct xs as [|x' xs]; [discriminate|]. injection Hp as <- Hp.
      cbn [step]. unfold OnNext. cbn [fst snd].
      rewrite seen_by_broadcast, Hh.
      destruct (IH xs (mk (slotCount s) x (state s) (error s) (observers s))
                   Hst Hh Hf Hp) as (H1 & H2 & H3).
      rewrite H3. auto.
    + destruct xs; discriminate.
    + destruct xs; discriminate.
Qed.

Lemma behavior_subscribe (o : ObserverId) (s : t T) :
  behavior_counted s ->
  state s = SubjectState.Forwarding -> holds o (observers s) = 0 ->
  let r := step (AsyncSubject.CallSubscribe T o) s in
  AsyncSubject.seen_by o (snd r) = [Next (value s)] /\
  state (fst r) = SubjectState.Forwarding /\
  holds o (observers (fst r)) = 1.
Proof.
  intros Hcount Hst Hh. specialize (Hcount Hst).
  cbn [step]. unfold Subscribe, Subscribe_locked. rewrite Hst.
  cbn [fst snd option_list option_map app].
  unfold AsyncSubject.seen_by. cbn [filter fst map]. rewrite Nat.eqb_refl.
  split; [reflexivity|].
  destruct (0 <? slotCount s) eqn:Epos.
  - apply Nat.ltb_lt in Epos.
    destruct (AsyncSubjectFacts.take_slot_free o (observers s)) as (r & Et & _ & _);
      [lia|].
    rewrite Et. cbn [state observers].
    rewrite (holds_take_slot o o _ _ Et), Nat.eqb_refl, Hh. auto.
  - cbn [state observers]. rewrite holds_app, Hh. unfold holds. simpl.
    rewrite Nat.eqb_refl. auto.
Qed.

Lemma behavior_terminate (o : ObserverId) (t' : Terminal) (s : t T) :
  holds o (observers s) = 1 ->
  let r := step (terminate T t') s in
  AsyncSubject.seen_by o (snd r) = [terminal_event t'] /\
  holds o (observers (fst r)) = 0.
Proof.
  intros Hh. destruct t' as [|e]; cbn [terminate step];
    unfold OnCompleted, OnError; cbn [fst snd];
    rewrite seen_by_broadcast, Hh; auto.
Qed.

Lemma behavior_dispose (o : ObserverId) (s : t T) :
  holds o (observers s) = 1 ->
  let r := step (AsyncSubject.CallDispose T o) s in
  snd r = [] /\ holds o (observers (fst r)) = 0.
Proof.
  intros Hh. cbn [step fst snd]. split; auto.
  unfold RemoveObserver.
  destruct (clear_slot (Some o) (observers s)) as [r|] eqn:Ec.
  - cbn [observers]. pose proof (holds_clear_slot o o _ _ Ec) as H.
    rewrite Nat.eqb_refl in H. lia.
  - pose proof (clear_slot_held o _ Ec). lia.
Qed.

(** The value kept is the last one pushed, whatever the state. *)
Lemma behavior_value (cs : list (AsyncSubject.Call T)) (s : t T) :
  value (fst (run cs s)) = last (nexts (pushed cs)) (value s).
Proof.
  revert s. induction cs as [|c cs IH]; intros s; [reflexivity|].
  rewrite behavior_run_cons. cbn [fst]. rewrite IH.
  destruct c as [o'|o'|x| |e]; cbn [pushed nexts step].
  - unfold Subscribe, Subscribe_locked.
    destruct (state s); cbn [fst]; auto.
    destruct (0 <? slotCount s); auto.
    destruct (take_slot o' (observers s)); auto.
  - cbn [fst]. unfold RemoveObserver.
    destruct (clear_slot (Some o') (observers s)); auto.
  - cbn [OnNext fst value]. now rewrite last_cons.
  - reflexivity.
  - reflexivity.
Qed.

(** Calls that push no terminal call leave the recorded state alone. *)
Lemma behavior_state_step (c : AsyncSubject.Call T) (s : t T) :
  existsb is_terminal (pushed [c]) = false ->
  state (fst (step c s)) = state s /\ error (fst (step c s)) = error s.
Proof.
  destruct c as [o'|o'|x| |e]; cbn [pushed existsb]; try discriminate; intros _;
    cbn [step].
  - unfold Subscribe, Subscribe_locked.
    destruct (state s) eqn:E; destruct (0 <? slotCount s);
      destruct (take_slot o' (observers s)); cbn; auto.
  - cbn [fst]. unfold RemoveObserver.
    destruct (clear_slot (Some o') (observers s)); auto.
  - auto.
Qed.

Lemma behavior_state_kept (cs : list (AsyncSubject.Call T)) (xs : list T) (s : t T) :
  pushed cs = map (@Next T) xs ->
  state (fst (run cs s)) = state s /\ error (fst (run cs s)) = error s.
Proof.
  revert xs s. induction cs as [|c cs IH]; intros xs s Hp; [auto|].
  rewrite behavior_run_cons. cbn [fst].
  assert (Hc : existsb is_terminal (pushed [c]) = false /\
               exists xs', pushed cs = map (@Next T) xs').
  { destruct c as [o'|o'|x| |e]; cbn [pushed] in *; try (split; [reflexivity|]; eauto).
    - destruct xs as [|x' xs]; [discriminate|]. injection Hp as _ Hp. eauto.
    - destruct xs; discriminate.
    - destruct xs; discriminate. }
  destruct Hc as (Hc & xs' & Hp').
  destruct (IH xs' (fst (step c s)) Hp') as [H1 H2].
  destruct (behavior_state_step c s Hc) as [H3 H4].
  split; congruence.
Qed.

End Facts.

End BehaviorSubjectFacts.

(** BehaviorSubject: an observer that subscribes while the subject
    forwards is handed the current value at once (the last value pushed so
    far, or the value the subject was created with), then every value
    pushed, in order, once; it is handed the first terminal call pushed and
    nothing after it; and once it has disposed its subscription it is handed
    nothing more. *)
Theorem BehaviorSubject_replays_then_multicasts :
  forall (T : Type) (a : T) (cs0 : list (AsyncSubject.Call T)) (o : ObserverId)
         (cs1 : list (AsyncSubject.Call T)) (xs : list T),
    let s0 := fst (BehaviorSubject.run cs0 (BehaviorSubject.CreateBehaviorSubject a)) in
    BehaviorSubject.state s0 = SubjectState.Forwarding ->
    SubjectView.holds o (BehaviorSubject.observers s0) = 0 ->
    SubjectView.foreign o cs1 = true ->
    SubjectView.pushed cs1 = map (@Next T) xs ->
    let current := last (nexts (SubjectView.pushed cs0)) a in
    let subscribed := AsyncSubject.CallSubscribe T o :: cs1 in
    AsyncSubject.seen_by o (snd (BehaviorSubject.run subscribed s0)) =
      Next current :: map (@Next T) xs /\
    (forall (t : Terminal) (cs2 : list (AsyncSubject.Call T)),
        SubjectView.foreign o cs2 = true ->
        AsyncSubject.seen_by o
          (snd (BehaviorSubject.run (subscribed ++ SubjectView.terminate T t :: cs2) s0)) =
        Next current :: map (@Next T) xs ++ [terminal_event t]) /\
    (forall cs2 : list (AsyncSubject.Call T),
        SubjectView.foreign o cs2 = true ->
        AsyncSubject.seen_by o
          (snd (BehaviorSubject.run
                  (subscribed ++ AsyncSubject.CallDispose T o :: cs2) s0)) =
        Next current :: map (@Next T) xs).
Proof.
  intros T a cs0 o cs1 xs s0 Hst Hh Hf Hp current subscribed.
  assert (Hcount : SubjectView.behavior_counted s0).
  { apply BehaviorSubjectFacts.behavior_counted_run.
    apply BehaviorSubjectFacts.behavior_counted_create. }
  assert (Hcur : BehaviorSubject.value s0 = current).
  { unfold s0, current. now rewrite BehaviorSubjectFacts.behavior_value. }
  destruct (BehaviorSubjectFacts.behavior_subscribe T o s0 Hcount Hst Hh)
    as (Hs1 & Hs2 & Hs3).
  set (s1 := fst (BehaviorSubject.step (AsyncSubject.CallSubscribe T o) s0)) in *.
  destruct (BehaviorSubjectFacts.behavior_attached T o cs1 xs s1 Hs2 Hs3 Hf Hp)
    as (Ha1 & Ha2 & Ha3).
  assert (Hfst : fst (BehaviorSubject.run subscribed s0) =
                 fst (BehaviorSubject.run cs1 s1)).
  { unfold subscribed. now rewrite BehaviorSubjectFacts.behavior_run_cons. }
  assert (Hsub : AsyncSubject.seen_by o (snd (BehaviorSubject.run subscribed s0)) =
                 Next current :: map (@Next T) xs).
  { unfold subscribed. rewrite BehaviorSubjectFacts.behavior_run_cons. cbn [snd].
    rewrite AsyncSubjectFacts.seen_by_app, Hs1, Hcur. fold s1. now rewrite Ha3. }
  split; [exact Hsub|]. split.
  - intros t cs2 Hf2.
    rewrite BehaviorSubjectFacts.behavior_run_app. cbn [snd].
    rewrite AsyncSubjectFacts.seen_by_app, Hsub, Hfst.
    change (Next current :: map (@Next T) xs ++ [terminal_event t])
      with ((Next current :: map (@Next T) xs) ++ [terminal_event t]).
    f_equal.
    rewrite BehaviorSubjectFacts.behavior_run_cons. cbn [snd].
    rewrite AsyncSubjectFacts.seen_by_app.
    destruct (BehaviorSubjectFacts.behavior_terminate T o t _ Ha2) as [Ht1 Ht2].
    rewrite Ht1, (BehaviorSubjectFacts.behavior_gone T o cs2 _ Ht2 Hf2). reflexivity.
  - intros cs2 Hf2.
    rewrite BehaviorSubjectFacts.behavior_run_app. cbn [snd].
    rewrite AsyncSubjectFacts.seen_by_app, Hsub, Hfst.
    rewrite BehaviorSubjectFacts.behavior_run_cons. cbn [snd].
    rewrite AsyncSubjectFacts.seen_by_app.
    destruct (BehaviorSubjectFacts.behavior_dispose T o _ Ha2) as [Hd1 Hd2].
    rewrite Hd1, (BehaviorSubjectFacts.behavior_gone T o cs2 _ Hd2 Hf2). simpl.
    now rewrite app_nil_r.
Qed.

Lemma BehaviorSubject_replays_then_multicasts_witness :
  AsyncSubject.seen_by 1
    (snd (BehaviorSubject.run
            ((AsyncSubject.CallSubscribe nat 1 :: [AsyncSubject.CallOnNext 6]) ++
             SubjectView.terminate nat Completes :: [AsyncSubject.CallOnNext 7])
            (fst (BehaviorSubject.run [AsyncSubject.CallOnNext 5]
                    (BehaviorSubject.CreateBehaviorSubject 0))))) =
  [Next 5; Next 6; Completed].
Proof.
  destruct (BehaviorSubject_replays_then_multicasts nat 0 [AsyncSubject.CallOnNext 5] 1
              [AsyncSubject.CallOnNext 6] [6] eq_refl eq_refl eq_refl eq_refl)
    as (_ & H & _).
  apply (H Completes [AsyncSubject.CallOnNext 7]). reflexivity.
Defined.

(** BehaviorSubject: an observer that subscribes after the subject has
    terminated is handed, for a subject that completed, the value kept and
    then completed, and for a subject that failed the error alone, and gets
    [Disposable::Empty()].  OnNext replaces the value kept whatever the
    state, so the value handed over is the last value pushed, also when it
    was pushed after the subject had completed. *)
Theorem BehaviorSubject_late_subscriber :
  forall (T : Type) (a : T) (cs cs' : list (AsyncSubject.Call T)) (t : Terminal)
         (xs : list T) (o : ObserverId),
    SubjectView.pushed cs' = map (@Next T) xs ->
    let calls := cs ++ SubjectView.terminate T t :: cs' in
    let s := fst (BehaviorSubject.run calls (BehaviorSubject.CreateBehaviorSubject a)) in
    BehaviorSubject.Subscribe o s =
      (s,
       match t with
       | Completes =>
           [(o, Next (last (nexts (SubjectView.pushed calls)) a)); (o, Completed)]
       | Fails e => [(o, Error e)]
       end,
       Empty).
Proof.
  intros T a cs cs' t xs o Hp calls s.
  assert (Hv : BehaviorSubject.value s = last (nexts (SubjectView.pushed calls)) a).
  { unfold s. now rewrite BehaviorSubjectFacts.behavior_value. }
  assert (Hs : BehaviorSubject.state s =
               match t with
               | Completes => SubjectState.Completed
               | Fails _ => SubjectState.Error
               end /\
               (forall e, t = Fails e -> BehaviorSubject.error s = Some e)).
  { unfold s, calls. rewrite BehaviorSubjectFacts.behavior_run_app. cbn [fst].
    rewrite BehaviorSubjectFacts.behavior_run_cons. cbn [fst].
    destruct (BehaviorSubjectFacts.behavior_state_kept T cs' xs
                (fst (BehaviorSubject.step (SubjectView.terminate T t)
                        (fst (BehaviorSubject.run cs
                                (BehaviorSubject.CreateBehaviorSubject a))))) Hp)
      as [H1 H2].
    rewrite H1, H2. destruct t as [|e]; cbn; split; auto; try discriminate.
    intros e' He. now injection He as ->. }
  destruct Hs as [Hst Herr].
  unfold BehaviorSubject.Subscribe, BehaviorSubject.Subscribe_locked. rewrite Hst.
  destruct t as [|e]; cbn.
  - now rewrite Hv.
  - now rewrite (Herr e eq_refl).
Qed.

Lemma BehaviorSubject_late_subscriber_witness :
  let s := fst (BehaviorSubject.run
                  ([AsyncSubject.CallOnNext 5] ++
                   SubjectView.terminate nat Completes :: [AsyncSubject.CallOnNext 6])
                  (BehaviorSubject.CreateBehaviorSubject 0)) in
  BehaviorSubject.Subscribe 9 s = (s, [(9, Next 6); (9, Completed)], Empty).
Proof.
  apply (BehaviorSubject_late_subscriber nat 0 [AsyncSubject.CallOnNext 5]
           [AsyncSubject.CallOnNext 6] Completes [6] 9).
  reflexivity.
Defined.

Module AsyncSubjectRunFacts.

Import SubjectView.
Import ObserversFacts.
Import AsyncSubject.
Import AsyncSubjectView.

Section Facts.

Variable T : Type.

Lemma async_run_app (a b : list (Call T)) (s : t T) :
  run (a ++ b) s =
  (fst (run b (fst (run a s))), snd (run a s) ++ snd (run b (fst (run a s)))).
Proof.
  revert s. induction a as [|c a IH]; intros s; simpl.
  - now destruct (run b s).
  - destruct (step c s) as [s1 calls1]. rewrite IH.
    destruct (run a s1) as [s2 calls2]. simpl.
    now rewrite app_assoc.
Qed.

Lemma async_run_cons (c : Call T) (cs : list (Call T)) (s : t T) :
  run (c :: cs) s =
  (fst (run cs (fst (step c s))), snd (step c s) ++ snd (run cs (fst (step c s)))).
Proof.
  simpl. destruct (step c s) as [s1 calls1]. simpl.
  now destruct (run cs s1).
Qed.

(** What [Subscribe] hands over goes to the subscribing observer. *)
Lemma async_subscribe_other (o o' : ObserverId) (s : t T) :
  Nat.eqb o o' = false ->
  seen_by o (snd (step (CallSubscribe T o') s)) = [] /\
  holds o (observers (fst (step (CallSubscribe T o') s))) = holds o (observers s) /\
  state (fst (step (CallSubscribe T o') s)) = state s /\
  value (fst (step (CallSubscribe T o') s)) = value s.
Proof.
  intros Hc. assert (Hc' : Nat.eqb o' o = false) by now rewrite Nat.eqb_sym.
  cbn [step]. unfold Subscribe, Subscribe_locked.
  destruct (state s) eqn:Est; cbn [fst snd]; auto.
  - destruct (0 <? slotCount s).
    + destruct (take_slot o' (observers s)) as [r|] eqn:Et;
        cbn [observers state value]; auto.
      rewrite (holds_take_slot o o' _ _ Et), Hc. auto with arith.
    + cbn [observers state value]. rewrite holds_app. unfold holds at 2. simpl.
      rewrite Hc. simpl. auto with arith.
  - destruct (value s); unfold seen_by; cbn [app filter fst map]; rewrite ?Hc'; auto.
  - destruct (error s); unfold seen_by; cbn [app filter fst map]; rewrite ?Hc'; auto.
Qed.

Lemma filter_none (o : ObserverId) (observers : Observers) :
  holds o observers = 0 -> filter (Nat.eqb o) (attached observers) = [].
Proof.
  unfold holds. destruct (filter (Nat.eqb o) (attached observers)); auto. discriminate.
Qed.

Lemma filter_one (o : ObserverId) (observers : Observers) :
  holds o observers = 1 -> filter (Nat.eqb o) (attached observers) = [o].
Proof.
  unfold holds. intros H.
  destruct (filter (Nat.eqb o) (attached observers)) as [|a [|b l]] eqn:E;
    try discriminate.
  assert (Hin : In a (filter (Nat.eqb o) (attached observers)))
    by (rewrite E; now left).
  apply filter_In in Hin. destruct Hin as [_ Ha]. apply Nat.eqb_eq in Ha. now subst.
Qed.

Lemma async_gone (o : ObserverId) (cs : list (Call T)) (s : t T) :
  holds o (observers s) = 0 -> foreign o cs = true ->
  seen_by o (snd (run cs s)) = [].
Proof.
  revert s. induction cs as [|c cs IH]; intros s Hh Hf; [reflexivity|].
  cbn [foreign forallb] in Hf. apply andb_prop in Hf. destruct Hf as [Hc Hf].
  apply negb_true_iff in Hc.
  rewrite async_run_cons. cbn [snd]. rewrite AsyncSubjectFacts.seen_by_app.
  destruct c as [o'|o'|x| |e]; cbn [mine] in Hc.
  - destruct (async_subscribe_other o o' s Hc) as (H1 & H2 & _).
    rewrite H1. apply IH; auto. now rewrite H2.
  - cbn [step fst snd]. apply IH; auto. unfold RemoveObserver.
    destruct (clear_slot (Some o') (observers s)) as [r|] eqn:Ec; auto.
    cbn [observers]. pose proof (holds_clear_slot o o' _ _ Ec). lia.
  - cbn [step]. unfold OnNext.
    destruct (state s); cbn [fst snd]; now apply IH.
  - cbn [step]. unfold OnCompleted. cbn [fst snd].
    rewrite AsyncSubjectFacts.seen_by_batches, (filter_none o _ Hh). now apply IH.
  - cbn [step]. unfold OnError. cbn [fst snd].
    rewrite seen_by_broadcast, Hh. now apply IH.
Qed.

(** While the subject forwards, values are kept and nobody is called. *)
Lemma async_attached (o : ObserverId) (cs : list (Call T)) (xs : list T) (s : t T) :
  state s = SubjectState.Forwarding -> holds o (observers s) = 1 ->
  foreign o cs = true -> pushed cs = map (@Next T) xs ->
  state (fst (run cs s)) = SubjectState.Forwarding /\
  holds o (observers (fst (run cs s))) = 1 /\
  value (fst (run cs s)) = last (map (@Some T) xs) (value s) /\
  seen_by o (snd (run cs s)) = [].
Proof.
  revert xs s. induction cs as [|c cs IH]; intros xs s Hst Hh Hf Hp.
  - destruct xs; [|discriminate]. auto.
  - cbn [foreign forallb] in Hf. apply andb_prop in Hf. destruct Hf as [Hc Hf].
    apply negb_true_iff in Hc.
    rewrite async_run_cons. cbn [fst snd]. rewrite AsyncSubjectFacts.seen_by_app.
    destruct c as [o'|o'|x| |e]; cbn [mine] in Hc; cbn [pushed] in Hp.
    + destruct (async_subscribe_other o o' s Hc) as (H1 & H2 & H3 & H4).
      rewrite H1, <- H4. apply IH; auto; congruence.
    + cbn [step fst snd]. unfold RemoveObserver.
      destruct (clear_slot (Some o') (observers s)) as [r|] eqn:Ec; [|now apply IH].
      change (value s) with
        (value (mk (S (slotCount s)) (value s) (state s) (error s) r)).
      apply IH; auto. cbn [observers].
      pose proof (holds_clear_slot o o' _ _ Ec) as H. rewrite Hc in H. lia.
    + destruct xs as [|x' xs]; [discriminate|]. injection Hp as <- Hp.
      cbn [step]. unfold OnNext. rewrite Hst. cbn [fst snd app].
      destruct (IH xs (mk (slotCount s) (Some x) SubjectState.Forwarding (error s)
                          (observers s)) eq_refl Hh Hf Hp) as (H1 & H2 & H3 & H4).
      rewrite H1, H2, H3, H4. cbn [value map].
      now rewrite BehaviorSubjectFacts.last_cons.
    + destruct xs; discriminate.
    + destruct xs; discriminate.
Qed.

Lemma async_values (cs : list (Call T)) (xs : list T) (s : t T) :
  state s = SubjectState.Forwarding -> pushed cs = map (@Next T) xs ->
  state (fst (run cs s)) = SubjectState.Forwarding /\
  value (fst (run cs s)) = last (map (@Some T) xs) (value s).
Proof.
  revert xs s. induction cs as [|c cs IH]; intros xs s Hst Hp.
  - destruct xs; [|discriminate]. auto.
  - rewrite async_run_cons. cbn [fst].
    destruct c as [o'|o'|x| |e]; cbn [pushed] in Hp.
    + assert (H : state (fst (step (CallSubscribe T o') s)) = SubjectState.Forwarding /\
                  value (fst (step (CallSubscribe T o') s)) = value s).
      { cbn [step]. unfold Subscribe, Subscribe_locked. rewrite Hst.
        destruct (0 <? slotCount s); [destruct (take_slot o' (observers s))|];
          cbn; auto. }
      destruct H as [H1 H2]. rewrite <- H2. now apply IH.
    + cbn [step fst]. unfold RemoveObserver.
      destruct (clear_slot (Some o') (observers s)) as [r|]; [|now apply IH].
      change (value s) with
        (value (mk (S (slotCount s)) (value s) (state s) (error s) r)).
      now apply IH.
    + destruct xs as [|x' xs]; [discriminate|]. injection Hp as <- Hp.
      cbn [step]. unfold OnNext. rewrite Hst. cbn [fst].
      destruct (IH xs (mk (slotCount s) (Some x) SubjectState.Forwarding (error s)
                          (observers s)) eq_refl Hp) as (H1 & H2).
      rewrite H1, H2. cbn [value map].
      now rewrite BehaviorSubjectFacts.last_cons.
    + destruct xs; discriminate.
    + destruct xs; discriminate.
Qed.

Lemma async_subscribe (o : ObserverId) (s : t T) :
  counted s ->
  state s = SubjectState.Forwarding -> holds o (observers s) = 0 ->
  let r := step (CallSubscribe T o) s in
  snd r = [] /\ state (fst r) = SubjectState.Forwarding /\
  holds o (observers (fst r)) = 1 /\ value (fst r) = value s.
Proof.
  intros Hcount Hst Hh. specialize (Hcount Hst).
  cbn [step]. unfold Subscribe, Subscribe_locked. rewrite Hst. cbn [fst snd].
  split; [reflexivity|].
  destruct (0 <? slotCount s) eqn:Epos.
  - apply Nat.ltb_lt in Epos.
    destruct (AsyncSubjectFacts.take_slot_free o (observers s)) as (r & Et & _ & _);
      [lia|].
    rewrite Et. cbn [state observers value].
    rewrite (holds_take_slot o o _ _ Et), Nat.eqb_refl, Hh. auto.
  - cbn [state observers value]. rewrite holds_app, Hh. unfold holds. simpl.
    rewrite Nat.eqb_refl. auto.
Qed.

Lemma async_complete (o : ObserverId) (s : t T) :
  holds o (observers s) = 1 ->
  let r := step (CallOnCompleted T) s in
  seen_by o (snd r) =
    match value s with Some v => [Next v] | None => [] end ++ [Completed] /\
  holds o (observers (fst r)) = 0.
Proof.
  intros Hh. cbn [step]. unfold OnCompleted. cbn [fst snd observers].
  rewrite AsyncSubjectFacts.seen_by_batches, (filter_one o _ Hh). simpl.
  now rewrite app_nil_r.
Qed.

Lemma async_fail (o : ObserverId) (e : exception_ptr) (s : t T) :
  holds o (observers s) = 1 ->
  let r := step (CallOnError T e) s in
  seen_by o (snd r) = [Error e] /\ holds o (observers (fst r)) = 0.
Proof.
  intros Hh. cbn [step]. unfold OnError. cbn [fst snd observers].
  rewrite seen_by_broadcast, Hh. auto.
Qed.

Lemma async_dispose (o : ObserverId) (s : t T) :
  holds o (observers s) = 1 ->
  let r := step (CallDispose T o) s in
  snd r = [] /\ holds o (observers (fst r)) = 0.
Proof.
  intros Hh. cbn [step fst snd]. split; auto.
  unfold RemoveObserver.
  destruct (clear_slot (Some o) (observers s)) as [r|] eqn:Ec.
  - cbn [observers]. pose proof (holds_clear_slot o o _ _ Ec) as H.
    rewrite Nat.eqb_refl in H. lia.
  - pose proof (clear_slot_held o _ Ec). lia.
Qed.

End Facts.

End AsyncSubjectRunFacts.

(** AsyncSubject, over a run of calls: an observer that subscribes while
    the subject forwards is handed nothing while values are pushed; when the
    subject completes it is handed the last value pushed since the subject
    was created, if there is one, and then completed; when the subject fails
    it is handed the error alone; after that, and once it has disposed its
    subscription, it is handed nothing more. *)
Theorem AsyncSubject_hands_last_value_at_completion :
  forall (T : Type) (cs0 : list (AsyncSubject.Call T)) (xs0 : list T) (o : ObserverId)
         (cs1 : list (AsyncSubject.Call T)) (xs1 : list T),
    let s0 := fst (AsyncSubject.run cs0 (AsyncSubject.CreateAsyncSubject T)) in
    SubjectView.pushed cs0 = map (@Next T) xs0 ->
    SubjectView.holds o (AsyncSubject.observers s0) = 0 ->
    SubjectView.foreign o cs1 = true ->
    SubjectView.pushed cs1 = map (@Next T) xs1 ->
    let subscribed := AsyncSubject.CallSubscribe T o :: cs1 in
    AsyncSubject.seen_by o (snd (AsyncSubject.run subscribed s0)) = [] /\
    (forall cs2 : list (AsyncSubject.Call T),
        SubjectView.foreign o cs2 = true ->
        AsyncSubject.seen_by o
          (snd (AsyncSubject.run (subscribed ++ AsyncSubject.CallOnCompleted T :: cs2) s0)) =
        match last (map (@Some T) (xs0 ++ xs1)) None with
        | Some x => [Next x]
        | None => []
        end ++ [Completed]) /\
    (forall (e : exception_ptr) (cs2 : list (AsyncSubject.Call T)),
        SubjectView.foreign o cs2 = true ->
        AsyncSubject.seen_by o
          (snd (AsyncSubject.run (subscribed ++ AsyncSubject.CallOnError T e :: cs2) s0)) =
        [Error e]) /\
    (forall cs2 : list (AsyncSubject.Call T),
        SubjectView.foreign o cs2 = true ->
        AsyncSubject.seen_by o
          (snd (AsyncSubject.run (subscribed ++ AsyncSubject.CallDispose T o :: cs2) s0)) =
        []).
Proof.
  intros T cs0 xs0 o cs1 xs1 s0 Hp0 Hh Hf Hp subscribed.
  assert (Hcount : AsyncSubjectView.counted s0).
  { apply AsyncSubjectFacts.counted_run. apply AsyncSubjectFacts.counted_create. }
  destruct (AsyncSubjectRunFacts.async_values T cs0 xs0
              (AsyncSubject.CreateAsyncSubject T) eq_refl Hp0) as [Hst Hv0].
  fold s0 in Hst, Hv0. cbn [AsyncSubject.value AsyncSubject.CreateAsyncSubject] in Hv0.
  destruct (AsyncSubjectRunFacts.async_subscribe T o s0 Hcount Hst Hh)
    as (Hs1 & Hs2 & Hs3 & Hs4).
  set (s1 := fst (AsyncSubject.step (AsyncSubject.CallSubscribe T o) s0)) in *.
  destruct (AsyncSubjectRunFacts.async_attached T o cs1 xs1 s1 Hs2 Hs3 Hf Hp)
    as (Ha1 & Ha2 & Ha3 & Ha4).
  assert (Hval : AsyncSubject.value (fst (AsyncSubject.run cs1 s1)) =
                 last (map (@Some T) (xs0 ++ xs1)) None).
  { rewrite Ha3, Hs4, Hv0, map_app. clear.
    induction (map (@Some T) xs1) as [|a l IH] using rev_ind.
    - now rewrite app_nil_r.
    - rewrite app_assoc, !last_last. reflexivity. }
  assert (Hfst : fst (AsyncSubject.run subscribed s0) = fst (AsyncSubject.run cs1 s1)).
  { unfold subscribed. now rewrite AsyncSubjectRunFacts.async_run_cons. }
  assert (Hsub : AsyncSubject.seen_by o (snd (AsyncSubject.run subscribed s0)) = []).
  { unfold subscribed. rewrite AsyncSubjectRunFacts.async_run_cons. cbn [snd].
    rewrite Hs1. exact Ha4. }
  split; [exact Hsub|]. split; [|split].
  - intros cs2 Hf2.
    rewrite AsyncSubjectRunFacts.async_run_app. cbn [snd].
    rewrite AsyncSubjectFacts.seen_by_app, Hsub, Hfst. cbn [app].
    rewrite AsyncSubjectRunFacts.async_run_cons. cbn [snd].
    rewrite AsyncSubjectFacts.seen_by_app.
    destruct (AsyncSubjectRunFacts.async_complete T o _ Ha2) as [Ht1 Ht2].
    rewrite Ht1, (AsyncSubjectRunFacts.async_gone T o cs2 _ Ht2 Hf2), Hval.
    now rewrite app_nil_r.
  - intros e cs2 Hf2.
    rewrite AsyncSubjectRunFacts.async_run_app. cbn [snd].
    rewrite AsyncSubjectFacts.seen_by_app, Hsub, Hfst. cbn [app].
    rewrite AsyncSubjectRunFacts.async_run_cons. cbn [snd].
    rewrite AsyncSubjectFacts.seen_by_app.
    destruct (AsyncSubjectRunFacts.async_fail T o e _ Ha2) as [Ht1 Ht2].
    rewrite Ht1, (AsyncSubjectRunFacts.async_gone T o cs2 _ Ht2 Hf2). reflexivity.
  - intros cs2 Hf2.
    rewrite AsyncSubjectRunFacts.async_run_app. cbn [snd].
    rewrite AsyncSubjectFacts.seen_by_app, Hsub, Hfst. cbn [app].
    rewrite AsyncSubjectRunFacts.async_run_cons. cbn [snd].
    rewrite AsyncSubjectFacts.seen_by_app.
    destruct (AsyncSubjectRunFacts.async_dispose T o _ Ha2) as [Hd1 Hd2].
    rewrite Hd1, (AsyncSubjectRunFacts.async_gone T o cs2 _ Hd2 Hf2). reflexivity.
Qed.

Lemma AsyncSubject_hands_last_value_at_completion_witness :
  AsyncSubject.seen_by 1
    (snd (AsyncSubject.run
            ((AsyncSubject.CallSubscribe nat 1 ::
              [AsyncSubject.CallOnNext 6; AsyncSubject.CallOnNext 7]) ++
             AsyncSubject.CallOnCompleted nat :: [AsyncSubject.CallOnNext 8])
            (fst (AsyncSubject.run [AsyncSubject.CallOnNext 5]
                    (AsyncSubject.CreateAsyncSubject nat))))) =
  [Next 7; Completed].
Proof.
  destruct (AsyncSubject_hands_last_value_at_completion nat [AsyncSubject.CallOnNext 5]
              [5] 1 [AsyncSubject.CallOnNext 6; AsyncSubject.CallOnNext 7] [6; 7]
              eq_refl eq_refl eq_refl eq_refl) as (_ & H & _).
  apply (H [AsyncSubject.CallOnNext 8]). reflexivity.
Defined.

(** ** [GroupBy] *)

Module GroupByFacts.

Import GroupBy.
Import GroupByView.
Import CreatedObservableView.
Import CreatedObservableFacts.

Section Order.

Variable Key : Type.
Variable less : Key -> Key -> bool.
Hypothesis order : StrictWeakOrder less.

Lemma equivalent_sym (a b : Key) : equivalent less a b = equivalent less b a.
Proof. unfold equivalent. apply andb_comm. Qed.

Lemma equivalent_refl (a : Key) : equivalent less a a = true.
Proof. unfold equivalent. now rewrite (irreflexive order). Qed.

Lemma equivalent_trans (a b c : Key) :
  equivalent less a b = true -> equivalent less b c = true -> equivalent less a c = true.
Proof. apply (incomparable order). Qed.

(** Equivalent keys are equivalent to the same keys. *)
Lemma equivalent_same (g a b : Key) :
  equivalent less a b = true -> equivalent less g a = equivalent less g b.
Proof.
  intros Hab.
  destruct (equivalent less g a) eqn:Ea, (equivalent less g b) eqn:Eb; auto.
  - rewrite (equivalent_trans g a b Ea Hab) in Eb. discriminate.
  - rewrite equivalent_sym in Hab.
    rewrite (equivalent_trans g b a Eb Hab) in Ea. discriminate.
Qed.

Lemma less_not_equivalent (a b : Key) : less a b = true -> equivalent less a b = false.
Proof. intros H. unfold equivalent. now rewrite H. Qed.

Lemma not_equivalent_less (a b : Key) :
  equivalent less a b = false -> less a b = false -> less b a = true.
Proof.
  unfold equivalent. intros H Hab. rewrite Hab in H. simpl in H.
  now destruct (less b a).
Qed.

(** In a map no two keys are equivalent. *)
Lemma ascending_apart (k g : Key) (gs : list Key) :
  forallb (less g) gs = true -> equivalent less k g = true ->
  existsb (equivalent less k) gs = false.
Proof.
  intros Hg Hk. induction gs as [|h gs IH]; simpl in *; auto.
  apply andb_prop in Hg as [Hgh Hg]. rewrite (IH Hg), orb_false_r.
  rewrite equivalent_sym, (equivalent_same h k g Hk), equivalent_sym.
  now apply less_not_equivalent.
Qed.

(** [insert] when the map holds an equivalent key, and when it holds
    none. *)
Lemma insert_found (k : Key) (gs : list Key) (g : Key) :
  ascending less gs = true -> find (equivalent less k) gs = Some g ->
  insert less k gs = (gs, g, false).
Proof.
  induction gs as [|h gs IH]; simpl; [discriminate|].
  intros Hs Hf. apply andb_prop in Hs as [Hh Hs].
  destruct (equivalent less k h) eqn:E.
  - injection Hf as <-. unfold equivalent in E.
    apply andb_prop in E as [E1 E2].
    apply negb_true_iff in E1, E2. now rewrite E1, E2.
  - destruct (less k h) eqn:Ekh.
    + exfalso. apply find_some in Hf as [Hin Hkg].
      rewrite forallb_forall in Hh. specialize (Hh g Hin).
      pose proof (transitive order k h g Ekh Hh) as Hlt.
      apply less_not_equivalent in Hlt. congruence.
    + rewrite (not_equivalent_less k h E Ekh). now rewrite (IH Hs Hf).
Qed.

Lemma insert_new (k : Key) (gs : list Key) :
  ascending less gs = true -> existsb (equivalent less k) gs = false ->
  exists gs', insert less k gs = (gs', k, true) /\
              ascending less gs' = true /\ Permutation gs' (k :: gs).
Proof.
  induction gs as [|h gs IH]; simpl.
  - intros _ _. exists [k]. auto.
  - intros Hs He. apply andb_prop in Hs as [Hh Hs].
    apply orb_false_elim in He as [E He].
    destruct (less k h) eqn:Ekh.
    + exists (k :: h :: gs). repeat split; auto. simpl.
      rewrite Ekh, Hh, Hs. simpl. rewrite andb_true_r.
      apply forallb_forall. intros g Hin.
      rewrite forallb_forall in Hh. apply (transitive order k h g Ekh (Hh g Hin)).
    + pose proof (not_equivalent_less k h E Ekh) as Hhk. rewrite Hhk.
      destruct (IH Hs He) as (gs' & Hi & Hs' & Hp). rewrite Hi.
      exists (h :: gs'). repeat split.
      * simpl. rewrite Hs', andb_true_r. apply forallb_forall. intros g Hin.
        apply (Permutation_in _ Hp) in Hin. destruct Hin as [<-|Hin]; auto.
        rewrite forallb_forall in Hh. now apply Hh.
      * rewrite perm_swap. now apply perm_skip.
Qed.

(** Looking a key up among keys no two of which are equivalent does not
    depend on their order. *)
Lemma find_among (k g : Key) (l : list Key) :
  In g l -> equivalent less k g = true ->
  (forall h, In h l -> equivalent less k h = true -> h = g) ->
  find (equivalent less k) l = Some g.
Proof.
  induction l as [|a l IH]; simpl; [tauto|].
  intros Hin Hg Hu. destruct (equivalent less k a) eqn:E.
  - f_equal. apply Hu; auto.
  - destruct Hin as [->|Hin]; [congruence|]. apply IH; auto.
Qed.

Lemma ascending_unique (k g h : Key) (gs : list Key) :
  ascending less gs = true -> In g gs -> In h gs ->
  equivalent less k g = true -> equivalent less k h = true -> h = g.
Proof.
  induction gs as [|a gs IH]; simpl; [tauto|].
  intros Hs Hg Hh Eg Eh. apply andb_prop in Hs as [Ha Hs].
  assert (Hno : forall x y, In y gs -> equivalent less k x = true ->
                            equivalent less k y = true -> x <> a).
  { intros x y Hy Ex Ey ->.
    pose proof (ascending_apart k a gs Ha Ex) as Hn.
    assert (existsb (equivalent less k) gs = true)
      by (apply existsb_exists; now exists y).
    congruence. }
  destruct Hg as [<-|Hg], Hh as [<-|Hh]; auto.
  - exfalso. now apply (Hno a h Hh Eg Eh).
  - exfalso. now apply (Hno a g Hg Eh Eg).
Qed.

Lemma find_permuted (k : Key) (gs seen : list Key) :
  ascending less gs = true -> Permutation gs seen ->
  find (equivalent less k) gs = find (equivalent less k) seen.
Proof.
  intros Hs Hp. destruct (find (equivalent less k) seen) as [g|] eqn:E.
  - apply find_some in E as [Hin Hg]. apply find_among; auto.
    + apply (Permutation_in _ (Permutation_sym Hp)), Hin.
    + intros h Hh Eh. apply (ascending_unique k g h gs Hs); auto.
      apply (Permutation_in _ (Permutation_sym Hp)), Hin.
  - destruct (find (equivalent less k) gs) as [g|] eqn:E'; auto.
    apply find_some in E' as [Hin Hg].
    apply (Permutation_in _ Hp) in Hin.
    pose proof (find_none _ _ E g Hin) as Hn. simpl in Hn. congruence.
Qed.

Lemma find_existsb (k : Key) (l : list Key) :
  existsb (equivalent less k) l =
  match find (equivalent less k) l with Some _ => true | None => false end.
Proof.
  induction l as [|a l IH]; simpl; auto.
  destruct (equivalent less k a); auto.
Qed.

Lemma existsb_permuted (k : Key) (gs seen : list Key) :
  Permutation gs seen ->
  existsb (equivalent less k) gs = existsb (equivalent less k) seen.
Proof.
  intros Hp. induction Hp; simpl; auto.
  - now rewrite IHHp.
  - now rewrite !orb_assoc, (orb_comm (equivalent less k y)).
  - congruence.
Qed.

End Order.

Section Facts.

Variables T Key V : Type.
Variable keySelector : T -> Result Key.
Variable valueSelector : T -> Result V.
Variable less : Key -> Key -> bool.

Lemma call_exit (ev : Event Key) (w : CreatedAutoDetachObserver.t Key) :
  CreatedAutoDetachObserver.exit (CreatedAutoDetachObserver.call ev w) =
  match CreatedAutoDetachObserver.observer w with
  | Some f => if f ev then CreatedAutoDetachObserver.Throws
              else CreatedAutoDetachObserver.Returns
  | None => CreatedAutoDetachObserver.Returns
  end.
Proof.
  destruct w as [[f|] d]; destruct ev; simpl; auto;
    unfold CreatedAutoDetachObserver.OnNext, CreatedAutoDetachObserver.OnCompleted,
      CreatedAutoDetachObserver.OnError, CreatedAutoDetachObserver.guarded_call; simpl;
    match goal with |- context [f ?e] => destruct (f e) end; simpl; auto;
    match goal with
    | |- context [SerialDisposable.Dispose ?x] => destruct (SerialDisposable.Dispose x)
    end; auto.
Qed.

(** Subscriptions that are alike make the same calls. *)
Lemma group_by_alike_send (ev : Event Key) (s1 s2 : Subscription Key V) :
  alike s1 s2 ->
  alike (fst (send ev s1)) (fst (send ev s2)) /\ snd (send ev s1) = snd (send ev s2).
Proof.
  destruct s1 as [g1 i1 b1 t1 a1], s2 as [g2 i2 b2 t2 a2]. unfold alike. simpl.
  intros (-> & -> & Hv & -> & ->).
  assert (Ho : CreatedAutoDetachObserver.observer (CreatedObservable.observer b1) =
               CreatedAutoDetachObserver.observer (CreatedObservable.observer b2))
    by (unfold view in Hv; congruence).
  rewrite !AutoDetachFacts.call_delivered, !call_exit, Ho.
  repeat split. now apply view_send_eq.
Qed.

Lemma group_by_alike_push (g : Key) (ev : Event V) (s1 s2 : Subscription Key V) :
  alike s1 s2 -> alike (push g ev s1) (push g ev s2).
Proof.
  destruct s1 as [g1 i1 b1 t1 a1], s2 as [g2 i2 b2 t2 a2]. unfold alike. simpl.
  intros (-> & -> & Hv & -> & ->). auto.
Qed.

Lemma group_by_alike_push_all (ev : Event V) (s1 s2 : Subscription Key V) :
  alike s1 s2 -> alike (push_all ev s1) (push_all ev s2).
Proof.
  unfold push_all. intros H.
  assert (Hg : groups s1 = groups s2) by apply H. rewrite Hg. clear Hg.
  generalize (groups s2) as gs. intros gs. revert s1 s2 H.
  induction gs as [|g gs IH]; intros s1 s2 H; simpl; auto.
  apply IH. now apply group_by_alike_push.
Qed.

Lemma group_by_alike_on_next (x : T) (s1 s2 : Subscription Key V) :
  alike s1 s2 ->
  alike (on_next keySelector valueSelector less x s1)
        (on_next keySelector valueSelector less x s2).
Proof.
  intros H. unfold on_next.
  assert (Hg : groups s1 = groups s2) by apply H. rewrite Hg.
  destruct (keySelector x) as [k|e|].
  - destruct (insert less k (groups s2)) as [[gs it] [|]].
    + assert (H1 : alike (mk gs (inner s1) (base s1) (trace s1) (aborted s1))
                         (mk gs (inner s2) (base s2) (trace s2) (aborted s2))).
      { destruct H as (_ & ? & ? & ? & ?). repeat split; auto. }
      destruct (group_by_alike_send (Next k) _ _ H1) as [H2 He].
      destruct (send (Next k) (mk gs (inner s1) (base s1) (trace s1) (aborted s1)))
        as [u1 e1].
      destruct (send (Next k) (mk gs (inner s2) (base s2) (trace s2) (aborted s2)))
        as [u2 e2].
      simpl in H2, He. subst e2. destruct e1; auto.
      destruct (valueSelector x) as [v|e|].
      * now apply group_by_alike_push.
      * now apply group_by_alike_send.
      * destruct H2 as (? & ? & ? & ? & ?). repeat split; auto.
    + assert (H1 : alike (mk gs (inner s1) (base s1) (trace s1) (aborted s1))
                         (mk gs (inner s2) (base s2) (trace s2) (aborted s2))).
      { destruct H as (_ & ? & ? & ? & ?). repeat split; auto. }
      destruct (valueSelector x) as [v|e|].
      * now apply group_by_alike_push.
      * now apply group_by_alike_send.
      * destruct H1 as (? & ? & ? & ? & ?). repeat split; auto.
  - now apply group_by_alike_send.
  - destruct H as (? & ? & ? & ? & ?). repeat split; auto.
Qed.

Lemma group_by_alike_deliver (s1 s2 : Subscription Key V) (ev : Event T) :
  alike s1 s2 ->
  alike (deliver keySelector valueSelector less s1 ev)
        (deliver keySelector valueSelector less s2 ev).
Proof.
  intros H. pose proof H as H0.
  destruct s1 as [g1 i1 b1 t1 a1], s2 as [g2 i2 b2 t2 a2].
  destruct H0 as (Hg & Hi & Hv & Ht & Ha). simpl in Hg, Hi, Hv, Ht, Ha.
  unfold deliver. cbn [aborted inner groups base trace]. subst i2 a2.
  destruct a1; auto.
  destruct (CreatedObserver.call ev i1) as [o invoked].
  assert (H1 : alike (mk g1 o b1 t1 false) (mk g2 o b2 t2 false))
    by (repeat split; auto).
  destruct invoked as [[x| |e]|]; auto.
  - now apply group_by_alike_on_next.
  - unfold on_completed. apply group_by_alike_send.
    now apply group_by_alike_push_all.
  - unfold on_error. apply group_by_alike_send.
    now apply group_by_alike_push_all.
Qed.

Lemma group_by_alike_run (evs : list (Event T)) (s1 s2 : Subscription Key V) :
  alike s1 s2 ->
  alike (run keySelector valueSelector less evs s1)
        (run keySelector valueSelector less evs s2).
Proof.
  revert s1 s2. unfold run.
  induction evs as [|ev evs IH]; intros s1 s2 H; simpl; auto.
  apply IH. now apply group_by_alike_deliver.
Qed.

Lemma alike_GroupBy (k : nat) (evs : list (Event T)) :
  alike (GroupBy keySelector valueSelector less
           (@CreatedAutoDetachObserver.quiet Key) k evs)
        (run keySelector valueSelector less evs (start Key V)).
Proof.
  assert (Hrun : run keySelector valueSelector less evs (start Key V) =
                 run keySelector valueSelector less (skipn k evs)
                   (run keySelector valueSelector less (firstn k evs) (start Key V))).
  { unfold run. now rewrite <- fold_left_app, firstn_skipn. }
  rewrite Hrun. unfold GroupBy. apply group_by_alike_run.
  unfold Subscribe.
  change (mk [] (CreatedObserver.CreateObserver true true true)
             (CreatedObservable.enter (Some (@CreatedAutoDetachObserver.quiet Key)))
             [] false)
    with (start Key V).
  destruct (run keySelector valueSelector less (firstn k evs) (start Key V))
    as [g i b t a].
  unfold alike. simpl. now rewrite view_leave.
Qed.

(** Calls on a subscription whose subscriber returns from every call. *)
Lemma send_heard_next (k : Key) gs i (live : bool) r tr a :
  send (V := V) (Next k) (mk gs i (heard live r) tr a) =
  (mk gs i (heard live (if live then r ++ [Next k] else r))
      (if live then tr ++ [ToObserver (Next k)] else tr) a,
   CreatedAutoDetachObserver.Returns).
Proof.
  destruct live; unfold send; simpl.
  - reflexivity.
  - now rewrite send_silenced, app_nil_r.
Qed.

Lemma send_heard_terminal (ev : Event Key) gs i (live : bool) r tr a :
  is_terminal ev = true ->
  send (V := V) ev (mk gs i (heard live r) tr a) =
  (mk gs i (heard false (if live then r ++ [ev] else r))
      (if live then tr ++ [ToObserver ev] else tr) a,
   CreatedAutoDetachObserver.Returns).
Proof.
  destruct ev as [x| |e]; [discriminate| |]; intros _;
    destruct live; unfold send; simpl;
    solve [reflexivity | now rewrite send_silenced, app_nil_r].
Qed.

Lemma push_all_trace (ev : Event V) (gs : list Key) i b tr a :
  push_all ev (mk gs i b tr a) =
  mk gs i b (tr ++ map (fun g => ToGroup g ev) gs) a.
Proof.
  unfold push_all. cbn [groups].
  assert (H : forall l tr0,
             fold_left (fun s g => push g ev s) l (mk gs i b tr0 a) =
             mk gs i b (tr0 ++ map (fun g => ToGroup g ev) l) a).
  { induction l as [|g l IH]; intros tr0; simpl.
    - now rewrite app_nil_r.
    - unfold push at 2. simpl. rewrite IH. now rewrite <- app_assoc. }
  apply H.
Qed.

End Facts.

Section Routing.

Variables T Key V : Type.
Variable keySelector : T -> Result Key.
Variable valueSelector : T -> Result V.
Variable less : Key -> Key -> bool.
Hypothesis order : StrictWeakOrder less.

Variable key : T -> Key.
Variable value : T -> V.

(** The elements on which both selectors return. *)
Lemma routed_run (xs : list T) :
  (forall y, In y xs -> keySelector y = Value (key y) /\
                        valueSelector y = Value (value y)) ->
  forall gs seen r tr,
    ascending less gs = true -> Permutation gs seen ->
    exists gs',
      ascending less gs' = true /\
      Permutation gs' (firsts less seen (map key xs) ++ seen) /\
      run keySelector valueSelector less (map (@Next T) xs)
          (mk gs (CreatedObserver.mk true true true) (running r) tr false) =
      mk gs' (CreatedObserver.mk true true true)
         (running (r ++ map (@Next Key) (firsts less seen (map key xs))))
         (tr ++ routed less key value seen xs) false.
Proof.
  induction xs as [|x xs IH]; intros Hsel gs seen r tr Hs Hp.
  - exists gs. simpl. now rewrite !app_nil_r.
  - destruct (Hsel x (or_introl eq_refl)) as [Hk Hv].
    assert (Hsel' : forall y, In y xs -> keySelector y = Value (key y) /\
                                         valueSelector y = Value (value y))
      by (intros y Hy; apply Hsel; now right).
    cbn [map routed firsts]. unfold run. cbn [fold_left]. unfold deliver at 2.
    cbn [aborted inner CreatedObserver.call CreatedObserver.onNext groups base trace].
    unfold on_next. cbn [groups inner base trace aborted]. rewrite Hk.
    rewrite (find_existsb Key less (key x) seen).
    rewrite <- (find_permuted Key less order (key x) gs seen Hs Hp).
    destruct (find (equivalent less (key x)) gs) as [g|] eqn:Ef.
    + rewrite (insert_found Key less order (key x) gs g Hs Ef). rewrite Hv.
      unfold push. cbn [groups inner base trace aborted].
      destruct (IH Hsel' gs seen r (tr ++ [ToGroup g (Next (value x))]) Hs Hp)
        as (gs' & Hs' & Hp' & Hrun).
      exists gs'. split; [exact Hs'|]. split; [exact Hp'|].
      unfold run in Hrun. rewrite Hrun. now rewrite <- app_assoc.
    + assert (He : existsb (equivalent less (key x)) gs = false)
        by (rewrite (find_existsb Key less (key x) gs); now rewrite Ef).
      destruct (insert_new Key less order (key x) gs Hs He) as (gs1 & Hi & Hs1 & Hp1).
      rewrite Hi.
      change (running r) with (heard true r).
      rewrite send_heard_next. cbn [heard]. rewrite Hv.
      unfold push. cbn [groups inner base trace aborted].
      destruct (IH Hsel' gs1 (key x :: seen) (r ++ [Next (key x)])
                   ((tr ++ [ToObserver (Next (key x))]) ++
                    [ToGroup (key x) (Next (value x))]) Hs1)
        as (gs' & Hs' & Hp' & Hrun).
      { rewrite Hp1. now apply perm_skip. }
      exists gs'. split; [exact Hs'|]. split.
      * rewrite Hp'. simpl. apply Permutation_sym, Permutation_middle.
      * unfold run in Hrun. rewrite Hrun. rewrite <- !app_assoc. reflexivity.
Qed.

Lemma routed_sequence (xs : list T) (t : option Terminal) :
  (forall y, In y xs -> keySelector y = Value (key y) /\
                        valueSelector y = Value (value y)) ->
  let s := run keySelector valueSelector less (sequence xs t) (start Key V) in
  exists gs,
    Permutation gs (firsts less [] (map key xs)) /\
    ascending less gs = true /\
    groups s = gs /\
    trace s = routed less key value [] xs ++ closing gs t /\
    CreatedObservable.received (base s) = sequence (firsts less [] (map key xs)) t /\
    aborted s = false.
Proof.
  intros Hsel s.
  destruct (routed_run xs Hsel [] [] [] [] eq_refl (perm_nil Key))
    as (gs & Hs & Hp & Hrun).
  rewrite app_nil_r in Hp. exists gs. split; [exact Hp|]. split; [exact Hs|].
  assert (Hstate :
    s = fold_left (deliver keySelector valueSelector less)
          (match t with Some t => [@terminal_event T t] | None => [] end)
          (mk gs (CreatedObserver.mk true true true)
              (heard true (map (@Next Key) (firsts less [] (map key xs))))
              (routed less key value [] xs) false)).
  { subst s. unfold sequence, run. rewrite fold_left_app.
    unfold start. change (CreatedObservable.enter _) with (running (@nil (Event Key))).
    unfold run in Hrun. now rewrite Hrun. }
  clearbody s. subst s.
  destruct t as [[|e]|]; cbn [fold_left terminal_event].
  - unfold deliver.
    cbn [aborted inner CreatedObserver.call CreatedObserver.onCompleted
         groups base trace CreatedObserver.clear].
    unfold on_completed. rewrite push_all_trace.
    rewrite send_heard_terminal by reflexivity.
    cbn [fst groups trace base aborted heard closing terminal_event].
    unfold sequence. cbn [terminal_event].
    repeat split. now rewrite <- app_assoc.
  - unfold deliver.
    cbn [aborted inner CreatedObserver.call CreatedObserver.onError
         groups base trace CreatedObserver.clear].
    unfold on_error. rewrite push_all_trace.
    rewrite send_heard_terminal by reflexivity.
    cbn [fst groups trace base aborted heard closing terminal_event].
    unfold sequence. cbn [terminal_event].
    repeat split. now rewrite <- app_assoc.
  - cbn [groups trace base aborted closing heard]. unfold sequence. simpl.
    now rewrite !app_nil_r.
Qed.

End Routing.

Section Disposal.

Variables T Key V : Type.
Variable keySelector : T -> Result Key.
Variable valueSelector : T -> Result V.
Variable less : Key -> Key -> bool.

Lemma base_push_all (ev : Event V) (s : Subscription Key V) :
  base (push_all ev s) = base s.
Proof. destruct s as [gs i b tr a]. now rewrite push_all_trace. Qed.

(** Nothing is ever disposed. *)
Lemma group_by_idle_deliver cur (s : Subscription Key V) (ev : Event T) :
  idle cur (base s) -> idle cur (base (deliver keySelector valueSelector less s ev)).
Proof.
  destruct s as [gs i b tr a]. unfold deliver. cbn [aborted inner groups base trace].
  intros H. destruct a; auto.
  destruct (CreatedObserver.call ev i) as [o [[x| |e]|]]; cbn [base]; auto.
  - unfold on_next. cbn [groups inner base trace aborted].
    destruct (keySelector x) as [k|e|]; cbn [base fst send abort]; auto.
    + destruct (insert less k gs) as [[gs' it] [|]].
      * unfold send at 1. cbn [groups inner base trace aborted].
        rewrite call_exit.
        destruct (CreatedAutoDetachObserver.observer (CreatedObservable.observer b))
          as [f|]; [destruct (f (Next k))|];
          try (destruct (valueSelector x) as [v|e|]);
          cbn [base push abort fst send]; auto using idle_send.
      * destruct (valueSelector x) as [v|e|];
          cbn [base push abort fst send]; auto using idle_send.
    + now apply idle_send.
  - unfold on_completed, send. cbn [fst base]. rewrite base_push_all.
    now apply idle_send.
  - unfold on_error, send. cbn [fst base]. rewrite base_push_all.
    now apply idle_send.
Qed.

Lemma group_by_idle_run cur (evs : list (Event T)) (s : Subscription Key V) :
  idle cur (base s) -> idle cur (base (run keySelector valueSelector less evs s)).
Proof.
  revert s. unfold run. induction evs as [|ev evs IH]; intros s H; simpl; auto.
  apply IH. now apply group_by_idle_deliver.
Qed.

Lemma idle_GroupBy (k : nat) (evs : list (Event T)) :
  idle (Some (SourceSubscription 0))
       (base (GroupBy keySelector valueSelector less
                (@CreatedAutoDetachObserver.quiet Key) k evs)).
Proof.
  unfold GroupBy. apply group_by_idle_run. unfold Subscribe. simpl.
  apply idle_leave. apply group_by_idle_run. apply idle_enter.
Qed.

End Disposal.

Section Groups.

Variables T Key V : Type.
Variable keySelector : T -> Result Key.
Variable valueSelector : T -> Result V.
Variable less : Key -> Key -> bool.
Hypothesis order : StrictWeakOrder less.

Lemma to_group_app (g : Key) (a b : list (Call Key V)) :
  to_group less g (a ++ b) = to_group less g a ++ to_group less g b.
Proof. apply flat_map_app. Qed.

Lemma to_group_observer (g : Key) (live : bool) (ev : Event Key)
      (tr : list (Call Key V)) :
  to_group less g (if live then tr ++ [ToObserver ev] else tr) = to_group less g tr.
Proof.
  destruct live; auto. rewrite to_group_app. simpl. now rewrite app_nil_r.
Qed.

(** A call made on every group reaches the group of a key once, if there
    is one. *)
Lemma to_group_pushed (g : Key) (ev : Event V) (gs : list Key) :
  ascending less gs = true ->
  to_group less g (map (fun k => ToGroup k ev) gs) =
  if existsb (equivalent less g) gs then [ev] else [].
Proof.
  induction gs as [|h gs IH]; simpl; auto.
  intros Hs. apply andb_prop in Hs as [Hh Hs]. rewrite (IH Hs).
  destruct (equivalent less g h) eqn:E; simpl; auto.
  now rewrite (ascending_apart Key less order g h gs Hh E).
Qed.

Lemma values_cons (g : Key) (x : T) (xs : list T) :
  values less keySelector valueSelector g (x :: xs) =
  values less keySelector valueSelector g [x] ++
  values less keySelector valueSelector g xs.
Proof. unfold values. simpl. now rewrite app_nil_r. Qed.

Lemma keys_cons (x : T) (xs : list T) :
  keys keySelector (x :: xs) = keys keySelector [x] ++ keys keySelector xs.
Proof. unfold keys. simpl. now rewrite app_nil_r. Qed.

Lemma values_none (g : Key) (xs : list T) :
  existsb (equivalent less g) (keys keySelector xs) = false ->
  values less keySelector valueSelector g xs = [].
Proof.
  induction xs as [|x xs IH]; auto.
  rewrite keys_cons, values_cons, existsb_app. intros H.
  apply orb_false_elim in H as [Hx H]. rewrite (IH H), app_nil_r.
  unfold keys in Hx. unfold values. simpl in *.
  destruct (keySelector x) as [k|e|]; auto. simpl in Hx.
  apply orb_false_elim in Hx as [Hx _]. rewrite Hx.
  now destruct (valueSelector x).
Qed.

(** One element, whatever the selectors do short of ending the process:
    the value selected reaches the group of the key selected, and no other
    call is made on a group. *)
Lemma groups_on_next (x : T) gs (live : bool) r tr :
  ascending less gs = true ->
  keySelector x <> Aborted -> valueSelector x <> Aborted ->
  exists gs' live' r' tr',
    on_next keySelector valueSelector less x
      (mk gs (CreatedObserver.mk true true true) (heard live r) tr false) =
    mk gs' (CreatedObserver.mk true true true) (heard live' r') tr' false /\
    ascending less gs' = true /\
    (forall g, to_group less g tr' =
               to_group less g tr ++
               map (@Next V) (values less keySelector valueSelector g [x])) /\
    (forall g, existsb (equivalent less g) gs' =
               existsb (equivalent less g) gs ||
               existsb (equivalent less g) (keys keySelector [x])).
Proof.
  intros Hs Hka Hva. unfold on_next, values, keys.
  cbn [groups inner base trace aborted flat_map].
  destruct (keySelector x) as [k|e|]; [| |congruence].
  - destruct (find (equivalent less k) gs) as [g0|] eqn:Ef.
    + rewrite (insert_found Key less order k gs g0 Hs Ef).
      pose proof (find_some _ _ Ef) as [Hin Hk0].
      assert (Hex : forall g, equivalent less g k = true ->
                              existsb (equivalent less g) gs = true).
      { intros g Hg. apply existsb_exists. exists g0. split; auto.
        now rewrite <- (equivalent_same Key less order g k g0 Hk0). }
      assert (Hgs : forall g, existsb (equivalent less g) gs =
                              existsb (equivalent less g) gs ||
                              existsb (equivalent less g) ([k] ++ [])).
      { intros g. simpl. destruct (equivalent less g k) eqn:Eg; simpl.
        - rewrite (Hex g Eg). reflexivity.
        - now rewrite orb_false_r. }
      destruct (valueSelector x) as [v|e|]; [| |congruence].
      * exists gs, live, r, (tr ++ [ToGroup g0 (Next v)]).
        unfold push. cbn [groups inner base trace aborted].
        repeat split; auto. intros g. rewrite to_group_app. f_equal. simpl.
        rewrite <- (equivalent_same Key less order g k g0 Hk0).
        now destruct (equivalent less g k).
      * rewrite send_heard_terminal by reflexivity. cbn [fst].
        eexists gs, false, _, _. repeat split; auto.
        intros g. rewrite to_group_observer. simpl. now rewrite app_nil_r.
    + assert (He : existsb (equivalent less k) gs = false)
        by (rewrite (find_existsb Key less k gs); now rewrite Ef).
      destruct (insert_new Key less order k gs Hs He) as (gs1 & Hi & Hs1 & Hp1).
      rewrite Hi, send_heard_next.
      assert (Hgs : forall g, existsb (equivalent less g) gs1 =
                              existsb (equivalent less g) gs ||
                              existsb (equivalent less g) ([k] ++ [])).
      { intros g. rewrite (existsb_permuted Key less g gs1 (k :: gs) Hp1). simpl.
        now destruct (equivalent less g k), (existsb (equivalent less g) gs). }
      destruct (valueSelector x) as [v|e|]; [| |congruence].
      * eexists gs1, live, _, _. unfold push. cbn [groups inner base trace aborted].
        repeat split; auto. intros g. rewrite to_group_app, to_group_observer.
        f_equal. simpl. now destruct (equivalent less g k).
      * rewrite send_heard_terminal by reflexivity. cbn [fst].
        eexists gs1, false, _, _. repeat split; auto.
        intros g. rewrite !to_group_observer. simpl. now rewrite app_nil_r.
  - rewrite send_heard_terminal by reflexivity. cbn [fst].
    eexists gs, false, _, _. repeat split; auto.
    + intros g. rewrite to_group_observer. simpl. now rewrite app_nil_r.
    + intros g. simpl. now rewrite orb_false_r.
Qed.

Lemma groups_run (xs : list T) :
  (forall y, In y xs -> keySelector y <> Aborted /\ valueSelector y <> Aborted) ->
  forall gs (live : bool) r tr,
    ascending less gs = true ->
    exists gs' live' r' tr',
      run keySelector valueSelector less (map (@Next T) xs)
        (mk gs (CreatedObserver.mk true true true) (heard live r) tr false) =
      mk gs' (CreatedObserver.mk true true true) (heard live' r') tr' false /\
      ascending less gs' = true /\
      (forall g, to_group less g tr' =
                 to_group less g tr ++
                 map (@Next V) (values less keySelector valueSelector g xs)) /\
      (forall g, existsb (equivalent less g) gs' =
                 existsb (equivalent less g) gs ||
                 existsb (equivalent less g) (keys keySelector xs)).
Proof.
  induction xs as [|x xs IH]; intros Hsel gs live r tr Hs.
  - exists gs, live, r, tr. simpl. repeat split; auto.
    + intros g. now rewrite app_nil_r.
    + intros g. now rewrite orb_false_r.
  - destruct (Hsel x (or_introl eq_refl)) as [Hka Hva].
    assert (Hsel' : forall y, In y xs ->
                              keySelector y <> Aborted /\ valueSelector y <> Aborted)
      by (intros y Hy; apply Hsel; now right).
    destruct (groups_on_next x gs live r tr Hs Hka Hva)
      as (gs1 & live1 & r1 & tr1 & Hstep & Hs1 & Hv1 & He1).
    destruct (IH Hsel' gs1 live1 r1 tr1 Hs1)
      as (gs' & live' & r' & tr' & Hrun & Hs' & Hv' & He').
    exists gs', live', r', tr'.
    cbn [map]. unfold run. cbn [fold_left]. unfold deliver at 2.
    cbn [aborted inner CreatedObserver.call CreatedObserver.onNext groups base trace].
    rewrite Hstep. unfold run in Hrun. rewrite Hrun.
    repeat split; auto.
    + intros g. rewrite Hv', Hv1, (values_cons g x xs), map_app.
      now rewrite app_assoc.
    + intros g. rewrite He', He1, (keys_cons x xs), existsb_app.
      now rewrite orb_assoc.
Qed.

(** The calls made on the group of a key over a whole sequence. *)
Lemma groups_sequence (xs : list T) (t : option Terminal) (g : Key) :
  (forall y, In y xs -> keySelector y <> Aborted /\ valueSelector y <> Aborted) ->
  to_group less g
    (trace (run keySelector valueSelector less (sequence xs t) (start Key V))) =
  if existsb (equivalent less g) (keys keySelector xs)
  then sequence (values less keySelector valueSelector g xs) t
  else [].
Proof.
  intros Hsel.
  destruct (groups_run xs Hsel [] true [] [] eq_refl)
    as (gs & live & r & tr & Hrun & Hs & Hv & He).
  specialize (Hv g). specialize (He g). simpl in Hv, He.
  unfold sequence at 1, run. rewrite fold_left_app.
  unfold start. change (CreatedObservable.enter _) with (heard true (@nil (Event Key))).
  unfold run in Hrun. rewrite Hrun.
  assert (Hnone : existsb (equivalent less g) (keys keySelector xs) = false ->
                  to_group less g tr = []).
  { intros H. rewrite Hv. now rewrite (values_none g xs H). }
  destruct t as [[|e]|]; cbn [fold_left terminal_event].
  - unfold deliver.
    cbn [aborted inner CreatedObserver.call CreatedObserver.onCompleted
         groups base trace CreatedObserver.clear].
    unfold on_completed. rewrite push_all_trace.
    rewrite send_heard_terminal by reflexivity. cbn [fst trace].
    rewrite to_group_observer, to_group_app, (to_group_pushed g _ gs Hs), He.
    destruct (existsb (equivalent less g) (keys keySelector xs)) eqn:Ex.
    + now rewrite Hv.
    + now rewrite (Hnone eq_refl).
  - unfold deliver.
    cbn [aborted inner CreatedObserver.call CreatedObserver.onError
         groups base trace CreatedObserver.clear].
    unfold on_error. rewrite push_all_trace.
    rewrite send_heard_terminal by reflexivity. cbn [fst trace].
    rewrite to_group_observer, to_group_app, (to_group_pushed g _ gs Hs), He.
    destruct (existsb (equivalent less g) (keys keySelector xs)) eqn:Ex.
    + now rewrite Hv.
    + now rewrite (Hnone eq_refl).
  - cbn [trace]. unfold sequence. rewrite app_nil_r.
    destruct (existsb (equivalent less g) (keys keySelector xs)) eqn:Ex.
    + now rewrite Hv.
    + now apply Hnone.
Qed.

End Groups.

Section Throwing.

Variables T Key V : Type.
Variable keySelector : T -> Result Key.
Variable valueSelector : T -> Result V.
Variable less : Key -> Key -> bool.
Hypothesis order : StrictWeakOrder less.

(** Once the subscriber is detached, nothing more is handed to it. *)
Lemma group_by_detached_send (ev : Event Key) (s : Subscription Key V) r :
  base s = silenced r -> base (fst (send ev s)) = silenced r.
Proof.
  destruct s as [gs i b tr a]. cbn [base]. intros ->.
  unfold send. cbn [fst base]. apply send_silenced.
Qed.

Lemma group_by_detached_deliver (s : Subscription Key V) (ev : Event T) r :
  base s = silenced r ->
  base (deliver keySelector valueSelector less s ev) = silenced r.
Proof.
  destruct s as [gs i b tr a]. cbn [base]. intros ->. unfold deliver.
  cbn [aborted inner groups base trace]. destruct a; auto.
  destruct (CreatedObserver.call ev i) as [o [[x| |e]|]]; auto.
  - unfold on_next. cbn [groups inner base trace aborted].
    destruct (keySelector x) as [k|e|]; auto.
    + destruct (insert less k gs) as [[gs' it] [|]].
      * change (silenced r) with (heard false r). rewrite send_heard_next.
        destruct (valueSelector x) as [v|e|]; auto.
        now apply group_by_detached_send.
      * destruct (valueSelector x) as [v|e|]; auto.
        now apply group_by_detached_send.
    + now apply group_by_detached_send.
  - unfold on_completed. apply group_by_detached_send. now rewrite base_push_all.
  - unfold on_error. apply group_by_detached_send. now rewrite base_push_all.
Qed.

Lemma group_by_detached_run (evs : list (Event T)) (s : Subscription Key V) r :
  base s = silenced r ->
  base (run keySelector valueSelector less evs s) = silenced r.
Proof.
  revert s. unfold run. induction evs as [|ev evs IH]; intros s H; simpl; auto.
  apply IH. now apply group_by_detached_deliver.
Qed.

(** The keys that open a group do not depend on the order of the keys
    seen. *)
Lemma firsts_permuted (ks seen1 seen2 : list Key) :
  Permutation seen1 seen2 -> firsts less seen1 ks = firsts less seen2 ks.
Proof.
  revert seen1 seen2. induction ks as [|k ks IH]; intros seen1 seen2 Hp; simpl; auto.
  rewrite (existsb_permuted Key less k seen1 seen2 Hp).
  destruct (existsb (equivalent less k) seen2).
  - now apply IH.
  - f_equal. apply IH. now apply perm_skip.
Qed.

Lemma firsts_app (ks1 ks2 seen : list Key) :
  firsts less seen (ks1 ++ ks2) =
  firsts less seen ks1 ++ firsts less (firsts less seen ks1 ++ seen) ks2.
Proof.
  revert seen. induction ks1 as [|k ks1 IH]; intros seen; simpl; auto.
  destruct (existsb (equivalent less k) seen); auto.
  simpl. f_equal. rewrite IH. f_equal. apply firsts_permuted.
  apply Permutation_sym, Permutation_middle.
Qed.

(** The elements before the first one on which a selector throws. *)
Lemma announced_run (xs : list T) :
  (forall y, In y xs -> exists k v, keySelector y = Value k /\
                                    valueSelector y = Value v) ->
  exists gs tr,
    ascending less gs = true /\
    Permutation gs (firsts less [] (keys keySelector xs)) /\
    run keySelector valueSelector less (map (@Next T) xs) (start Key V) =
    mk gs (CreatedObserver.mk true true true)
       (running (map (@Next Key) (firsts less [] (keys keySelector xs)))) tr false.
Proof.
  intros Hsel. destruct xs as [|x0 xs0].
  - exists [], []. repeat split. apply perm_nil.
  - destruct (Hsel x0 (or_introl eq_refl)) as (k0 & v0 & _).
    set (xs := x0 :: xs0) in *.
    set (key := fun y => match keySelector y with Value k => k | _ => k0 end).
    set (value := fun y => match valueSelector y with Value v => v | _ => v0 end).
    assert (Hfun : forall y, In y xs -> keySelector y = Value (key y) /\
                                        valueSelector y = Value (value y)).
    { intros y Hy. destruct (Hsel y Hy) as (ky & vy & Hk & Hv).
      unfold key, value. now rewrite Hk, Hv. }
    assert (Hkeys : keys keySelector xs = map key xs).
    { clearbody xs. clear Hsel. induction xs as [|y ys IH]; auto.
      rewrite keys_cons. cbn [map]. rewrite <- IH by (intros z Hz; apply Hfun; now right).
      unfold keys at 1. simpl.
      destruct (Hfun y (or_introl eq_refl)) as [Hk _]. now rewrite Hk. }
    destruct (routed_run T Key V keySelector valueSelector less order key value xs Hfun
                [] [] [] [] eq_refl (perm_nil Key))
      as (gs & Hs & Hp & Hrun).
    rewrite app_nil_r in Hp. simpl in Hrun.
    exists gs, (routed less key value [] xs). rewrite Hkeys.
    split; [exact Hs|]. split; [exact Hp|]. exact Hrun.
Qed.

(** The element on which a selector throws, and what follows it. *)
Lemma throwing_run (xs : list T) (x : T) (evs : list (Event T)) (e : exception) :
  (forall y, In y xs -> exists k v, keySelector y = Value k /\
                                    valueSelector y = Value v) ->
  keySelector x = Raised e \/
  (exists kx, keySelector x = Value kx /\ valueSelector x = Raised e) ->
  CreatedObservable.received
    (base (run keySelector valueSelector less (map (@Next T) xs ++ Next x :: evs)
             (start Key V))) =
  map (@Next Key) (firsts less [] (keys keySelector (xs ++ [x]))) ++
  [Error (current_exception e)].
Proof.
  intros Hsel Hx.
  destruct (announced_run xs Hsel) as (gs & tr & Hs & Hp & Hrun).
  set (r := map (@Next Key) (firsts less [] (keys keySelector (xs ++ [x]))) ++
            [Error (current_exception e)]).
  assert (H : base (run keySelector valueSelector less (map (@Next T) xs ++ Next x :: evs)
                      (start Key V)) = silenced r).
  { unfold run. rewrite fold_left_app. unfold run in Hrun. rewrite Hrun.
    cbn [fold_left]. apply group_by_detached_run. unfold deliver.
    cbn [aborted inner CreatedObserver.call CreatedObserver.onNext groups base trace].
    unfold on_next. cbn [groups inner base trace aborted].
    assert (Hk : keys keySelector (xs ++ [x]) =
                 keys keySelector xs ++ keys keySelector [x])
      by (unfold keys; apply flat_map_app).
    assert (Hkx : keys keySelector [x] =
                  match keySelector x with Value kx => [kx] | _ => [] end)
      by (unfold keys; simpl; apply app_nil_r).
    subst r. rewrite Hk, firsts_app, app_nil_r, Hkx.
    rewrite (firsts_permuted _ _ gs (Permutation_sym Hp)).
    change (running ?a) with (heard true a).
    destruct Hx as [Hx|(kx & Hx & Hv)].
    - rewrite Hx. rewrite send_heard_terminal by reflexivity.
      cbn [fst base heard firsts]. now rewrite app_nil_r.
    - rewrite Hx. cbn [firsts].
      destruct (find (equivalent less kx) gs) as [g0|] eqn:Ef.
      + rewrite (insert_found Key less order kx gs g0 Hs Ef), Hv.
        rewrite send_heard_terminal by reflexivity.
        rewrite (find_existsb Key less kx gs), Ef.
        cbn [fst base heard]. now rewrite app_nil_r.
      + assert (He : existsb (equivalent less kx) gs = false)
          by (rewrite (find_existsb Key less kx gs); now rewrite Ef).
        destruct (insert_new Key less order kx gs Hs He) as (gs1 & Hi & _ & _).
        rewrite Hi, send_heard_next, Hv.
        rewrite send_heard_terminal by reflexivity.
        rewrite He. cbn [fst base heard map]. now rewrite map_app. }
  now rewrite H.
Qed.

End Throwing.

(** The order of the natural numbers is a strict weak ordering. *)
Lemma ltb_order : StrictWeakOrder Nat.ltb.
Proof.
  split.
  - intros a. apply Nat.ltb_irrefl.
  - intros a b c Hab Hbc. apply Nat.ltb_lt in Hab, Hbc. apply Nat.ltb_lt. lia.
  - intros a b c. unfold equivalent.
    rewrite !andb_true_iff, !negb_true_iff, !Nat.ltb_ge. lia.
Qed.

End GroupByFacts.

(** GroupBy(source, keySelector, valueSelector, less) with selectors that
    return and a comparison that is a strict weak ordering, on a sequence of
    the grammar.  An element whose key is equivalent to the key of no
    earlier element opens a group: the subscriber is handed the group, then
    the group is handed the value selected from the element.  The value of
    any other element is handed to the group that the first element with an
    equivalent key opened.  On the terminal call of the source every group
    is handed the call, in the order of [less] on their keys, and then the
    subscriber.  Nothing is disposed. *)
Theorem GroupBy_routes :
  forall (T Key V : Type) (key : T -> Key) (value : T -> V)
         (less : Key -> Key -> bool) (k : nat) (xs : list T) (t : option Terminal),
    GroupByView.StrictWeakOrder less ->
    let s := GroupBy.GroupBy (GroupByView.returning key) (GroupByView.returning value)
               less (@CreatedAutoDetachObserver.quiet Key) k (sequence xs t) in
    let opened := GroupByView.firsts less [] (map key xs) in
    exists gs,
      Permutation gs opened /\ GroupByView.ascending less gs = true /\
      GroupBy.trace s = GroupByView.routed less key value [] xs ++
                        GroupByView.closing gs t /\
      CreatedObservable.received (GroupBy.base s) = sequence opened t /\
      CreatedObservable.released (GroupBy.base s) = [] /\
      GroupBy.aborted s = false.
Proof.
  intros T Key V key value less k xs t order s opened.
  destruct (GroupByFacts.routed_sequence T Key V (GroupByView.returning key)
              (GroupByView.returning value) less order key value xs t)
    as (gs & Hp & Hs & _ & Htr & Hr & Ha).
  { intros y _. split; reflexivity. }
  pose proof (GroupByFacts.alike_GroupBy T Key V (GroupByView.returning key)
                (GroupByView.returning value) less k (sequence xs t)) as H.
  fold s in H. destruct H as (_ & _ & Hv & Ht & Hab).
  exists gs. split; [exact Hp|]. split; [exact Hs|].
  split; [now rewrite Ht|].
  split; [unfold CreatedObservableView.view in Hv; injection Hv as _ Hv;
          now rewrite Hv|].
  split; [|now rewrite Hab].
  apply (GroupByFacts.idle_GroupBy T Key V (GroupByView.returning key)
           (GroupByView.returning value) less k (sequence xs t)).
Qed.

Lemma GroupBy_routes_witness :
  exists gs,
    Permutation gs [2; 1] /\
    GroupBy.trace
      (GroupBy.GroupBy (GroupByView.returning (fun x => x mod 3))
         (GroupByView.returning (fun x => x)) Nat.ltb
         (@CreatedAutoDetachObserver.quiet nat) 1 (sequence [5; 4; 8] (Some Completes))) =
    [GroupBy.ToObserver (Next 2); GroupBy.ToGroup 2 (Next 5);
     GroupBy.ToObserver (Next 1); GroupBy.ToGroup 1 (Next 4);
     GroupBy.ToGroup 2 (Next 8)] ++
    GroupByView.closing gs (Some Completes).
Proof.
  destruct (GroupBy_routes nat nat nat (fun x => x mod 3) (fun x => x) Nat.ltb 1
              [5; 4; 8] (Some Completes)) as (gs & Hp & _ & Ht & _).
  - apply GroupByFacts.ltb_order.
  - exists gs. split; [exact Hp|exact Ht].
Defined.

(** GroupBy with selectors that return or throw, on a sequence of the
    grammar: a throw does not end the subscription for the groups.  The
    group of a key is handed the values selected from the elements whose
    key is equivalent to it and on which both selectors return, in order,
    and then the terminal call of the source, also when a selector has
    thrown on an element in between; no group is made for a key that no
    element has. *)
Theorem GroupBy_groups_outlive_throw :
  forall (T Key V : Type) (keySelector : T -> Result Key)
         (valueSelector : T -> Result V) (less : Key -> Key -> bool)
         (k : nat) (xs : list T) (t : option Terminal) (g : Key),
    GroupByView.StrictWeakOrder less ->
    (forall y, In y xs -> keySelector y <> Aborted /\ valueSelector y <> Aborted) ->
    let s := GroupBy.GroupBy keySelector valueSelector less
               (@CreatedAutoDetachObserver.quiet Key) k (sequence xs t) in
    GroupByView.to_group less g (GroupBy.trace s) =
    if existsb (GroupByView.equivalent less g) (GroupByView.keys keySelector xs)
    then sequence (GroupByView.values less keySelector valueSelector g xs) t
    else [].
Proof.
  intros T Key V keySelector valueSelector less k xs t g order Hsel s.
  pose proof (GroupByFacts.alike_GroupBy T Key V keySelector valueSelector less k
                (sequence xs t)) as H.
  fold s in H. destruct H as (_ & _ & _ & Ht & _). rewrite Ht.
  now apply GroupByFacts.groups_sequence.
Qed.

Lemma GroupBy_groups_outlive_throw_witness :
  let keySelector := fun x => if x =? 0 then Raised 7 else Value (x mod 2) in
  GroupByView.to_group Nat.ltb 1
    (GroupBy.trace
       (GroupBy.GroupBy keySelector (GroupByView.returning (fun x => x)) Nat.ltb
          (@CreatedAutoDetachObserver.quiet nat) 0 (sequence [1; 0; 3] (Some Completes)))) =
  [Next 1; Next 3; Completed].
Proof.
  intros keySelector.
  apply (GroupBy_groups_outlive_throw nat nat nat keySelector
           (GroupByView.returning (fun x => x)) Nat.ltb 0 [1; 0; 3] (Some Completes) 1).
  - apply GroupByFacts.ltb_order.
  - intros y _. unfold keySelector, GroupByView.returning.
    split; [destruct (y =? 0)|]; discriminate.
Defined.

(** GroupBy when a selector throws on an element, the selectors having
    returned on the elements before it: the subscriber has been handed the
    groups opened so far, is handed the group of the element if its key
    opens one and the throw comes from the value selector, and is then
    handed the exception as error; nothing more is handed to it, whatever
    the source hands over later.  Nothing is disposed: the subscription to
    the source is not released. *)
Theorem GroupBy_selector_throws :
  forall (T Key V : Type) (keySelector : T -> Result Key)
         (valueSelector : T -> Result V) (less : Key -> Key -> bool)
         (k : nat) (xs : list T) (x : T) (evs : list (Event T)) (e : exception),
    GroupByView.StrictWeakOrder less ->
    (forall y, In y xs ->
               exists ky vy, keySelector y = Value ky /\ valueSelector y = Value vy) ->
    keySelector x = Raised e \/
    (exists kx, keySelector x = Value kx /\ valueSelector x = Raised e) ->
    let s := GroupBy.GroupBy keySelector valueSelector less
               (@CreatedAutoDetachObserver.quiet Key) k
               (map (@Next T) xs ++ Next x :: evs) in
    CreatedObservable.received (GroupBy.base s) =
      map (@Next Key)
          (GroupByView.firsts less [] (GroupByView.keys keySelector (xs ++ [x]))) ++
      [Error (current_exception e)] /\
    CreatedObservable.released (GroupBy.base s) = [].
Proof.
  intros T Key V keySelector valueSelector less k xs x evs e order Hsel Hx s.
  pose proof (GroupByFacts.alike_GroupBy T Key V keySelector valueSelector less k
                (map (@Next T) xs ++ Next x :: evs)) as H.
  fold s in H. destruct H as (_ & _ & Hv & _ & _).
  unfold CreatedObservableView.view in Hv. injection Hv as _ Hv. rewrite Hv.
  split.
  - now apply GroupByFacts.throwing_run.
  - apply (GroupByFacts.idle_GroupBy T Key V keySelector valueSelector less k
             (map (@Next T) xs ++ Next x :: evs)).
Qed.

Lemma GroupBy_selector_throws_witness :
  let valueSelector := fun x => if x =? 0 then Raised 7 else Value x in
  CreatedObservable.received
    (GroupBy.base
       (GroupBy.GroupBy (GroupByView.returning (fun x => x mod 2)) valueSelector
          Nat.ltb (@CreatedAutoDetachObserver.quiet nat) 0
          (map (@Next nat) [1; 3] ++ Next 0 :: [Next 2; Completed]))) =
  [Next 1; Next 0; Error (Some 7)].
Proof.
  intros valueSelector.
  apply (GroupBy_selector_throws nat nat nat (GroupByView.returning (fun x => x mod 2))
           valueSelector Nat.ltb 0 [1; 3] 0 [Next 2; Completed] 7).
  - apply GroupByFacts.ltb_order.
  - intros y [<-|[<-|[]]]; eexists _, _; split; reflexivity.
  - right. exists 0. split; reflexivity.
Defined.

(** ** [ConnectableSubject] *)

Module ConnectableSubjectFacts.

Import ConnectableSubject.
Import ConnectableSubjectView.

Section Facts.

Context {T Subject : Type} `{MulticastSubject T Subject}.
Variable cold : nat -> list (Event T).

Lemma connectable_run_app (a b : list (Call T)) (s : t Subject) :
  run cold (a ++ b) s =
  (fst (run cold b (fst (run cold a s))),
   snd (run cold a s) ++ snd (run cold b (fst (run cold a s)))).
Proof.
  revert s. induction a as [|c a IH]; intros s; simpl.
  - now destruct (run cold b s).
  - destruct (step cold c s) as [s1 d1]. rewrite IH.
    destruct (run cold a s1) as [s2 d2]. simpl.
    now rewrite app_assoc.
Qed.

Lemma handles_S (n : nat) : handles (S n) = handles n ++ [SourceSubscription n].
Proof. unfold handles. now rewrite seq_S, map_app. Qed.

(** Every subscription made to the source is the current one or has been
    released. *)
Lemma connections_step (c : Call T) (s : t Subject) :
  released s ++ option_list (subscription s) = handles (subscribed s) ->
  let s' := fst (step cold c s) in
  released s' ++ option_list (subscription s') = handles (subscribed s') /\
  connected s' = connected_after (connected s) [c] /\
  subscribed s' = subscribed s + connections (connected s) [c].
Proof.
  destruct s as [sub [d|] n rel]; destruct c as [| |c]; intros Hl s'; subst s';
    unfold connected, step, Connect, Disconnect;
    cbn [subscription subscribed released subject connected_after connections] in *;
    rewrite ?Nat.add_0_r.
  - auto.
  - cbn [fst subscription subscribed released option_list]. rewrite app_nil_r.
    cbn [option_list] in Hl. auto.
  - destruct (call c sub); cbn [fst subscription subscribed released]. auto.
  - destruct (calls (map arrives (cold n)) sub).
    cbn [fst subscription subscribed released option_list] in *.
    rewrite app_nil_r in Hl. rewrite Hl, handles_S, Nat.add_1_r. auto.
  - auto.
  - destruct (call c sub); cbn [fst subscription subscribed released]. auto.
Qed.

Lemma connections_run (cs : list (Call T)) (s : t Subject) :
  released s ++ option_list (subscription s) = handles (subscribed s) ->
  let s' := fst (run cold cs s) in
  released s' ++ option_list (subscription s') = handles (subscribed s') /\
  connected s' = connected_after (connected s) cs /\
  subscribed s' = subscribed s + connections (connected s) cs.
Proof.
  revert s. induction cs as [|c cs IH]; intros s Hl; simpl.
  - now rewrite Nat.add_0_r.
  - destruct (connections_step c s Hl) as (Hl1 & Hc1 & Hn1).
    destruct (step cold c s) as [s1 d1]. simpl in Hl1, Hc1, Hn1.
    destruct (IH s1 Hl1) as (Hl2 & Hc2 & Hn2).
    destruct (run cold cs s1) as [s2 d2]. simpl in *.
    split; [exact Hl2|]. rewrite Hc2, Hn2, Hc1, Hn1.
    destruct c as [| |c]; simpl; split; auto; lia.
Qed.

(** [Connect] with a connection current, and the function of a handle
    with none, do nothing. *)
Lemma Connect_connected (s : t Subject) :
  connected s = true -> Connect cold s = (s, []).
Proof. unfold connected, Connect. now destruct (subscription s). Qed.

Lemma connected_Connect (s : t Subject) : connected (fst (Connect cold s)) = true.
Proof.
  unfold connected, Connect. destruct (subscription s) eqn:E; simpl.
  - now rewrite E.
  - now destruct (calls (map arrives (cold (subscribed s))) (subject s)).
Qed.

Lemma Disconnect_twice (s : t Subject) : Disconnect (Disconnect s) = Disconnect s.
Proof. unfold Disconnect. destruct (subscription s) eqn:E; simpl; auto. now rewrite E. Qed.

Lemma connectable_run_cons (c : Call T) (cs : list (Call T)) (s : t Subject) :
  run cold (c :: cs) s =
  (fst (run cold cs (fst (step cold c s))),
   snd (step cold c s) ++ snd (run cold cs (fst (step cold c s)))).
Proof.
  simpl. destruct (step cold c s) as [s1 d1]. simpl.
  now destruct (run cold cs s1).
Qed.

Lemma step_subject (c : AsyncSubject.Call T) (s : t Subject) :
  step cold (CallSubject c) s =
  (mk (fst (call c (subject s))) (subscription s) (subscribed s) (released s),
   snd (call c (subject s))).
Proof. simpl. now destruct (call c (subject s)). Qed.

Lemma Connect_fresh (s : t Subject) :
  subscription s = None ->
  Connect cold s =
  (mk (fst (calls (map arrives (cold (subscribed s))) (subject s)))
      (Some (SourceSubscription (subscribed s))) (S (subscribed s)) (released s),
   snd (calls (map arrives (cold (subscribed s))) (subject s))).
Proof.
  intros E. unfold Connect. rewrite E.
  now destruct (calls (map arrives (cold (subscribed s))) (subject s)).
Qed.

Lemma run_from_subject (cs : list (AsyncSubject.Call T)) (s : t Subject) :
  run cold (map (@CallSubject T) cs) s =
  (mk (fst (calls cs (subject s))) (subscription s) (subscribed s) (released s),
   snd (calls cs (subject s))).
Proof.
  revert s. induction cs as [|c cs IH]; intros s; simpl.
  - now destruct s.
  - destruct (call c (subject s)) as [s1 d1]. rewrite IH. simpl.
    now destruct (calls cs s1).
Qed.

End Facts.

Section Published.

Import SubjectView.
Import ObserversFacts.
Import ObservableSubject.

Variable T : Type.

Lemma calls_run (cs : list (AsyncSubject.Call T)) (s : Subject.t) :
  calls cs s = SubjectClient.run cs s.
Proof.
  revert s. induction cs as [|c cs IH]; intros s; [reflexivity|].
  cbn [calls SubjectClient.run call OfSubject].
  destruct (SubjectClient.step c s) as [s1 d1]. now rewrite IH.
Qed.

Lemma pushed_arrives (evs : list (Event T)) : pushed (map arrives evs) = evs.
Proof.
  induction evs as [|[x| |e] evs IH]; simpl; auto; now rewrite IH.
Qed.

Lemma foreign_arrives (o : ObserverId) (evs : list (Event T)) :
  foreign o (map arrives evs) = true.
Proof. unfold foreign. induction evs as [|[x| |e] evs IH]; simpl; auto. Qed.

Lemma foreign_app (o : ObserverId) (a b : list (AsyncSubject.Call T)) :
  foreign o (a ++ b) = foreign o a && foreign o b.
Proof. unfold foreign. apply forallb_app. Qed.

Lemma pushed_app (a b : list (AsyncSubject.Call T)) :
  pushed (a ++ b) = pushed a ++ pushed b.
Proof.
  induction a as [|[o|o|x| |e] a IH]; simpl; auto; now rewrite IH.
Qed.

(** While an observer has no slot and the subject forwards, calls that
    are not its own leave it without a slot. *)
Lemma subject_absent (o : ObserverId) (cs : list (AsyncSubject.Call T))
      (xs : list T) (s : Subject.t) :
  state s = SubjectState.Forwarding -> holds o (observers s) = 0 ->
  foreign o cs = true -> pushed cs = map (@Next T) xs ->
  state (fst (SubjectClient.run cs s)) = SubjectState.Forwarding /\
  holds o (observers (fst (SubjectClient.run cs s))) = 0.
Proof.
  revert xs s. induction cs as [|c cs IH]; intros xs s Hst Hh Hf Hp.
  - auto.
  - cbn [foreign forallb] in Hf. apply andb_prop in Hf. destruct Hf as [Hc Hf].
    apply negb_true_iff in Hc.
    rewrite SubjectFacts.subject_run_cons. cbn [fst snd].
    destruct c as [o'|o'|x| |e]; cbn [mine] in Hc; cbn [pushed] in Hp;
      cbn [SubjectClient.step].
    + unfold Subject.Subscribe, Subscribe. rewrite Hst.
      destruct (take_slot o' (observers s)) as [r|] eqn:Et; cbn [fst snd];
        apply (IH xs); auto; cbn [observers].
      * rewrite (holds_take_slot o o' _ _ Et), Hc. lia.
      * rewrite holds_app. unfold holds at 2. simpl. rewrite Hc. simpl. lia.
    + cbn [fst snd]. unfold RemoveObserver.
      destruct (clear_slot (Some o') (observers s)) as [r|] eqn:Ec;
        [|now apply (IH xs)].
      apply (IH xs); auto. cbn [observers].
      pose proof (holds_clear_slot o o' _ _ Ec) as H. rewrite Hc in H. lia.
    + destruct xs as [|x' xs]; [discriminate|]. injection Hp as <- Hp.
      unfold ObserverSubject.OnNext. cbn [fst snd]. now apply (IH xs).
    + destruct xs; discriminate.
    + destruct xs; discriminate.
Qed.

(** An observer with one slot in a subject that forwards is handed the
    sequence pushed. *)
Lemma subject_sequence (o : ObserverId) (cs : list (AsyncSubject.Call T))
      (xs : list T) (t : option Terminal) (s : Subject.t) :
  state s = SubjectState.Forwarding -> holds o (observers s) = 1 ->
  foreign o cs = true -> pushed cs = map (@Next T) xs ->
  AsyncSubject.seen_by o
    (snd (SubjectClient.run
            (cs ++ match t with Some t => [terminate T t] | None => [] end) s)) =
  sequence xs t.
Proof.
  intros Hst Hh Hf Hp.
  destruct (SubjectFacts.subject_attached T o cs xs s Hst Hh Hf Hp) as (H1 & H2 & H3).
  rewrite SubjectFacts.subject_run_app. cbn [snd].
  rewrite AsyncSubjectFacts.seen_by_app, H3. unfold sequence. f_equal.
  destruct t as [t|]; auto.
  rewrite SubjectFacts.subject_run_cons. cbn [snd SubjectClient.run].
  rewrite app_nil_r.
  now destruct (SubjectFacts.subject_terminate T o t _ H2).
Qed.

Lemma arrives_sequence (xs : list T) (t : option Terminal) :
  map arrives (sequence xs t) =
  map arrives (map (@Next T) xs) ++
  match t with Some t => [terminate T t] | None => [] end.
Proof.
  unfold sequence. rewrite map_app. f_equal. now destruct t as [[|e]|].
Qed.

(** What [Publish(source)] hands over when an observer subscribes, [Connect]
    is called and another observer subscribes: what the subject hands over
    on the calls that this amounts to. *)
Lemma publish_flat (cold : nat -> list (Event T)) (o o' : ObserverId)
      (hot : list (Event T)) :
  snd (run cold
         (CallSubject (AsyncSubject.CallSubscribe T o) :: CallConnect ::
          CallSubject (AsyncSubject.CallSubscribe T o') ::
          map (@from_source T) hot)
         (Publish T)) =
  snd (SubjectClient.run
         ((AsyncSubject.CallSubscribe T o :: map arrives (cold 0)) ++
          AsyncSubject.CallSubscribe T o' :: map arrives hot)
         Subject.CreateSubject).
Proof.
  unfold from_source. rewrite <- (map_map _ _ hot).
  rewrite !connectable_run_cons.
  rewrite step_subject. cbn [fst snd].
  change (step cold CallConnect ?s) with (Connect cold s).
  rewrite Connect_fresh by reflexivity. cbn [fst snd].
  rewrite step_subject. cbn [fst snd].
  rewrite run_from_subject. cbn [fst snd].
  cbn [Publish Multicast create subject subscribed call OfSubject].
  rewrite !calls_run.
  cbn [app]. rewrite !SubjectFacts.subject_run_cons. cbn [fst snd].
  rewrite !SubjectFacts.subject_run_app. cbn [fst snd].
  rewrite !SubjectFacts.subject_run_cons. cbn [fst snd].
  now rewrite ?app_assoc.
Qed.

(** A subject that has been handed a terminal call holds no observer, and
    hands that call to an observer that subscribes. *)
Lemma subject_terminated (o : ObserverId) (t : Terminal) (s : Subject.t) :
  let s' := fst (SubjectClient.step (terminate T t) s) in
  observers s' = [] /\
  SubjectClient.step (AsyncSubject.CallSubscribe T o) s' = (s', [(o, terminal_event t)]).
Proof. destruct t as [|e]; split; reflexivity. Qed.

Lemma seen_by_self (o : ObserverId) (ev : Event T) :
  AsyncSubject.seen_by o [(o, ev)] = [ev].
Proof. unfold AsyncSubject.seen_by. simpl. now rewrite Nat.eqb_refl. Qed.

End Published.

End ConnectableSubjectFacts.

(** ConnectableSubject, which Multicast, Publish and PublishLast return,
    over any run of calls.  Connect subscribes the subject to the source
    only when no connection is current, so that a second Connect in a row
    does nothing.  The handles that Connect returns all run the same
    function, which disposes the current subscription to the source and
    does nothing when there is none.  So every subscription made to the
    source is the current one or has been released, once, in the order in
    which they were made, and a connection is current exactly when the last
    of these calls was Connect. *)
Theorem ConnectableSubject_connections :
  forall (T Subject : Type) (M : ConnectableSubject.MulticastSubject T Subject)
         (cold : nat -> list (Event T)) (multicastSubject : Subject)
         (cs : list (ConnectableSubject.Call T)),
    let start := ConnectableSubject.Multicast multicastSubject in
    let s := fst (ConnectableSubject.run cold cs start) in
    ConnectableSubject.released s ++ option_list (ConnectableSubject.subscription s) =
      ConnectableSubjectView.handles (ConnectableSubject.subscribed s) /\
    ConnectableSubjectView.connected s =
      ConnectableSubjectView.connected_after false cs /\
    ConnectableSubject.subscribed s = ConnectableSubjectView.connections false cs /\
    ConnectableSubject.run cold
      (cs ++ [ConnectableSubject.CallConnect; ConnectableSubject.CallConnect]) start =
    ConnectableSubject.run cold (cs ++ [ConnectableSubject.CallConnect]) start /\
    ConnectableSubject.run cold
      (cs ++ [ConnectableSubject.CallDisconnect; ConnectableSubject.CallDisconnect])
      start =
    ConnectableSubject.run cold (cs ++ [ConnectableSubject.CallDisconnect]) start.
Proof.
  intros T Subject M cold multicastSubject cs start s.
  destruct (ConnectableSubjectFacts.connections_run cold cs start eq_refl)
    as (Hl & Hc & Hn).
  fold s in Hl, Hc, Hn.
  split; [exact Hl|]. split; [exact Hc|]. split; [exact Hn|]. split.
  - rewrite !ConnectableSubjectFacts.connectable_run_app. fold s.
    cbn [ConnectableSubject.run ConnectableSubject.step].
    pose proof (ConnectableSubjectFacts.connected_Connect cold s) as Hcc.
    destruct (ConnectableSubject.Connect cold s) as [s1 d1]. cbn [fst] in Hcc.
    rewrite (ConnectableSubjectFacts.Connect_connected cold s1 Hcc).
    cbn [fst snd]. now rewrite !app_nil_r.
  - rewrite !ConnectableSubjectFacts.connectable_run_app. fold s.
    cbn [ConnectableSubject.run ConnectableSubject.step fst snd].
    now rewrite ConnectableSubjectFacts.Disconnect_twice.
Qed.

(** Publish(source), for a source that keeps to the grammar: an observer
    that subscribes before Connect is handed everything the source hands
    over, the calls the source makes while Connect subscribes the subject to
    it included.  An observer that subscribes after Connect has returned is
    handed only what the source hands over from then on, unless the source
    has terminated while Connect was subscribing the subject to it: then
    that observer is handed the terminal call as it subscribes, and neither
    observer is handed anything later. *)
Theorem Publish_subscribe_before_connect :
  forall (T : Type) (cold : nat -> list (Event T)) (o o' : ObserverId)
         (xs0 : list T) (t0 : option Terminal) (xs1 : list T) (t : option Terminal),
    o <> o' ->
    cold 0 = sequence xs0 t0 ->
    let cs :=
      ConnectableSubject.CallSubject (AsyncSubject.CallSubscribe T o) ::
      ConnectableSubject.CallConnect ::
      ConnectableSubject.CallSubject (AsyncSubject.CallSubscribe T o') ::
      map ConnectableSubjectView.from_source (sequence xs1 t) in
    let handed := snd (ConnectableSubject.run cold cs (ConnectableSubject.Publish T)) in
    match t0 with
    | None =>
        AsyncSubject.seen_by o handed = sequence (xs0 ++ xs1) t /\
        AsyncSubject.seen_by o' handed = sequence xs1 t
    | Some ended =>
        AsyncSubject.seen_by o handed = sequence xs0 (Some ended) /\
        AsyncSubject.seen_by o' handed = [terminal_event ended]
    end.
Proof.
  intros T cold o o' xs0 t0 xs1 t Hoo Hcold cs handed.
  subst handed cs. rewrite ConnectableSubjectFacts.publish_flat.
  rewrite Hcold, !ConnectableSubjectFacts.arrives_sequence.
  set (during := map ConnectableSubject.arrives (map (@Next T) xs0)).
  set (values := map ConnectableSubject.arrives (map (@Next T) xs1)).
  set (last := match t with Some t => [SubjectView.terminate T t] | None => [] end).
  assert (Ho : Nat.eqb o o' = false) by now apply Nat.eqb_neq.
  assert (Ho' : Nat.eqb o' o = false) by (apply Nat.eqb_neq; congruence).
  assert (Hfd : forall a, SubjectView.foreign a during = true)
    by (intros a; apply (ConnectableSubjectFacts.foreign_arrives T a (map (@Next T) xs0))).
  assert (Hfv : forall a, SubjectView.foreign a values = true)
    by (intros a; apply (ConnectableSubjectFacts.foreign_arrives T a (map (@Next T) xs1))).
  assert (Hfl : forall a, SubjectView.foreign a last = true)
    by (intros a; subst last; destruct t as [[|e]|]; reflexivity).
  assert (Hpd : SubjectView.pushed during = map (@Next T) xs0)
    by apply ConnectableSubjectFacts.pushed_arrives.
  assert (Hpv : SubjectView.pushed values = map (@Next T) xs1)
    by apply ConnectableSubjectFacts.pushed_arrives.
  destruct (SubjectFacts.subject_subscribe T o Subject.CreateSubject eq_refl eq_refl)
    as (Hs1 & Hs2 & Hs3).
  assert (Hfirst : SubjectView.foreign o'
                     (AsyncSubject.CallSubscribe T o :: during) = true).
  { cbn [SubjectView.foreign forallb SubjectView.mine]. rewrite Ho'. apply Hfd. }
  destruct t0 as [ended|].
  - (* the source terminates during Connect *)
    set (rest := AsyncSubject.CallSubscribe T o' :: values ++ last).
    split.
    + cbn [app]. rewrite SubjectFacts.subject_run_cons. cbn [snd].
      rewrite Hs1. cbn [app]. rewrite SubjectFacts.subject_run_app. cbn [snd].
      rewrite AsyncSubjectFacts.seen_by_app.
      rewrite (ConnectableSubjectFacts.subject_sequence T o during xs0 (Some ended)
                 _ Hs2 Hs3 (Hfd o) Hpd).
      rewrite SubjectFacts.subject_gone; [now rewrite app_nil_r| |].
      * destruct (SubjectFacts.subject_attached T o during xs0 _ Hs2 Hs3 (Hfd o) Hpd)
          as (_ & Ha2 & _).
        rewrite SubjectFacts.subject_run_app. cbn [fst].
        rewrite SubjectFacts.subject_run_cons. cbn [fst SubjectClient.run].
        now destruct (SubjectFacts.subject_terminate T o ended _ Ha2).
      * subst rest. cbn [SubjectView.foreign forallb SubjectView.mine]. rewrite Ho.
        cbn [negb andb]. fold (SubjectView.foreign o (values ++ last)).
        now rewrite ConnectableSubjectFacts.foreign_app, Hfv, Hfl.
    + change ((AsyncSubject.CallSubscribe T o ::
                 during ++ [SubjectView.terminate T ended]) ++ rest)
        with (((AsyncSubject.CallSubscribe T o :: during) ++
               [SubjectView.terminate T ended]) ++ rest).
      rewrite <- app_assoc.
      rewrite SubjectFacts.subject_run_app. cbn [snd].
      rewrite AsyncSubjectFacts.seen_by_app.
      rewrite (SubjectFacts.subject_gone T o' _ Subject.CreateSubject eq_refl Hfirst).
      destruct (ConnectableSubjectFacts.subject_absent T o'
                  (AsyncSubject.CallSubscribe T o :: during) xs0
                  Subject.CreateSubject eq_refl eq_refl Hfirst Hpd) as (Hst & Hh).
      set (s2 := fst (SubjectClient.run (AsyncSubject.CallSubscribe T o :: during)
                        Subject.CreateSubject)) in *.
      cbn [app]. rewrite SubjectFacts.subject_run_cons. cbn [snd].
      rewrite AsyncSubjectFacts.seen_by_app.
      assert (Hterm : AsyncSubject.seen_by o'
                        (snd (SubjectClient.step (SubjectView.terminate T ended) s2)) = []).
      { pose proof (SubjectFacts.subject_gone T o' [SubjectView.terminate T ended] s2 Hh)
          as Hg.
        rewrite SubjectFacts.subject_run_cons in Hg. cbn [snd SubjectClient.run] in Hg.
        rewrite app_nil_r in Hg. apply Hg. destruct ended; reflexivity. }
      rewrite Hterm. cbn [app].
      destruct (ConnectableSubjectFacts.subject_terminated T o' ended s2) as [Hobs Hsub].
      set (s3 := fst (SubjectClient.step (SubjectView.terminate T ended) s2)) in *.
      subst rest. rewrite SubjectFacts.subject_run_cons, Hsub. cbn [fst snd].
      rewrite AsyncSubjectFacts.seen_by_app, ConnectableSubjectFacts.seen_by_self.
      rewrite SubjectFacts.subject_gone; [reflexivity| |].
      * now rewrite Hobs.
      * now rewrite ConnectableSubjectFacts.foreign_app, Hfv, Hfl.
  - (* the source hands over values only during Connect *)
    rewrite app_nil_r. split.
    + cbn [app]. rewrite SubjectFacts.subject_run_cons. cbn [snd].
      rewrite Hs1. cbn [app].
      change (during ++ AsyncSubject.CallSubscribe T o' :: values ++ last)
        with (during ++ (AsyncSubject.CallSubscribe T o' :: values) ++ last).
      rewrite app_assoc.
      apply ConnectableSubjectFacts.subject_sequence; auto.
      * rewrite ConnectableSubjectFacts.foreign_app, Hfd.
        cbn [SubjectView.foreign forallb SubjectView.mine]. rewrite Ho. apply Hfv.
      * rewrite ConnectableSubjectFacts.pushed_app, Hpd. cbn [SubjectView.pushed].
        rewrite Hpv. now rewrite map_app.
    + rewrite SubjectFacts.subject_run_app. cbn [snd].
      rewrite AsyncSubjectFacts.seen_by_app.
      rewrite (SubjectFacts.subject_gone T o' _ Subject.CreateSubject eq_refl Hfirst).
      destruct (ConnectableSubjectFacts.subject_absent T o'
                  (AsyncSubject.CallSubscribe T o :: during) xs0
                  Subject.CreateSubject eq_refl eq_refl Hfirst Hpd) as (Hst & Hh).
      cbn [app]. rewrite SubjectFacts.subject_run_cons. cbn [snd].
      destruct (SubjectFacts.subject_subscribe T o' _ Hst Hh) as (Hs1' & Hs2' & Hs3').
      rewrite Hs1'. cbn [app].
      apply ConnectableSubjectFacts.subject_sequence; auto.
Qed.

Lemma Publish_subscribe_before_connect_witness :
  let cold := fun n : nat => if n =? 0 then [Next 1; Next 2; Completed] else [] in
  let handed :=
    snd (ConnectableSubject.run cold
           (ConnectableSubject.CallSubject (AsyncSubject.CallSubscribe nat 7) ::
            ConnectableSubject.CallConnect ::
            ConnectableSubject.CallSubject (AsyncSubject.CallSubscribe nat 8) ::
            map ConnectableSubjectView.from_source (sequence [3] (Some Completes)))
           (ConnectableSubject.Publish nat)) in
  AsyncSubject.seen_by 7 handed = [Next 1; Next 2; Completed] /\
  AsyncSubject.seen_by 8 handed = [Completed].
Proof.
  intros cold.
  apply (Publish_subscribe_before_connect nat cold 7 8 [1; 2] (Some Completes) [3]
           (Some Completes)).
  - lia.
  - reflexivity.
Defined.
